(** * A shallow embedding of the 2D robotics simulator

    The development follows the layout of the Python sources:

    - [World]     : low_level_mechanics/world.py     (poses)
    - [Geometry]  : low_level_mechanics/geometry.py  (shapes, manifolds)
    - [Materials] : low_level_mechanics/materials.py
    - [Entities]  : low_level_mechanics/entities.py  (bodies)
    - [Base]      : middle_level_library/base.py     (sensors, motors)
    - [Motors]    : middle_level_library/motors.py   (traction solver)
    - [Simulator] : core/simulator.py                (stepping pipeline)

    Python floats are idealised as real numbers: every arithmetic
    operation is exact and every value is finite.  Where rounding decides
    a discrete outcome (when a sensor is due, which samples a ray march
    tests) the code is modelled a second time on binary64 values
    ([Base.SensorClock], [Sensors._ray_march_loop64]).  Mutable objects
    become records that are passed in and returned; dictionaries, whose
    iteration order the solver depends on, are association lists in
    insertion order. *)

From Stdlib Require Import Reals Lra Lia List String Bool ZArith Arith.
From Stdlib Require PrimFloat FloatOps SpecFloat.
Import ListNotations.
Open Scope R_scope.

(** ** Float primitives *)

Definition Rltb (a b : R) : bool := if Rlt_dec a b then true else false.
Definition Rleb (a b : R) : bool := if Rle_dec a b then true else false.
Definition Reqb (a b : R) : bool := if Req_dec_T a b then true else false.

(** [math.isfinite]: the idealised floats carry no NaN and no infinity, so
    the branches of the code that reset a non-finite value are never taken
    in the embedding, and nothing is proved about them. *)
Definition isfinite (_ : R) : bool := true.

(** [math.hypot]. *)
Definition hypot (a b : R) : R := sqrt (a * a + b * b).

(** [math.copysign m s] (signed zeros are not distinguished). *)
Definition copysign (m s : R) : R :=
  if Rltb s 0 then - Rabs m else Rabs m.

(** The Python idiom [v or 1.0]. *)
Definition or_one (v : R) : R := if Reqb v 0 then 1 else v.

(** [a % b] on floats for a positive divisor: [a - b * floor(a / b)]. *)
Definition float_mod (a b : R) : R := a - b * IZR (Int_part (a / b)).

Definition Point2D : Type := (R * R)%type.

(** ** Dictionaries *)

(** Python dictionaries, as association lists in insertion order. *)
Section Dict.
Context {V : Type}.

Fixpoint dict_get (d : list (string * V)) (k : string) : option V :=
  match d with
  | [] => None
  | (k', v) :: rest => if String.eqb k' k then Some v else dict_get rest k
  end.

(** [d[k] = v]: an existing key keeps its position. *)
Fixpoint dict_set (d : list (string * V)) (k : string) (v : V)
  : list (string * V) :=
  match d with
  | [] => [(k, v)]
  | (k', v') :: rest =>
    if String.eqb k' k then (k', v) :: rest else (k', v') :: dict_set rest k v
  end.

(** [d.pop(k, None)]: no binding of [k] is left. *)
Fixpoint dict_pop (d : list (string * V)) (k : string) : list (string * V) :=
  match d with
  | [] => []
  | (k', v') :: rest =>
    if String.eqb k' k then dict_pop rest k else (k', v') :: dict_pop rest k
  end.

Definition dict_contains (d : list (string * V)) (k : string) : bool :=
  match dict_get d k with Some _ => true | None => false end.

End Dict.

(** ** low_level_mechanics/world.py *)

Module World.

Module Pose2D.

Record t : Type := mk { x : R; y : R; theta : R }.

Definition translated (self : t) (dx dy : R) : t :=
    mk (x self + dx) (y self + dy) (theta self).

Definition rotated (self : t) (dtheta : R) : t :=
    mk (x self) (y self) (theta self + dtheta).

Definition transform_point (self : t) (point : Point2D) : Point2D :=
    let '(px, py) := point in
    let cos_t := cos (theta self) in
    let sin_t := sin (theta self) in
    (x self + cos_t * px - sin_t * py,
     y self + sin_t * px + cos_t * py).

Definition compose (self other : t) : t :=
    let '(tx, ty) := transform_point self (x other, y other) in
    mk tx ty (theta self + theta other).

Definition inverse (self : t) : t :=
    let cos_t := cos (theta self) in
    let sin_t := sin (theta self) in
    let ix := - x self * cos_t - y self * sin_t in
    let iy := x self * sin_t - y self * cos_t in
    mk ix iy (- theta self).

Definition identity : t := mk 0 0 0.

End Pose2D.

Module Transform2D.

Record t : Type := mk { translation : R * R; rotation : R }.

Definition between (a b : Pose2D.t) : t :=
  let delta := Pose2D.compose (Pose2D.inverse a) b in
  mk (Pose2D.x delta, Pose2D.y delta) (Pose2D.theta delta).

Definition from_pose (pose : Pose2D.t) : t :=
  mk (Pose2D.x pose, Pose2D.y pose) (Pose2D.theta pose).

Definition apply_to_point (self : t) (point : Point2D) : Point2D :=
  let cos_t := cos (rotation self) in
  let sin_t := sin (rotation self) in
  let '(x, y) := point in
  let '(tx, ty) := translation self in
  (tx + cos_t * x - sin_t * y,
   ty + sin_t * x + cos_t * y).

Definition apply_to_pose (self : t) (pose : Pose2D.t) : Pose2D.t :=
  let '(x, y) := apply_to_point self (Pose2D.x pose, Pose2D.y pose) in
  Pose2D.mk x y (Pose2D.theta pose + rotation self).

End Transform2D.

End World.

(** ** low_level_mechanics/geometry.py *)

Module Geometry.
Import World.

(** [min] and [max] of a sequence.  Python raises [ValueError] on an empty
    sequence; every call site passes the vertices of a polygon, and
    [Polygon.__post_init__] rejects fewer than three vertices. *)
Definition list_min (l : list R) : R :=
  match l with [] => 0 | d :: ds => fold_left Rmin ds d end.

Definition list_max (l : list R) : R :=
  match l with [] => 0 | d :: ds => fold_left Rmax ds d end.

(** [sum] of a sequence. *)
Definition list_sum (l : list R) : R := fold_left Rplus l 0.

Inductive Shape2D : Type :=
| Circle (radius : R)
| Polygon (vertices : list Point2D).

(** [Polygon(vertices)]: the constructor raises on fewer than three
    vertices ([None] stands for the [ValueError]). *)
Definition Polygon_init (vertices : list Point2D) : option Shape2D :=
  if (List.length vertices <? 3)%nat then None else Some (Polygon vertices).

Definition _world_vertices (vertices : list Point2D) (pose : Pose2D.t)
  : list Point2D :=
  map (Pose2D.transform_point pose) vertices.

(** The pairs [(verts[i], verts[(i + 1) % len(verts)])] for
    [i in range(len(verts))]. *)
Definition edges (verts : list Point2D) : list (Point2D * Point2D) :=
  combine verts (tl verts ++ firstn 1 verts).

Definition _project (axis : Point2D) (verts : list Point2D) : R * R :=
  let '(ax, ay) := axis in
  let length := or_one (hypot ax ay) in
  let ax := ax / length in
  let ay := ay / length in
  let dots := map (fun v : Point2D => fst v * ax + snd v * ay) verts in
  (list_min dots, list_max dots).

Definition _distance_point_to_segment (point start end_ : Point2D) : R :=
  let '(px, py) := point in
  let '(sx, sy) := start in
  let '(ex, ey) := end_ in
  let dx := ex - sx in
  let dy := ey - sy in
  if Reqb dx 0 && Reqb dy 0 then hypot (px - sx) (py - sy)
  else
    let t := ((px - sx) * dx + (py - sy) * dy) / (dx * dx + dy * dy) in
    let t := Rmax 0 (Rmin 1 t) in
    let proj_x := sx + t * dx in
    let proj_y := sy + t * dy in
    hypot (px - proj_x) (py - proj_y).

Record CollisionManifold : Type := mkManifold {
  normal : Point2D;
  penetration : R;
  contact_point : Point2D
}.

Definition _circle_vs_circle_manifold
  (a_radius : R) (pose_a : Pose2D.t) (b_radius : R) (pose_b : Pose2D.t)
  : option CollisionManifold :=
  let dx := Pose2D.x pose_b - Pose2D.x pose_a in
  let dy := Pose2D.y pose_b - Pose2D.y pose_a in
  let dist_sq := dx * dx + dy * dy in
  let radius_sum := a_radius + b_radius in
  if Rleb (radius_sum * radius_sum) dist_sq then None
  else
    let dist := if Rltb 1e-12 dist_sq then sqrt dist_sq else 0 in
    let penetration := radius_sum - dist in
    if Rltb 1e-6 dist then
      let normal := (dx / dist, dy / dist) in
      let contact := (Pose2D.x pose_a + fst normal * a_radius,
                      Pose2D.y pose_a + snd normal * a_radius) in
      Some (mkManifold normal penetration contact)
    else
      Some (mkManifold (1, 0) penetration (Pose2D.x pose_a, Pose2D.y pose_a)).

(** The pair [(closest_dist, closest_point)] of the circle-polygon search.
    Both are assigned together, so [None] stands for the initial
    [(inf, None)] and [Some (d, p)] for a finite distance with its point. *)
Definition closest : Type := option (R * Point2D).

(** [d < closest_dist]. *)
Definition closer (d : R) (st : closest) : bool :=
  match st with
  | None => true
  | Some (closest_dist, _) => Rltb d closest_dist
  end.

Definition _closest_vertices (center : Point2D) (world_verts : list Point2D)
  (st : closest) : closest :=
  fold_left
    (fun (st : closest) (v : Point2D) =>
       let '(vx, vy) := v in
       let d := hypot (fst center - vx) (snd center - vy) in
       if closer d st then Some (d, (vx, vy)) else st)
    world_verts st.

Definition _closest_edges (center : Point2D) (world_verts : list Point2D)
  (st : closest) : closest :=
  fold_left
    (fun (st : closest) (e : Point2D * Point2D) =>
       let '(start, end_) := e in
       let d := _distance_point_to_segment center start end_ in
       if closer d st then
         let '(sx, sy) := start in
         let '(ex, ey) := end_ in
         let dx := ex - sx in
         let dy := ey - sy in
         let proj :=
           if Reqb dx 0 && Reqb dy 0 then start
           else
             let t := ((fst center - sx) * dx + (snd center - sy) * dy)
                      / (dx * dx + dy * dy) in
             let t := Rmax 0 (Rmin 1 t) in
             (sx + t * dx, sy + t * dy) in
         Some (d, proj)
       else st)
    (edges world_verts) st.

Definition _circle_vs_polygon_manifold
  (circle_radius : R) (pose_circle : Pose2D.t)
  (polygon_vertices : list Point2D) (pose_polygon : Pose2D.t)
  : option CollisionManifold :=
  let world_verts := _world_vertices polygon_vertices pose_polygon in
  let center := (Pose2D.x pose_circle, Pose2D.y pose_circle) in
  let st := _closest_vertices center world_verts None in
  let st := _closest_edges center world_verts st in
  match st with
  | None => None
  | Some (closest_dist, closest_point) =>
    let penetration := circle_radius - closest_dist in
    if Rleb penetration 0 then None
    else
      let nx := fst center - fst closest_point in
      let ny := snd center - snd closest_point in
      let norm_len := or_one (hypot nx ny) in
      let normal := (nx / norm_len, ny / norm_len) in
      Some (mkManifold normal penetration closest_point)
  end.

(** The triple [(pen, axis, point)] threaded through [_check_axes].  The
    three are assigned together, so [None] stands for the initial
    [(inf, None, None)]. *)
Definition axes_state : Type := option (R * Point2D * Point2D).

(** The loop of the nested [_check_axes].  The outer [None] of the result
    is the early [return None, None, None]. *)
Fixpoint _check_axes_loop (es : list (Point2D * Point2D))
  (verts1 verts2 : list Point2D) (cur : axes_state) : option axes_state :=
  match es with
  | [] => Some cur
  | ((x1, y1), (x2, y2)) :: rest =>
    let edge_x := x2 - x1 in
    let edge_y := y2 - y1 in
    let normal := (- edge_y, edge_x) in
    let '(min1, max1) := _project normal verts1 in
    let '(min2, max2) := _project normal verts2 in
    let overlap := Rmin max1 max2 - Rmax min1 min2 in
    if Rleb overlap 0 then None
    else
      let improves :=
        match cur with
        | None => true
        | Some (pen, _, _) => Rltb overlap pen
        end in
      let cur' :=
        if improves then
          let length := or_one (hypot (fst normal) (snd normal)) in
          Some (overlap, (fst normal / length, snd normal / length), (x1, y1))
        else cur in
      _check_axes_loop rest verts1 verts2 cur'
  end.

Definition _check_axes (verts1 verts2 : list Point2D) (cur : axes_state)
  : option axes_state :=
  _check_axes_loop (edges verts1) verts1 verts2 cur.

Definition _centroid (verts : list Point2D) : Point2D :=
  match verts with
  | [] => (0, 0)
  | _ =>
    let xs := map fst verts in
    let ys := map snd verts in
    (list_sum xs / INR (List.length xs), list_sum ys / INR (List.length ys))
  end.

Definition _polygon_vs_polygon_manifold
  (a_vertices : list Point2D) (pose_a : Pose2D.t)
  (b_vertices : list Point2D) (pose_b : Pose2D.t)
  : option CollisionManifold :=
  let verts_a := _world_vertices a_vertices pose_a in
  let verts_b := _world_vertices b_vertices pose_b in
  match _check_axes verts_a verts_b None with
  | None | Some None => None
  | Some (Some st1) =>
    match _check_axes verts_b verts_a (Some st1) with
    | None | Some None => None
    | Some (Some (penetration, best_axis, best_point)) =>
      let center_a := _centroid verts_a in
      let center_b := _centroid verts_b in
      let dir_ab := (fst center_b - fst center_a,
                     snd center_b - snd center_a) in
      let best_axis :=
        if Rltb (fst best_axis * fst dir_ab + snd best_axis * snd dir_ab) 0
        then (- fst best_axis, - snd best_axis)
        else best_axis in
      Some (mkManifold best_axis penetration best_point)
    end
  end.

Definition collision_manifold
  (shape_a : Shape2D) (pose_a : Pose2D.t)
  (shape_b : Shape2D) (pose_b : Pose2D.t) : option CollisionManifold :=
  match shape_a, shape_b with
  | Circle ra, Circle rb => _circle_vs_circle_manifold ra pose_a rb pose_b
  | Circle ra, Polygon vb => _circle_vs_polygon_manifold ra pose_a vb pose_b
  | Polygon va, Circle rb =>
    match _circle_vs_polygon_manifold rb pose_b va pose_a with
    | Some manifold =>
      let n := normal manifold in
      Some (mkManifold (- fst n, - snd n) (penetration manifold)
                       (contact_point manifold))
    | None => None
    end
  | Polygon va, Polygon vb => _polygon_vs_polygon_manifold va pose_a vb pose_b
  end.

(** *** Bounding boxes and shape queries *)

Module BoundingBox.

Record t : Type := mk { min_x : R; min_y : R; max_x : R; max_y : R }.

Definition intersects (self other : t) : bool :=
  negb (Rltb (max_x self) (min_x other)
        || Rltb (max_x other) (min_x self)
        || Rltb (max_y self) (min_y other)
        || Rltb (max_y other) (min_y self)).

Definition expand (self : t) (margin : R) : t :=
  mk (min_x self - margin) (min_y self - margin)
     (max_x self + margin) (max_y self + margin).

End BoundingBox.

(** [Circle.area] and [Polygon.area]. *)
Definition area (s : Shape2D) : R :=
  match s with
  | Circle radius => PI * (radius * radius)
  | Polygon pts =>
    let area :=
      fold_left
        (fun (area : R) (e : Point2D * Point2D) =>
           let '((x1, y1), (x2, y2)) := e in
           area + (x1 * y2 - x2 * y1))
        (edges pts) 0 in
    Rabs area * 0.5
  end.

(** [Polygon._world_vertices(pose)] with its [pose is None] branch. *)
Definition world_vertices_of (vertices : list Point2D)
  (pose : option Pose2D.t) : list Point2D :=
  match pose with
  | None => vertices
  | Some p => _world_vertices vertices p
  end.

(** [Circle.bounding_box] and [Polygon.bounding_box]. *)
Definition bounding_box (s : Shape2D) (pose : option Pose2D.t)
  : BoundingBox.t :=
  match s with
  | Circle r =>
    let cx := match pose with Some p => Pose2D.x p | None => 0 end in
    let cy := match pose with Some p => Pose2D.y p | None => 0 end in
    BoundingBox.mk (cx - r) (cy - r) (cx + r) (cy + r)
  | Polygon vertices =>
    let verts := world_vertices_of vertices pose in
    let xs := map fst verts in
    let ys := map snd verts in
    BoundingBox.mk (list_min xs) (list_min ys) (list_max xs) (list_max ys)
  end.

(** [Circle.contains_point] and [Polygon.contains_point]; the polygon test
    keeps the parity of the edge crossings in [winding]. *)
Definition contains_point (s : Shape2D) (point : Point2D)
  (pose : option Pose2D.t) : bool :=
  match s with
  | Circle r =>
    let cx := match pose with Some p => Pose2D.x p | None => 0 end in
    let cy := match pose with Some p => Pose2D.y p | None => 0 end in
    let '(px, py) := point in
    Rleb ((px - cx) * (px - cx) + (py - cy) * (py - cy)) (r * r)
  | Polygon pts =>
    let local_point :=
      match pose with
      | None => point
      | Some p => Pose2D.transform_point (Pose2D.inverse p) point
      end in
    let '(px, py) := local_point in
    fold_left
      (fun (winding : bool) (e : Point2D * Point2D) =>
         let '((x1, y1), (x2, y2)) := e in
         if (Rleb y1 py && Rltb py y2) || (Rleb y2 py && Rltb py y1) then
           let x_cross := x1 + (py - y1) * (x2 - x1) / (y2 - y1 + 1e-12) in
           if Rltb px x_cross then negb winding else winding
         else winding)
      (edges pts) false
  end.

Definition _circle_vs_circle
  (a_radius : R) (pose_a : Pose2D.t) (b_radius : R) (pose_b : Pose2D.t)
  : bool :=
  let dx := Pose2D.x pose_a - Pose2D.x pose_b in
  let dy := Pose2D.y pose_a - Pose2D.y pose_b in
  let radius_sum := a_radius + b_radius in
  Rleb (dx * dx + dy * dy) (radius_sum * radius_sum).

Definition _circle_vs_polygon
  (circle_radius : R) (pose_circle : Pose2D.t)
  (polygon_vertices : list Point2D) (pose_polygon : Pose2D.t) : bool :=
  let world_verts := _world_vertices polygon_vertices pose_polygon in
  let center := (Pose2D.x pose_circle, Pose2D.y pose_circle) in
  (* Check if polygon contains circle center. *)
  if contains_point (Polygon polygon_vertices) center (Some pose_polygon)
  then true
  else
    (* Check distance to edges. *)
    existsb
      (fun e : Point2D * Point2D =>
         Rleb (_distance_point_to_segment center (fst e) (snd e))
              circle_radius)
      (edges world_verts).

Definition _sat_overlap (verts_a verts_b : list Point2D) : bool :=
  forallb
    (fun e : Point2D * Point2D =>
       let '((x1, y1), (x2, y2)) := e in
       let edge_x := x2 - x1 in
       let edge_y := y2 - y1 in
       let normal := (- edge_y, edge_x) in
       let '(min_a, max_a) := _project normal verts_a in
       let '(min_b, max_b) := _project normal verts_b in
       negb (Rltb max_a min_b || Rltb max_b min_a))
    (edges verts_a).

Definition _polygon_vs_polygon
  (a_vertices : list Point2D) (pose_a : Pose2D.t)
  (b_vertices : list Point2D) (pose_b : Pose2D.t) : bool :=
  let verts_a := _world_vertices a_vertices pose_a in
  let verts_b := _world_vertices b_vertices pose_b in
  _sat_overlap verts_a verts_b && _sat_overlap verts_b verts_a.

(** [Shape2D.intersects(other, pose_self, pose_other)]. *)
Definition intersects (self other : Shape2D) (pose_self pose_other : Pose2D.t)
  : bool :=
  let bbox_self := bounding_box self (Some pose_self) in
  let bbox_other := bounding_box other (Some pose_other) in
  if negb (BoundingBox.intersects bbox_self bbox_other) then false
  else
    match self, other with
    | Circle ra, Circle rb => _circle_vs_circle ra pose_self rb pose_other
    | Circle ra, Polygon vb => _circle_vs_polygon ra pose_self vb pose_other
    | Polygon va, Circle rb => _circle_vs_polygon rb pose_other va pose_self
    | Polygon va, Polygon vb => _polygon_vs_polygon va pose_self vb pose_other
    end.

(** [Polygon.contains_point] divides by [y2 - y1 + 1e-12]: Python raises
    [ZeroDivisionError] on a polygon one of whose edges drops by exactly
    [1e-12], where the division below is Rocq's total one.  On every other
    shape the queries above return as they do in Python. *)
Definition query_defined (s : Shape2D) : Prop :=
  match s with
  | Circle _ => True
  | Polygon pts =>
    Forall (fun e : Point2D * Point2D =>
              snd (snd e) - snd (fst e) + 1e-12 <> 0)
           (edges pts)
  end.

(** *** What a manifold looks like *)

(** A vector of length 1, or the zero vector. *)
Definition unit_or_zero (n : Point2D) : Prop :=
  hypot (fst n) (snd n) = 1 \/ n = (0, 0).

(** The invariant of the triple threaded through [_check_axes]. *)
Definition axes_ok (st : axes_state) : Prop :=
  match st with
  | None => True
  | Some (pen, axis, _) => 0 < pen /\ unit_or_zero axis
  end.

(** Neither [Circle] nor [Polygon] checks its arguments; a circle is
    well formed when its radius is positive. *)
Definition well_formed (s : Shape2D) : Prop :=
  match s with
  | Circle r => 0 < r
  | Polygon _ => True
  end.

End Geometry.

(** ** low_level_mechanics/materials.py *)

Module Materials.

Record MaterialProperties : Type := mkMaterial {
  friction : R;
  restitution : R;
  reflectivity : R;
  traction : R;
  field_signals : list (string * R)
}.

(** [field_value(field_name, default)]. *)
Definition field_value (self : MaterialProperties) (field_name : string)
  (default : R) : R :=
  match dict_get (field_signals self) field_name with
  | Some v => v
  | None => default
  end.

End Materials.

(** ** low_level_mechanics/entities.py *)

Module Entities.
Import World Geometry Materials.

Record DynamicState : Type := mkState {
  linear_velocity : R * R;
  angular_velocity : R;
  mass : R;
  moment_of_inertia : R
}.

Definition advance_pose (self : DynamicState) (pose : Pose2D.t) (dt : R)
  : Pose2D.t :=
  let '(vx, vy) := linear_velocity self in
  let new_pose := Pose2D.translated pose (vx * dt) (vy * dt) in
  if Reqb (angular_velocity self) 0 then new_pose
  else Pose2D.rotated new_pose (angular_velocity self * dt).

Record SimObject : Type := mkObject {
  name : string;
  pose : Pose2D.t;
  shape : Shape2D;
  material : MaterialProperties;
  can_move : bool;
  state : DynamicState;
  _pending_forces : list (R * R);
  _pending_torque : R
}.

Definition set_pose (self : SimObject) (p : Pose2D.t) : SimObject :=
  mkObject (name self) p (shape self) (material self) (can_move self)
           (state self) (_pending_forces self) (_pending_torque self).

Definition set_state (self : SimObject) (st : DynamicState) : SimObject :=
  mkObject (name self) (pose self) (shape self) (material self)
           (can_move self) st (_pending_forces self) (_pending_torque self).

Definition set_linear_velocity (self : SimObject) (v : R * R) : SimObject :=
  set_state self
    (mkState v (angular_velocity (state self)) (mass (state self))
             (moment_of_inertia (state self))).

Definition set_angular_velocity (self : SimObject) (w : R) : SimObject :=
  set_state self
    (mkState (linear_velocity (state self)) w (mass (state self))
             (moment_of_inertia (state self))).

(** [apply_force(force)] without an application point, as the simulator
    calls it for gravity. *)
Definition apply_force (self : SimObject) (force : R * R) : SimObject :=
  mkObject (name self) (pose self) (shape self) (material self)
           (can_move self) (state self)
           (_pending_forces self ++ [force]) (_pending_torque self).

Definition clear_impulses (self : SimObject) : SimObject :=
  mkObject (name self) (pose self) (shape self) (material self)
           (can_move self) (state self) [] 0.

Definition integrate (self : SimObject) (dt : R) : SimObject :=
  if negb (can_move self) then clear_impulses self
  else
    let fx := list_sum (map fst (_pending_forces self)) in
    let fy := list_sum (map snd (_pending_forces self)) in
    let '(vx, vy) := linear_velocity (state self) in
    let '(vx, vy) :=
      if Rltb 0 (mass (state self))
      then (vx + (fx / mass (state self)) * dt,
            vy + (fy / mass (state self)) * dt)
      else (vx, vy) in
    let self := set_linear_velocity self (vx, vy) in
    let self :=
      if Rltb 0 (moment_of_inertia (state self))
      then set_angular_velocity self
             (angular_velocity (state self)
              + (_pending_torque self / moment_of_inertia (state self)) * dt)
      else self in
    let self := set_pose self (advance_pose (state self) (pose self) dt) in
    clear_impulses self.

(** [apply_force(force, application_point=point)]: the force also induces
    a torque about the body's position. *)
Definition apply_force_at (self : SimObject) (force : R * R)
  (application_point : R * R) : SimObject :=
  let cx := Pose2D.x (pose self) in
  let cy := Pose2D.y (pose self) in
  let rx := fst application_point - cx in
  let ry := snd application_point - cy in
  let torque := rx * snd force - ry * fst force in
  mkObject (name self) (pose self) (shape self) (material self)
           (can_move self) (state self)
           (_pending_forces self ++ [force]) (_pending_torque self + torque).

Definition apply_torque (self : SimObject) (torque : R) : SimObject :=
  mkObject (name self) (pose self) (shape self) (material self)
           (can_move self) (state self)
           (_pending_forces self) (_pending_torque self + torque).

Definition overlaps_with (self other : SimObject) : bool :=
  intersects (shape self) (shape other) (pose self) (pose other).

Definition material_field (self : SimObject) (field_name : string)
  (default : R) : R :=
  field_value (material self) field_name default.

End Entities.

(** ** low_level_mechanics/world.py, the collision helpers of [World] *)

Module WorldCollisions.
Import World Geometry Materials Entities.

(** [World._lerp_pose(start, end, alpha)]. *)
Definition _lerp_pose (start end_ : Pose2D.t) (alpha : R) : Pose2D.t :=
  let alpha := Rmax 0 (Rmin 1 alpha) in
  let dx := Pose2D.x end_ - Pose2D.x start in
  let dy := Pose2D.y end_ - Pose2D.y start in
  let dtheta :=
    float_mod (Pose2D.theta end_ - Pose2D.theta start + PI) (2 * PI) - PI in
  Pose2D.mk (Pose2D.x start + dx * alpha) (Pose2D.y start + dy * alpha)
            (Pose2D.theta start + dtheta * alpha).

(** The [for _ in range(n)] bisection of [_rewind_to_contact]: the pair
    [(low, high)] after [n] rounds. *)
Fixpoint _bisect (n : nat) (hits : R -> bool) (low high : R) : R * R :=
  match n with
  | O => (low, high)
  | S n =>
    let mid := 0.5 * (low + high) in
    if hits mid then _bisect n hits low mid else _bisect n hits mid high
  end.

(** [World._rewind_to_contact(obj, prev_pose, solid)]: the object after
    the call. *)
Definition _rewind_to_contact (obj : SimObject) (prev_pose : Pose2D.t)
  (solid : SimObject) : SimObject :=
  let start := prev_pose in
  let end_ := pose obj in
  if negb (intersects (shape obj) (shape solid) end_ (pose solid)) then obj
  else
    let '(low, high) :=
      _bisect 12
        (fun mid =>
           intersects (shape obj) (shape solid)
                      (_lerp_pose start end_ mid) (pose solid))
        0 1 in
    set_pose obj (_lerp_pose start end_ low).

End WorldCollisions.

(** ** middle_level_library/base.py *)

Module Base.
Import World Entities.

(** [random.Random]: a seeded generator is the sequence of standard normal
    deviates it will produce, with a cursor; [gauss(mu, sigma)] consumes
    one of them. *)
Record Random : Type := mkRandom { draws : nat -> R; cursor : nat }.

Definition gauss (rng : Random) (mu sigma : R) : R * Random :=
  (mu + draws rng (cursor rng) * sigma,
   mkRandom (draws rng) (S (cursor rng))).

(** Python values that cross the sensor and controller interfaces. *)
#[warnings="-register-all"]
Inductive Value : Type :=
| VNone
| VBool (b : bool)
| VInt (n : Z)
| VFloat (v : R)
| VStr (s : string)
| VList (vs : list Value)
| VDict (kvs : list (string * Value)).

(** What a component sees of the world it is stepped in: the body table,
    the clock and the shared generator. *)
Record WorldView : Type := mkView {
  view_bodies : list (string * SimObject);
  view_time : R;
  view_rng : Random
}.

Module NoiseProfile.

Record t : Type := mk { bias : R; std_dev : R }.

(** [sample(world)] with a world: the noise is drawn from [world.rng]. *)
Definition sample (self : t) (rng : Random) : R * Random :=
  if Reqb (std_dev self) 0 then (bias self, rng)
  else
    let '(g, rng) := gauss rng 0 (std_dev self) in
    (bias self + g, rng).

End NoiseProfile.

Record SensorReading : Type := mkReading {
  reading_name : string;
  value : Value;
  timestamp : R;
  metadata : list (string * Value)
}.

Module MountedComponent.

(** [parent] refers to a body of the simulator's table by its key. *)
Record t : Type := mk {
  name : string;
  mount_pose : Pose2D.t;
  parent : option string
}.

End MountedComponent.

Module Sensor.

(** The subclasses of [Sensor] override [read]; all of them share the guard
    [if not self.parent or not self.should_update(dt): return None] and the
    final [self._last_reading = reading; return reading], and differ in the
    value they compute in between.  That computation is the field
    [measure]: it yields the value and metadata of the reading and the
    generator after the noise draws. *)
Record t : Type := mk {
  component : MountedComponent.t;
  update_period : R;
  latency : R;
  noise : NoiseProfile.t;
  _time_since_update : R;
  _last_reading : option SensorReading;
  measure : MountedComponent.t -> NoiseProfile.t -> WorldView
            -> Value * list (string * Value) * Random
}.

(** [Sensor.__init__]. *)
Definition init (name : string) (mount_pose : Pose2D.t)
  (update_rate_hz latency : R) (noise : NoiseProfile.t)
  (measure : MountedComponent.t -> NoiseProfile.t -> WorldView
             -> Value * list (string * Value) * Random) : t :=
  mk (MountedComponent.mk name mount_pose None)
     (if Rltb 0 update_rate_hz then 1 / update_rate_hz else 0)
     latency noise 0 None measure.

Definition attach (self : t) (parent : string) : t :=
  mk (MountedComponent.mk (MountedComponent.name (component self))
                          (MountedComponent.mount_pose (component self))
                          (Some parent))
     (update_period self) (latency self) (noise self)
     (_time_since_update self) (_last_reading self) (measure self).

Definition set_time_since_update (self : t) (v : R) : t :=
  mk (component self) (update_period self) (latency self) (noise self)
     v (_last_reading self) (measure self).

Definition set_last_reading (self : t) (r : option SensorReading) : t :=
  mk (component self) (update_period self) (latency self) (noise self)
     (_time_since_update self) r (measure self).

(** [should_update(dt)] over the idealised floats.  The sum accumulated
    here is exact; the one Python accumulates is rounded at every tick, and
    can fall short of the period on the tick where the exact sum reaches
    it: [SensorClock] below is the same method on binary64 values. *)
Definition should_update (self : t) (dt : R) : bool * t :=
  if Reqb (update_period self) 0 then (true, self)
  else
    let self := set_time_since_update self (_time_since_update self + dt) in
    if Rleb (update_period self) (_time_since_update self)
    then (true, set_time_since_update self 0)
    else (false, self).

Definition last_reading (self : t) : option SensorReading :=
  _last_reading self.

(** [read(world, dt)]: the sensor after the call, the returned reading and
    the world's generator after the call. *)
Definition read (self : t) (world : WorldView) (dt : R)
  : t * option SensorReading * Random :=
  match MountedComponent.parent (component self) with
  | None => (self, None, view_rng world)
  | Some _ =>
    let '(due, self) := should_update self dt in
    if negb due then (self, None, view_rng world)
    else
      let '(v, meta, rng) := measure self (component self) (noise self) world in
      let reading :=
        mkReading (MountedComponent.name (component self)) v
                  (view_time world) meta in
      (set_last_reading self (Some reading), Some reading, rng)
  end.

End Sensor.

(** *** The sample-and-hold clock on binary64 values

    Whether a read is due is decided by comparing a sum of timesteps with
    the period, and there the rounding of Python's floats decides.
    [SensorClock.t] holds the two float attributes of a [Sensor] that
    [should_update] reads and writes, as IEEE 754 binary64 values; [/],
    [+=], [>], [==] and [>=] are the correctly rounded operations Python
    computes. *)
Module SensorClock.
Import PrimFloat.
Local Open Scope float_scope.

Record t : Type := mk {
  update_period : float;
  _time_since_update : float
}.

(** The two assignments of [Sensor.__init__]. *)
Definition init (update_rate_hz : float) : t :=
  mk (if ltb 0 update_rate_hz then 1 / update_rate_hz else 0) 0.

Definition should_update (self : t) (dt : float) : bool * t :=
  if eqb (update_period self) 0 then (true, self)
  else
    let self := mk (update_period self) (_time_since_update self + dt) in
    if leb (update_period self) (_time_since_update self)
    then (true, mk (update_period self) 0)
    else (false, self).

(** [read(world, dt)] of a sensor whose clock is [clock]: the guard, the
    measurement and the assignment of [_last_reading] are those of
    [Sensor.read]; the timestep and the accumulated time are binary64
    values. *)
Definition read (self : Sensor.t) (clock : t) (world : WorldView) (dt : float)
  : Sensor.t * t * option SensorReading * Random :=
  match MountedComponent.parent (Sensor.component self) with
  | None => (self, clock, None, view_rng world)
  | Some _ =>
    let '(due, clock) := should_update clock dt in
    if negb due then (self, clock, None, view_rng world)
    else
      let '(v, meta, rng) :=
        Sensor.measure self (Sensor.component self) (Sensor.noise self) world in
      let reading :=
        mkReading (MountedComponent.name (Sensor.component self)) v
                  (view_time world) meta in
      (Sensor.set_last_reading self (Some reading), clock, Some reading, rng)
  end.

End SensorClock.

Module Motor.

Record t : Type := mk {
  component : MountedComponent.t;
  max_command : R;
  _last_command : R
}.

(** [Motor.__init__]. *)
Definition init (name : string) (mount_pose : Pose2D.t) (max_command : R) : t :=
  mk (MountedComponent.mk name mount_pose None) max_command 0.

Definition attach (self : t) (parent : string) : t :=
  mk (MountedComponent.mk (MountedComponent.name (component self))
                          (MountedComponent.mount_pose (component self))
                          (Some parent))
     (max_command self) (_last_command self).

(** [Motor.command(value, world, dt)], parametric in the subclass: [M] is
    the subclass state with its [Motor] part, [S] what [_apply] acts on. *)
Definition command {M S : Type}
  (base : M -> t) (with_base : M -> t -> M)
  (_apply : M -> R -> S -> R -> M * S)
  (self : M) (value : R) (world : S) (dt : R) : M * S :=
  let value :=
    Rmax (- max_command (base self)) (Rmin (max_command (base self)) value) in
  let self :=
    with_base self (mk (component (base self)) (max_command (base self)) value) in
  _apply self value world dt.

Definition last_command (self : t) : R := _last_command self.

End Motor.

End Base.

(** ** middle_level_library/motors.py *)

Module Motors.
Import World Entities Base.

Definition _clamp (value lo hi : R) : R := Rmax lo (Rmin hi value).

Definition _apply_impulse (body : SimObject) (impulse contact_point : R * R)
  : SimObject :=
  if negb (can_move body) || Rleb (mass (state body)) 0 then body
  else
    let inv_mass := 1 / Rmax (mass (state body)) 1e-9 in
    let inv_inertia :=
      if Rleb (moment_of_inertia (state body)) 0 then 0
      else 1 / moment_of_inertia (state body) in
    let rx := fst contact_point - Pose2D.x (pose body) in
    let ry := snd contact_point - Pose2D.y (pose body) in
    let '(jx, jy) := impulse in
    let '(vx, vy) := linear_velocity (state body) in
    let body :=
      set_linear_velocity body (vx + jx * inv_mass, vy + jy * inv_mass) in
    set_angular_velocity body
      (angular_velocity (state body) + (rx * jy - ry * jx) * inv_inertia).

Definition _contact_velocity (body : SimObject) (contact_point : R * R)
  : R * R :=
  let '(vx, vy) := linear_velocity (state body) in
  let omega := angular_velocity (state body) in
  let rx := fst contact_point - Pose2D.x (pose body) in
  let ry := snd contact_point - Pose2D.y (pose body) in
  (vx - omega * ry, vy + omega * rx).

Definition _inv_mass_term (body : SimObject) (contact_point axis : R * R) : R :=
  let inv_mass :=
    if negb (can_move body) || Rleb (mass (state body)) 0 then 0
    else 1 / mass (state body) in
  let inv_inertia :=
    if Rleb (moment_of_inertia (state body)) 0 then 0
    else 1 / moment_of_inertia (state body) in
  let rx := fst contact_point - Pose2D.x (pose body) in
  let ry := snd contact_point - Pose2D.y (pose body) in
  let r_cross_n := rx * snd axis - ry * fst axis in
  inv_mass + (r_cross_n * r_cross_n) * inv_inertia.

Record TractionReport : Type := mkReport {
  step : option Z;
  slip_ratio : R;
  lateral_slip : R;
  wheel_speed : R;
  preferred_speed : R;
  contact_speed : R;
  contact_speed_after : R;
  desired_longitudinal_impulse : R;
  applied_longitudinal_impulse : R;
  applied_lateral_impulse : R;
  normal_load : R
}.

Definition set_step (r : TractionReport) (s : option Z) : TractionReport :=
  mkReport s (slip_ratio r) (lateral_slip r) (wheel_speed r)
           (preferred_speed r) (contact_speed r) (contact_speed_after r)
           (desired_longitudinal_impulse r) (applied_longitudinal_impulse r)
           (applied_lateral_impulse r) (normal_load r).

(** [_solve_wheel_traction]: the body after the impulses and the report. *)
Definition _solve_wheel_traction
  (body : SimObject) (contact_point forward : R * R)
  (preferred_speed drive_impulse_cap : R)
  (mu_long mu_lat normal_load lateral_damping dt : R)
  : SimObject * TractionReport :=
  if negb (can_move body) then
    (body,
     mkReport None 0 0 preferred_speed preferred_speed 0 0 0 0 0 normal_load)
  else
    let normal_load := Rmax normal_load 0 in
    let lateral_damping := _clamp lateral_damping 0 1 in
    let lateral := (- snd forward, fst forward) in
    let max_long_impulse := Rmax 0 (Rabs mu_long * normal_load * dt) in
    let max_lat_impulse := Rmax 0 (Rabs mu_lat * normal_load * dt) in
    let drive_cap := Rmax 0 (Rabs drive_impulse_cap) in
    let '(vcx, vcy) := _contact_velocity body contact_point in
    let v_long := vcx * fst forward + vcy * snd forward in
    let v_lat := vcx * fst lateral + vcy * snd lateral in
    let slip_denom := Rmax (Rmax (Rabs preferred_speed) (Rabs v_long)) 0.05 in
    let slip_ratio := (preferred_speed - v_long) / slip_denom in
    (* Lateral slip correction (constraint-like) *)
    let '(j_lat, body) :=
      if Rltb 0 max_lat_impulse && Rltb 1e-6 (Rabs v_lat) then
        let inv_mass_lat := _inv_mass_term body contact_point lateral in
        if Rltb 1e-9 inv_mass_lat then
          let target_j_lat := (- v_lat) / inv_mass_lat in
          let target_j_lat := target_j_lat * (1 - lateral_damping) in
          let j_lat :=
            _clamp target_j_lat (- max_lat_impulse) max_lat_impulse in
          (j_lat,
           _apply_impulse body (fst lateral * j_lat, snd lateral * j_lat)
                          contact_point)
        else (0, body)
      else (0, body) in
    (* Longitudinal drive toward preferred speed with traction + drive caps *)
    let inv_mass_long := _inv_mass_term body contact_point forward in
    let '(desired_impulse, j_drive, body) :=
      if Rltb 1e-9 inv_mass_long then
        let desired_impulse := (preferred_speed - v_long) / inv_mass_long in
        let long_limit := max_long_impulse in
        let long_limit :=
          if Rltb 0 max_long_impulse && Rltb 0 max_lat_impulse then
            let lat_ratio := Rmin 1 (Rabs j_lat / (max_lat_impulse + 1e-9)) in
            max_long_impulse * Rmax 0 (1 - 0.5 * lat_ratio)
          else long_limit in
        let long_limit :=
          if Rltb 0 drive_cap then
            (if Rltb 0 long_limit then Rmin long_limit drive_cap
             else drive_cap)
          else long_limit in
        if Rltb 0 long_limit then
          let j_drive := _clamp desired_impulse (- long_limit) long_limit in
          (desired_impulse, j_drive,
           if Reqb j_drive 0 then body
           else _apply_impulse body
                  (fst forward * j_drive, snd forward * j_drive) contact_point)
        else (desired_impulse, 0, body)
      else (0, 0, body) in
    let v_post_long := _contact_velocity body contact_point in
    let v_post := fst v_post_long * fst forward + snd v_post_long * snd forward in
    (body,
     mkReport None slip_ratio v_lat preferred_speed preferred_speed v_long
              v_post desired_impulse j_drive j_lat normal_load).

(** What [_apply] acts on: the parent body its [parent] reference resolves
    to, and [getattr(world, "step_index", None)]. *)
Record MotorWorld : Type := mkMotorWorld {
  parent_body : option SimObject;
  step_index : option Z
}.

Module WheelMotor.

Record t : Type := mk {
  base : Motor.t;
  max_force : R;
  mu_long : R;
  mu_lat : R;
  g_equiv : R;
  normal_force : option R;
  lateral_damping : R;
  wheel_count : Z;
  wheel_radius : R;
  response_time : R;
  max_wheel_omega : R;
  angular_speed : R;
  last_report : option TractionReport
}.

(** [WheelMotor.__init__]. *)
Definition init (name : string) (mount_pose : Pose2D.t)
  (max_force mu_long mu_lat g_equiv : R) (normal_force : option R)
  (lateral_damping : R) (wheel_count : Z)
  (wheel_radius response_time max_wheel_omega : R) : t :=
  mk (Motor.init name mount_pose 1) max_force mu_long mu_lat g_equiv
     normal_force lateral_damping (Z.max 1 wheel_count) wheel_radius
     (Rmax response_time 1e-4) max_wheel_omega 0 None.

Definition with_base (self : t) (b : Motor.t) : t :=
  mk b (max_force self) (mu_long self) (mu_lat self) (g_equiv self)
     (normal_force self) (lateral_damping self) (wheel_count self)
     (wheel_radius self) (response_time self) (max_wheel_omega self)
     (angular_speed self) (last_report self).

Definition set_angular_speed (self : t) (w : R) : t :=
  mk (base self) (max_force self) (mu_long self) (mu_lat self) (g_equiv self)
     (normal_force self) (lateral_damping self) (wheel_count self)
     (wheel_radius self) (response_time self) (max_wheel_omega self)
     w (last_report self).

Definition set_last_report (self : t) (r : option TractionReport) : t :=
  mk (base self) (max_force self) (mu_long self) (mu_lat self) (g_equiv self)
     (normal_force self) (lateral_damping self) (wheel_count self)
     (wheel_radius self) (response_time self) (max_wheel_omega self)
     (angular_speed self) r.

Definition _apply (self : t) (value : R) (world : MotorWorld) (dt : R)
  : t * MotorWorld :=
  match parent_body world with
  | None => (self, world)
  | Some parent =>
    if negb (can_move parent) then (self, world)
    else
      let pose :=
        Pose2D.compose (Entities.pose parent)
                       (MountedComponent.mount_pose
                          (Motor.component (base self))) in
      let direction := (cos (Pose2D.theta pose), sin (Pose2D.theta pose)) in
      let normal_load :=
        match normal_force self with
        | Some f => f
        | None =>
          mass (state parent) * g_equiv self
          / IZR (Z.max (wheel_count self) 1)
        end in
      let blend := Rmin 1 (dt / response_time self) in
      let target_omega := value * max_wheel_omega self in
      let self :=
        set_angular_speed self
          (angular_speed self + (target_omega - angular_speed self) * blend) in
      let wheel_speed := angular_speed self * wheel_radius self in
      let drive_impulse_cap := Rabs (max_force self) * dt in
      let '(parent, report) :=
        _solve_wheel_traction parent (Pose2D.x pose, Pose2D.y pose) direction
          wheel_speed drive_impulse_cap (mu_long self) (mu_lat self)
          normal_load (lateral_damping self) dt in
      let traction_ratio :=
        if Rltb 1e-9 (Rabs (desired_longitudinal_impulse report)) then
          Rmin 1 (Rabs (applied_longitudinal_impulse report)
                  / Rabs (desired_longitudinal_impulse report))
        else 0 in
      let ground_omega :=
        contact_speed_after report / Rmax (wheel_radius self) 1e-6 in
      let self :=
        set_angular_speed self
          (angular_speed self * (1 - 0.4 * traction_ratio)
           + ground_omega * (0.4 * traction_ratio)) in
      let report := set_step report (step_index world) in
      (set_last_report self (Some report),
       mkMotorWorld (Some parent) (step_index world))
  end.

Definition command (self : t) (value : R) (world : MotorWorld) (dt : R)
  : t * MotorWorld :=
  Motor.command base with_base _apply self value world dt.

End WheelMotor.

(** [WheelMotorPreset] of presets.py and the table [WHEEL_PRESETS]. *)
Record WheelMotorPreset : Type := mkPreset {
  preset_name : string;
  preset_wheel_radius : R;
  max_torque : R;
  gear_ratio : R;
  motor_inertia : R;
  preset_response_time : R;
  traction_coeff : R;
  preset_max_command : R;
  preset_mu_long : R;
  preset_mu_lat : R;
  preset_g_equiv : R;
  preset_normal_force : option R;
  preset_lateral_damping : R;
  preset_wheel_count : Z
}.

Definition WHEEL_PRESETS : list (string * WheelMotorPreset) :=
  [("wheel_small"%string,
    mkPreset "wheel_small" 0.03 0.45 1 0.002 0.05 0.9 1 0.9 0.8 9.81 None
             0.25 2)].

Module WheelMotorDetailed.

Record t : Type := mk {
  base : Motor.t;
  preset : WheelMotorPreset;
  angular_speed : R;
  last_report : option TractionReport
}.

(** [WheelMotorDetailed.__init__]; [None] is the [KeyError] of an unknown
    preset name. *)
Definition init (name : string) (preset : string) (mount_pose : Pose2D.t)
  : option t :=
  match find (fun kv => String.eqb (fst kv) preset) WHEEL_PRESETS with
  | None => None
  | Some (_, preset_info) =>
    Some (mk (Motor.init name mount_pose (preset_max_command preset_info))
             preset_info 0 None)
  end.

Definition with_base (self : t) (b : Motor.t) : t :=
  mk b (preset self) (angular_speed self) (last_report self).

Definition _apply (self : t) (value : R) (world : MotorWorld) (dt : R)
  : t * MotorWorld :=
  match parent_body world with
  | None => (self, world)
  | Some parent =>
    if negb (can_move parent) then (self, world)
    else
      let p := preset self in
      let torque := max_torque p * value in
      let heading :=
        Pose2D.compose (Entities.pose parent)
                       (MountedComponent.mount_pose
                          (Motor.component (base self))) in
      let direction :=
        (cos (Pose2D.theta heading), sin (Pose2D.theta heading)) in
      let normal_load :=
        match preset_normal_force p with
        | Some f => f
        | None =>
          mass (state parent) * preset_g_equiv p
          / IZR (Z.max (preset_wheel_count p) 1)
        end in
      let wheel_speed := angular_speed self * preset_wheel_radius p in
      let drive_impulse_cap :=
        Rabs (max_torque p * gear_ratio p / preset_wheel_radius p) * dt in
      let '(parent, report) :=
        _solve_wheel_traction parent (Pose2D.x heading, Pose2D.y heading)
          direction wheel_speed drive_impulse_cap (preset_mu_long p)
          (preset_mu_lat p) normal_load (preset_lateral_damping p) dt in
      let reaction_torque :=
        if Rltb 0 dt then
          (applied_longitudinal_impulse report / dt) * preset_wheel_radius p
          / Rmax (gear_ratio p) 1e-6
        else 0 in
      let net_torque := torque - reaction_torque in
      let w := angular_speed self
               + (net_torque / Rmax (motor_inertia p) 1e-6) * dt in
      let w := _clamp w (-100) 100 in
      let traction_ratio :=
        if Rltb 1e-9 (Rabs (desired_longitudinal_impulse report)) then
          Rmin 1 (Rabs (applied_longitudinal_impulse report)
                  / Rabs (desired_longitudinal_impulse report))
        else 0 in
      let ground_omega :=
        contact_speed_after report / Rmax (preset_wheel_radius p) 1e-6 in
      let w := w * (1 - 0.3 * traction_ratio)
               + ground_omega * (0.3 * traction_ratio) in
      let report := set_step report (step_index world) in
      (mk (base self) p w (Some report),
       mkMotorWorld (Some parent) (step_index world))
  end.

Definition command (self : t) (value : R) (world : MotorWorld) (dt : R)
  : t * MotorWorld :=
  Motor.command base with_base _apply self value world dt.

End WheelMotorDetailed.

End Motors.

(** ** middle_level_library/sensors.py *)

Module Sensors.
Import World Geometry Materials Entities Base.

(** The parent body of a component, looked up in the world. *)
Definition parent_of (c : MountedComponent.t) (world : WorldView)
  : option SimObject :=
  match MountedComponent.parent c with
  | Some b => dict_get (view_bodies world) b
  | None => None
  end.

(** The value computed by [EncoderSensor.read]. *)
Definition encoder_measure (c : MountedComponent.t) (noise : NoiseProfile.t)
  (world : WorldView) : Value * list (string * Value) * Random :=
  match parent_of c world with
  | Some body =>
    let omega := angular_velocity (state body) in
    let '(e, rng) := NoiseProfile.sample noise (view_rng world) in
    (VFloat (omega + e), [], rng)
  | None => (VNone, [], view_rng world)
  end.

(** [EncoderSensor(name, noise=None, update_rate_hz=200.0)]. *)
Definition EncoderSensor (name : string) (noise : option NoiseProfile.t)
  (update_rate_hz : R) : Sensor.t :=
  Sensor.init name (Pose2D.mk 0 0 0) update_rate_hz 0
    (match noise with Some p => p | None => NoiseProfile.mk 0 0.001 end)
    encoder_measure.

(** The value computed by [IMUSensor.read]. *)
Definition imu_measure (c : MountedComponent.t) (noise : NoiseProfile.t)
  (world : WorldView) : Value * list (string * Value) * Random :=
  match parent_of c world with
  | Some body =>
    let '(vx, vy) := linear_velocity (state body) in
    let omega := angular_velocity (state body) in
    let '(ex, rng) := NoiseProfile.sample noise (view_rng world) in
    let '(ey, rng) := NoiseProfile.sample noise rng in
    let '(eo, rng) := NoiseProfile.sample noise rng in
    (VDict [("lin"%string, VList [VFloat (vx + ex); VFloat (vy + ey)]);
            ("ang"%string, VFloat (omega + eo))], [], rng)
  | None => (VNone, [], view_rng world)
  end.

(** [IMUSensor(name, noise=None, update_rate_hz=200.0)]. *)
Definition IMUSensor (name : string) (noise : option NoiseProfile.t)
  (update_rate_hz : R) : Sensor.t :=
  Sensor.init name (Pose2D.mk 0 0 0) update_rate_hz 0
    (match noise with Some p => p | None => NoiseProfile.mk 0 0.005 end)
    imu_measure.

(** *** Line and distance sensors *)

(** [_clamp] of sensors.py. *)
Definition _clamp (value lo hi : R) : R := Rmax lo (Rmin hi value).

(** [LineSensorPreset] and [DistanceSensorPreset] of presets.py, with
    their tables. *)
Record LineSensorPreset : Type := mkLinePreset {
  line_name : string;
  max_signal : R;
  line_noise : NoiseProfile.t;
  line_update_rate_hz : R;
  spacing : R;
  count : Z
}.

Record DistanceSensorPreset : Type := mkDistancePreset {
  distance_name : string;
  max_range : R;
  step : R;
  distance_noise : NoiseProfile.t;
  distance_update_rate_hz : R
}.

Definition LINE_SENSOR_PRESETS : list (string * LineSensorPreset) :=
  [("line_basic"%string,
    mkLinePreset "line_basic" 1 (NoiseProfile.mk 0 0.02) 60 0.02 5)].

Definition DISTANCE_SENSOR_PRESETS : list (string * DistanceSensorPreset) :=
  [("range_short"%string,
    mkDistancePreset "range_short" 1.5 0.01 (NoiseProfile.mk 0 0.01) 40)].

(** The line and distance sensors query [contains_point] on every object
    of the world: the queries return when each shape is [query_defined]. *)
Definition queries_defined (world : WorldView) : Prop :=
  Forall (fun kv : string * SimObject => query_defined (shape (snd kv)))
         (view_bodies world).

(** The loop of [_sample_line_intensity] over the objects of the world. *)
Fixpoint _sample_line_intensity_loop (objs : list (string * SimObject))
  (point : R * R) : R :=
  match objs with
  | [] => 0
  | (_, obj) :: rest =>
    let intensity := material_field obj "line_intensity" 0 in
    if Rleb intensity 0 then _sample_line_intensity_loop rest point
    else if contains_point (shape obj) point (Some (pose obj)) then intensity
    else _sample_line_intensity_loop rest point
  end.

Definition _sample_line_intensity (world : WorldView) (point : R * R) : R :=
  _sample_line_intensity_loop (view_bodies world) point.

(** The value computed by [LineSensor.read].  [signal / max_signal] raises
    [ZeroDivisionError] in Python when [max_signal] is zero; no preset of
    the table has it zero. *)
Definition line_measure (preset : LineSensorPreset)
  (c : MountedComponent.t) (noise : NoiseProfile.t) (world : WorldView)
  : Value * list (string * Value) * Random :=
  match parent_of c world with
  | Some body =>
    let pose := Pose2D.compose (pose body) (MountedComponent.mount_pose c) in
    let point := (Pose2D.x pose, Pose2D.y pose) in
    let signal := _sample_line_intensity world point in
    let '(e, rng) := NoiseProfile.sample noise (view_rng world) in
    let normalized := _clamp (signal / max_signal preset + e) 0 1 in
    (VFloat normalized,
     [("raw"%string, VFloat signal);
      ("preset"%string, VStr (line_name preset))], rng)
  | None => (VNone, [], view_rng world)
  end.

(** [LineSensor(name, preset=..., mount_pose=...)]; [None] is the
    [KeyError] of an unknown preset name. *)
Definition LineSensor (name preset : string) (mount_pose : Pose2D.t)
  : option Sensor.t :=
  match dict_get LINE_SENSOR_PRESETS preset with
  | None => None
  | Some preset_info =>
    Some (Sensor.init name mount_pose (line_update_rate_hz preset_info) 0
                      (line_noise preset_info) (line_measure preset_info))
  end.

(** [self._offsets] of [LineSensorArray]. *)
Definition array_offsets (preset : LineSensorPreset) : list Pose2D.t :=
  map (fun i : nat =>
         Pose2D.mk ((INR i - (IZR (count preset) - 1) / 2) * spacing preset)
                   0 0)
      (seq 0 (Z.to_nat (count preset))).

(** [LineSensorArray.lateral_offsets]. *)
Definition lateral_offsets (preset : LineSensorPreset) : list R :=
  map Pose2D.x (array_offsets preset).

(** [LineSensorArray.sample_points_world()]. *)
Definition sample_points_world (preset : LineSensorPreset)
  (c : MountedComponent.t) (world : WorldView) : list (R * R) :=
  match parent_of c world with
  | None => []
  | Some body =>
    let base_pose :=
      Pose2D.compose (pose body) (MountedComponent.mount_pose c) in
    map (fun offset : Pose2D.t =>
           let pose := Pose2D.compose base_pose offset in
           (Pose2D.x pose, Pose2D.y pose))
        (array_offsets preset)
  end.

(** The loop of [LineSensorArray.read] over the sample points. *)
Fixpoint _read_points (preset : LineSensorPreset) (noise : NoiseProfile.t)
  (world : WorldView) (points : list (R * R)) (rng : Random)
  : list Value * Random :=
  match points with
  | [] => ([], rng)
  | point :: rest =>
    let signal := _sample_line_intensity world point in
    let '(e, rng) := NoiseProfile.sample noise rng in
    let normalized := _clamp (signal / max_signal preset + e) 0 1 in
    let '(values, rng) := _read_points preset noise world rest rng in
    (VFloat normalized :: values, rng)
  end.

(** The value computed by [LineSensorArray.read]. *)
Definition line_array_measure (preset : LineSensorPreset)
  (c : MountedComponent.t) (noise : NoiseProfile.t) (world : WorldView)
  : Value * list (string * Value) * Random :=
  match parent_of c world with
  | Some _ =>
    let points := sample_points_world preset c world in
    let '(values, rng) :=
      _read_points preset noise world points (view_rng world) in
    (VList values,
     [("count"%string, VInt (count preset));
      ("preset"%string, VStr (line_name preset))], rng)
  | None => (VNone, [], view_rng world)
  end.

Definition LineSensorArray (name preset : string) (mount_pose : Pose2D.t)
  : option Sensor.t :=
  match dict_get LINE_SENSOR_PRESETS preset with
  | None => None
  | Some preset_info =>
    Some (Sensor.init name mount_pose (line_update_rate_hz preset_info) 0
                      (line_noise preset_info)
                      (line_array_measure preset_info))
  end.

(** The inner loop of [_ray_march]: some object other than the parent
    contains the sample point. *)
Definition _hit (world : WorldView) (parent : option string)
  (sample_point : R * R) : bool :=
  existsb
    (fun kv : string * SimObject =>
       contains_point (shape (snd kv)) sample_point (Some (pose (snd kv)))
       && negb (match parent with
                | Some b => String.eqb (fst kv) b
                | None => false
                end))
    (view_bodies world).

(** The [while distance <= max_range] loop of [_ray_march], run for at
    most [fuel] tests of its condition; the outer [None] is a loop that is
    still running when the fuel is spent.  The distances are exact here:
    sample [k] is at [k * step].  The distances Python accumulates are
    rounded, so its last samples can fall on the other side of
    [max_range]; [_ray_march_loop64] below has the loop on binary64
    distances. *)
Fixpoint _ray_march_loop (fuel : nat) (preset : DistanceSensorPreset)
  (world : WorldView) (parent : option string) (origin direction : R * R)
  (distance : R) : option (option R) :=
  match fuel with
  | O => None
  | S fuel =>
    if Rleb distance (max_range preset) then
      let sample_point :=
        (fst origin + fst direction * distance,
         snd origin + snd direction * distance) in
      if _hit world parent sample_point then Some (Some distance)
      else _ray_march_loop fuel preset world parent origin direction
                           (distance + step preset)
    else Some None
  end.

(** The number of tests of the loop condition a positive step needs. *)
Definition ray_fuel (preset : DistanceSensorPreset) : nat :=
  Z.to_nat (Int_part (max_range preset / step preset)) + 2.

Definition _ray_march (preset : DistanceSensorPreset) (world : WorldView)
  (parent : option string) (origin direction : R * R) : option (option R) :=
  _ray_march_loop (ray_fuel preset) preset world parent origin direction 0.

(** *** The ray march on binary64 distances

    Which samples the loop of [_ray_march] tests is decided by the
    rounding of [distance += step] and by the test [distance <=
    max_range] on the rounded sum.  Here the distance, the step and the
    range are binary64 values, added and compared as Python does; the
    sample point of a distance is computed over the reals from the number
    the float stands for. *)

(** The real number a finite binary64 value stands for. *)
Definition float_value (f : PrimFloat.float) : R :=
  match FloatOps.Prim2SF f with
  | SpecFloat.S754_finite s m e =>
    (if s then -1 else 1) * IZR (Zpos m) * powerRZ 2 e
  | _ => 0
  end.

Fixpoint _ray_march_loop64 (fuel : nat) (max_range step : PrimFloat.float)
  (world : WorldView) (parent : option string) (origin direction : R * R)
  (distance : PrimFloat.float) : option (option PrimFloat.float) :=
  match fuel with
  | O => None
  | S fuel =>
    if PrimFloat.leb distance max_range then
      let sample_point :=
        (fst origin + fst direction * float_value distance,
         snd origin + snd direction * float_value distance) in
      if _hit world parent sample_point then Some (Some distance)
      else _ray_march_loop64 fuel max_range step world parent origin
                             direction (PrimFloat.add distance step)
    else Some None
  end.

(** The distance of sample [k]: [k] additions of [step] to [0.0]. *)
Definition sample_distance (step : PrimFloat.float) (k : nat)
  : PrimFloat.float :=
  Nat.iter k (fun d => PrimFloat.add d step) PrimFloat.zero.

(** The value computed by [DistanceSensor.read]; a ray march that does not
    terminate (a step that is not positive) yields no value. *)
Definition distance_measure (preset : DistanceSensorPreset)
  (c : MountedComponent.t) (noise : NoiseProfile.t) (world : WorldView)
  : Value * list (string * Value) * Random :=
  match parent_of c world with
  | Some body =>
    let pose := Pose2D.compose (pose body) (MountedComponent.mount_pose c) in
    let direction := (cos (Pose2D.theta pose), sin (Pose2D.theta pose)) in
    match _ray_march preset world (MountedComponent.parent c)
                     (Pose2D.x pose, Pose2D.y pose) direction with
    | Some hit_distance =>
      let value :=
        match hit_distance with
        | None => max_range preset
        | Some d => d
        end in
      let '(e, rng) := NoiseProfile.sample noise (view_rng world) in
      let value := value + e in
      let value := _clamp value 0 (max_range preset) in
      (VFloat value,
       [("hit"%string,
         VBool (match hit_distance with Some _ => true | None => false end));
        ("preset"%string, VStr (distance_name preset))], rng)
    | None => (VNone, [], view_rng world)
    end
  | None => (VNone, [], view_rng world)
  end.

Definition DistanceSensor (name preset : string) (mount_pose : Pose2D.t)
  : option Sensor.t :=
  match dict_get DISTANCE_SENSOR_PRESETS preset with
  | None => None
  | Some preset_info =>
    Some (Sensor.init name mount_pose (distance_update_rate_hz preset_info) 0
                      (distance_noise preset_info)
                      (distance_measure preset_info))
  end.

End Sensors.

(** ** core/simulator.py *)

Module Simulator.
Import World Geometry Materials Entities Base Motors.

(** Truth value of a Python string. *)
Definition str_truthy (s : string) : bool := negb (String.eqb s EmptyString).

(** Truth value of a Python value. *)
Definition truthy (v : Value) : bool :=
  match v with
  | VNone => false
  | VBool b => b
  | VInt n => negb (Z.eqb n 0)
  | VFloat x => negb (Reqb x 0)
  | VStr s => str_truthy s
  | VList vs => match vs with [] => false | _ => true end
  | VDict kvs => match kvs with [] => false | _ => true end
  end.

(** [JointConfig] of core/config.py. *)
Record JointConfig : Type := mkJointConfig {
  joint_name : string;
  parent : string;
  child : string;
  joint_type : string;
  anchor_parent : Point2D;
  anchor_child : Point2D;
  lower_limit : R;
  upper_limit : R;
  stiffness : R;
  joint_damping : R
}.

Record JointRuntime : Type := mkJointRuntime {
  cfg : JointConfig;
  compliance : R;
  damping : R;
  lambda_accum : R
}.

(** The motors table holds both wheel motor classes. *)
Inductive MotorObj : Type :=
| Wheel (m : WheelMotor.t)
| Detailed (m : WheelMotorDetailed.t).

Definition motor_base (m : MotorObj) : Motor.t :=
  match m with
  | Wheel w => WheelMotor.base w
  | Detailed d => WheelMotorDetailed.base d
  end.

Definition motor_command (m : MotorObj) (value : R) (world : MotorWorld)
  (dt : R) : MotorObj * MotorWorld :=
  match m with
  | Wheel w =>
    let '(w, world) := WheelMotor.command w value world dt in (Wheel w, world)
  | Detailed d =>
    let '(d, world) := WheelMotorDetailed.command d value world dt in
    (Detailed d, world)
  end.

(** *** The controller plugin

    A controller is foreign code.  What the simulator can observe of one
    call of its tick function is the motor commands it issues
    ([sim.motors[name].command(value, sim, dt)], in order), whether the
    call returns or raises (with the text [traceback.format_exc()] gives
    for the raise), and the attributes the object has afterwards.

    [_tick_controller] catches a raise with [except Exception:].  In
    [_tick_robot], [_tick_controller] and [step] every raise is taken to
    be an instance of [Exception], which is caught and recorded.  A raise
    that is not one ([SystemExit], [KeyboardInterrupt]) leaves [step]:
    [_tick_robot_raising], [_tick_controller_raising] and [step_raising]
    further down model the calls with both kinds of raise. *)
Record Command : Type := mkCommand {
  motor : string;
  command_value : R;
  command_dt : R
}.

Record TickOutcome : Type := mkOutcome {
  issued : list Command;
  raised : option string;
  attrs_after : Value
}.

(** [tick_fn] is [getattr(ctrl, "step", None) or getattr(ctrl, "update",
    None)]; [get_state] and [set_state] are present when the object has the
    attribute.  A raising [get_state] returns [None] for its result; a
    raising [set_state] leaves whatever attributes it had written. *)
Record Controller : Type := mkController {
  attrs : Value;
  tick_fn : option (Value -> list (string * Value) -> R -> TickOutcome);
  get_state : option (Value -> option Value * Value);
  set_state : option (Value -> Value -> Value)
}.

Definition with_attrs (c : Controller) (a : Value) : Controller :=
  mkController a (tick_fn c) (get_state c) (set_state c).

(** The messages passed to [_flag_warning]. *)
Inductive PhysicsWarning : Type :=
| ResetLinearVelocity (body : string)
| ResetAngularVelocity (body : string)
| ClampedLinearSpeed (body : string)
| ClampedAngularSpeed (body : string)
| ResetPose (body : string)
| InvalidStepDistance (body : string)
| LargeStep (body : string).

(** The simulator.  Controller objects live in the store [controllers];
    [controller_instance] and the values of [controller_instances] are
    references into it, so that the primary controller is one object
    reachable through both.  Scenario paths, the configuration records kept
    for reloads, and trace logging are not part of the model. *)
Record t : Type := mk {
  dt : R;
  gravity : R * R;
  time : R;
  step_index : Z;
  bodies : list (string * SimObject);
  joints : list JointRuntime;
  sensors : list (string * Sensor.t);
  motors : list (string * MotorObj);
  controller_instance : option nat;
  controller_instances : list (string * option nat);
  controllers : list Controller;
  _rng : Random;
  last_controller_error : option string;
  last_controller_errors : list (string * string);
  last_sensor_readings : list (string * Value);
  last_sensor_readings_by_robot : list (string * list (string * Value));
  last_motor_commands : list (string * R);
  last_motor_commands_by_robot : list (string * list (string * R));
  last_physics_warning : option PhysicsWarning;
  robot_ids : list string;
  sensor_owners : list (string * string);
  motor_owners : list (string * string);
  linear_damping : R;
  angular_damping : R;
  max_linear_speed : R;
  max_angular_speed : R;
  contact_correction_percent : R;
  contact_slop : R;
  max_penetration_correction : R;
  max_step_translation : R
}.

Definition set_time (self : t) (v : R) : t :=
  mk (dt self) (gravity self) v (step_index self) (bodies self) (joints
     self) (sensors self) (motors self) (controller_instance self)
     (controller_instances self) (controllers self) (_rng self)
     (last_controller_error self) (last_controller_errors self)
     (last_sensor_readings self) (last_sensor_readings_by_robot self)
     (last_motor_commands self) (last_motor_commands_by_robot self)
     (last_physics_warning self) (robot_ids self) (sensor_owners self)
     (motor_owners self) (linear_damping self) (angular_damping self)
     (max_linear_speed self) (max_angular_speed self)
     (contact_correction_percent self) (contact_slop self)
     (max_penetration_correction self) (max_step_translation self).

Definition set_step_index (self : t) (v : Z) : t :=
  mk (dt self) (gravity self) (time self) v (bodies self) (joints self)
     (sensors self) (motors self) (controller_instance self)
     (controller_instances self) (controllers self) (_rng self)
     (last_controller_error self) (last_controller_errors self)
     (last_sensor_readings self) (last_sensor_readings_by_robot self)
     (last_motor_commands self) (last_motor_commands_by_robot self)
     (last_physics_warning self) (robot_ids self) (sensor_owners self)
     (motor_owners self) (linear_damping self) (angular_damping self)
     (max_linear_speed self) (max_angular_speed self)
     (contact_correction_percent self) (contact_slop self)
     (max_penetration_correction self) (max_step_translation self).

Definition set_bodies (self : t) (v : list (string * SimObject)) : t :=
  mk (dt self) (gravity self) (time self) (step_index self) v (joints
     self) (sensors self) (motors self) (controller_instance self)
     (controller_instances self) (controllers self) (_rng self)
     (last_controller_error self) (last_controller_errors self)
     (last_sensor_readings self) (last_sensor_readings_by_robot self)
     (last_motor_commands self) (last_motor_commands_by_robot self)
     (last_physics_warning self) (robot_ids self) (sensor_owners self)
     (motor_owners self) (linear_damping self) (angular_damping self)
     (max_linear_speed self) (max_angular_speed self)
     (contact_correction_percent self) (contact_slop self)
     (max_penetration_correction self) (max_step_translation self).

Definition set_joints (self : t) (v : list JointRuntime) : t :=
  mk (dt self) (gravity self) (time self) (step_index self) (bodies self)
     v (sensors self) (motors self) (controller_instance self)
     (controller_instances self) (controllers self) (_rng self)
     (last_controller_error self) (last_controller_errors self)
     (last_sensor_readings self) (last_sensor_readings_by_robot self)
     (last_motor_commands self) (last_motor_commands_by_robot self)
     (last_physics_warning self) (robot_ids self) (sensor_owners self)
     (motor_owners self) (linear_damping self) (angular_damping self)
     (max_linear_speed self) (max_angular_speed self)
     (contact_correction_percent self) (contact_slop self)
     (max_penetration_correction self) (max_step_translation self).

Definition set_sensors (self : t) (v : list (string * Sensor.t)) : t :=
  mk (dt self) (gravity self) (time self) (step_index self) (bodies self)
     (joints self) v (motors self) (controller_instance self)
     (controller_instances self) (controllers self) (_rng self)
     (last_controller_error self) (last_controller_errors self)
     (last_sensor_readings self) (last_sensor_readings_by_robot self)
     (last_motor_commands self) (last_motor_commands_by_robot self)
     (last_physics_warning self) (robot_ids self) (sensor_owners self)
     (motor_owners self) (linear_damping self) (angular_damping self)
     (max_linear_speed self) (max_angular_speed self)
     (contact_correction_percent self) (contact_slop self)
     (max_penetration_correction self) (max_step_translation self).

Definition set_motors (self : t) (v : list (string * MotorObj)) : t :=
  mk (dt self) (gravity self) (time self) (step_index self) (bodies self)
     (joints self) (sensors self) v (controller_instance self)
     (controller_instances self) (controllers self) (_rng self)
     (last_controller_error self) (last_controller_errors self)
     (last_sensor_readings self) (last_sensor_readings_by_robot self)
     (last_motor_commands self) (last_motor_commands_by_robot self)
     (last_physics_warning self) (robot_ids self) (sensor_owners self)
     (motor_owners self) (linear_damping self) (angular_damping self)
     (max_linear_speed self) (max_angular_speed self)
     (contact_correction_percent self) (contact_slop self)
     (max_penetration_correction self) (max_step_translation self).

Definition set_controllers (self : t) (v : list Controller) : t :=
  mk (dt self) (gravity self) (time self) (step_index self) (bodies self)
     (joints self) (sensors self) (motors self) (controller_instance self)
     (controller_instances self) v (_rng self) (last_controller_error
     self) (last_controller_errors self) (last_sensor_readings self)
     (last_sensor_readings_by_robot self) (last_motor_commands self)
     (last_motor_commands_by_robot self) (last_physics_warning self)
     (robot_ids self) (sensor_owners self) (motor_owners self)
     (linear_damping self) (angular_damping self) (max_linear_speed self)
     (max_angular_speed self) (contact_correction_percent self)
     (contact_slop self) (max_penetration_correction self)
     (max_step_translation self).

Definition set_rng (self : t) (v : Random) : t :=
  mk (dt self) (gravity self) (time self) (step_index self) (bodies self)
     (joints self) (sensors self) (motors self) (controller_instance self)
     (controller_instances self) (controllers self) v
     (last_controller_error self) (last_controller_errors self)
     (last_sensor_readings self) (last_sensor_readings_by_robot self)
     (last_motor_commands self) (last_motor_commands_by_robot self)
     (last_physics_warning self) (robot_ids self) (sensor_owners self)
     (motor_owners self) (linear_damping self) (angular_damping self)
     (max_linear_speed self) (max_angular_speed self)
     (contact_correction_percent self) (contact_slop self)
     (max_penetration_correction self) (max_step_translation self).

Definition set_last_controller_error (self : t) (v : option string) : t :=
  mk (dt self) (gravity self) (time self) (step_index self) (bodies self)
     (joints self) (sensors self) (motors self) (controller_instance self)
     (controller_instances self) (controllers self) (_rng self) v
     (last_controller_errors self) (last_sensor_readings self)
     (last_sensor_readings_by_robot self) (last_motor_commands self)
     (last_motor_commands_by_robot self) (last_physics_warning self)
     (robot_ids self) (sensor_owners self) (motor_owners self)
     (linear_damping self) (angular_damping self) (max_linear_speed self)
     (max_angular_speed self) (contact_correction_percent self)
     (contact_slop self) (max_penetration_correction self)
     (max_step_translation self).

Definition set_last_controller_errors (self : t) (v : list (string * string)) : t :=
  mk (dt self) (gravity self) (time self) (step_index self) (bodies self)
     (joints self) (sensors self) (motors self) (controller_instance self)
     (controller_instances self) (controllers self) (_rng self)
     (last_controller_error self) v (last_sensor_readings self)
     (last_sensor_readings_by_robot self) (last_motor_commands self)
     (last_motor_commands_by_robot self) (last_physics_warning self)
     (robot_ids self) (sensor_owners self) (motor_owners self)
     (linear_damping self) (angular_damping self) (max_linear_speed self)
     (max_angular_speed self) (contact_correction_percent self)
     (contact_slop self) (max_penetration_correction self)
     (max_step_translation self).

Definition set_last_sensor_readings (self : t) (v : list (string * Value)) : t :=
  mk (dt self) (gravity self) (time self) (step_index self) (bodies self)
     (joints self) (sensors self) (motors self) (controller_instance self)
     (controller_instances self) (controllers self) (_rng self)
     (last_controller_error self) (last_controller_errors self) v
     (last_sensor_readings_by_robot self) (last_motor_commands self)
     (last_motor_commands_by_robot self) (last_physics_warning self)
     (robot_ids self) (sensor_owners self) (motor_owners self)
     (linear_damping self) (angular_damping self) (max_linear_speed self)
     (max_angular_speed self) (contact_correction_percent self)
     (contact_slop self) (max_penetration_correction self)
     (max_step_translation self).

Definition set_last_sensor_readings_by_robot (self : t) (v : list (string * list (string * Value))) : t :=
  mk (dt self) (gravity self) (time self) (step_index self) (bodies self)
     (joints self) (sensors self) (motors self) (controller_instance self)
     (controller_instances self) (controllers self) (_rng self)
     (last_controller_error self) (last_controller_errors self)
     (last_sensor_readings self) v (last_motor_commands self)
     (last_motor_commands_by_robot self) (last_physics_warning self)
     (robot_ids self) (sensor_owners self) (motor_owners self)
     (linear_damping self) (angular_damping self) (max_linear_speed self)
     (max_angular_speed self) (contact_correction_percent self)
     (contact_slop self) (max_penetration_correction self)
     (max_step_translation self).

Definition set_last_motor_commands (self : t) (v : list (string * R)) : t :=
  mk (dt self) (gravity self) (time self) (step_index self) (bodies self)
     (joints self) (sensors self) (motors self) (controller_instance self)
     (controller_instances self) (controllers self) (_rng self)
     (last_controller_error self) (last_controller_errors self)
     (last_sensor_readings self) (last_sensor_readings_by_robot self) v
     (last_motor_commands_by_robot self) (last_physics_warning self)
     (robot_ids self) (sensor_owners self) (motor_owners self)
     (linear_damping self) (angular_damping self) (max_linear_speed self)
     (max_angular_speed self) (contact_correction_percent self)
     (contact_slop self) (max_penetration_correction self)
     (max_step_translation self).

Definition set_last_motor_commands_by_robot (self : t) (v : list (string * list (string * R))) : t :=
  mk (dt self) (gravity self) (time self) (step_index self) (bodies self)
     (joints self) (sensors self) (motors self) (controller_instance self)
     (controller_instances self) (controllers self) (_rng self)
     (last_controller_error self) (last_controller_errors self)
     (last_sensor_readings self) (last_sensor_readings_by_robot self)
     (last_motor_commands self) v (last_physics_warning self) (robot_ids
     self) (sensor_owners self) (motor_owners self) (linear_damping self)
     (angular_damping self) (max_linear_speed self) (max_angular_speed
     self) (contact_correction_percent self) (contact_slop self)
     (max_penetration_correction self) (max_step_translation self).

Definition set_last_physics_warning (self : t) (v : option PhysicsWarning) : t :=
  mk (dt self) (gravity self) (time self) (step_index self) (bodies self)
     (joints self) (sensors self) (motors self) (controller_instance self)
     (controller_instances self) (controllers self) (_rng self)
     (last_controller_error self) (last_controller_errors self)
     (last_sensor_readings self) (last_sensor_readings_by_robot self)
     (last_motor_commands self) (last_motor_commands_by_robot self) v
     (robot_ids self) (sensor_owners self) (motor_owners self)
     (linear_damping self) (angular_damping self) (max_linear_speed self)
     (max_angular_speed self) (contact_correction_percent self)
     (contact_slop self) (max_penetration_correction self)
     (max_step_translation self).

Definition _record_controller_error (self : t) (robot_id : string)
  (message : option string) : t :=
  let errors :=
    match message with
    | Some m =>
      if str_truthy m then dict_set (last_controller_errors self) robot_id m
      else dict_pop (last_controller_errors self) robot_id
    | None => dict_pop (last_controller_errors self) robot_id
    end in
  let self := set_last_controller_errors self errors in
  set_last_controller_error self
    (match errors with [] => None | (_, v) :: _ => Some v end).

(** [clear_controller_error(robot_id)]. *)
Definition clear_controller_error (self : t) (robot_id : option string) : t :=
  let errors :=
    match robot_id with
    | None => []
    | Some rid => dict_pop (last_controller_errors self) rid
    end in
  let self := set_last_controller_errors self errors in
  set_last_controller_error self
    (match errors with [] => None | (_, v) :: _ => Some v end).

(** *** Sensors *)

(** The loop of [_update_sensors]: the sensors after their reads, the
    generator, [readings] and [per_robot]. *)
Fixpoint _update_sensors_loop (items : list (string * Sensor.t))
  (self : t) (dt : R) (rng : Random)
  (readings : list (string * Value))
  (per_robot : list (string * list (string * Value)))
  : list (string * Sensor.t) * Random * list (string * Value)
    * list (string * list (string * Value)) :=
  match items with
  | [] => ([], rng, readings, per_robot)
  | (name, sensor) :: rest =>
    let '(sensor, reading, rng) :=
      Sensor.read sensor (mkView (bodies self) (time self) rng) dt in
    let '(readings, per_robot) :=
      match reading with
      | None => (readings, per_robot)
      | Some reading =>
        let readings := dict_set readings name (value reading) in
        match dict_get (sensor_owners self) name with
        | Some owner =>
          if str_truthy owner then
            let mine :=
              match dict_get per_robot owner with
              | Some d => d
              | None => []
              end in
            (readings,
             dict_set per_robot owner (dict_set mine name (value reading)))
          else (readings, per_robot)
        | None => (readings, per_robot)
        end
      end in
    let '(rest, rng, readings, per_robot) :=
      _update_sensors_loop rest self dt rng readings per_robot in
    ((name, sensor) :: rest, rng, readings, per_robot)
  end.

Definition _update_sensors (self : t) (dt : R) : t * list (string * Value) :=
  let per_robot :=
    fold_left (fun d rid => dict_set d rid []) (robot_ids self) [] in
  let '(sensors', rng, readings, per_robot) :=
    _update_sensors_loop (sensors self) self dt (_rng self) [] per_robot in
  let self := set_sensors self sensors' in
  let self := set_rng self rng in
  let self := set_last_sensor_readings_by_robot self per_robot in
  (self, readings).

(** *** Controllers *)

(** One [motor.command(value, sim, dt)] issued by a controller: the motor
    and its parent body are updated in place.  A name that is not in the
    motors table commands nothing. *)
Definition command_motor (self : t) (c : Command) : t :=
  match dict_get (motors self) (motor c) with
  | None => self
  | Some m =>
    let parent_name := MountedComponent.parent (Motor.component (motor_base m)) in
    let parent :=
      match parent_name with
      | None => None
      | Some b => dict_get (bodies self) b
      end in
    let '(m, world) :=
      motor_command m (command_value c)
                    (mkMotorWorld parent (Some (step_index self)))
                    (command_dt c) in
    let self := set_motors self (dict_set (motors self) (motor c) m) in
    match parent_name, parent_body world with
    | Some b, Some body => set_bodies self (dict_set (bodies self) b body)
    | _, _ => self
    end
  end.

(** [self.controller_instances.get(rid) if self.controller_instances else
    self.controller_instance]. *)
Definition _controller_for (self : t) (rid : string) : option nat :=
  match controller_instances self with
  | [] => controller_instance self
  | insts => match dict_get insts rid with Some c => c | None => None end
  end.

(** [self.last_controller_errors.get(rid)] as a condition. *)
Definition has_error (self : t) (rid : string) : bool :=
  match dict_get (last_controller_errors self) rid with
  | Some m => str_truthy m
  | None => false
  end.

Fixpoint replace_nth {A : Type} (l : list A) (n : nat) (a : A) : list A :=
  match l, n with
  | [], _ => []
  | _ :: rest, O => a :: rest
  | x :: rest, S n => x :: replace_nth rest n a
  end.

(** Whether robot [rid] has a controller object with a tick function. *)
Definition has_tick_fn (self : t) (rid : string) : bool :=
  match _controller_for self rid with
  | None => false
  | Some ref =>
    match nth_error (controllers self) ref with
    | None => false
    | Some ctrl =>
      match tick_fn ctrl with Some _ => true | None => false end
    end
  end.

(** The body of the loop of [_tick_controller] for one robot, when what
    the tick function raises is an instance of [Exception]
    ([_tick_robot_raising] has both kinds of raise).  The second component
    is [None] when the controller's tick function was not called and the
    outcome of the call otherwise. *)
Definition _tick_robot (self : t) (sensor_readings : list (string * Value))
  (dt : R) (rid : string) : t * option TickOutcome :=
  match _controller_for self rid with
  | None => (self, None)
  | Some ref =>
    match nth_error (controllers self) ref with
    | None => (self, None)
    | Some ctrl =>
      match tick_fn ctrl with
      | None => (self, None)
      | Some tick =>
        if has_error self rid then (self, None)
        else
          let per_robot_readings :=
            match dict_get (last_sensor_readings_by_robot self) rid with
            | Some r => r
            | None => sensor_readings
            end in
          let out := tick (attrs ctrl) per_robot_readings dt in
          let self :=
            set_controllers self
              (replace_nth (controllers self) ref
                           (with_attrs ctrl (attrs_after out))) in
          let self := fold_left command_motor (issued out) self in
          let self :=
            match raised out with
            | Some traceback =>
              _record_controller_error self rid (Some traceback)
            | None => self
            end in
          (self, Some out)
      end
    end
  end.

(** [_tick_controller]; the second component lists, in order, the calls of
    tick functions made: the robot and the outcome of the call. *)
Fixpoint _tick_controller_loop (rids : list string) (self : t)
  (sensor_readings : list (string * Value)) (dt : R)
  : t * list (string * TickOutcome) :=
  match rids with
  | [] => (self, [])
  | rid :: rest =>
    let '(self, called) := _tick_robot self sensor_readings dt rid in
    let '(self, log) := _tick_controller_loop rest self sensor_readings dt in
    (self, match called with Some out => (rid, out) :: log | None => log end)
  end.

Definition _tick_controller (self : t)
  (sensor_readings : list (string * Value)) (dt : R)
  : t * list (string * TickOutcome) :=
  _tick_controller_loop (robot_ids self) self sensor_readings dt.

(** *** Safety and clamping helpers *)

Definition _flag_warning (self : t) (message : PhysicsWarning) : t :=
  set_last_physics_warning self (Some message).

Definition _sanitize_velocity (self : t) (body : SimObject) : t * SimObject :=
  let '(vx, vy) := linear_velocity (state body) in
  let omega := angular_velocity (state body) in
  let '(self, body, vx, vy) :=
    if negb (isfinite vx && isfinite vy) then
      (_flag_warning self (ResetLinearVelocity (Entities.name body)),
       set_linear_velocity body (0, 0), 0, 0)
    else (self, body, vx, vy) in
  let '(self, body, omega) :=
    if negb (isfinite omega) then
      (_flag_warning self (ResetAngularVelocity (Entities.name body)),
       set_angular_velocity body 0, 0)
    else (self, body, omega) in
  let speed := hypot vx vy in
  let '(self, body) :=
    if Rltb 0 (max_linear_speed self) && Rltb (max_linear_speed self) speed
    then
      let scale := max_linear_speed self / Rmax speed 1e-9 in
      (_flag_warning self (ClampedLinearSpeed (Entities.name body)),
       set_linear_velocity body (vx * scale, vy * scale))
    else (self, body) in
  if Rltb 0 (max_angular_speed self)
     && Rltb (max_angular_speed self) (Rabs omega)
  then
    (_flag_warning self (ClampedAngularSpeed (Entities.name body)),
     set_angular_velocity body (copysign (max_angular_speed self) omega))
  else (self, body).

Definition _sanitize_pose (self : t) (body : SimObject) : t * SimObject :=
  let p := pose body in
  if negb (isfinite (Pose2D.x p) && isfinite (Pose2D.y p)
           && isfinite (Pose2D.theta p))
  then (_flag_warning self (ResetPose (Entities.name body)),
        set_pose body (Pose2D.mk 0 0 0))
  else (self, body).

(** The loop of [_check_step_sanity] over [self.bodies.items()]. *)
Fixpoint _check_step_sanity_loop (items : list (string * SimObject))
  (self : t) (prev_poses : list (string * Pose2D.t)) (limit : R)
  : list (string * SimObject) * t :=
  match items with
  | [] => ([], self)
  | (name, body) :: rest =>
    let '(body, self) :=
      if negb (can_move body) then (body, self)
      else
        match dict_get prev_poses name with
        | None => (body, self)
        | Some prev =>
          let dx := Pose2D.x (pose body) - Pose2D.x prev in
          let dy := Pose2D.y (pose body) - Pose2D.y prev in
          let dist := hypot dx dy in
          if negb (isfinite dist) then
            (set_pose body prev, _flag_warning self (InvalidStepDistance name))
          else if Rltb limit dist then
            let self := _flag_warning self (LargeStep name) in
            if Rltb 1e-9 dist then
              let scale := limit / dist in
              (set_pose body
                 (Pose2D.mk (Pose2D.x prev + dx * scale)
                            (Pose2D.y prev + dy * scale)
                            (Pose2D.theta (pose body))), self)
            else (set_pose body prev, self)
          else (body, self)
        end in
    let '(rest, self) := _check_step_sanity_loop rest self prev_poses limit in
    ((name, body) :: rest, self)
  end.

Definition _check_step_sanity (self : t)
  (prev_poses : list (string * Pose2D.t)) (dt : R) : t :=
  if Rleb (max_step_translation self) 0 then self
  else
    let '(bodies', self) :=
      _check_step_sanity_loop (bodies self) self prev_poses
                              (max_step_translation self) in
    set_bodies self bodies'.

(** *** Integration *)

(** The loop of [_integrate_bodies] over [self.bodies.values()]. *)
Fixpoint _integrate_bodies_loop (items : list (string * SimObject))
  (self : t) (dt : R) : list (string * SimObject) * t :=
  match items with
  | [] => ([], self)
  | (name, body) :: rest =>
    let '(gx, gy) := gravity self in
    let '(body, self) :=
      if negb (can_move body) || Rleb (mass (state body)) 0 then
        (clear_impulses body, self)
      else
        (* gravity *)
        let body :=
          apply_force body (gx * mass (state body), gy * mass (state body)) in
        (* simple damping *)
        let '(vx, vy) := linear_velocity (state body) in
        let body :=
          set_linear_velocity body
            (vx * linear_damping self, vy * linear_damping self) in
        let body :=
          set_angular_velocity body
            (angular_velocity (state body) * angular_damping self) in
        let '(self, body) := _sanitize_velocity self body in
        let body := integrate body dt in
        let '(self, body) := _sanitize_pose self body in
        (body, self) in
    let '(rest, self) := _integrate_bodies_loop rest self dt in
    ((name, body) :: rest, self)
  end.

Definition _integrate_bodies (self : t) (dt : R) : t :=
  let '(bodies', self) := _integrate_bodies_loop (bodies self) self dt in
  set_bodies self bodies'.

(** *** Joints *)

Definition set_lambda_accum (jr : JointRuntime) (v : R) : JointRuntime :=
  mkJointRuntime (cfg jr) (compliance jr) (damping jr) v.

(** [body.pose = body.pose.translated(dx, dy)] on the body stored under
    [name]. *)
Definition translate_body (self : t) (name : string) (dx dy : R) : t :=
  match dict_get (bodies self) name with
  | None => self
  | Some body =>
    set_bodies self
      (dict_set (bodies self) name
                (set_pose body (Pose2D.translated (pose body) dx dy)))
  end.

(** The body of the loop of [_solve_joints] for one joint. *)
Definition _solve_joint (self : t) (jr : JointRuntime) (dt : R)
  : t * JointRuntime :=
  match dict_get (bodies self) (parent (cfg jr)),
        dict_get (bodies self) (child (cfg jr)) with
  | Some parent_body, Some child_body =>
    if negb (can_move parent_body) && negb (can_move child_body) then (self, jr)
    else
      let pa := Pose2D.transform_point (pose parent_body)
                                       (anchor_parent (cfg jr)) in
      let pb := Pose2D.transform_point (pose child_body)
                                       (anchor_child (cfg jr)) in
      let dx := fst pb - fst pa in
      let dy := snd pb - snd pa in
      let dist := hypot dx dy in
      let target :=
        if Reqb (lower_limit (cfg jr)) (upper_limit (cfg jr))
        then upper_limit (cfg jr) else 0 in
      let error := dist - target in
      if Rltb (Rabs error) 1e-5 then (self, jr)
      else
        let n := (dx / (dist + 1e-6), dy / (dist + 1e-6)) in
        let inv_mass_a :=
          if negb (can_move parent_body) then 0
          else 1 / Rmax (mass (state parent_body)) 1e-6 in
        let inv_mass_b :=
          if negb (can_move child_body) then 0
          else 1 / Rmax (mass (state child_body)) 1e-6 in
        let w := inv_mass_a + inv_mass_b in
        if Reqb w 0 then (self, jr)
        else
          let alpha := 1 / (compliance jr + 1e-9) in
          let dlambda := - error * alpha / (w + alpha * dt * dt) in
          if negb (isfinite dlambda) then (self, jr)
          else
            let jr := set_lambda_accum jr (lambda_accum jr + dlambda) in
            let correction :=
              Rmax (- max_penetration_correction self)
                   (Rmin (max_penetration_correction self) dlambda) in
            let self :=
              if can_move parent_body then
                translate_body self (parent (cfg jr))
                  (- fst n * correction * inv_mass_a)
                  (- snd n * correction * inv_mass_a)
              else self in
            let self :=
              if can_move child_body then
                translate_body self (child (cfg jr))
                  (fst n * correction * inv_mass_b)
                  (snd n * correction * inv_mass_b)
              else self in
            (self, jr)
  | _, _ => (self, jr)
  end.

Fixpoint _solve_joints_loop (jrs : list JointRuntime) (self : t) (dt : R)
  : list JointRuntime * t :=
  match jrs with
  | [] => ([], self)
  | jr :: rest =>
    let '(self, jr) := _solve_joint self jr dt in
    let '(rest, self) := _solve_joints_loop rest self dt in
    (jr :: rest, self)
  end.

Definition _solve_joints (self : t) (dt : R) : t :=
  let '(joints', self) := _solve_joints_loop (joints self) self dt in
  set_joints self joints'.

(** *** Contacts *)

(** What resolving one pair of bodies leaves behind: the simulator (for
    its warning), the two bodies, and the local variables [j] and [jt] when
    the corresponding impulse was applied. *)
Record ContactOutcome : Type := mkContact {
  contact_self : t;
  body_a : SimObject;
  body_b : SimObject;
  normal_impulse : option R;
  tangent_impulse : option R
}.

Definition inv_mass_of (body : SimObject) : R :=
  if negb (can_move body) then 0 else 1 / Rmax (mass (state body)) 1e-6.

(** [rvx * normal[0] + rvy * normal[1]] for the relative velocity of [a]
    with respect to [b]. *)
Definition vel_along (a b : SimObject) (axis : Point2D) : R :=
  let rvx := fst (linear_velocity (state a)) - fst (linear_velocity (state b)) in
  let rvy := snd (linear_velocity (state a)) - snd (linear_velocity (state b)) in
  rvx * fst axis + rvy * snd axis.

(** The pair's combined restitution. *)
Definition combined_restitution (a b : SimObject) : R :=
  let restitution :=
    Rmax (restitution (material a)) (restitution (material b)) in
  Rmax 0 (Rmin 1 restitution).

(** [mu], the mean of the two friction coefficients. *)
Definition mean_friction (a b : SimObject) : R :=
  0.5 * (friction (material a) + friction (material b)).

(** [v - inv_mass * impulse] on the linear velocity of a movable body. *)
Definition push_back (body : SimObject) (inv_mass : R) (impulse : Point2D)
  : SimObject :=
  if can_move body then
    set_linear_velocity body
      (fst (linear_velocity (state body)) - inv_mass * fst impulse,
       snd (linear_velocity (state body)) - inv_mass * snd impulse)
  else body.

(** [v + inv_mass * impulse] on the linear velocity of a movable body. *)
Definition push_forward (body : SimObject) (inv_mass : R) (impulse : Point2D)
  : SimObject :=
  if can_move body then
    set_linear_velocity body
      (fst (linear_velocity (state body)) + inv_mass * fst impulse,
       snd (linear_velocity (state body)) + inv_mass * snd impulse)
  else body.

(** The body of the inner loop of [_solve_contacts] once a manifold has been
    found. *)
Definition _resolve_contact (self : t) (a b : SimObject)
  (manifold : CollisionManifold) : ContactOutcome :=
  let normal := normal manifold in
  let penetration := penetration manifold in
  let inv_mass_a := inv_mass_of a in
  let inv_mass_b := inv_mass_of b in
  let inv_mass_sum := inv_mass_a + inv_mass_b in
  if Reqb inv_mass_sum 0 then mkContact self a b None None
  else
    (* positional correction (baumgarte-ish) *)
    let percent := contact_correction_percent self in
    let slop := contact_slop self in
    let correction_mag := Rmax (penetration - slop) 0 * percent / inv_mass_sum in
    let correction_mag := Rmin correction_mag (max_penetration_correction self) in
    if negb (isfinite correction_mag) then mkContact self a b None None
    else
      let correction := (fst normal * correction_mag,
                         snd normal * correction_mag) in
      let a :=
        if can_move a then
          set_pose a (Pose2D.translated (pose a)
                        (- fst correction * inv_mass_a)
                        (- snd correction * inv_mass_a))
        else a in
      let b :=
        if can_move b then
          set_pose b (Pose2D.translated (pose b)
                        (fst correction * inv_mass_b)
                        (snd correction * inv_mass_b))
        else b in
      (* relative velocity *)
      let vel_along_normal := vel_along a b normal in
      if Rltb 0 vel_along_normal || negb (isfinite vel_along_normal)
      then mkContact self a b None None
      else
        let restitution := combined_restitution a b in
        let j := - (1 + restitution) * vel_along_normal in
        let j := j / inv_mass_sum in
        if negb (isfinite j) then mkContact self a b None None
        else
          let impulse := (j * fst normal, j * snd normal) in
          let a := push_back a inv_mass_a impulse in
          let b := push_forward b inv_mass_b impulse in
          (* friction (Coulomb) *)
          let tangent := (- snd normal, fst normal) in
          let vt := vel_along a b tangent in
          let jt := (- vt) / inv_mass_sum in
          if negb (isfinite jt) then mkContact self a b (Some j) None
          else
            let mu := mean_friction a b in
            let jt_limit := mu * Rabs j in
            let jt := Rmax (- jt_limit) (Rmin jt_limit jt) in
            let t_impulse := (jt * fst tangent, jt * snd tangent) in
            let a := push_back a inv_mass_a t_impulse in
            let b := push_forward b inv_mass_b t_impulse in
            let '(self, a) :=
              if can_move a then _sanitize_velocity self a else (self, a) in
            let '(self, b) :=
              if can_move b then _sanitize_velocity self b else (self, b) in
            mkContact self a b (Some j) (Some jt).

(** The body of the inner loop of [_solve_contacts] for the bodies stored
    under [name_a] and [name_b]. *)
Definition _solve_pair (self : t) (name_a name_b : string) : t :=
  match dict_get (bodies self) name_a, dict_get (bodies self) name_b with
  | Some a, Some b =>
    if negb (can_move a || can_move b) then self
    else
      match collision_manifold (shape a) (pose a) (shape b) (pose b) with
      | None => self
      | Some manifold =>
        let out := _resolve_contact self a b manifold in
        let self := contact_self out in
        let self := set_bodies self (dict_set (bodies self) name_a (body_a out)) in
        set_bodies self (dict_set (bodies self) name_b (body_b out))
      end
  | _, _ => self
  end.

Fixpoint _solve_contacts_inner (self : t) (name_a : string)
  (later : list string) : t :=
  match later with
  | [] => self
  | name_b :: rest =>
    _solve_contacts_inner (_solve_pair self name_a name_b) name_a rest
  end.

Fixpoint _solve_contacts_outer (self : t) (names : list string) : t :=
  match names with
  | [] => self
  | name_a :: rest =>
    _solve_contacts_outer (_solve_contacts_inner self name_a rest) rest
  end.

Definition _solve_contacts (self : t) (dt : R) : t :=
  _solve_contacts_outer self (map fst (bodies self)).

(** *** Stepping *)

(** The physics phases of a tick, in order. *)
Definition _physics (self : t) (prev_poses : list (string * Pose2D.t))
  (dt : R) : t :=
  let self := _integrate_bodies self dt in
  let self := _solve_joints self dt in
  let self := _solve_contacts self dt in
  _check_step_sanity self prev_poses dt.

(** The bookkeeping at the end of [step]. *)
Definition _finish_step (self : t) (dt : R) : t :=
  let commands :=
    map (fun kv : string * MotorObj =>
           (fst kv, Motor.last_command (motor_base (snd kv))))
        (motors self) in
  let self := set_last_motor_commands self commands in
  let motor_map :=
    fold_left
      (fun (m : list (string * list (string * R))) (kv : string * R) =>
         match dict_get (motor_owners self) (fst kv) with
         | Some owner =>
           if str_truthy owner then
             let mine :=
               match dict_get m owner with Some d => d | None => [] end in
             dict_set m owner (dict_set mine (fst kv) (snd kv))
           else m
         | None => m
         end)
      commands [] in
  let self := set_last_motor_commands_by_robot self motor_map in
  let self := set_time self (time self + dt) in
  set_step_index self (step_index self + 1)%Z.

(** [step(dt)] together with the calls of controller tick functions made
    during the tick. *)
Definition step_log (self : t) (dt_opt : option R)
  : t * list (string * TickOutcome) :=
  let dt := match dt_opt with Some d => d | None => dt self end in
  let self := set_last_physics_warning self None in
  let prev_poses :=
    map (fun kv : string * SimObject => (fst kv, pose (snd kv)))
        (bodies self) in
  (* Sensors read before controller *)
  let '(self, sensor_readings) := _update_sensors self dt in
  let self := set_last_sensor_readings self sensor_readings in
  (* Controller update *)
  let '(self, log) := _tick_controller self sensor_readings dt in
  let self := _physics self prev_poses dt in
  (_finish_step self dt, log).

Definition step (self : t) (dt_opt : option R) : t := fst (step_log self dt_opt).

(** *** Raises that leave [step]

    [except Exception:] catches the instances of [Exception].  A tick
    function that calls [sys.exit()] or is interrupted from the keyboard
    raises a [BaseException] that is not one ([SystemExit],
    [KeyboardInterrupt], [GeneratorExit]): no handler of [_tick_controller]
    or [step] matches it, so it leaves both at once.  [is_exception
    traceback] is [isinstance(exc, Exception)] for the raise whose text is
    [traceback].

    A call either returns its result or raises; a raise leaves behind the
    objects as the call had mutated them so far. *)
Inductive Completion (A : Type) : Type :=
| Returns (result : A)
| Raises (traceback : string) (behind : A).

Arguments Returns {A} result.
Arguments Raises {A} traceback behind.

(** The result of a call that returns, what is left behind by one that
    raises. *)
Definition payload {A : Type} (c : Completion A) : A :=
  match c with
  | Returns a => a
  | Raises _ a => a
  end.

(** The body of the loop of [_tick_controller] for one robot, with the
    [try] statement as the source has it. *)
Definition _tick_robot_raising (is_exception : string -> bool) (self : t)
  (sensor_readings : list (string * Value)) (dt : R) (rid : string)
  : Completion (t * option TickOutcome) :=
  match _controller_for self rid with
  | None => Returns (self, None)
  | Some ref =>
    match nth_error (controllers self) ref with
    | None => Returns (self, None)
    | Some ctrl =>
      match tick_fn ctrl with
      | None => Returns (self, None)
      | Some tick =>
        if has_error self rid then Returns (self, None)
        else
          let per_robot_readings :=
            match dict_get (last_sensor_readings_by_robot self) rid with
            | Some r => r
            | None => sensor_readings
            end in
          let out := tick (attrs ctrl) per_robot_readings dt in
          let self :=
            set_controllers self
              (replace_nth (controllers self) ref
                           (with_attrs ctrl (attrs_after out))) in
          let self := fold_left command_motor (issued out) self in
          match raised out with
          | Some traceback =>
            if is_exception traceback then
              Returns (_record_controller_error self rid (Some traceback),
                       Some out)
            else Raises traceback (self, Some out)
          | None => Returns (self, Some out)
          end
      end
    end
  end.

(** [_tick_controller]: the loop ends at the first raise that is not
    caught. *)
Fixpoint _tick_controller_raising_loop (is_exception : string -> bool)
  (rids : list string) (self : t)
  (sensor_readings : list (string * Value)) (dt : R)
  : Completion (t * list (string * TickOutcome)) :=
  match rids with
  | [] => Returns (self, [])
  | rid :: rest =>
    let entry (called : option TickOutcome) :=
      match called with Some out => [(rid, out)] | None => [] end in
    match _tick_robot_raising is_exception self sensor_readings dt rid with
    | Raises traceback (self, called) => Raises traceback (self, entry called)
    | Returns (self, called) =>
      match _tick_controller_raising_loop is_exception rest self
                                          sensor_readings dt with
      | Raises traceback (self, log) =>
        Raises traceback (self, entry called ++ log)
      | Returns (self, log) => Returns (self, entry called ++ log)
      end
    end
  end.

Definition _tick_controller_raising (is_exception : string -> bool) (self : t)
  (sensor_readings : list (string * Value)) (dt : R)
  : Completion (t * list (string * TickOutcome)) :=
  _tick_controller_raising_loop is_exception (robot_ids self) self
                                sensor_readings dt.

(** [step(dt)]: a raise that leaves [_tick_controller] leaves [step]
    before the physics phases and the bookkeeping. *)
Definition step_raising (is_exception : string -> bool) (self : t)
  (dt_opt : option R) : Completion (t * list (string * TickOutcome)) :=
  let dt := match dt_opt with Some d => d | None => dt self end in
  let self := set_last_physics_warning self None in
  let prev_poses :=
    map (fun kv : string * SimObject => (fst kv, pose (snd kv)))
        (bodies self) in
  let '(self, sensor_readings) := _update_sensors self dt in
  let self := set_last_sensor_readings self sensor_readings in
  match _tick_controller_raising is_exception self sensor_readings dt with
  | Raises traceback behind => Raises traceback behind
  | Returns (self, log) =>
    let self := _physics self prev_poses dt in
    Returns (_finish_step self dt, log)
  end.

(** Every raise among the calls [log] is an instance of [Exception]. *)
Definition exceptions_only (is_exception : string -> bool)
  (log : list (string * TickOutcome)) : Prop :=
  forall rid out traceback,
    In (rid, out) log -> raised out = Some traceback ->
    is_exception traceback = true.

(** Controller objects whose tick functions raise instances of
    [Exception] only, whatever they are called with. *)
Definition raise_exceptions (is_exception : string -> bool)
  (cs : list Controller) : Prop :=
  forall n c tick a readings dt traceback,
    nth_error cs n = Some c -> tick_fn c = Some tick ->
    raised (tick a readings dt) = Some traceback ->
    is_exception traceback = true.

(** *** Snapshots *)

(** [SnapshotState] of core/config.py.  The per-body entry is a dictionary
    read with [.get(key, default)], so every key may be missing. *)
Record PoseDict : Type := mkPoseDict {
  dict_x : option R;
  dict_y : option R;
  dict_theta : option R
}.

Record BodyState : Type := mkBodyState {
  snap_pose : option PoseDict;
  lin_vel : option (R * R);
  ang_vel : option R
}.

Record SnapshotState : Type := mkSnapshot {
  snap_time : R;
  snap_step : Z;
  snap_bodies : list (string * BodyState);
  controller_state : option Value
}.

Definition as_dict (p : Pose2D.t) : PoseDict :=
  mkPoseDict (Some (Pose2D.x p)) (Some (Pose2D.y p)) (Some (Pose2D.theta p)).

(** The entry [snapshot()] stores for a body. *)
Definition body_snapshot (body : SimObject) : BodyState :=
  mkBodyState (Some (as_dict (pose body)))
              (Some (linear_velocity (state body)))
              (Some (angular_velocity (state body))).

(** [snapshot()].  Calling the controller's [get_state] may change the
    controller, so the simulator is returned as well. *)
Definition snapshot (self : t) : t * SnapshotState :=
  let body_state :=
    fold_left
      (fun (d : list (string * BodyState)) (kv : string * SimObject) =>
         dict_set d (fst kv) (body_snapshot (snd kv)))
      (bodies self) [] in
  let '(self, ctrl_state) :=
    match controller_instance self with
    | None => (self, None)
    | Some ref =>
      match nth_error (controllers self) ref with
      | None => (self, None)
      | Some ctrl =>
        match get_state ctrl with
        | None => (self, None)
        | Some get =>
          let '(result, attrs') := get (attrs ctrl) in
          (set_controllers self
             (replace_nth (controllers self) ref (with_attrs ctrl attrs')),
           result)
        end
      end
    end in
  (self, mkSnapshot (time self) (step_index self) body_state ctrl_state).

Definition or_default {A : Type} (o : option A) (d : A) : A :=
  match o with Some a => a | None => d end.

(** The body of the loop of [apply_snapshot] for one entry. *)
Definition _restore_body (bodies : list (string * SimObject))
  (name : string) (s : BodyState) : list (string * SimObject) :=
  match dict_get bodies name with
  | None => bodies
  | Some body =>
    let p := or_default (snap_pose s) (mkPoseDict None None None) in
    let body :=
      set_pose body
        (Pose2D.mk (or_default (dict_x p) 0) (or_default (dict_y p) 0)
                   (or_default (dict_theta p) 0)) in
    let body := set_linear_velocity body (or_default (lin_vel s) (0, 0)) in
    let body := set_angular_velocity body (or_default (ang_vel s) 0) in
    dict_set bodies name body
  end.

Definition apply_snapshot (self : t) (snap : SnapshotState) : t :=
  let self := set_time self (snap_time snap) in
  let self := set_step_index self (snap_step snap) in
  let self :=
    set_bodies self
      (fold_left (fun bs (kv : string * BodyState) =>
                    _restore_body bs (fst kv) (snd kv))
                 (snap_bodies snap) (bodies self)) in
  match controller_instance self, controller_state snap with
  | Some ref, Some cs =>
    if truthy cs then
      match nth_error (controllers self) ref with
      | Some ctrl =>
        match set_state ctrl with
        | Some set =>
          set_controllers self
            (replace_nth (controllers self) ref
                         (with_attrs ctrl (set (attrs ctrl) cs)))
        | None => self
        end
      | None => self
      end
    else self
  | _, _ => self
  end.

(** [Simulator.__init__], given the generator that [random.Random()]
    creates. *)
Definition init (rng : Random) : t :=
  mk (1 / 120) (0, -9.81) 0 0 [] [] [] [] None [] [] rng None [] [] [] [] []
     None [] [] [] 0.995 0.995 15 40 0.25 0.002 0.05 0.5.

(** *** What a snapshot does not cover *)

(** The part of a body that is not stored in a snapshot. *)
Definition body_rest (body : SimObject) :=
  (Entities.name body, shape body, material body, can_move body,
   mass (state body), moment_of_inertia (state body),
   _pending_forces body, _pending_torque body).

(** The simulator state other than the clock, the body table and the
    controller store. *)
Definition outside_snapshot (self : t) :=
  (dt self, gravity self, joints self, sensors self, motors self,
   controller_instance self, controller_instances self, _rng self,
   (last_controller_error self, last_controller_errors self,
    last_sensor_readings self, last_sensor_readings_by_robot self,
    last_motor_commands self, last_motor_commands_by_robot self,
    last_physics_warning self),
   (robot_ids self, sensor_owners self, motor_owners self),
   (linear_damping self, angular_damping self, max_linear_speed self,
    max_angular_speed self, contact_correction_percent self,
    contact_slop self, max_penetration_correction self,
    max_step_translation self)).

(** *** Views of the simulator state *)

(** What the physics of a tick reads and writes, the warning aside. *)
Definition physics_view (self : t) :=
  (dt self, gravity self, step_index self, bodies self, joints self,
   motors self,
   (linear_damping self, angular_damping self, max_linear_speed self,
    max_angular_speed self, contact_correction_percent self,
    contact_slop self, max_penetration_correction self,
    max_step_translation self)).

(** The simulator [other] with the fields of [physics_view] and
    [last_physics_warning] taken from [self]. *)
Definition rebase (other self : t) : t :=
  mk (dt self) (gravity self) (time other) (step_index self) (bodies self)
     (joints self) (sensors other) (motors self) (controller_instance other)
     (controller_instances other) (controllers other) (_rng other)
     (last_controller_error other) (last_controller_errors other)
     (last_sensor_readings other) (last_sensor_readings_by_robot other)
     (last_motor_commands other) (last_motor_commands_by_robot other)
     (last_physics_warning self) (robot_ids other) (sensor_owners other)
     (motor_owners other)
     (linear_damping self) (angular_damping self) (max_linear_speed self)
     (max_angular_speed self) (contact_correction_percent self)
     (contact_slop self) (max_penetration_correction self)
     (max_step_translation self).

(** What decides which controllers are called, the controller objects
    aside. *)
Definition control_view (self : t) :=
  (robot_ids self, controller_instance self, controller_instances self,
   last_controller_errors self).

(** [step_index += 1]. *)
Definition advance (self : t) : t :=
  set_step_index self (step_index self + 1)%Z.

(** Controller stores whose objects have the same tick functions. *)
Definition same_methods (cs cs' : list Controller) : Prop :=
  forall n,
    option_map tick_fn (nth_error cs' n) = option_map tick_fn (nth_error cs n).

(** Body tables related by a restore: the same keys in the same order,
    and under each key bodies that agree outside the snapshot fields. *)
Definition restored (bs bs' : list (string * SimObject)) : Prop :=
  Forall2 (fun kv kv' : string * SimObject =>
             fst kv' = fst kv /\ body_rest (snd kv') = body_rest (snd kv))
          bs bs'.

(** *** Speed limits *)

(** A body on which no force and no torque is pending. *)
Definition no_pending (body : SimObject) : Prop :=
  _pending_forces body = [] /\ _pending_torque body = 0.

(** The limits [_sanitize_velocity] enforces, each one when it is
    positive. *)
Definition within_limits (self : t) (body : SimObject) : Prop :=
  (0 < max_linear_speed self ->
   hypot (fst (linear_velocity (state body)))
         (snd (linear_velocity (state body))) <= max_linear_speed self) /\
  (0 < max_angular_speed self ->
   Rabs (angular_velocity (state body)) <= max_angular_speed self).

(** One of the two clamps of [_sanitize_velocity] triggers on [body]. *)
Definition exceeds (self : t) (body : SimObject) : Prop :=
  (0 < max_linear_speed self /\
   max_linear_speed self
   < hypot (fst (linear_velocity (state body)))
           (snd (linear_velocity (state body)))) \/
  (0 < max_angular_speed self /\
   max_angular_speed self < Rabs (angular_velocity (state body))).

(** The "simple damping" lines of [_integrate_bodies]. *)
Definition damped (self : t) (body : SimObject) : SimObject :=
  let '(vx, vy) := linear_velocity (state body) in
  let body :=
    set_linear_velocity body
      (vx * linear_damping self, vy * linear_damping self) in
  set_angular_velocity body
    (angular_velocity (state body) * angular_damping self).

(** [s'] has the gravity, the damping factors and the speed limits of [s],
    and a warning flagged in [s] is still flagged in [s']. *)
Definition keeps_settings (s s' : t) : Prop :=
  gravity s' = gravity s /\
  linear_damping s' = linear_damping s /\
  angular_damping s' = angular_damping s /\
  max_linear_speed s' = max_linear_speed s /\
  max_angular_speed s' = max_angular_speed s /\
  (last_physics_warning s <> None -> last_physics_warning s' <> None).

(** A body as a tick leaves it: nothing pending, and within the limits of
    [lim] when it is movable with a positive mass. *)
Definition settled (lim : t) (body : SimObject) : Prop :=
  no_pending body /\
  (can_move body = true -> 0 < mass (state body) -> within_limits lim body).

(** *** What a tick leaves alone *)

(** What no phase of a tick writes on a body: its name, its shape and
    material, whether it can move, its mass and its inertia; and, for a
    body that cannot move, its pose and its velocities as well. *)
Definition same_body (b b' : SimObject) : Prop :=
  (Entities.name b', shape b', material b', can_move b',
   mass (state b'), moment_of_inertia (state b'))
  = (Entities.name b, shape b, material b, can_move b,
     mass (state b), moment_of_inertia (state b)) /\
  (can_move b = false -> pose b' = pose b /\ state b' = state b).

(** Body tables with the same keys in the same order, and under each key
    bodies related by [same_body]. *)
Definition same_table (bs bs' : list (string * SimObject)) : Prop :=
  Forall2 (fun kv kv' : string * SimObject =>
             fst kv' = fst kv /\ same_body (snd kv) (snd kv'))
          bs bs'.

(** The clock and the tunables of a simulator. *)
Definition settings (self : t) :=
  (dt self, gravity self, time self, step_index self,
   (linear_damping self, angular_damping self, max_linear_speed self,
    max_angular_speed self),
   (contact_correction_percent self, contact_slop self,
    max_penetration_correction self, max_step_translation self)).

(** [s'] has the body table of [s] up to [same_table], and its clock and
    tunables. *)
Definition same_frame (s s' : t) : Prop :=
  same_table (bodies s) (bodies s') /\ settings s' = settings s.

(** [_solve_joints] divides by [compliance + 1e-9] and by
    [w + alpha * dt * dt]: with compliances that are not negative neither
    is zero, and Python raises no [ZeroDivisionError]. *)
Definition joints_defined (self : t) : Prop :=
  Forall (fun jr : JointRuntime => 0 <= compliance jr) (joints self).

End Simulator.

(** ** Repeated ticks *)

Module Runs.
Import World Geometry Materials Entities Base Motors Simulator.

(** The ceiling of a real number. *)
Definition Rceil (a : R) : Z := (- Int_part (- a))%Z.

(** A sensor read [k] times with the fixed timestep [dt], the world seen by
    read number [i + 1] being [worlds i]: the sensor after the last read
    and what that read returned. *)
Fixpoint reads (s : Sensor.t) (worlds : nat -> WorldView) (dt : R) (k : nat)
  : Sensor.t * option SensorReading :=
  match k with
  | O => (s, None)
  | S k' =>
    let '(s', r, _) := Sensor.read (fst (reads s worlds dt k')) (worlds k') dt in
    (s', r)
  end.

(** The same reads with the sensor's clock on binary64 values: the sensor
    and its clock after read number [k], and what that read returned. *)
Fixpoint clocked_reads (s : Sensor.t) (clock : SensorClock.t)
  (worlds : nat -> WorldView) (dt : PrimFloat.float) (k : nat)
  : Sensor.t * SensorClock.t * option SensorReading :=
  match k with
  | O => (s, clock, None)
  | S k' =>
    let '(s', clock', _) := clocked_reads s clock worlds dt k' in
    let '(s', clock', r, _) := SensorClock.read s' clock' (worlds k') dt in
    (s', clock', r)
  end.

(** The ticks among the first [k] on which a reading is returned,
    counted from 1. *)
Definition reading_ticks (s : Sensor.t) (clock : SensorClock.t)
  (worlds : nat -> WorldView) (dt : PrimFloat.float) (k : nat) : list nat :=
  filter (fun i =>
            match snd (clocked_reads s clock worlds dt i) with
            | Some _ => true
            | None => false
            end)
         (seq 1 k).

(** The timestep of a tick: [dt] when given, [self.dt] otherwise. *)
Definition tick_dt (self : Simulator.t) (dt_opt : option R) : R :=
  match dt_opt with Some d => d | None => Simulator.dt self end.

(** [prev_poses] as [step] records it. *)
Definition poses_of (self : Simulator.t) : list (string * Pose2D.t) :=
  map (fun kv : string * SimObject => (fst kv, pose (snd kv)))
      (bodies self).

(** The simulator after the ticks [dts], in order. *)
Definition run (self : Simulator.t) (dts : list (option R)) : Simulator.t :=
  fold_left Simulator.step dts self.

(** The commands of a call of a tick function, if it was made. *)
Definition issued_of (o : option TickOutcome) : list Command :=
  match o with Some out => issued out | None => [] end.

(** The motor commands issued by the controllers during the next tick, in
    the order they are executed. *)
Definition commands_of_tick (self : Simulator.t) (dt_opt : option R)
  : list Command :=
  flat_map (fun e : string * TickOutcome => issued (snd e))
           (snd (step_log self dt_opt)).

End Runs.

(** ** Concrete scenes used by the examples *)

Module Scenarios.
Import World Geometry Materials Entities Base Motors Simulator.

(** A robot at rest: mass 1.6, as in the overdrive check of the test
    suite. *)
Definition resting_robot : SimObject :=
  mkObject "bot" (Pose2D.mk 0 0 0) (Circle 0.1)
           (mkMaterial 0.9 0.1 0.3 0.9 []) true (mkState (0, 0) 0 1.6 0.2) [] 0.

(** A generator that always draws zero. *)
Definition quiet_rng : Random := mkRandom (fun _ => 0) 0.

(** A static floor slab. *)
Definition floor : SimObject :=
  mkObject "floor" (Pose2D.mk 0 (-1) 0)
           (Polygon [(-5, -1); (5, -1); (5, 0); (-5, 0)])
           (mkMaterial 0.9 0.05 0.5 0.9 []) false (mkState (0, 0) 0 10 10) [] 0.

(** A freshly constructed simulator holding the floor and the robot. *)
Definition two_body_scene : Simulator.t :=
  set_bodies (Simulator.init quiet_rng)
             [("floor"%string, floor); ("bot"%string, resting_robot)].

(** A static post standing to the right of the robot and overlapping it by
    0.01, and the manifold of the pair (robot, post): the normal points
    from the robot to the post. *)
Definition post : SimObject :=
  mkObject "post" (Pose2D.mk 0.19 0 0) (Circle 0.1)
           (mkMaterial 0.9 0.05 0.5 0.9 []) false (mkState (0, 0) 0 10 10) [] 0.

Definition post_contact : CollisionManifold :=
  mkManifold (1, 0) 0.01 (0.1, 0).

(** The robot driving into the post at 1 m/s, and backing away from it at
    1 m/s. *)
Definition approaching_robot : SimObject :=
  mkObject "bot" (Pose2D.mk 0 0 0) (Circle 0.1)
           (mkMaterial 0.9 0.1 0.3 0.9 []) true (mkState (1, 0) 0 1.6 0.2) [] 0.

Definition retreating_robot : SimObject :=
  mkObject "bot" (Pose2D.mk 0 0 0) (Circle 0.1)
           (mkMaterial 0.9 0.1 0.3 0.9 []) true (mkState (-1, 0) 0 1.6 0.2) [] 0.

(** A freshly constructed simulator holding the robot and the post. *)
Definition post_scene : Simulator.t :=
  set_bodies (Simulator.init quiet_rng)
             [("bot"%string, approaching_robot); ("post"%string, post)].

(** The same scene with a generator that draws other numbers: the two
    simulators differ in what their sensors would read. *)
Definition two_body_scene_reseeded : Simulator.t :=
  set_rng two_body_scene (mkRandom (fun i => INR i) 7).

(** Two robots with a controller each: the first raises on every tick, the
    second returns without commanding anything. *)
Definition zero_division : string :=
  "Traceback (most recent call last): ZeroDivisionError: division by zero".

Definition raising_controller : Controller :=
  mkController VNone
    (Some (fun a _ _ => mkOutcome [] (Some zero_division) a)) None None.

Definition idle_controller : Controller :=
  mkController VNone (Some (fun a _ _ => mkOutcome [] None a)) None None.

Definition two_robot_scene : Simulator.t :=
  Simulator.mk (1 / 120) (0, 0) 0 0 [] [] [] [] (Some 0%nat)
    [("r1"%string, Some 0%nat); ("r2"%string, Some 1%nat)]
    [raising_controller; idle_controller] quiet_rng None [] [] [] [] [] None
    ["r1"%string; "r2"%string] [] [] 0.995 0.995 15 40 0.25 0.002 0.05 0.25.

(** The same two robots, the first with a controller that calls
    [sys.exit()] on every tick.  Of the two raises of these scenes
    [ZeroDivisionError] is an [Exception] and [SystemExit] is not. *)
Definition system_exit : string :=
  "Traceback (most recent call last): SystemExit".

Definition is_exception (traceback : string) : bool :=
  negb (String.eqb traceback system_exit).

Definition exiting_controller : Controller :=
  mkController VNone
    (Some (fun a _ _ => mkOutcome [] (Some system_exit) a)) None None.

Definition exit_scene : Simulator.t :=
  Simulator.mk (1 / 120) (0, 0) 0 0 [] [] [] [] (Some 0%nat)
    [("r1"%string, Some 0%nat); ("r2"%string, Some 1%nat)]
    [exiting_controller; idle_controller] quiet_rng None [] [] [] [] [] None
    ["r1"%string; "r2"%string] [] [] 0.995 0.995 15 40 0.25 0.002 0.05 0.25.

(** A triangle placed at (1, 1): its first vertex is the local origin, so
    in the world it lies at (1, 1). *)
Definition triangle : list Point2D := [(0, 0); (1, 0); (0, 1)].

Definition corner_pose : Pose2D.t := Pose2D.mk 1 1 0.

(** A ball of mass 1 falling at 15 m/s in a freshly constructed simulator,
    whose gravity is [(0, -9.81)] (as it is after a load with
    [top_down=False]). *)
Definition ball : SimObject :=
  mkObject "ball" (Pose2D.mk 0 10 0)
           (Polygon [(-0.1, -0.1); (0.1, -0.1); (0.1, 0.1); (-0.1, 0.1)])
           (mkMaterial 0.9 0.1 0.3 0.9 []) true (mkState (0, -15) 0 1 1) [] 0.

Definition falling_scene : Simulator.t :=
  set_bodies (Simulator.init quiet_rng) [("ball"%string, ball)].

(** The ball after one tick of [falling_scene]: damping, then the pending
    gravity force integrated over [dt = 1/120]. *)
Definition ball_after : SimObject :=
  mkObject "ball"
    (Pose2D.mk (0 + (0 * 0.995 + (0 + 0 * 1) / 1 * (1 / 120)) * (1 / 120))
               (10 + (-15 * 0.995 + (0 + -9.81 * 1) / 1 * (1 / 120)) * (1 / 120))
               0)
    (Polygon [(-0.1, -0.1); (0.1, -0.1); (0.1, 0.1); (-0.1, 0.1)])
    (mkMaterial 0.9 0.1 0.3 0.9 []) true
    (mkState (0 * 0.995 + (0 + 0 * 1) / 1 * (1 / 120),
              -15 * 0.995 + (0 + -9.81 * 1) / 1 * (1 / 120))
             (0 * 0.995 + 0 / 1 * (1 / 120)) 1 1) [] 0.

(** The same ball at 20 m/s in a scene loaded with [top_down=True]
    (no gravity). *)
Definition speeding_ball : SimObject :=
  mkObject "ball" (Pose2D.mk 0 10 0)
           (Polygon [(-0.1, -0.1); (0.1, -0.1); (0.1, 0.1); (-0.1, 0.1)])
           (mkMaterial 0.9 0.1 0.3 0.9 []) true (mkState (0, -20) 0 1 1) [] 0.

Definition speeding_scene : Simulator.t :=
  Simulator.mk (1 / 120) (0, 0) 0 0 [("ball"%string, speeding_ball)] [] [] []
    None [] [] quiet_rng None [] [] [] [] [] None [] [] []
    0.995 0.995 15 40 0.25 0.002 0.05 0.5.

(** An encoder at 10 Hz mounted on the body ["chassis"]. *)
Definition encoder_10hz : Sensor.t :=
  Sensor.attach (Sensors.EncoderSensor "encoder" None 10) "chassis".

(** An encoder at 1 Hz on the same body. *)
Definition encoder_1hz : Sensor.t :=
  Sensor.attach (Sensors.EncoderSensor "encoder" None 1) "chassis".

(** Python's floats [10.0], [0.01], [1.0], [0.1], [1.0 / 120.0] (the
    timestep of a freshly constructed [Simulator]) and [1.5], and the
    clocks of a sensor constructed with [update_rate_hz=10.0] and of one
    constructed with [update_rate_hz=1.0].  The preset ["range_short"] of
    the distance sensor has [max_range=1.5] and [step=0.01]. *)
Module Float.
Import PrimFloat.
Local Open Scope float_scope.

Definition ten : float := 10.
Definition hundredth : float := 0x1.47ae147ae147bp-7.
Definition one : float := 1.
Definition tenth : float := 0x1.999999999999ap-4.
Definition default_dt : float := 1 / 120.
Definition range_short_max : float := 1.5.
Definition range_short_step : float := hundredth.

End Float.

Definition clock_10hz : SensorClock.t := SensorClock.init Float.ten.

Definition clock_1hz : SensorClock.t := SensorClock.init Float.one.

End Scenarios.

(** * Properties *)

(** ** Comparisons on the idealised floats *)

Lemma Rltb_true (a b : R) : a < b -> Rltb a b = true.
Proof. intros H. unfold Rltb. destruct (Rlt_dec a b); [reflexivity | contradiction]. Qed.

Lemma Rltb_false (a b : R) : b <= a -> Rltb a b = false.
Proof. intros H. unfold Rltb. destruct (Rlt_dec a b); [lra | reflexivity]. Qed.

Lemma Rleb_true (a b : R) : a <= b -> Rleb a b = true.
Proof. intros H. unfold Rleb. destruct (Rle_dec a b); [reflexivity | contradiction]. Qed.

Lemma Rleb_false (a b : R) : b < a -> Rleb a b = false.
Proof. intros H. unfold Rleb. destruct (Rle_dec a b); [lra | reflexivity]. Qed.

Lemma Reqb_true (a b : R) : a = b -> Reqb a b = true.
Proof. intros H. unfold Reqb. destruct (Req_dec_T a b); [reflexivity | contradiction]. Qed.

Lemma Reqb_false (a b : R) : a <> b -> Reqb a b = false.
Proof. intros H. unfold Reqb. destruct (Req_dec_T a b); [contradiction | reflexivity]. Qed.

Lemma Rltb_iff (a b : R) : Rltb a b = true <-> a < b.
Proof. unfold Rltb. destruct (Rlt_dec a b); split; intros; try discriminate; tauto. Qed.

Lemma Rltb_iff_false (a b : R) : Rltb a b = false <-> b <= a.
Proof. unfold Rltb. destruct (Rlt_dec a b); split; intros; try discriminate; try lra; reflexivity. Qed.

Lemma Rleb_iff (a b : R) : Rleb a b = true <-> a <= b.
Proof. unfold Rleb. destruct (Rle_dec a b); split; intros; try discriminate; tauto. Qed.

Lemma Rleb_iff_false (a b : R) : Rleb a b = false <-> b < a.
Proof. unfold Rleb. destruct (Rle_dec a b); split; intros; try discriminate; try lra; reflexivity. Qed.

Lemma Reqb_iff (a b : R) : Reqb a b = true <-> a = b.
Proof. unfold Reqb. destruct (Req_dec_T a b); split; intros; try discriminate; tauto. Qed.

Lemma Reqb_iff_false (a b : R) : Reqb a b = false <-> a <> b.
Proof. unfold Reqb. destruct (Req_dec_T a b); split; intros; try discriminate; tauto. Qed.

(** Turn boolean tests on reals in the context into (in)equalities. *)
Ltac rbool :=
  repeat match goal with
  | H : Rltb _ _ = true |- _ => apply Rltb_iff in H
  | H : Rltb _ _ = false |- _ => apply Rltb_iff_false in H
  | H : Rleb _ _ = true |- _ => apply Rleb_iff in H
  | H : Rleb _ _ = false |- _ => apply Rleb_iff_false in H
  | H : Reqb _ _ = true |- _ => apply Reqb_iff in H
  | H : Reqb _ _ = false |- _ => apply Reqb_iff_false in H
  | H : andb _ _ = true |- _ => apply andb_true_iff in H; destruct H
  | H : orb _ _ = false |- _ => apply orb_false_iff in H; destruct H
  | H : negb _ = true |- _ => apply negb_true_iff in H
  | H : negb _ = false |- _ => apply negb_false_iff in H
  end.

(** Evaluate [Rmax], [Rmin], [Rabs] and the boolean tests on closed
    arithmetic, innermost first. *)
Ltac rcompute_step :=
  match goal with
  | |- context [Rmax ?a ?b] =>
    first [ rewrite (Rmax_left a b) by lra | rewrite (Rmax_right a b) by lra ]
  | |- context [Rmin ?a ?b] =>
    first [ rewrite (Rmin_left a b) by lra | rewrite (Rmin_right a b) by lra ]
  | |- context [Rabs ?a] =>
    first [ rewrite (Rabs_pos_eq a) by lra | rewrite (Rabs_left1 a) by lra ]
  | |- context [Rltb ?a ?b] =>
    first [ rewrite (Rltb_true a b) by lra | rewrite (Rltb_false a b) by lra ]
  | |- context [Rleb ?a ?b] =>
    first [ rewrite (Rleb_true a b) by lra | rewrite (Rleb_false a b) by lra ]
  | |- context [Reqb ?a ?b] =>
    first [ rewrite (Reqb_true a b) by lra | rewrite (Reqb_false a b) by lra ]
  end.

Ltac rcompute := repeat (rcompute_step; cbn beta iota zeta).

Lemma clamp_bounds (v lo hi : R) :
  lo <= hi -> lo <= Rmax lo (Rmin hi v) <= hi.
Proof.
  intros H. unfold Rmax, Rmin.
  destruct (Rle_dec hi v); destruct (Rle_dec lo _); lra.
Qed.

Lemma clamp_abs (v l : R) : 0 <= l -> Rabs (Rmax (- l) (Rmin l v)) <= l.
Proof.
  intros H. apply Rabs_le. apply clamp_bounds. lra.
Qed.

(** ** [math.hypot] *)

Lemma hypot_nonneg (a b : R) : 0 <= hypot a b.
Proof. unfold hypot. apply sqrt_pos. Qed.

Lemma hypot_zero : hypot 0 0 = 0.
Proof. unfold hypot. replace (0 * 0 + 0 * 0) with 0 by ring. apply sqrt_0. Qed.

Lemma hypot_eq_zero (a b : R) : hypot a b = 0 -> a = 0 /\ b = 0.
Proof.
  unfold hypot. intros H. apply sqrt_eq_0 in H; [| nra]. split; nra.
Qed.

Lemma hypot_opp (a b : R) : hypot (- a) (- b) = hypot a b.
Proof. unfold hypot. f_equal. ring. Qed.

Lemma hypot_le (a b m : R) : 0 <= m -> a * a + b * b <= m * m -> hypot a b <= m.
Proof.
  intros Hm H. unfold hypot.
  rewrite <- (sqrt_square m) by exact Hm.
  apply sqrt_le_1_alt. exact H.
Qed.

Lemma hypot_lt (a b m : R) : 0 <= m -> m * m < a * a + b * b -> m < hypot a b.
Proof.
  intros Hm H. unfold hypot.
  rewrite <- (sqrt_square m) at 1 by exact Hm.
  apply sqrt_lt_1_alt. split; [nra | exact H].
Qed.

Lemma hypot_scale (a b s : R) : 0 <= s -> hypot (a * s) (b * s) = s * hypot a b.
Proof.
  intros Hs. unfold hypot.
  replace (a * s * (a * s) + b * s * (b * s)) with (s * s * (a * a + b * b))
    by ring.
  rewrite sqrt_mult; [| nra | nra].
  rewrite sqrt_square by exact Hs. reflexivity.
Qed.


Section PoseAlgebra.

  Import World.

Lemma cos2_sin2 (a : R) : cos a * cos a + sin a * sin a = 1.
  Proof.
    pose proof (sin2_cos2 a) as H. unfold Rsqr in H. lra.
  Qed.

  (** C9. For every pose [p], [p.compose(p.inverse())] is the identity pose
      and [p.inverse().transform_point(p.transform_point(q)) = q] for every
      point [q]. *)
Theorem pose_inverse_roundtrip :
    forall (p : Pose2D.t) (q : Point2D),
      Pose2D.compose p (Pose2D.inverse p) = Pose2D.identity /\
      Pose2D.transform_point (Pose2D.inverse p) (Pose2D.transform_point p q) = q.
  Proof.
    intros [px py th] [qx qy].
    unfold Pose2D.compose, Pose2D.inverse, Pose2D.transform_point, Pose2D.identity.
    cbn [Pose2D.x Pose2D.y Pose2D.theta].
    rewrite cos_neg, sin_neg.
    pose proof (cos2_sin2 th) as Hcs.
    set (c := cos th) in *. set (s := sin th) in *.
    split.
    - f_equal.
      + replace (px + c * (- px * c - py * s) - s * (px * s - py * c))
          with (px * (1 - (c * c + s * s))) by ring.
        rewrite Hcs. ring.
      + replace (py + s * (- px * c - py * s) + c * (px * s - py * c))
          with (py * (1 - (c * c + s * s))) by ring.
        rewrite Hcs. ring.
      + ring.
    - f_equal.
      + replace (- px * c - py * s + c * (px + c * qx - s * qy)
                 - - s * (py + s * qx + c * qy))
          with (qx * (c * c + s * s)) by ring.
        rewrite Hcs. ring.
      + replace (px * s - py * c + - s * (px + c * qx - s * qy)
                 + c * (py + s * qx + c * qy))
          with (qy * (c * c + s * s)) by ring.
        rewrite Hcs. ring.
  Qed.

End PoseAlgebra.

(** ** Motor commands (middle_level_library/base.py, motors.py) *)

Section MotorCommands.

Import World Geometry Materials Entities Base Motors Simulator.

Lemma wheel_apply_base (self : WheelMotor.t) (v : R) (w : MotorWorld) (dt : R) :
  WheelMotor.base (fst (WheelMotor._apply self v w dt)) = WheelMotor.base self.
Proof.
  unfold WheelMotor._apply.
  destruct (parent_body w) as [p|]; [|reflexivity].
  destruct (can_move p); [|reflexivity]. cbn.
  destruct (_solve_wheel_traction _ _ _ _ _ _ _ _ _ _) as [p' rep].
  reflexivity.
Qed.

Lemma detailed_apply_base (self : WheelMotorDetailed.t) (v : R)
  (w : MotorWorld) (dt : R) :
  WheelMotorDetailed.base (fst (WheelMotorDetailed._apply self v w dt))
  = WheelMotorDetailed.base self.
Proof.
  unfold WheelMotorDetailed._apply.
  destruct (parent_body w) as [p|]; [|reflexivity].
  destruct (can_move p); [|reflexivity]. cbn.
  destruct (_solve_wheel_traction _ _ _ _ _ _ _ _ _ _) as [p' rep].
  reflexivity.
Qed.

(** The [Motor] part of a motor after [command]: only [_last_command]
    changes, and it holds the clamped value. *)
Lemma motor_command_base (m : MotorObj) (v : R) (w : MotorWorld) (dt : R) :
  motor_base (fst (motor_command m v w dt))
  = Motor.mk (Motor.component (motor_base m))
             (Motor.max_command (motor_base m))
             (Rmax (- Motor.max_command (motor_base m))
                   (Rmin (Motor.max_command (motor_base m)) v)).
Proof.
  destruct m as [wm | dm]; cbn [motor_command motor_base].
  - unfold WheelMotor.command, Motor.command.
    destruct (WheelMotor._apply _ _ w dt) as [wm' w'] eqn:E.
    cbn [fst motor_base].
    change wm' with (fst (wm', w')). rewrite <- E.
    rewrite wheel_apply_base. reflexivity.
  - unfold WheelMotorDetailed.command, Motor.command.
    destruct (WheelMotorDetailed._apply _ _ w dt) as [dm' w'] eqn:E.
    cbn [fst motor_base].
    change dm' with (fst (dm', w')). rewrite <- E.
    rewrite detailed_apply_base. reflexivity.
Qed.

(** Every motor the library constructs has a non-negative [max_command]:
    [WheelMotor] fixes it to 1 and [WheelMotorDetailed] takes it from its
    preset. *)
Lemma WheelMotor_init_max_command (name : string) (mount_pose : Pose2D.t)
  (max_force mu_long mu_lat g_equiv : R) (normal_force : option R)
  (lateral_damping : R) (wheel_count : Z)
  (wheel_radius response_time max_wheel_omega : R) :
  Motor.max_command
    (WheelMotor.base
       (WheelMotor.init name mount_pose max_force mu_long mu_lat g_equiv
          normal_force lateral_damping wheel_count wheel_radius response_time
          max_wheel_omega)) = 1.
Proof. reflexivity. Qed.

Lemma WheelMotorDetailed_init_max_command (name preset : string)
  (mount_pose : Pose2D.t) (m : WheelMotorDetailed.t) :
  WheelMotorDetailed.init name preset mount_pose = Some m ->
  Motor.max_command (WheelMotorDetailed.base m) = 1.
Proof.
  unfold WheelMotorDetailed.init, WHEEL_PRESETS. cbn [find fst].
  destruct (String.eqb _ preset); intros H; inversion H; reflexivity.
Qed.

(** Clamping a clamped value changes nothing. *)
Lemma clamp_idempotent (c v : R) :
  Rmax (- c) (Rmin c (Rmax (- c) (Rmin c v))) = Rmax (- c) (Rmin c v).
Proof.
  destruct (Rle_dec (- c) c) as [H | H].
  - pose proof (clamp_bounds v (- c) c H) as [H1 H2].
    rewrite (Rmin_right c _ H2). apply Rmax_right. exact H1.
  - assert (Hl : forall x, Rmax (- c) (Rmin c x) = - c).
    { intros x. apply Rmax_left. pose proof (Rmin_l c x). lra. }
    rewrite !Hl. reflexivity.
Qed.

(** C10. For every motor and every commanded value [v], [command] replaces
    [v] by its clamp into [[-max_command, max_command]] before applying
    it: [_apply] is called with the clamped value on the motor that stores
    it, so commanding [v] does to the motor and to its parent body exactly
    what commanding the clamped value does; a value at or beyond a bound
    acts as the bound, a value within the bounds as itself.  [command]
    always returns, and leaves [last_command] in that interval (for a
    [WheelMotor], in [[-1, 1]]). *)
Theorem command_clamps (m : MotorObj) (v : R) (w : MotorWorld) (dt : R) :
  0 <= Motor.max_command (motor_base m) ->
  let c := Motor.max_command (motor_base m) in
  let clamped := Rmax (- c) (Rmin c v) in
  let stored := Motor.mk (Motor.component (motor_base m)) c clamped in
  let m' := fst (motor_command m v w dt) in
  (- c <= clamped <= c /\
   (- c <= v <= c -> clamped = v) /\
   (c <= v -> clamped = c) /\
   (v <= - c -> clamped = - c)) /\
  match m with
  | Wheel wm =>
    motor_command m v w dt
    = (let '(wm', w') :=
         WheelMotor._apply (WheelMotor.with_base wm stored) clamped w dt in
       (Wheel wm', w'))
  | Detailed dm =>
    motor_command m v w dt
    = (let '(dm', w') :=
         WheelMotorDetailed._apply (WheelMotorDetailed.with_base dm stored)
                                   clamped w dt in
       (Detailed dm', w'))
  end /\
  motor_command m v w dt = motor_command m clamped w dt /\
  Motor.max_command (motor_base m') = c /\
  Motor.last_command (motor_base m') = clamped /\
  - c <= Motor.last_command (motor_base m') <= c.
Proof.
  intros Hc c clamped stored m'.
  assert (Hc' : 0 <= c) by exact Hc.
  assert (Hb : - c <= clamped <= c) by (apply clamp_bounds; lra).
  assert (Hidem : Rmax (- c) (Rmin c clamped) = clamped)
    by apply clamp_idempotent.
  split; [| split; [| split; [| split; [| split]]]].
  - split; [exact Hb |]. unfold clamped. split; [| split]; intros H.
    + rewrite Rmin_right by lra. apply Rmax_right. lra.
    + rewrite Rmin_left by lra. apply Rmax_right. lra.
    + rewrite Rmin_right by lra. apply Rmax_left. lra.
  - destruct m as [wm | dm]; reflexivity.
  - destruct m as [wm | dm]; cbn [motor_command];
      unfold WheelMotor.command, WheelMotorDetailed.command, Motor.command;
      cbn [motor_base] in c; fold c; fold clamped; rewrite Hidem; reflexivity.
  - subst m'. rewrite motor_command_base. reflexivity.
  - subst m'. rewrite motor_command_base. reflexivity.
  - subst m'. rewrite motor_command_base.
    unfold Motor.last_command. cbn [Motor._last_command]. exact Hb.
Qed.

Lemma command_clamps_witness :
  let m := Wheel (WheelMotor.init "left_motor" (Pose2D.mk 0 0.1 0) 2 0.9 0.8
                                  9.81 None 0.25 2 0.03 0.05 40) in
  let w := mkMotorWorld (Some Scenarios.resting_robot) (Some 0%Z) in
  0 <= Motor.max_command (motor_base m) /\
  motor_command m 5 w 0.02 = motor_command m 1 w 0.02 /\
  Motor.last_command (motor_base (fst (motor_command m 5 w 0.02))) = 1 /\
  parent_body (snd (motor_command m 5 w 0.02)) <> None.
Proof.
  intros m w.
  assert (H : 0 <= Motor.max_command (motor_base m)) by (cbn; lra).
  split; [exact H |].
  destruct (command_clamps m 5 w 0.02 H)
    as ((_ & _ & Hhi & _) & Happly & Hsame & _ & Hlast & _).
  assert (Hone : Rmax (- Motor.max_command (motor_base m))
                      (Rmin (Motor.max_command (motor_base m)) 5) = 1).
  { rewrite Hhi; [reflexivity | cbn; lra]. }
  rewrite Hone in Hsame, Hlast.
  split; [exact Hsame | split; [exact Hlast |]].
  rewrite Happly. unfold WheelMotor._apply.
  cbn [parent_body w Scenarios.resting_robot can_move negb].
  cbv zeta.
  destruct (_solve_wheel_traction _ _ _ _ _ _ _ _ _ _) as [p rep].
  cbn. discriminate.
Defined.

End MotorCommands.

(** ** The traction solver (middle_level_library/motors.py) *)

Section Traction.

Import World Geometry Materials Entities Base Motors Scenarios.

Ltac proj_simpl :=
  cbn [andb orb negb fst snd
       can_move state pose shape material name _pending_forces _pending_torque
       linear_velocity angular_velocity mass moment_of_inertia
       set_pose set_state set_linear_velocity set_angular_velocity
       Pose2D.x Pose2D.y Pose2D.theta
       applied_longitudinal_impulse desired_longitudinal_impulse].

Ltac reval := repeat (progress proj_simpl || rcompute_step).

(** The coupled friction circle leaves at least half of a positive
    longitudinal budget and never more than all of it. *)
Lemma long_limit_coupled (B jl ml : R) :
  0 < B -> 0 < ml ->
  let lat_ratio := Rmin 1 (Rabs jl / (ml + 1e-9)) in
  0 < B * Rmax 0 (1 - 0.5 * lat_ratio) <= B.
Proof.
  intros HB Hml lat_ratio.
  assert (H0 : 0 <= Rabs jl / (ml + 1e-9)).
  { apply Rmult_le_pos; [apply Rabs_pos |].
    apply Rlt_le, Rinv_0_lt_compat. lra. }
  assert (H1 : 0 <= lat_ratio <= 1).
  { unfold lat_ratio, Rmin. destruct (Rle_dec _ _); lra. }
  assert (H2 : 0.5 <= Rmax 0 (1 - 0.5 * lat_ratio) <= 1).
  { unfold Rmax. destruct (Rle_dec _ _); lra. }
  nra.
Qed.

(** What limits the applied longitudinal impulse in every case: the
    traction budget when it is positive, the drive-force budget otherwise. *)
Lemma traction_limit_general
  (body : SimObject) (cp fwd : R * R)
  (pref cap mu_long mu_lat nl ld dt : R) :
  let report :=
    snd (_solve_wheel_traction body cp fwd pref cap mu_long mu_lat nl ld dt) in
  let budget := Rmax 0 (Rabs mu_long * Rmax nl 0 * dt) in
  Rabs (applied_longitudinal_impulse report)
  <= (if Rltb 0 budget then budget else Rmax 0 (Rabs cap)).
Proof.
  intros report budget. subst report.
  assert (Hb0 : 0 <= budget) by (unfold budget; apply Rmax_l).
  assert (Hc0 : 0 <= Rmax 0 (Rabs cap)) by apply Rmax_l.
  assert (Hzero : Rabs 0 <= (if Rltb 0 budget
                             then budget else Rmax 0 (Rabs cap))).
  { rewrite Rabs_R0. destruct (Rltb 0 budget); assumption. }
  unfold _solve_wheel_traction.
  destruct (can_move body); cbn [negb]; [| exact Hzero].
  fold budget.
  destruct (_contact_velocity body cp) as [vcx vcy].
  set (max_lat := Rmax 0 (Rabs mu_lat * Rmax nl 0 * dt)).
  set (drive_cap := Rmax 0 (Rabs cap)) in *.
  match goal with
  | |- context [let '(j_lat, body0) := ?lat in _] =>
    destruct lat as [j_lat body1] eqn:Elat
  end.
  destruct (Rltb 1e-9 (_inv_mass_term body1 cp fwd)); cbn; [| exact Hzero].
  set (desired := (pref - _ ) / _).
  match goal with
  | |- context [Rltb 0 ?L] =>
    lazymatch L with
    | budget => fail
    | _ => set (long_limit := L)
    end
  end.
  assert (HL : long_limit <= (if Rltb 0 budget then budget else drive_cap)).
  { subst long_limit.
    destruct (Rltb 0 budget) eqn:EB; rbool.
    - destruct (Rltb 0 max_lat) eqn:EL; rbool; cbn [andb].
      + pose proof (long_limit_coupled budget j_lat max_lat EB EL) as [Hp Hle].
        cbn zeta in Hp, Hle.
        destruct (Rltb 0 drive_cap) eqn:ED; rbool.
        * rewrite Rltb_true by exact Hp.
          eapply Rle_trans; [apply Rmin_l | exact Hle].
        * exact Hle.
      + destruct (Rltb 0 drive_cap) eqn:ED; rbool.
        * rewrite Rltb_true by exact EB. apply Rmin_l.
        * lra.
    - cbn [andb].
      destruct (Rltb 0 drive_cap) eqn:ED; rbool.
      + rewrite Rltb_false by exact EB. lra.
      + lra. }
  destruct (Rltb 0 long_limit) eqn:EL0; rbool; cbn; [| exact Hzero].
  eapply Rle_trans; [| exact HL].
  unfold _clamp. apply clamp_abs. lra.
Qed.

(** C1, amended. Whenever the traction budget [mu_long * normal_load * dt]
    is positive, the longitudinal impulse the solver applies is at most
    that budget in magnitude, whatever the commanded speed and the
    drive-force budget. *)
Theorem traction_bound_positive_budget
  (body : SimObject) (cp fwd : R * R)
  (pref cap mu_long mu_lat nl ld dt : R) :
  0 < mu_long -> 0 < nl -> 0 < dt ->
  Rabs (applied_longitudinal_impulse
          (snd (_solve_wheel_traction body cp fwd pref cap
                                      mu_long mu_lat nl ld dt)))
  <= mu_long * nl * dt.
Proof.
  intros Hmu Hnl Hdt.
  pose proof (traction_limit_general body cp fwd pref cap
                                     mu_long mu_lat nl ld dt) as H.
  cbn zeta in H.
  assert (Hpos : 0 < mu_long * nl * dt).
  { apply Rmult_lt_0_compat; [apply Rmult_lt_0_compat |]; assumption. }
  rewrite (Rabs_pos_eq mu_long) in H by lra.
  rewrite (Rmax_left nl 0) in H by lra.
  rewrite (Rmax_right 0 (mu_long * nl * dt)) in H by lra.
  rewrite Rltb_true in H by exact Hpos.
  exact H.
Qed.

Lemma traction_bound_positive_budget_witness :
  (0 < 0.25 /\ 0 < 1.6 * 9.81 /\ 0 < 0.02) /\
  Rabs (applied_longitudinal_impulse
          (snd (_solve_wheel_traction resting_robot (0, 0) (1, 0) 1.75 0.06
                                      0.25 0.6 (1.6 * 9.81) 0.25 0.02)))
  <= 0.25 * (1.6 * 9.81) * 0.02.
Proof.
  split; [lra |].
  apply (traction_bound_positive_budget resting_robot (0, 0) (1, 0) 1.75 0.06
           0.25 0.6 (1.6 * 9.81) 0.25 0.02); lra.
Defined.

Lemma resting_contact_velocity :
  _contact_velocity resting_robot (0, 0) = (0, 0).
Proof. unfold _contact_velocity, resting_robot. proj_simpl. f_equal; lra. Qed.

Lemma resting_inv_mass_forward :
  _inv_mass_term resting_robot (0, 0) (1, 0) = 1 / 1.6.
Proof. unfold _inv_mass_term, resting_robot. reval. lra. Qed.

(** With [mu_long = 0] the traction budget is zero, and the solver falls
    back to the drive-force budget [max_force * dt = 3.0 * 0.02]. *)
Lemma traction_without_grip :
  applied_longitudinal_impulse
    (snd (_solve_wheel_traction resting_robot (0, 0) (1, 0) 1.75 0.06
                                0 0.6 (1.6 * 9.81) 0.25 0.02)) = 0.06.
Proof.
  unfold _solve_wheel_traction.
  rewrite resting_contact_velocity.
  change (can_move resting_robot) with true. proj_simpl.
  rcompute. proj_simpl.
  rewrite resting_inv_mass_forward.
  unfold _clamp.
  reval. lra.
Qed.

(** C1 as stated fails: the applied impulse exceeds
    [mu_long * normal_load * dt = 0]. *)
Lemma traction_bound_counterexample :
  ~ Rabs (applied_longitudinal_impulse
            (snd (_solve_wheel_traction resting_robot (0, 0) (1, 0) 1.75 0.06
                                        0 0.6 (1.6 * 9.81) 0.25 0.02)))
    <= 0 * (1.6 * 9.81) * 0.02.
Proof.
  rewrite traction_without_grip. rewrite Rabs_pos_eq by lra. lra.
Qed.

End Traction.

(** ** Sample-and-hold (middle_level_library/base.py) *)

Section SensorTiming.

Import World Geometry Materials Entities Base Motors Simulator Runs Scenarios.

Lemma Rceil_bounds (a : R) : IZR (Rceil a) - 1 < a <= IZR (Rceil a).
Proof.
  unfold Rceil. rewrite opp_IZR.
  destruct (base_Int_part (- a)) as [H1 H2]. lra.
Qed.

Lemma succ_mod (k n : nat) :
  (0 < n)%nat ->
  (S k mod n = if (S (k mod n) =? n)%nat then 0 else S (k mod n))%nat.
Proof.
  intros Hn.
  pose proof (Nat.div_mod_eq k n) as Hk.
  pose proof (Nat.mod_upper_bound k n ltac:(lia)) as Hj.
  destruct (Nat.eqb_spec (S (k mod n)) n) as [E | E].
  - symmetry. apply (Nat.mod_unique (S k) n (S (k / n)) 0); lia.
  - symmetry. apply (Nat.mod_unique (S k) n (k / n) (S (k mod n))); lia.
Qed.

Section SampleAndHold.

Variables (s : Sensor.t) (worlds : nat -> WorldView) (dt rate : R).
Hypothesis Hrate : 0 < rate.
Hypothesis Hdt : 0 < dt.
Hypothesis Hperiod : Sensor.update_period s = 1 / rate.
Hypothesis Hfresh : Sensor._time_since_update s = 0.
Hypothesis Hparent : MountedComponent.parent (Sensor.component s) <> None.

Let n := Z.to_nat (Rceil ((1 / rate) / dt)).

Lemma period_pos : 0 < 1 / rate.
Proof. apply Rdiv_lt_0_compat; lra. Qed.

Lemma ticks_bounds : INR n - 1 < (1 / rate) / dt <= INR n /\ (1 <= n)%nat.
Proof.
  pose proof (Rceil_bounds ((1 / rate) / dt)) as [H1 H2].
  assert (Hq : 0 < (1 / rate) / dt).
  { apply Rdiv_lt_0_compat; [apply period_pos | exact Hdt]. }
  assert (Hz : (1 <= Rceil ((1 / rate) / dt))%Z).
  { assert (0 < IZR (Rceil ((1 / rate) / dt))) by lra.
    apply lt_IZR in H. lia. }
  unfold n. rewrite INR_IZR_INZ, Z2Nat.id by lia.
  split; [lra | lia].
Qed.

Lemma below_period (j : nat) : (S j < n)%nat -> INR (S j) * dt < 1 / rate.
Proof.
  intros Hj. destruct ticks_bounds as [[H1 _] _].
  assert (INR (S j) <= INR n - 1).
  { assert (Hj' : (S (S j) <= n)%nat) by lia.
    apply le_INR in Hj'. rewrite S_INR in Hj'. lra. }
  assert (Hd : (1 / rate) / dt * dt = 1 / rate) by (field; lra).
  rewrite <- Hd. apply Rmult_lt_compat_r; lra.
Qed.

Lemma reaches_period : 1 / rate <= INR n * dt.
Proof.
  destruct ticks_bounds as [[_ H2] _].
  assert (Hd : (1 / rate) / dt * dt = 1 / rate) by (field; lra).
  rewrite <- Hd. apply Rmult_le_compat_r; lra.
Qed.

(** What stays fixed in a sensor across reads. *)
Definition same_config (a b : Sensor.t) : Prop :=
  Sensor.component a = Sensor.component b /\
  Sensor.update_period a = Sensor.update_period b /\
  Sensor.noise a = Sensor.noise b /\
  Sensor.measure a = Sensor.measure b.

Lemma read_not_due (s' : Sensor.t) (w : WorldView) :
  MountedComponent.parent (Sensor.component s') <> None ->
  Sensor.update_period s' <> 0 ->
  Sensor._time_since_update s' + dt < Sensor.update_period s' ->
  Sensor.read s' w dt
  = (Sensor.set_time_since_update s' (Sensor._time_since_update s' + dt),
     None, view_rng w).
Proof.
  intros Hp Hz Hlt. unfold Sensor.read, Sensor.should_update.
  destruct (MountedComponent.parent (Sensor.component s')); [| contradiction].
  rewrite Reqb_false by exact Hz.
  cbn [Sensor.update_period Sensor._time_since_update Sensor.set_time_since_update].
  rewrite Rleb_false by exact Hlt. reflexivity.
Qed.

Lemma read_due (s' : Sensor.t) (w : WorldView) :
  MountedComponent.parent (Sensor.component s') <> None ->
  Sensor.update_period s' <> 0 ->
  Sensor.update_period s' <= Sensor._time_since_update s' + dt ->
  exists reading rng,
    Sensor.read s' w dt
    = (Sensor.set_last_reading (Sensor.set_time_since_update s' 0)
                               (Some reading),
       Some reading, rng) /\
    timestamp reading = view_time w /\
    (value reading, metadata reading, rng)
    = Sensor.measure s' (Sensor.component s') (Sensor.noise s') w.
Proof.
  intros Hp Hz Hle. unfold Sensor.read, Sensor.should_update.
  destruct (MountedComponent.parent (Sensor.component s')); [| contradiction].
  rewrite Reqb_false by exact Hz.
  cbn [Sensor.update_period Sensor._time_since_update Sensor.set_time_since_update].
  rewrite Rleb_true by exact Hle. cbn [negb].
  cbn [Sensor.measure Sensor.component Sensor.noise Sensor.set_time_since_update].
  destruct (Sensor.measure s' (Sensor.component s') (Sensor.noise s') w)
    as [[v meta] rng].
  eexists. exists rng. split; [reflexivity |]. cbn. split; reflexivity.
Qed.

Lemma reads_invariant (k : nat) :
  let sk := fst (reads s worlds dt k) in
  same_config sk s /\
  Sensor._time_since_update sk = INR (k mod n) * dt.
Proof.
  destruct ticks_bounds as [_ Hn].
  induction k as [| k IH]; cbn zeta.
  - cbn [reads fst]. split; [repeat split |].
    rewrite Nat.Div0.mod_0_l. cbn [INR]. rewrite Hfresh. lra.
  - cbn zeta in IH. destruct IH as [(Hc & Hp & Hno & Hm) Hacc].
    cbn [reads].
    set (sk := fst (reads s worlds dt k)) in *.
    assert (Hpar : MountedComponent.parent (Sensor.component sk) <> None)
      by (rewrite Hc; exact Hparent).
    assert (Hz : Sensor.update_period sk <> 0).
    { rewrite Hp, Hperiod. pose proof period_pos. lra. }
    rewrite succ_mod by lia.
    destruct (Nat.eqb_spec (S (k mod n)) n) as [E | E].
    + destruct (read_due sk (worlds k) Hpar Hz) as (reading & rng & Hr & _).
      { rewrite Hp, Hperiod, Hacc.
        replace (INR (k mod n) * dt + dt) with (INR (S (k mod n)) * dt)
          by (rewrite S_INR; ring).
        rewrite E. apply reaches_period. }
      rewrite Hr. cbn [fst]. split.
      * repeat split; cbn; assumption.
      * cbn. lra.
    + pose proof (Nat.mod_upper_bound k n ltac:(lia)) as Hj.
      rewrite read_not_due; try assumption.
      * cbn [fst]. split.
        -- repeat split; cbn; assumption.
        -- cbn [Sensor._time_since_update Sensor.set_time_since_update].
           rewrite Hacc, S_INR. ring.
      * rewrite Hp, Hperiod, Hacc.
        replace (INR (k mod n) * dt + dt) with (INR (S (k mod n)) * dt)
          by (rewrite S_INR; ring).
        apply below_period. lia.
Qed.

End SampleAndHold.

(** Over the exact reals: a sensor with a positive update rate [rate], read
    once per tick with a fixed timestep [dt], returns no reading on every
    tick where the time accumulated since the last returned reading is
    below the period [1 / rate]; it returns a fresh reading exactly on
    every [ceil ((1 / rate) / dt)]-th tick, resetting the accumulator to
    zero; and on the ticks in between [last_reading] keeps the previous
    reading.  (On Python's floats the count differs: see
    [sample_and_hold_drift].) *)
Lemma sample_and_hold_exact
  (s : Sensor.t) (worlds : nat -> WorldView) (dt rate : R) :
  0 < rate -> 0 < dt ->
  Sensor.update_period s = 1 / rate ->
  Sensor._time_since_update s = 0 ->
  MountedComponent.parent (Sensor.component s) <> None ->
  let n := Z.to_nat (Rceil ((1 / rate) / dt)) in
  (1 <= n)%nat /\
  forall k : nat,
    let before := fst (reads s worlds dt k) in
    let after := fst (reads s worlds dt (S k)) in
    let returned := snd (reads s worlds dt (S k)) in
    (Sensor._time_since_update before + dt < 1 / rate -> returned = None) /\
    ((S k mod n = 0)%nat ->
     exists reading rng,
       returned = Some reading /\
       (value reading, metadata reading, rng)
       = Sensor.measure s (Sensor.component s) (Sensor.noise s) (worlds k) /\
       timestamp reading = view_time (worlds k) /\
       Sensor.last_reading after = Some reading /\
       Sensor._time_since_update after = 0) /\
    ((S k mod n <> 0)%nat ->
     returned = None /\
     Sensor.last_reading after = Sensor.last_reading before).
Proof.
  intros Hrate Hdt Hperiod Hfresh Hparent n.
  destruct (ticks_bounds dt rate Hrate Hdt) as [_ Hn]. fold n in Hn.
  split; [exact Hn |].
  intros k before after returned.
  destruct (reads_invariant s worlds dt rate Hrate Hdt Hperiod Hfresh Hparent k)
    as [(Hc & Hp & Hno & Hm) Hacc].
  fold n in Hacc. fold before in Hc, Hp, Hno, Hm, Hacc.
  assert (Hpar : MountedComponent.parent (Sensor.component before) <> None)
    by (rewrite Hc; exact Hparent).
  assert (Hz : Sensor.update_period before <> 0).
  { rewrite Hp, Hperiod. pose proof (period_pos rate Hrate). lra. }
  assert (Hacc' : Sensor._time_since_update before + dt
                  = INR (S (k mod n)) * dt)
    by (rewrite Hacc, S_INR; ring).
  subst after returned. cbn [reads]. fold before.
  rewrite (succ_mod k n) by lia.
  split; [| split].
  - intros Hlt. rewrite read_not_due; try assumption; [reflexivity |].
    rewrite Hp, Hperiod. exact Hlt.
  - destruct (Nat.eqb_spec (S (k mod n)) n) as [E | E]; [| intros H; discriminate H].
    intros _.
    destruct (read_due dt before (worlds k) Hpar Hz) as (reading & rng & Hr & Ht & Hv).
    { rewrite Hp, Hperiod, Hacc', E. apply reaches_period; assumption. }
    exists reading, rng. rewrite Hr. cbn [fst snd].
    rewrite Hv, Hc, Hno, Hm.
    repeat split; try reflexivity; assumption.
  - destruct (Nat.eqb_spec (S (k mod n)) n) as [E | E]; [intros H; contradiction H; reflexivity |].
    intros _.
    pose proof (Nat.mod_upper_bound k n ltac:(lia)) as Hj.
    rewrite read_not_due; try assumption; [split; reflexivity |].
    rewrite Hp, Hperiod, Hacc'. apply below_period; try assumption. fold n. lia.
Qed.

End SensorTiming.

(** ** Sample-and-hold on binary64 values (middle_level_library/base.py) *)

Section ClockDrift.

Import World Geometry Materials Entities Base Motors Simulator Runs Scenarios.

Variables (s : Sensor.t) (clock : SensorClock.t) (worlds : nat -> WorldView)
          (dt : PrimFloat.float).
Hypothesis Hparent : MountedComponent.parent (Sensor.component s) <> None.

(** The clock after [k] calls of [should_update(dt)]. *)
Let clock_after (k : nat) : SensorClock.t :=
  Nat.iter k (fun c => snd (SensorClock.should_update c dt)) clock.

Lemma clocked_reads_step (k : nat) :
  let '(sk, ck, _) := clocked_reads s clock worlds dt k in
  clocked_reads s clock worlds dt (S k)
  = (let '(s', c', r, _) := SensorClock.read sk ck (worlds k) dt in (s', c', r)).
Proof.
  cbn [clocked_reads].
  destruct (clocked_reads s clock worlds dt k) as [[sk ck] r]. reflexivity.
Qed.

(** A read of a mounted sensor returns a reading exactly when its clock
    says that one is due; otherwise the sensor is left as it is. *)
Lemma clocked_read_cases (s' : Sensor.t) (c : SensorClock.t) (w : WorldView) :
  MountedComponent.parent (Sensor.component s') <> None ->
  let '(s'', c', r, _) := SensorClock.read s' c w dt in
  c' = snd (SensorClock.should_update c dt) /\
  Sensor.component s'' = Sensor.component s' /\
  (if fst (SensorClock.should_update c dt)
   then r <> None /\ Sensor.last_reading s'' = r
   else r = None /\ s'' = s').
Proof.
  intros Hp. unfold SensorClock.read.
  destruct (MountedComponent.parent (Sensor.component s')); [| contradiction].
  destruct (SensorClock.should_update c dt) as [due c']. cbn [fst snd].
  destruct due; cbn [negb].
  - destruct (Sensor.measure s' (Sensor.component s') (Sensor.noise s') w)
      as [[v meta] rng].
    repeat split. discriminate.
  - repeat split.
Qed.

Lemma clocked_reads_clock (k : nat) :
  snd (fst (clocked_reads s clock worlds dt k)) = clock_after k /\
  Sensor.component (fst (fst (clocked_reads s clock worlds dt k)))
  = Sensor.component s.
Proof.
  induction k as [| k IH]; [split; reflexivity |].
  pose proof (clocked_reads_step k) as Hs.
  destruct (clocked_reads s clock worlds dt k) as [[sk ck] r].
  cbn [fst snd] in IH. destruct IH as [Hc Hcomp]. rewrite Hs.
  pose proof (clocked_read_cases sk ck (worlds k)) as Hr.
  destruct (SensorClock.read sk ck (worlds k) dt) as [[[s' c'] r'] rng].
  cbn [fst snd]. destruct Hr as (E1 & E2 & _); [rewrite Hcomp; exact Hparent |].
  split; [| rewrite E2; exact Hcomp].
  rewrite E1, Hc. reflexivity.
Qed.

(** Tick [S k] returns a reading exactly when the clock is due on it. *)
Lemma clocked_reads_due (k : nat) :
  (if fst (SensorClock.should_update (clock_after k) dt)
   then snd (clocked_reads s clock worlds dt (S k)) <> None /\
        Sensor.last_reading (fst (fst (clocked_reads s clock worlds dt (S k))))
        = snd (clocked_reads s clock worlds dt (S k))
   else snd (clocked_reads s clock worlds dt (S k)) = None /\
        fst (fst (clocked_reads s clock worlds dt (S k)))
        = fst (fst (clocked_reads s clock worlds dt k))).
Proof.
  pose proof (clocked_reads_step k) as Hs.
  destruct (clocked_reads_clock k) as [Hc Hcomp].
  destruct (clocked_reads s clock worlds dt k) as [[sk ck] r].
  cbn [fst snd] in Hc, Hcomp. rewrite Hs.
  pose proof (clocked_read_cases sk ck (worlds k)) as Hr.
  destruct (SensorClock.read sk ck (worlds k) dt) as [[[s' c'] r'] rng].
  cbn [fst snd]. destruct Hr as (_ & _ & E3); [rewrite Hcomp; exact Hparent |].
  rewrite <- Hc. exact E3.
Qed.

Lemma reading_ticks_clock (k : nat) :
  reading_ticks s clock worlds dt k
  = filter (fun i => fst (SensorClock.should_update (clock_after (pred i)) dt))
           (seq 1 k).
Proof.
  unfold reading_ticks. apply filter_ext_in. intros i Hi.
  apply in_seq in Hi. destruct i as [| i]; [lia |]. cbn [pred].
  pose proof (clocked_reads_due i) as H.
  destruct (fst (SensorClock.should_update (clock_after i) dt)).
  - destruct H as [H _].
    destruct (snd (clocked_reads s clock worlds dt (S i)));
      [reflexivity | contradiction].
  - destruct H as [H _]. rewrite H. reflexivity.
Qed.

(** While no tick is due the sensor is as it was. *)
Lemma clocked_reads_quiet (k : nat) :
  (forall j, (j < k)%nat ->
     fst (SensorClock.should_update (clock_after j) dt) = false) ->
  fst (fst (clocked_reads s clock worlds dt k)) = s /\
  snd (clocked_reads s clock worlds dt k) = None.
Proof.
  induction k as [| k IH]; intros Hq; [split; reflexivity |].
  pose proof (clocked_reads_due k) as H.
  rewrite (Hq k) in H by lia. destruct H as [H1 H2].
  split; [| exact H1]. rewrite H2. apply IH. intros j Hj. apply Hq. lia.
Qed.

End ClockDrift.

Section ClockDriftExamples.

Import World Geometry Materials Entities Base Motors Simulator Runs Scenarios.
Import PrimFloat.

Lemma Rceil_ten : Z.to_nat (Rceil ((1 / 10) / 0.01)) = 10%nat.
Proof.
  replace ((1 / 10) / 0.01)%R with 10%R by lra.
  pose proof (Rceil_bounds 10) as [H1 H2].
  assert (H3 : (Rceil 10 < 11)%Z) by (apply lt_IZR; lra).
  assert (H4 : (10 <= Rceil 10)%Z) by (apply le_IZR; lra).
  replace (Rceil 10) with 10%Z by lia. reflexivity.
Qed.

(** C4. A sensor constructed with [update_rate_hz=10.0] and read with
    [dt = 0.01] does not return a reading once per
    [ceil ((1 / R) / dt) = 10] ticks.  On tick 10 the accumulated time is
    [0.09999999999999999], below the period [0.1]: [read] returns [None]
    and [last_reading] is still [None].  The readings come on ticks 11, 22
    and 33: once per 11 ticks, whatever the worlds read.  The same happens
    at 1 Hz with [dt = 0.1], where the period [1.0] is an exact float, and
    at 10 Hz with the simulator's default [dt = 1 / 120], where the
    readings come once per 13 ticks instead of 12. *)
Theorem sample_and_hold_drift (worlds : nat -> WorldView) :
  let reads_10hz := clocked_reads encoder_10hz clock_10hz worlds
                                  Float.hundredth in
  (Float.hundredth = 1 / 100 /\ Float.tenth = 1 / 10)%float /\
  (((1 / Float.ten) / Float.hundredth = 10)%float /\
   Z.to_nat (Rceil ((1 / 10) / 0.01)) = 10%nat) /\
  (snd (reads_10hz 10%nat) = None /\
   Sensor.last_reading (fst (fst (reads_10hz 10%nat))) = None /\
   SensorClock._time_since_update (snd (fst (reads_10hz 10%nat)))
   = 0x1.9999999999999p-4%float /\
   SensorClock.update_period (snd (fst (reads_10hz 10%nat)))
   = 0x1.999999999999ap-4%float) /\
  (snd (reads_10hz 11%nat) <> None /\
   Sensor.last_reading (fst (fst (reads_10hz 11%nat))) = snd (reads_10hz 11%nat) /\
   SensorClock._time_since_update (snd (fst (reads_10hz 11%nat))) = 0%float) /\
  reading_ticks encoder_10hz clock_10hz worlds Float.hundredth 33
  = [11; 22; 33]%nat /\
  (((1 / Float.one) / Float.tenth = 10)%float /\
   reading_ticks encoder_1hz clock_1hz worlds Float.tenth 22
   = [11; 22]%nat) /\
  (((1 / Float.ten) / Float.default_dt = 12)%float /\
   reading_ticks encoder_10hz clock_10hz worlds Float.default_dt 26
   = [13; 26]%nat).
Proof.
  intros reads_10hz.
  assert (Hp : MountedComponent.parent (Sensor.component encoder_10hz) <> None)
    by (cbn; discriminate).
  assert (Hp1 : MountedComponent.parent (Sensor.component encoder_1hz) <> None)
    by (cbn; discriminate).
  split; [split; reflexivity |].
  split; [split; [reflexivity | exact Rceil_ten] |].
  split; [| split; [| split; [| split]]].
  - destruct (clocked_reads_quiet encoder_10hz clock_10hz worlds
                Float.hundredth Hp 10) as [Hs Hr].
    { intros j Hj. do 10 (destruct j as [| j]; [vm_compute; reflexivity |]). lia. }
    destruct (clocked_reads_clock encoder_10hz clock_10hz worlds
                Float.hundredth Hp 10) as [Hc _].
    unfold reads_10hz. rewrite Hs, Hr, Hc.
    split; [reflexivity | split; [reflexivity | split; vm_compute; reflexivity]].
  - pose proof (clocked_reads_due encoder_10hz clock_10hz worlds
                  Float.hundredth Hp 10) as Hd.
    destruct (clocked_reads_clock encoder_10hz clock_10hz worlds
                Float.hundredth Hp 11) as [Hc _].
    replace (fst (SensorClock.should_update _ Float.hundredth)) with true in Hd
      by (vm_compute; reflexivity).
    destruct Hd as [H1 H2]. unfold reads_10hz. rewrite Hc.
    split; [exact H1 | split; [exact H2 | vm_compute; reflexivity]].
  - rewrite reading_ticks_clock by exact Hp. vm_compute. reflexivity.
  - split; [reflexivity |].
    rewrite reading_ticks_clock by exact Hp1. vm_compute. reflexivity.
  - split; [reflexivity |].
    rewrite reading_ticks_clock by exact Hp. vm_compute. reflexivity.
Qed.

End ClockDriftExamples.

(** ** Dictionaries *)

Section DictFacts.
Context {V : Type}.
Implicit Types (d : list (string * V)) (k : string) (v : V).

Lemma dict_get_set_same d k v : dict_get (dict_set d k v) k = Some v.
Proof.
  induction d as [| [k' v'] d IH]; cbn.
  - rewrite String.eqb_refl. reflexivity.
  - destruct (String.eqb k' k) eqn:E; cbn; rewrite E; [reflexivity | exact IH].
Qed.

Lemma dict_get_set_other d k k' v :
  k <> k' -> dict_get (dict_set d k v) k' = dict_get d k'.
Proof.
  intros Hne. induction d as [| [k0 v0] d IH]; cbn.
  - destruct (String.eqb_spec k k'); [contradiction | reflexivity].
  - destruct (String.eqb_spec k0 k) as [-> | Hk]; cbn.
    + destruct (String.eqb_spec k k'); [contradiction | reflexivity].
    + destruct (String.eqb_spec k0 k'); [reflexivity | exact IH].
Qed.

Lemma dict_set_id d k v : dict_get d k = Some v -> dict_set d k v = d.
Proof.
  induction d as [| [k0 v0] d IH]; cbn; [discriminate |].
  destruct (String.eqb_spec k0 k) as [-> | Hk].
  - intros H. inversion H. reflexivity.
  - intros H. rewrite (IH H). reflexivity.
Qed.

Lemma dict_set_keys d k v :
  dict_get d k <> None -> map fst (dict_set d k v) = map fst d.
Proof.
  induction d as [| [k0 v0] d IH]; cbn; [congruence |].
  destruct (String.eqb_spec k0 k) as [-> | Hk]; cbn; [reflexivity |].
  intros H. rewrite (IH H). reflexivity.
Qed.

Lemma dict_get_In d k v :
  NoDup (map fst d) -> In (k, v) d -> dict_get d k = Some v.
Proof.
  induction d as [| [k0 v0] d IH]; cbn; [contradiction |].
  intros Hnd [Hin | Hin].
  - inversion Hin; subst. rewrite String.eqb_refl. reflexivity.
  - inversion Hnd as [| ? ? Hnotin Hnd']; subst.
    destruct (String.eqb_spec k0 k) as [-> | Hk].
    + exfalso. apply Hnotin. apply (in_map fst) in Hin. exact Hin.
    + apply IH; assumption.
Qed.

Lemma dict_get_None_notin d k :
  dict_get d k = None <-> ~ In k (map fst d).
Proof.
  induction d as [| [k0 v0] d IH]; cbn; [tauto |].
  destruct (String.eqb_spec k0 k) as [-> | Hk].
  - split; [discriminate | intros H; exfalso; apply H; auto].
  - rewrite IH. split; [intros H [E | Hin]; [contradiction | auto] | auto].
Qed.

Lemma dict_set_new d k v :
  dict_get d k = None -> dict_set d k v = d ++ [(k, v)].
Proof.
  induction d as [| [k0 v0] d IH]; cbn; [reflexivity |].
  destruct (String.eqb_spec k0 k); [discriminate |].
  intros H. rewrite (IH H). reflexivity.
Qed.

End DictFacts.

(** ** Contact resolution (core/simulator.py) *)

Section Contacts.

Import World Geometry Materials Entities Base Motors Simulator Scenarios.

Lemma inv_mass_of_nonneg (body : SimObject) : 0 <= inv_mass_of body.
Proof.
  unfold inv_mass_of. destruct (can_move body); cbn [negb]; [| lra].
  apply Rlt_le. apply Rdiv_lt_0_compat; [lra |].
  eapply Rlt_le_trans; [| apply Rmax_r]. lra.
Qed.

Lemma inv_mass_of_movable (body : SimObject) :
  can_move body = true -> 0 < inv_mass_of body.
Proof.
  intros H. unfold inv_mass_of. rewrite H. cbn [negb].
  apply Rdiv_lt_0_compat; [lra |].
  eapply Rlt_le_trans; [| apply Rmax_r]. lra.
Qed.

Lemma inv_mass_sum_pos (a b : SimObject) :
  can_move a || can_move b = true -> 0 < inv_mass_of a + inv_mass_of b.
Proof.
  intros H. apply orb_true_iff in H.
  pose proof (inv_mass_of_nonneg a). pose proof (inv_mass_of_nonneg b).
  destruct H as [H | H]; apply inv_mass_of_movable in H; lra.
Qed.

Lemma push_back_material (x : SimObject) (i : R) (p : Point2D) :
  material (push_back x i p) = material x.
Proof. unfold push_back. destruct (can_move x); reflexivity. Qed.

Lemma push_forward_material (x : SimObject) (i : R) (p : Point2D) :
  material (push_forward x i p) = material x.
Proof. unfold push_forward. destruct (can_move x); reflexivity. Qed.

(** The two branches of the velocity resolution, in terms of the solver's
    own variable [vel_along_normal = (v_a - v_b) . normal]: when it is
    positive nothing is applied; otherwise the normal impulse is
    [(1 + e) * |v_n| / (inv_mass_a + inv_mass_b)] and, for non-negative
    friction, the friction impulse is at most [mu_avg * |j|]. *)
Lemma contact_impulses (self : t) (a b : SimObject) (m : CollisionManifold) :
  can_move a || can_move b = true ->
  0 <= friction (material a) + friction (material b) ->
  let out := _resolve_contact self a b m in
  let v_n := vel_along a b (normal m) in
  let e := Rmax 0 (Rmin 1 (Rmax (restitution (material a))
                                (restitution (material b)))) in
  let mu_avg := (friction (material a) + friction (material b)) / 2 in
  (0 < v_n ->
   normal_impulse out = None /\ tangent_impulse out = None /\
   state (body_a out) = state a /\ state (body_b out) = state b) /\
  (v_n <= 0 ->
   exists j jt,
     normal_impulse out = Some j /\ tangent_impulse out = Some jt /\
     j = (1 + e) * Rabs v_n / (inv_mass_of a + inv_mass_of b) /\
     Rabs jt <= mu_avg * Rabs j).
Proof.
  intros Hmov Hmu out v_n e mu_avg.
  pose proof (inv_mass_sum_pos a b Hmov) as Hw.
  subst out. unfold _resolve_contact.
  rewrite Reqb_false by lra.
  cbn [isfinite negb orb].
  set (a1 := if can_move a then _ else a).
  set (b1 := if can_move b then _ else b).
  assert (Ha1 : state a1 = state a /\ material a1 = material a /\ can_move a1 = can_move a)
    by (subst a1; destruct (can_move a) eqn:E; cbn; auto).
  assert (Hb1 : state b1 = state b /\ material b1 = material b /\ can_move b1 = can_move b)
    by (subst b1; destruct (can_move b) eqn:E; cbn; auto).
  destruct Ha1 as (Hsa & Hma & Hca). destruct Hb1 as (Hsb & Hmb & Hcb).
  assert (Hvn : vel_along a1 b1 (normal m) = v_n).
  { unfold v_n, vel_along. rewrite Hsa, Hsb. reflexivity. }
  clearbody a1 b1.
  rewrite Hvn. rewrite orb_false_r.
  split.
  - intros Hsep. rewrite Rltb_true by exact Hsep.
    cbn. auto.
  - intros Hcol. rewrite Rltb_false by exact Hcol.
    set (j := - (1 + combined_restitution a1 b1) * v_n / _).
    match goal with
    | |- context [Rmax (- ?L) (Rmin ?L ?x)] => set (jt_limit := L); set (jt := Rmax (- L) (Rmin L x))
    end.
    match goal with
    | |- context [let '(_, _) := ?X in _] => destruct X as [self1 a3]
    end.
    match goal with
    | |- context [let '(_, _) := ?X in _] => destruct X as [self2 b3]
    end.
    cbn [normal_impulse tangent_impulse].
    exists j, jt. split; [reflexivity | split; [reflexivity |]].
    assert (He : combined_restitution a1 b1 = e).
    { unfold combined_restitution, e. rewrite Hma, Hmb. reflexivity. }
    split.
    + unfold j. rewrite He. rewrite (Rabs_left1 v_n) by exact Hcol.
      field. lra.
    + assert (HL : jt_limit = mu_avg * Rabs j).
      { unfold jt_limit, mean_friction, mu_avg.
        rewrite push_back_material, push_forward_material, Hma, Hmb.
        f_equal. lra. }
      rewrite <- HL. apply clamp_abs.
      rewrite HL. apply Rmult_le_pos; [unfold mu_avg; lra | apply Rabs_pos].
Qed.

(** The manifold [collision_manifold] computes for the robot and the
    post. *)
Lemma post_manifold :
  collision_manifold (shape approaching_robot) (pose approaching_robot)
                     (shape post) (pose post)
  = Some post_contact.
Proof.
  cbn [collision_manifold approaching_robot post shape pose].
  unfold _circle_vs_circle_manifold.
  cbn [Pose2D.x Pose2D.y].
  replace ((0.19 - 0) * (0.19 - 0) + (0 - 0) * (0 - 0)) with (0.19 * 0.19)
    by ring.
  rewrite Rleb_false by lra.
  rewrite (Rltb_true 1e-12 (0.19 * 0.19)) by lra.
  rewrite sqrt_square by lra.
  rewrite Rltb_true by lra.
  cbn [fst snd]. unfold post_contact.
  f_equal. f_equal; [f_equal; lra | lra | f_equal; lra].
Qed.

(** C2, evaluated where the code departs from it. The manifold normal
    points from body A to body B and the solver takes the relative velocity
    as [v_a - v_b], so its test [vel_along_normal > 0] holds when the
    bodies approach. A robot driving into a post at 1 m/s receives no
    impulse and keeps its velocity; the same robot backing away from the
    post at 1 m/s receives the repulsive impulse
    [(1 + e) * |v_n| / (inv_mass_a + inv_mass_b) = 1.76]. *)
Theorem contact_velocity_sign :
  collision_manifold (shape approaching_robot) (pose approaching_robot)
                     (shape post) (pose post) = Some post_contact /\
  collision_manifold (shape retreating_robot) (pose retreating_robot)
                     (shape post) (pose post) = Some post_contact /\
  (let out :=
     _resolve_contact post_scene approaching_robot post post_contact in
   normal_impulse out = None /\ tangent_impulse out = None /\
   state (body_a out) = state approaching_robot /\
   state (body_b out) = state post) /\
  (let out :=
     _resolve_contact post_scene retreating_robot post post_contact in
   normal_impulse out = Some 1.76).
Proof.
  assert (Hf : 0 <= friction (material approaching_robot)
                    + friction (material post)) by (cbn; lra).
  split; [exact post_manifold |]. split; [exact post_manifold |].
  split; cbn zeta.
  - apply (contact_impulses post_scene approaching_robot post post_contact
                            eq_refl Hf).
    unfold vel_along. cbn. lra.
  - destruct (contact_impulses post_scene retreating_robot post
                               post_contact eq_refl Hf) as [_ H].
    destruct H as (j & jt & Hj & _ & Ej & _).
    { unfold vel_along. cbn. lra. }
    rewrite Hj. f_equal. rewrite Ej.
    unfold vel_along, inv_mass_of.
    cbn [retreating_robot post post_contact can_move negb state material
         linear_velocity restitution mass normal fst snd].
    rcompute. lra.
Qed.

End Contacts.

(** ** Snapshots (core/simulator.py) *)

Section Snapshots.

Import World Geometry Materials Entities Base Motors Simulator Scenarios.

Lemma snapshot_bodies_fold (bs : list (string * SimObject)) (acc : list (string * BodyState)) :
  NoDup (map fst acc ++ map fst bs) ->
  fold_left
    (fun (d : list (string * BodyState)) (kv : string * SimObject) =>
       dict_set d (fst kv) (body_snapshot (snd kv))) bs acc
  = acc ++ map (fun kv => (fst kv, body_snapshot (snd kv))) bs.
Proof.
  revert acc. induction bs as [| [k b] bs IH]; intros acc Hnd; cbn.
  - rewrite app_nil_r. reflexivity.
  - cbn in Hnd.
    assert (Hk : dict_get acc k = None).
    { apply dict_get_None_notin. apply NoDup_remove_2 in Hnd.
      intros Hin. apply Hnd. apply in_or_app. left. exact Hin. }
    rewrite (dict_set_new acc k _ Hk). rewrite IH.
    + rewrite <- app_assoc. reflexivity.
    + rewrite map_app. cbn. rewrite <- app_assoc. exact Hnd.
Qed.

Lemma restore_own_snapshot (bs : list (string * SimObject)) (k : string) (b : SimObject) :
  dict_get bs k = Some b -> _restore_body bs k (body_snapshot b) = bs.
Proof.
  intros H. unfold _restore_body. rewrite H. cbn.
  apply dict_set_id. rewrite H. f_equal.
  destruct b as [n [px py pt] sh mat cm [lv av ma moi] pf ptq]. reflexivity.
Qed.

Lemma restore_all_own (bs l : list (string * SimObject)) :
  NoDup (map fst bs) -> incl l bs ->
  fold_left (fun acc (kv : string * BodyState) => _restore_body acc (fst kv) (snd kv))
            (map (fun kv => (fst kv, body_snapshot (snd kv))) l) bs = bs.
Proof.
  intros Hnd. induction l as [| [k b] l IH]; intros Hincl; cbn; [reflexivity |].
  rewrite restore_own_snapshot.
  - apply IH. intros x Hx. apply Hincl. right. exact Hx.
  - apply dict_get_In; [exact Hnd |]. apply Hincl. left. reflexivity.
Qed.

Lemma nth_error_replace_same {A : Type} (l : list A) (n : nat) (a x : A) :
  nth_error l n = Some x -> nth_error (replace_nth l n a) n = Some a.
Proof.
  revert n. induction l as [| y l IH]; intros [| n]; cbn; try discriminate.
  - reflexivity.
  - apply IH.
Qed.

Lemma nth_error_replace_other {A : Type} (l : list A) (n m : nat) (a : A) :
  n <> m -> nth_error (replace_nth l n a) m = nth_error l m.
Proof.
  revert n m. induction l as [| y l IH]; intros [| n] [| m] H; cbn;
    try reflexivity; try contradiction.
  apply IH. congruence.
Qed.

Lemma restored_refl bs : restored bs bs.
Proof. induction bs; constructor; auto. Qed.

Lemma restored_trans bs1 bs2 bs3 :
  restored bs1 bs2 -> restored bs2 bs3 -> restored bs1 bs3.
Proof.
  intros H. revert bs3. induction H as [| x y l l' [Hk Hr] H IH]; intros bs3 H3.
  - inversion H3. constructor.
  - inversion H3 as [| ? z ? l3 [Hk' Hr'] H3']; subst.
    constructor; [split; congruence | apply IH; exact H3'].
Qed.

Lemma restored_dict_set bs k b b' :
  dict_get bs k = Some b -> body_rest b' = body_rest b ->
  restored bs (dict_set bs k b').
Proof.
  induction bs as [| [k0 b0] bs IH]; cbn; [discriminate |].
  destruct (String.eqb_spec k0 k) as [-> | Hk]; intros H Hr.
  - inversion H; subst. constructor; [auto | apply restored_refl].
  - constructor; [auto | apply IH; assumption].
Qed.

Lemma restored_restore_body bs k s : restored bs (_restore_body bs k s).
Proof.
  unfold _restore_body.
  destruct (dict_get bs k) as [b |] eqn:E; [| apply restored_refl].
  apply (restored_dict_set bs k b); [exact E | reflexivity].
Qed.

Lemma restored_fold (snap : list (string * BodyState)) bs :
  restored bs
    (fold_left (fun acc (kv : string * BodyState) =>
                  _restore_body acc (fst kv) (snd kv)) snap bs).
Proof.
  revert bs. induction snap as [| [k s] snap IH]; intros bs; cbn.
  - apply restored_refl.
  - eapply restored_trans; [apply restored_restore_body | apply IH].
Qed.

Lemma restore_body_other bs k s name :
  k <> name -> dict_get (_restore_body bs k s) name = dict_get bs name.
Proof.
  intros H. unfold _restore_body.
  destruct (dict_get bs k); [| reflexivity].
  apply dict_get_set_other. exact H.
Qed.

Lemma restore_fold_other (snap : list (string * BodyState)) bs name :
  dict_get snap name = None ->
  dict_get (fold_left (fun acc (kv : string * BodyState) =>
                         _restore_body acc (fst kv) (snd kv)) snap bs) name
  = dict_get bs name.
Proof.
  revert bs. induction snap as [| [k s] snap IH]; intros bs; cbn; [reflexivity |].
  destruct (String.eqb_spec k name) as [-> | Hk]; [discriminate |].
  intros H. rewrite (IH _ H). apply restore_body_other. exact Hk.
Qed.

Lemma with_attrs_id (c : Controller) : with_attrs c (attrs c) = c.
Proof. destruct c; reflexivity. Qed.

(** C8. [apply_snapshot(snapshot())] leaves the time, the step index and
    every body (pose, linear and angular velocity) as they were; and
    [apply_snapshot(s)] changes nothing but the time, the step index, the
    pose and velocity of the bodies named in [s], and the attributes of the
    primary controller through its [set_state] - bodies not named in [s],
    joints, motors, sensors and all other state stay as they were. *)
Theorem snapshot_restores (self : t) :
  NoDup (map fst (bodies self)) ->
  (let self1 := fst (snapshot self) in
   let self2 := apply_snapshot self1 (snd (snapshot self)) in
   time self2 = time self /\
   step_index self2 = step_index self /\
   bodies self2 = bodies self) /\
  (forall snap : SnapshotState,
     let self' := apply_snapshot self snap in
     time self' = snap_time snap /\
     step_index self' = snap_step snap /\
     outside_snapshot self' = outside_snapshot self /\
     restored (bodies self) (bodies self') /\
     (forall name, dict_get (snap_bodies snap) name = None ->
                   dict_get (bodies self') name = dict_get (bodies self) name) /\
     (forall ref, controller_instance self <> Some ref ->
                  nth_error (controllers self') ref
                  = nth_error (controllers self) ref) /\
     (forall ref c, controller_instance self = Some ref ->
                    nth_error (controllers self) ref = Some c ->
                    exists a, nth_error (controllers self') ref
                              = Some (with_attrs c a)) /\
     (controller_state snap = None -> controllers self' = controllers self)).
Proof.
  intros Hnd. split.
  - cbn zeta.
    assert (Hs : exists cs self1,
               snapshot self
               = (self1, mkSnapshot (time self) (step_index self)
                           (map (fun kv => (fst kv, body_snapshot (snd kv)))
                                (bodies self)) cs)
               /\ bodies self1 = bodies self
               /\ controller_instance self1 = controller_instance self).
    { unfold snapshot. rewrite snapshot_bodies_fold by exact Hnd. cbn [app].
      destruct (controller_instance self) as [ref |] eqn:Eci; [| eauto].
      destruct (nth_error (controllers self) ref) as [c |]; [| eauto].
      destruct (get_state c) as [g |]; [| eauto].
      destruct (g (attrs c)) as [res a']. eexists _, _. split; [reflexivity |].
      split; [reflexivity | cbn; exact Eci]. }
    destruct Hs as (cs & self1 & Hs & Hb & Hci). rewrite Hs. cbn [fst snd].
    unfold apply_snapshot.
    cbn [snap_time snap_step snap_bodies controller_state].
    set (self2 := set_bodies _ _).
    assert (H2 : time self2 = time self /\ step_index self2 = step_index self
                 /\ bodies self2 = bodies self).
    { subst self2. cbn. rewrite Hb. repeat split.
      apply restore_all_own; [exact Hnd | apply incl_refl]. }
    destruct (controller_instance self2) as [ref |]; [| exact H2].
    destruct cs as [v |]; [| exact H2].
    destruct (truthy v); [| exact H2].
    destruct (nth_error (controllers self2) ref) as [c |]; [| exact H2].
    destruct (set_state c); [| exact H2].
    cbn. exact H2.
  - intros snap self'. subst self'. unfold apply_snapshot.
    set (self2 := set_bodies _ _).
    assert (H2 : time self2 = snap_time snap /\
                 step_index self2 = snap_step snap /\
                 outside_snapshot self2 = outside_snapshot self /\
                 restored (bodies self) (bodies self2) /\
                 (forall name, dict_get (snap_bodies snap) name = None ->
                               dict_get (bodies self2) name
                               = dict_get (bodies self) name) /\
                 controllers self2 = controllers self /\
                 controller_instance self2 = controller_instance self).
    { subst self2. cbn. repeat split.
      - apply restored_fold.
      - intros name H. apply restore_fold_other. exact H. }
    destruct H2 as (Ht & Hst & Ho & Hr & Hn & Hc & Hci).
    clearbody self2.
    assert (Hkeep : time self2 = snap_time snap /\
      step_index self2 = snap_step snap /\
      outside_snapshot self2 = outside_snapshot self /\
      restored (bodies self) (bodies self2) /\
      (forall name, dict_get (snap_bodies snap) name = None ->
                    dict_get (bodies self2) name = dict_get (bodies self) name) /\
      (forall ref, controller_instance self <> Some ref ->
                   nth_error (controllers self2) ref
                   = nth_error (controllers self) ref) /\
      (forall ref c, controller_instance self = Some ref ->
                     nth_error (controllers self) ref = Some c ->
                     exists a, nth_error (controllers self2) ref
                               = Some (with_attrs c a)) /\
      (controller_state snap = None -> controllers self2 = controllers self)).
    { do 5 (split; [assumption |]). split; [| split].
      - intros ref _. rewrite Hc. reflexivity.
      - intros ref c _ Hnth. exists (attrs c). rewrite Hc, Hnth.
        rewrite with_attrs_id. reflexivity.
      - intros _. exact Hc. }
    rewrite Hci.
    destruct (controller_instance self) as [ref |] eqn:Eci; [| exact Hkeep].
    destruct (controller_state snap) as [v |] eqn:Ecs; [| exact Hkeep].
    destruct (truthy v); [| exact Hkeep].
    destruct (nth_error (controllers self2) ref) as [c |] eqn:Ec; [| exact Hkeep].
    destruct (set_state c) as [f |]; [| exact Hkeep].
    cbn. do 5 (split; [assumption |]). split; [| split].
    + intros ref' Hne. rewrite nth_error_replace_other by congruence.
      rewrite Hc. reflexivity.
    + intros ref' c' Href Hnth. inversion Href; subst ref'.
      rewrite Hc in Ec. rewrite Hnth in Ec. inversion Ec; subst c'.
      exists (f (attrs c) v). rewrite Hc.
      apply (nth_error_replace_same _ _ _ c). exact Hnth.
    + discriminate.
Qed.

Lemma snapshot_restores_witness :
  NoDup (map fst (bodies two_body_scene)) /\
  bodies (apply_snapshot (fst (snapshot two_body_scene))
                         (snd (snapshot two_body_scene)))
  = bodies two_body_scene.
Proof.
  assert (H : NoDup (map fst (bodies two_body_scene))).
  { cbn. repeat constructor; cbn; intuition discriminate. }
  split; [exact H |].
  destruct (snapshot_restores two_body_scene H) as [(_ & _ & Hb) _].
  exact Hb.
Defined.

End Snapshots.

(** ** Tactics for simulator records *)

Ltac sim_simpl :=
  cbn [Simulator.rebase fst snd
       Simulator.dt Simulator.gravity Simulator.time Simulator.step_index Simulator.bodies Simulator.joints Simulator.sensors Simulator.motors
       Simulator.controller_instance Simulator.controller_instances Simulator.controllers Simulator._rng
       Simulator.last_controller_error Simulator.last_controller_errors
       Simulator.last_sensor_readings Simulator.last_sensor_readings_by_robot
       Simulator.last_motor_commands Simulator.last_motor_commands_by_robot Simulator.last_physics_warning
       Simulator.robot_ids Simulator.sensor_owners Simulator.motor_owners
       Simulator.linear_damping Simulator.angular_damping Simulator.max_linear_speed Simulator.max_angular_speed
       Simulator.contact_correction_percent Simulator.contact_slop Simulator.max_penetration_correction
       Simulator.max_step_translation
       Simulator.set_time Simulator.set_step_index Simulator.set_bodies Simulator.set_joints Simulator.set_sensors Simulator.set_motors
       Simulator.set_controllers Simulator.set_rng Simulator.set_last_controller_error
       Simulator.set_last_controller_errors Simulator.set_last_sensor_readings
       Simulator.set_last_sensor_readings_by_robot Simulator.set_last_motor_commands
       Simulator.set_last_motor_commands_by_robot Simulator.set_last_physics_warning
       Simulator._flag_warning].

Ltac case_ifs :=
  repeat (sim_simpl;
          match goal with
          | |- context [if ?c then _ else _] => destruct c
          | |- context [match ?c with Some _ => _ | None => _ end] => destruct c
          end).

(** ** The physics of a tick reads and writes the physical state only *)

Section Determinism.

Import World Geometry Materials Entities Base Motors Simulator Runs Scenarios.

Lemma sanitize_velocity_rebase (o : t) (self : t) (body : SimObject) :
  _sanitize_velocity (rebase o self) body
  = (rebase o (fst (_sanitize_velocity self body)),
     snd (_sanitize_velocity self body)).
Proof.
  unfold _sanitize_velocity.
  destruct (linear_velocity (state body)) as [vx vy].
  sim_simpl. cbn [isfinite andb negb].
  case_ifs; reflexivity.
Qed.

Lemma sanitize_pose_rebase (o : t) (self : t) (body : SimObject) :
  _sanitize_pose (rebase o self) body
  = (rebase o (fst (_sanitize_pose self body)), snd (_sanitize_pose self body)).
Proof.
  unfold _sanitize_pose. cbn [isfinite andb negb]. reflexivity.
Qed.

Lemma integrate_loop_rebase (o : t) (items : list (string * SimObject)) (self : t) (dt : R) :
  _integrate_bodies_loop items (rebase o self) dt
  = (fst (_integrate_bodies_loop items self dt),
     rebase o (snd (_integrate_bodies_loop items self dt))).
Proof.
  revert self. induction items as [| [name body] items IH]; intros self;
    cbn [_integrate_bodies_loop]; [reflexivity |].
  change (gravity (rebase o self)) with (gravity self).
  destruct (gravity self) as [gx gy].
  destruct (negb (can_move body) || Rleb (mass (state body)) 0).
  - rewrite IH. destruct (_integrate_bodies_loop items self dt). reflexivity.
  - cbn [apply_force state].
    destruct (linear_velocity (state body)) as [vx vy].
    change (linear_damping (rebase o self)) with (linear_damping self).
    change (angular_damping (rebase o self)) with (angular_damping self).
    rewrite sanitize_velocity_rebase.
    destruct (_sanitize_velocity self _) as [self1 body1]. cbn [fst snd].
    rewrite sanitize_pose_rebase.
    destruct (_sanitize_pose self1 _) as [self2 body2]. cbn [fst snd].
    rewrite IH. destruct (_integrate_bodies_loop items self2 dt). reflexivity.
Qed.

Lemma integrate_bodies_rebase (o : t) (self : t) (dt : R) :
  _integrate_bodies (rebase o self) dt = rebase o (_integrate_bodies self dt).
Proof.
  unfold _integrate_bodies. change (bodies (rebase o self)) with (bodies self).
  rewrite integrate_loop_rebase.
  destruct (_integrate_bodies_loop (bodies self) self dt) as [bs s1].
  reflexivity.
Qed.

Lemma translate_body_rebase (o : t) (self : t) (name : string) (dx dy : R) :
  translate_body (rebase o self) name dx dy = rebase o (translate_body self name dx dy).
Proof.
  unfold translate_body. change (bodies (rebase o self)) with (bodies self).
  destruct (dict_get (bodies self) name); reflexivity.
Qed.

Lemma solve_joint_rebase (o : t) (self : t) (jr : JointRuntime) (dt : R) :
  _solve_joint (rebase o self) jr dt
  = (rebase o (fst (_solve_joint self jr dt)), snd (_solve_joint self jr dt)).
Proof.
  unfold _solve_joint. change (bodies (rebase o self)) with (bodies self).
  destruct (dict_get (bodies self) (parent (cfg jr))) as [pb |]; [| reflexivity].
  destruct (dict_get (bodies self) (child (cfg jr))) as [cb |]; [| reflexivity].
  cbn [isfinite negb].
  change (max_penetration_correction (rebase o self))
    with (max_penetration_correction self).
  case_ifs; cbn [fst snd cfg set_lambda_accum];
    rewrite ?translate_body_rebase; reflexivity.
Qed.

Lemma solve_joints_loop_rebase (o : t) (jrs : list JointRuntime) (self : t) (dt : R) :
  _solve_joints_loop jrs (rebase o self) dt
  = (fst (_solve_joints_loop jrs self dt),
     rebase o (snd (_solve_joints_loop jrs self dt))).
Proof.
  revert self. induction jrs as [| jr jrs IH]; intros self;
    cbn [_solve_joints_loop]; [reflexivity |].
  rewrite solve_joint_rebase.
  destruct (_solve_joint self jr dt) as [s1 jr1]. cbn [fst snd].
  rewrite IH. destruct (_solve_joints_loop jrs s1 dt). reflexivity.
Qed.

Lemma solve_joints_rebase (o : t) (self : t) (dt : R) :
  _solve_joints (rebase o self) dt = rebase o (_solve_joints self dt).
Proof.
  unfold _solve_joints. change (joints (rebase o self)) with (joints self).
  rewrite solve_joints_loop_rebase.
  destruct (_solve_joints_loop (joints self) self dt). reflexivity.
Qed.

Lemma resolve_contact_rebase (o : t) (self : t) (a b : SimObject) (m : CollisionManifold) :
  _resolve_contact (rebase o self) a b m
  = let out := _resolve_contact self a b m in
    mkContact (rebase o (contact_self out)) (body_a out) (body_b out)
              (normal_impulse out) (tangent_impulse out).
Proof.
  cbn zeta. unfold _resolve_contact. cbn [isfinite negb orb].
  sim_simpl.
  destruct (Reqb (inv_mass_of a + inv_mass_of b) 0); [reflexivity |].
  rewrite !orb_false_r.
  match goal with |- context [Rltb 0 ?v] => destruct (Rltb 0 v) end;
    [reflexivity |].
  match goal with
  | |- context [if can_move ?a3 then _sanitize_velocity (rebase o self) ?a3 else _] =>
    set (a' := a3)
  end.
  destruct (can_move a').
  - rewrite sanitize_velocity_rebase.
    destruct (_sanitize_velocity self a') as [s1 a1]. cbn [fst snd].
    match goal with
    | |- context [if can_move ?b3 then _sanitize_velocity (rebase o s1) ?b3 else _] =>
      set (b' := b3)
    end.
    destruct (can_move b').
    + rewrite sanitize_velocity_rebase.
      destruct (_sanitize_velocity s1 b') as [s2 b1]. reflexivity.
    + reflexivity.
  - match goal with
    | |- context [if can_move ?b3 then _sanitize_velocity (rebase o self) ?b3 else _] =>
      set (b' := b3)
    end.
    destruct (can_move b').
    + rewrite sanitize_velocity_rebase.
      destruct (_sanitize_velocity self b') as [s2 b1]. reflexivity.
    + reflexivity.
Qed.

Lemma solve_pair_rebase (o : t) (self : t) (na nb : string) :
  _solve_pair (rebase o self) na nb = rebase o (_solve_pair self na nb).
Proof.
  unfold _solve_pair. change (bodies (rebase o self)) with (bodies self).
  destruct (dict_get (bodies self) na) as [a |]; [| reflexivity].
  destruct (dict_get (bodies self) nb) as [b |]; [| reflexivity].
  destruct (negb (can_move a || can_move b)); [reflexivity |].
  destruct (collision_manifold _ _ _ _) as [m |]; [| reflexivity].
  rewrite resolve_contact_rebase. cbn zeta.
  destruct (_resolve_contact self a b m) as [s1 a1 b1 j jt].
  reflexivity.
Qed.

Lemma solve_contacts_inner_rebase (o : t) (later : list string) (self : t) (na : string) :
  _solve_contacts_inner (rebase o self) na later
  = rebase o (_solve_contacts_inner self na later).
Proof.
  revert self. induction later as [| nb later IH]; intros self;
    cbn [_solve_contacts_inner]; [reflexivity |].
  rewrite solve_pair_rebase. apply IH.
Qed.

Lemma solve_contacts_outer_rebase (o : t) (names : list string) (self : t) :
  _solve_contacts_outer (rebase o self) names
  = rebase o (_solve_contacts_outer self names).
Proof.
  revert self. induction names as [| na names IH]; intros self;
    cbn [_solve_contacts_outer]; [reflexivity |].
  rewrite solve_contacts_inner_rebase. apply IH.
Qed.

Lemma solve_contacts_rebase (o : t) (self : t) (dt : R) :
  _solve_contacts (rebase o self) dt = rebase o (_solve_contacts self dt).
Proof. unfold _solve_contacts. apply solve_contacts_outer_rebase. Qed.

Lemma check_step_sanity_loop_rebase (o : t) (items : list (string * SimObject))
  (self : t) (prev : list (string * Pose2D.t)) (limit : R) :
  _check_step_sanity_loop items (rebase o self) prev limit
  = (fst (_check_step_sanity_loop items self prev limit),
     rebase o (snd (_check_step_sanity_loop items self prev limit))).
Proof.
  revert self. induction items as [| [name body] items IH]; intros self;
    cbn [_check_step_sanity_loop]; [reflexivity |].
  cbn [isfinite negb].
  destruct (negb (can_move body)).
  { rewrite IH. destruct (_check_step_sanity_loop items self prev limit).
    reflexivity. }
  destruct (dict_get prev name) as [p |].
  2:{ rewrite IH. destruct (_check_step_sanity_loop items self prev limit).
      reflexivity. }
  match goal with |- context [Rltb limit ?d] => destruct (Rltb limit d) end.
  - match goal with |- context [Rltb 1e-9 ?d] => destruct (Rltb 1e-9 d) end.
    + change (_flag_warning (rebase o self) (LargeStep name))
        with (rebase o (_flag_warning self (LargeStep name))).
      rewrite IH. destruct (_check_step_sanity_loop items _ prev limit).
      reflexivity.
    + change (_flag_warning (rebase o self) (LargeStep name))
        with (rebase o (_flag_warning self (LargeStep name))).
      rewrite IH. destruct (_check_step_sanity_loop items _ prev limit).
      reflexivity.
  - rewrite IH. destruct (_check_step_sanity_loop items self prev limit).
    reflexivity.
Qed.

Lemma check_step_sanity_rebase (o : t) (self : t) (prev : list (string * Pose2D.t)) (dt : R) :
  _check_step_sanity (rebase o self) prev dt = rebase o (_check_step_sanity self prev dt).
Proof.
  unfold _check_step_sanity.
  change (max_step_translation (rebase o self)) with (max_step_translation self).
  change (bodies (rebase o self)) with (bodies self).
  destruct (Rleb (max_step_translation self) 0); [reflexivity |].
  rewrite check_step_sanity_loop_rebase.
  destruct (_check_step_sanity_loop _ self prev _). reflexivity.
Qed.

Lemma physics_rebase (o : t) (self : t) (prev : list (string * Pose2D.t)) (dt : R) :
  _physics (rebase o self) prev dt = rebase o (_physics self prev dt).
Proof.
  unfold _physics.
  rewrite integrate_bodies_rebase, solve_joints_rebase, solve_contacts_rebase,
    check_step_sanity_rebase.
  reflexivity.
Qed.

Lemma command_motor_rebase (o : t) (self : t) (c : Command) :
  command_motor (rebase o self) c = rebase o (command_motor self c).
Proof.
  unfold command_motor. sim_simpl.
  destruct (dict_get (motors self) (motor c)) as [m |]; [| reflexivity].
  destruct (motor_command m _ _ _) as [m' w].
  destruct (MountedComponent.parent _); [| reflexivity].
  destruct (parent_body w); reflexivity.
Qed.

Lemma commands_rebase (o : t) (cmds : list Command) (self : t) :
  fold_left command_motor cmds (rebase o self)
  = rebase o (fold_left command_motor cmds self).
Proof.
  revert self. induction cmds as [| c cmds IH]; intros self; cbn [fold_left];
    [reflexivity |].
  rewrite command_motor_rebase. apply IH.
Qed.

Lemma finish_step_rebase (o : t) (self : t) (dt : R) :
  rebase o (_finish_step self dt)
  = set_step_index (rebase o self) (Simulator.step_index self + 1)%Z.
Proof. reflexivity. Qed.

Lemma update_sensors_rebase (o : t) (self : t) (dt : R) :
  rebase o (fst (_update_sensors self dt)) = rebase o self.
Proof.
  unfold _update_sensors.
  destruct (_update_sensors_loop _ _ _ _ _ _) as [[[ss rng] rd] pr].
  reflexivity.
Qed.

Lemma record_controller_error_rebase (o : t) (self : t) (rid : string) (m : option string) :
  rebase o (_record_controller_error self rid m) = rebase o self.
Proof. reflexivity. Qed.

Lemma tick_robot_rebase (o : t) (self : t) (rd : list (string * Value)) (dt : R) (rid : string) :
  rebase o (fst (_tick_robot self rd dt rid))
  = fold_left command_motor (issued_of (snd (_tick_robot self rd dt rid)))
              (rebase o self).
Proof.
  unfold _tick_robot.
  destruct (_controller_for self rid) as [ref |]; [| reflexivity].
  destruct (nth_error (controllers self) ref) as [c |]; [| reflexivity].
  destruct (tick_fn c) as [tick |]; [| reflexivity].
  destruct (has_error self rid); [reflexivity |].
  cbn [fst snd issued_of].
  set (out := tick _ _ _).
  rewrite commands_rebase.
  destruct (raised out); [rewrite record_controller_error_rebase |];
    rewrite <- !commands_rebase; reflexivity.
Qed.

Lemma tick_loop_rebase (o : t) (rids : list string) (self : t)
  (rd : list (string * Value)) (dt : R) :
  rebase o (fst (_tick_controller_loop rids self rd dt))
  = fold_left command_motor
      (flat_map (fun e : string * TickOutcome => issued (snd e))
                (snd (_tick_controller_loop rids self rd dt)))
      (rebase o self).
Proof.
  revert self. induction rids as [| rid rids IH]; intros self;
    cbn [_tick_controller_loop]; [reflexivity |].
  pose proof (tick_robot_rebase o self rd dt rid) as H1.
  destruct (_tick_robot self rd dt rid) as [s1 called]. cbn [fst snd] in H1.
  specialize (IH s1).
  destruct (_tick_controller_loop rids s1 rd dt) as [s2 log]. cbn [fst snd] in *.
  rewrite IH, H1.
  destruct called as [out |]; cbn [issued_of flat_map snd].
  - rewrite fold_left_app. reflexivity.
  - reflexivity.
Qed.

Lemma step_rebase (o : t) (self : t) (dt_opt : option R) :
  rebase o (step self dt_opt)
  = advance
      (_physics
         (fold_left command_motor (commands_of_tick self dt_opt)
                    (rebase o (set_last_physics_warning self None)))
         (poses_of self) (tick_dt self dt_opt)).
Proof.
  unfold step, commands_of_tick, step_log, poses_of.
  fold (tick_dt self dt_opt).
  set (dt := tick_dt self dt_opt).
  set (s0 := set_last_physics_warning self None).
  change (bodies s0) with (bodies self).
  pose proof (update_sensors_rebase o s0 dt) as Hs.
  destruct (_update_sensors s0 dt) as [s1 rd]. cbn [fst] in Hs.
  unfold _tick_controller.
  pose proof (tick_loop_rebase o (robot_ids (set_last_sensor_readings s1 rd))
                (set_last_sensor_readings s1 rd) rd dt) as Ht.
  destruct (_tick_controller_loop _ _ rd dt) as [s2 log]. cbn [fst snd] in *.
  set (prev := map _ (bodies self)).
  transitivity (advance (rebase o (_physics s2 prev dt)));
    [apply finish_step_rebase |].
  rewrite <- physics_rebase, Ht.
  change (rebase o (set_last_sensor_readings s1 rd)) with (rebase o s1).
  rewrite Hs. reflexivity.
Qed.

Lemma rebase_of_view (o s1 s2 : t) :
  physics_view s1 = physics_view s2 ->
  rebase o (set_last_physics_warning s1 None)
  = rebase o (set_last_physics_warning s2 None).
Proof.
  destruct s1, s2. unfold physics_view. sim_simpl. intros H.
  injection H as -> -> -> -> -> -> -> -> -> -> -> -> -> ->.
  reflexivity.
Qed.

Lemma view_bodies (s1 s2 : t) :
  physics_view s1 = physics_view s2 -> bodies s1 = bodies s2.
Proof.
  intros H.
  exact (f_equal (fun v => snd (fst (fst (fst v)))) H).
Qed.

Lemma view_dt (s1 s2 : t) :
  physics_view s1 = physics_view s2 -> Simulator.dt s1 = Simulator.dt s2.
Proof.
  intros H.
  exact (f_equal (fun v => fst (fst (fst (fst (fst (fst v)))))) H).
Qed.

Lemma view_of_rebase (o s : t) : physics_view (rebase o s) = physics_view s.
Proof. reflexivity. Qed.

Lemma step_view (s1 s2 : t) (dt_opt : option R) :
  physics_view s1 = physics_view s2 ->
  commands_of_tick s1 dt_opt = commands_of_tick s2 dt_opt ->
  physics_view (step s1 dt_opt) = physics_view (step s2 dt_opt).
Proof.
  intros Hv Hc.
  rewrite <- (view_of_rebase s1 (step s1 dt_opt)).
  rewrite <- (view_of_rebase s1 (step s2 dt_opt)).
  rewrite !step_rebase. rewrite Hc, (rebase_of_view s1 s1 s2 Hv).
  assert (Hb : bodies s1 = bodies s2) by (apply view_bodies; exact Hv).
  assert (Hd : tick_dt s1 dt_opt = tick_dt s2 dt_opt).
  { unfold tick_dt. destruct dt_opt; [reflexivity |].
    apply view_dt; exact Hv. }
  unfold poses_of. rewrite Hb, Hd. reflexivity.
Qed.

Lemma firstn_snoc {A : Type} (l : list A) (k : nat) (d : A) :
  (k < List.length l)%nat -> firstn (S k) l = firstn k l ++ [nth k l d].
Proof.
  revert k. induction l as [| x l IH]; intros k Hk; cbn in Hk; [lia |].
  destruct k as [| k]; [reflexivity |].
  cbn [firstn nth app]. f_equal. apply IH. lia.
Qed.

(** C5. Two simulators that agree on their physical state - as two loads
    of the same scene do - and receive the same sequence of [step] calls
    with the same motor commands issued in every tick have the same bodies
    (poses and velocities) after every tick, whatever their generators,
    sensors and controllers are. *)
Theorem two_run_determinism (s1 s2 : t) (dts : list (option R)) :
  physics_view s1 = physics_view s2 ->
  (forall k, (k < List.length dts)%nat ->
     commands_of_tick (run s1 (firstn k dts)) (nth k dts None)
     = commands_of_tick (run s2 (firstn k dts)) (nth k dts None)) ->
  forall k, (k <= List.length dts)%nat ->
    physics_view (run s1 (firstn k dts)) = physics_view (run s2 (firstn k dts))
    /\ bodies (run s1 (firstn k dts)) = bodies (run s2 (firstn k dts)).
Proof.
  intros Hv Hc k Hk.
  assert (H : physics_view (run s1 (firstn k dts))
              = physics_view (run s2 (firstn k dts))).
  { induction k as [| k IH].
    - exact Hv.
    - rewrite (firstn_snoc dts k None) by lia.
      unfold run in *. rewrite !fold_left_app. cbn [fold_left].
      apply step_view; [apply IH; lia | apply Hc; lia]. }
  split; [exact H | apply view_bodies; exact H].
Qed.

Lemma two_run_determinism_witness :
  (physics_view two_body_scene = physics_view two_body_scene_reseeded /\
   forall k, (k < List.length [@None R])%nat ->
     commands_of_tick (run two_body_scene (firstn k [None])) (nth k [None] None)
     = commands_of_tick (run two_body_scene_reseeded (firstn k [None]))
                        (nth k [None] None)) /\
  bodies (run two_body_scene [None])
  = bodies (run two_body_scene_reseeded [None]).
Proof.
  assert (Hv : physics_view two_body_scene
               = physics_view two_body_scene_reseeded) by reflexivity.
  assert (Hc : forall k, (k < List.length [@None R])%nat ->
     commands_of_tick (run two_body_scene (firstn k [None])) (nth k [None] None)
     = commands_of_tick (run two_body_scene_reseeded (firstn k [None]))
                        (nth k [None] None)).
  { intros k Hk. cbn in Hk. assert (k = 0)%nat by lia. subst k. reflexivity. }
  split; [split; assumption |].
  apply (two_run_determinism two_body_scene two_body_scene_reseeded [None]
                             Hv Hc 1%nat).
  cbn. lia.
Defined.

End Determinism.

(** ** Controller errors (core/simulator.py) *)

Section ControllerErrors.

Import World Geometry Materials Entities Base Motors Simulator Runs Scenarios.

Lemma rebase_self (s : t) : rebase s s = s.
Proof. destruct s; reflexivity. Qed.

Lemma same_methods_refl cs : same_methods cs cs.
Proof. intros n. reflexivity. Qed.

Lemma same_methods_trans cs1 cs2 cs3 :
  same_methods cs1 cs2 -> same_methods cs2 cs3 -> same_methods cs1 cs3.
Proof. intros H1 H2 n. rewrite H2. apply H1. Qed.

Lemma same_methods_replace cs ref c a :
  nth_error cs ref = Some c ->
  same_methods cs (replace_nth cs ref (with_attrs c a)).
Proof.
  intros H n. destruct (Nat.eq_dec ref n) as [<- | Hne].
  - rewrite (nth_error_replace_same cs ref _ c H), H. reflexivity.
  - rewrite nth_error_replace_other by exact Hne. reflexivity.
Qed.

Lemma has_tick_fn_same (s s' : t) (rid : string) :
  controller_instance s' = controller_instance s ->
  controller_instances s' = controller_instances s ->
  same_methods (controllers s) (controllers s') ->
  has_tick_fn s' rid = has_tick_fn s rid.
Proof.
  intros H1 H2 H3. unfold has_tick_fn, _controller_for. rewrite H1, H2.
  destruct (match controller_instances s with [] => _ | _ => _ end) as [ref |];
    [| reflexivity].
  specialize (H3 ref).
  destruct (nth_error (controllers s') ref) as [c' |],
           (nth_error (controllers s) ref) as [c |]; cbn in H3;
    try discriminate; try reflexivity.
  inversion H3 as [H4]. rewrite H4. reflexivity.
Qed.

Lemma commands_control (cmds : list Command) (s : t) :
  control_view (fold_left command_motor cmds s) = control_view s /\
  controllers (fold_left command_motor cmds s) = controllers s.
Proof.
  rewrite <- (rebase_self s) at 1 3. rewrite commands_rebase. split; reflexivity.
Qed.

Lemma physics_control (s : t) (prev : list (string * Pose2D.t)) (dt : R) :
  control_view (_physics s prev dt) = control_view s /\
  controllers (_physics s prev dt) = controllers s.
Proof.
  rewrite <- (rebase_self s) at 1 3. rewrite physics_rebase. split; reflexivity.
Qed.

Lemma update_sensors_control (s : t) (dt : R) :
  control_view (fst (_update_sensors s dt)) = control_view s /\
  controllers (fst (_update_sensors s dt)) = controllers s.
Proof.
  unfold _update_sensors.
  destruct (_update_sensors_loop _ _ _ _ _ _) as [[[ss rng] rd] pr].
  split; reflexivity.
Qed.

Lemma dict_get_pop_other {V : Type} (d : list (string * V)) (k k' : string) :
  k <> k' -> dict_get (dict_pop d k) k' = dict_get d k'.
Proof.
  intros Hne. induction d as [| [k0 v0] d IH]; cbn; [reflexivity |].
  destruct (String.eqb_spec k0 k) as [-> | Hk]; cbn.
  - destruct (String.eqb_spec k k'); [contradiction | exact IH].
  - destruct (String.eqb_spec k0 k'); [reflexivity | exact IH].
Qed.

Lemma dict_get_pop_same {V : Type} (d : list (string * V)) (k : string) :
  dict_get (dict_pop d k) k = None.
Proof.
  induction d as [| [k0 v0] d IH]; cbn; [reflexivity |].
  destruct (String.eqb_spec k0 k) as [-> | Hk]; cbn; [exact IH |].
  destruct (String.eqb_spec k0 k); [contradiction | exact IH].
Qed.

Lemma record_error_other (s : t) (rid0 rid : string) (m : option string) :
  rid0 <> rid ->
  dict_get (last_controller_errors (_record_controller_error s rid0 m)) rid
  = dict_get (last_controller_errors s) rid.
Proof.
  intros Hne. unfold _record_controller_error. sim_simpl.
  destruct m as [m |]; [destruct (str_truthy m) |].
  - apply dict_get_set_other. exact Hne.
  - apply dict_get_pop_other. exact Hne.
  - apply dict_get_pop_other. exact Hne.
Qed.

Lemma record_error_same (s : t) (rid tb : string) :
  tb <> EmptyString ->
  dict_get (last_controller_errors (_record_controller_error s rid (Some tb))) rid
  = Some tb.
Proof.
  intros Hne. unfold _record_controller_error. sim_simpl.
  assert (Ht : str_truthy tb = true).
  { unfold str_truthy. destruct (String.eqb_spec tb EmptyString);
      [contradiction | reflexivity]. }
  rewrite Ht. apply dict_get_set_same.
Qed.

Lemma record_error_frame (s : t) (rid : string) (m : option string) :
  robot_ids (_record_controller_error s rid m) = robot_ids s /\
  controller_instance (_record_controller_error s rid m) = controller_instance s /\
  controller_instances (_record_controller_error s rid m) = controller_instances s /\
  controllers (_record_controller_error s rid m) = controllers s.
Proof. repeat split. Qed.

(** What a call of [_tick_robot] for [rid0] leaves in place. *)
Lemma tick_robot_frame (s : t) (rd : list (string * Value)) (dt : R) (rid0 : string) :
  let s' := fst (_tick_robot s rd dt rid0) in
  robot_ids s' = robot_ids s /\
  controller_instance s' = controller_instance s /\
  controller_instances s' = controller_instances s /\
  same_methods (controllers s) (controllers s') /\
  (forall rid, rid0 <> rid ->
     dict_get (last_controller_errors s') rid
     = dict_get (last_controller_errors s) rid).
Proof.
  cbn zeta. unfold _tick_robot.
  assert (Hsame : robot_ids s = robot_ids s /\
    controller_instance s = controller_instance s /\
    controller_instances s = controller_instances s /\
    same_methods (controllers s) (controllers s) /\
    (forall rid, rid0 <> rid ->
       dict_get (last_controller_errors s) rid
       = dict_get (last_controller_errors s) rid)).
  { repeat split. }
  destruct (_controller_for s rid0) as [ref |]; [| exact Hsame].
  destruct (nth_error (controllers s) ref) as [c |] eqn:Ec; [| exact Hsame].
  destruct (tick_fn c) as [tick |]; [| exact Hsame].
  destruct (has_error s rid0); [exact Hsame |].
  cbn [fst]. set (out := tick _ _ _).
  set (s1 := set_controllers s _).
  destruct (commands_control (issued out) s1) as [Hcv Hcs].
  set (s2 := fold_left command_motor (issued out) s1) in *.
  assert (H2 : robot_ids s2 = robot_ids s /\
    controller_instance s2 = controller_instance s /\
    controller_instances s2 = controller_instances s /\
    same_methods (controllers s) (controllers s2) /\
    last_controller_errors s2 = last_controller_errors s).
  { unfold control_view in Hcv.
    pose proof (f_equal (fun v => fst (fst (fst v))) Hcv) as E1.
    pose proof (f_equal (fun v => snd (fst (fst v))) Hcv) as E2.
    pose proof (f_equal (fun v => snd (fst v)) Hcv) as E3.
    pose proof (f_equal (fun v => snd v) Hcv) as E4.
    cbn [fst snd] in E1, E2, E3, E4.
    rewrite E1, E2, E3, E4, Hcs. repeat split.
    apply same_methods_replace. exact Ec. }
  destruct H2 as (E1 & E2 & E3 & E4 & E5).
  destruct (raised out) as [tb |].
  - destruct (record_error_frame s2 rid0 (Some tb)) as (F1 & F2 & F3 & F4).
    rewrite F1, F2, F3, F4.
    split; [exact E1 | split; [exact E2 | split; [exact E3 | split; [exact E4 |]]]].
    intros rid Hne. rewrite record_error_other by exact Hne. rewrite E5. reflexivity.
  - split; [exact E1 | split; [exact E2 | split; [exact E3 | split; [exact E4 |]]]].
    intros rid _. rewrite E5. reflexivity.
Qed.

Lemma tick_robot_skipped (s : t) (rd : list (string * Value)) (dt : R) (rid : string) :
  has_error s rid = true -> _tick_robot s rd dt rid = (s, None).
Proof.
  intros H. unfold _tick_robot.
  destruct (_controller_for s rid) as [ref |]; [| reflexivity].
  destruct (nth_error (controllers s) ref) as [c |]; [| reflexivity].
  destruct (tick_fn c) as [tick |]; [| reflexivity].
  rewrite H. reflexivity.
Qed.

Lemma tick_robot_called (s : t) (rd : list (string * Value)) (dt : R) (rid : string) :
  has_error s rid = false -> has_tick_fn s rid = true ->
  exists out, snd (_tick_robot s rd dt rid) = Some out.
Proof.
  intros He Ht. unfold has_tick_fn in Ht. unfold _tick_robot.
  destruct (_controller_for s rid) as [ref |]; [| discriminate].
  destruct (nth_error (controllers s) ref) as [c |]; [| discriminate].
  destruct (tick_fn c) as [tick |]; [| discriminate].
  rewrite He. eexists. reflexivity.
Qed.

Lemma tick_robot_raised (s : t) (rd : list (string * Value)) (dt : R)
  (rid : string) (out : TickOutcome) (tb : string) :
  snd (_tick_robot s rd dt rid) = Some out ->
  raised out = Some tb -> tb <> EmptyString ->
  dict_get (last_controller_errors (fst (_tick_robot s rd dt rid))) rid = Some tb.
Proof.
  unfold _tick_robot.
  destruct (_controller_for s rid) as [ref |]; [| discriminate].
  destruct (nth_error (controllers s) ref) as [c |]; [| discriminate].
  destruct (tick_fn c) as [tick |]; [| discriminate].
  destruct (has_error s rid); [discriminate |].
  cbn [fst snd]. intros H Hr Hne. inversion H as [Ho]. rewrite Ho, Hr.
  apply record_error_same. exact Hne.
Qed.

Lemma has_error_of_entry (s : t) (rid tb : string) :
  dict_get (last_controller_errors s) rid = Some tb -> tb <> EmptyString ->
  has_error s rid = true.
Proof.
  intros H Hne. unfold has_error. rewrite H. unfold str_truthy.
  destruct (String.eqb_spec tb EmptyString); [contradiction | reflexivity].
Qed.

Lemma has_error_same_entry (s s' : t) (rid : string) :
  dict_get (last_controller_errors s') rid = dict_get (last_controller_errors s) rid ->
  has_error s' rid = has_error s rid.
Proof. intros H. unfold has_error. rewrite H. reflexivity. Qed.

(** While [rid] has an error entry the loop does not call its controller
    and leaves the entry alone. *)
Lemma tick_loop_skips (rids : list string) (s : t) (rd : list (string * Value))
  (dt : R) (rid : string) :
  has_error s rid = true ->
  (forall out, ~ In (rid, out) (snd (_tick_controller_loop rids s rd dt))) /\
  dict_get (last_controller_errors (fst (_tick_controller_loop rids s rd dt))) rid
  = dict_get (last_controller_errors s) rid.
Proof.
  revert s. induction rids as [| rid0 rids IH]; intros s He;
    cbn [_tick_controller_loop].
  - split; [intros out H; exact H | reflexivity].
  - destruct (String.eqb_spec rid0 rid) as [-> | Hne].
    + rewrite tick_robot_skipped by exact He.
      specialize (IH s He).
      destruct (_tick_controller_loop rids s rd dt) as [s2 log]. exact IH.
    + pose proof (tick_robot_frame s rd dt rid0) as Hf. cbn zeta in Hf.
      destruct (_tick_robot s rd dt rid0) as [s1 called]. cbn [fst] in Hf.
      destruct Hf as (_ & _ & _ & _ & Herr).
      specialize (Herr rid Hne).
      assert (He1 : has_error s1 rid = true)
        by (rewrite (has_error_same_entry s s1 rid Herr); exact He).
      specialize (IH s1 He1).
      destruct (_tick_controller_loop rids s1 rd dt) as [s2 log].
      cbn [fst snd] in *. destruct IH as [IH1 IH2].
      split; [| rewrite IH2; exact Herr].
      intros out Hin. destruct called as [o |]; [| exact (IH1 out Hin)].
      destruct Hin as [Hin | Hin]; [inversion Hin; contradiction |].
      exact (IH1 out Hin).
Qed.

(** A raise is recorded and stays recorded until the end of the loop. *)
Lemma tick_loop_records (rids : list string) (s : t) (rd : list (string * Value))
  (dt : R) (rid : string) (out : TickOutcome) (tb : string) :
  In (rid, out) (snd (_tick_controller_loop rids s rd dt)) ->
  raised out = Some tb -> tb <> EmptyString ->
  dict_get (last_controller_errors (fst (_tick_controller_loop rids s rd dt))) rid
  = Some tb.
Proof.
  revert s. induction rids as [| rid0 rids IH]; intros s Hin Hr Hne;
    cbn [_tick_controller_loop] in *; [contradiction |].
  pose proof (tick_robot_raised s rd dt rid0) as Hraise.
  destruct (_tick_robot s rd dt rid0) as [s1 called]. cbn [fst snd] in Hraise.
  pose proof (tick_loop_skips rids s1 rd dt rid) as Hskip.
  specialize (IH s1).
  destruct (_tick_controller_loop rids s1 rd dt) as [s2 log]. cbn [fst snd] in *.
  destruct called as [o |]; [| apply IH; assumption].
  destruct Hin as [Hin | Hin]; [| apply IH; assumption].
  inversion Hin; subst rid0 o.
  specialize (Hraise out tb eq_refl Hr Hne).
  destruct Hskip as [_ Hs]; [eapply has_error_of_entry; eassumption |].
  rewrite Hs. exact Hraise.
Qed.

(** Every robot without an error entry whose controller has a tick function
    is called. *)
Lemma tick_loop_calls (rids : list string) (s : t) (rd : list (string * Value))
  (dt : R) (rid : string) :
  In rid rids -> has_error s rid = false -> has_tick_fn s rid = true ->
  exists out, In (rid, out) (snd (_tick_controller_loop rids s rd dt)).
Proof.
  revert s. induction rids as [| rid0 rids IH]; intros s Hin He Ht;
    cbn [_tick_controller_loop]; [contradiction |].
  destruct (String.eqb_spec rid0 rid) as [-> | Hne].
  - destruct (tick_robot_called s rd dt rid He Ht) as [out Ho].
    destruct (_tick_robot s rd dt rid) as [s1 called]. cbn [snd] in Ho. subst called.
    destruct (_tick_controller_loop rids s1 rd dt) as [s2 log].
    exists out. left. reflexivity.
  - destruct Hin as [Hin | Hin]; [contradiction |].
    pose proof (tick_robot_frame s rd dt rid0) as Hf. cbn zeta in Hf.
    destruct (_tick_robot s rd dt rid0) as [s1 called]. cbn [fst] in Hf.
    destruct Hf as (_ & F2 & F3 & F4 & Herr).
    assert (He1 : has_error s1 rid = false)
      by (rewrite (has_error_same_entry s s1 rid (Herr rid Hne)); exact He).
    assert (Ht1 : has_tick_fn s1 rid = true)
      by (rewrite (has_tick_fn_same s s1 rid F2 F3 F4); exact Ht).
    destruct (IH s1 Hin He1 Ht1) as [out Ho].
    destruct (_tick_controller_loop rids s1 rd dt) as [s2 log]. cbn [snd] in *.
    exists out. destruct called; [right |]; exact Ho.
Qed.

Lemma control_view_parts (s s' : t) :
  control_view s' = control_view s ->
  robot_ids s' = robot_ids s /\
  controller_instance s' = controller_instance s /\
  controller_instances s' = controller_instances s /\
  last_controller_errors s' = last_controller_errors s.
Proof.
  intros H. unfold control_view in H.
  pose proof (f_equal (fun v => fst (fst (fst v))) H) as E1.
  pose proof (f_equal (fun v => snd (fst (fst v))) H) as E2.
  pose proof (f_equal (fun v => snd (fst v)) H) as E3.
  pose proof (f_equal (fun v => snd v) H) as E4.
  cbn [fst snd] in *. auto.
Qed.

(** A tick, seen from the controllers: the loop runs on a state that
    agrees with the initial one on who is called, and what follows the loop
    leaves the error table alone. *)
Lemma step_log_control (self : t) (dt_opt : option R) :
  exists (s1 : t) (rd : list (string * Value)),
    control_view s1 = control_view self /\
    controllers s1 = controllers self /\
    snd (step_log self dt_opt)
    = snd (_tick_controller_loop (robot_ids self) s1 rd (tick_dt self dt_opt)) /\
    last_controller_errors (fst (step_log self dt_opt))
    = last_controller_errors
        (fst (_tick_controller_loop (robot_ids self) s1 rd
                                    (tick_dt self dt_opt))).
Proof.
  unfold step_log. fold (tick_dt self dt_opt). set (dt := tick_dt self dt_opt).
  set (s0 := set_last_physics_warning self None).
  destruct (update_sensors_control s0 dt) as [Hcv Hcs].
  destruct (_update_sensors s0 dt) as [s1 rd]. cbn [fst] in *.
  exists (set_last_sensor_readings s1 rd), rd.
  unfold _tick_controller.
  change (robot_ids (set_last_sensor_readings s1 rd)) with (robot_ids s1).
  destruct (control_view_parts s0 s1 Hcv) as (E1 & _).
  change (robot_ids s0) with (robot_ids self) in E1. rewrite E1.
  destruct (_tick_controller_loop (robot_ids self) _ rd dt) as [s2 log].
  cbn [fst snd].
  split; [exact Hcv | split; [exact Hcs | split; [reflexivity |]]].
  set (prev := map _ (bodies s0)).
  destruct (physics_control s2 prev dt) as [Hp _].
  destruct (control_view_parts _ _ Hp) as (_ & _ & _ & E4).
  exact E4.
Qed.

Lemma has_error_view (s s' : t) (rid : string) :
  control_view s' = control_view s -> has_error s' rid = has_error s rid.
Proof.
  intros H. destruct (control_view_parts s s' H) as (_ & _ & _ & E).
  unfold has_error. rewrite E. reflexivity.
Qed.

Lemma has_tick_fn_view (s s' : t) (rid : string) :
  control_view s' = control_view s -> controllers s' = controllers s ->
  has_tick_fn s' rid = has_tick_fn s rid.
Proof.
  intros H Hc. destruct (control_view_parts s s' H) as (_ & E2 & E3 & _).
  apply has_tick_fn_same; try assumption. rewrite Hc. apply same_methods_refl.
Qed.

Lemma step_physics_view (self : t) (dt_opt : option R) :
  physics_view (step self dt_opt)
  = physics_view
      (advance
         (_physics
            (fold_left command_motor (commands_of_tick self dt_opt)
                       (set_last_physics_warning self None))
            (poses_of self) (tick_dt self dt_opt))).
Proof.
  rewrite <- (view_of_rebase self (step self dt_opt)).
  rewrite step_rebase.
  replace (rebase self (set_last_physics_warning self None))
    with (set_last_physics_warning self None) by (destruct self; reflexivity).
  reflexivity.
Qed.

End ControllerErrors.

(** ** Collision manifolds (low_level_mechanics/geometry.py) *)

Section Manifolds.

Import World Geometry Materials Entities Base Motors Simulator Runs Scenarios.

Lemma distance_point_to_segment_nonneg (p s e : Point2D) :
  0 <= _distance_point_to_segment p s e.
Proof.
  unfold _distance_point_to_segment. destruct p, s, e.
  destruct (Reqb _ 0 && Reqb _ 0); apply hypot_nonneg.
Qed.

(** Once the closest distance is zero no later vertex or edge replaces the
    closest point. *)
Lemma closest_vertices_zero (center : Point2D) (vs : list Point2D) (p : Point2D) :
  _closest_vertices center vs (Some (0, p)) = Some (0, p).
Proof.
  unfold _closest_vertices. induction vs as [| [vx vy] vs IH]; cbn [fold_left];
    [reflexivity |].
  cbn [closer]. rewrite Rltb_false by apply hypot_nonneg. exact IH.
Qed.

Lemma closest_edges_zero (center : Point2D) (vs : list Point2D) (p : Point2D) :
  _closest_edges center vs (Some (0, p)) = Some (0, p).
Proof.
  unfold _closest_edges. induction (edges vs) as [| [s e] es IH];
    cbn [fold_left]; [reflexivity |].
  cbn [closer]. rewrite Rltb_false by apply distance_point_to_segment_nonneg.
  exact IH.
Qed.

Lemma closest_vertices_cons (center : Point2D) (vx vy : R)
  (vs : list Point2D) (st : closest) :
  _closest_vertices center ((vx, vy) :: vs) st
  = _closest_vertices center vs
      (if closer (hypot (fst center - vx) (snd center - vy)) st
       then Some (hypot (fst center - vx) (snd center - vy), (vx, vy))
       else st).
Proof. reflexivity. Qed.

(** A circle whose centre lies on the first vertex of the polygon. *)
Lemma circle_on_vertex (r : R) (pose_c : Pose2D.t) (verts : list Point2D)
  (pose_p : Pose2D.t) (rest : list Point2D) :
  0 < r ->
  _world_vertices verts pose_p = (Pose2D.x pose_c, Pose2D.y pose_c) :: rest ->
  _circle_vs_polygon_manifold r pose_c verts pose_p
  = Some (mkManifold ((Pose2D.x pose_c - Pose2D.x pose_c) / 1,
                      (Pose2D.y pose_c - Pose2D.y pose_c) / 1)
                     (r - 0) (Pose2D.x pose_c, Pose2D.y pose_c)).
Proof.
  intros Hr Hw. unfold _circle_vs_polygon_manifold. rewrite Hw.
  set (cx := Pose2D.x pose_c). set (cy := Pose2D.y pose_c).
  assert (H0 : hypot (cx - cx) (cy - cy) = 0).
  { replace (cx - cx) with 0 by ring. replace (cy - cy) with 0 by ring.
    apply hypot_zero. }
  rewrite closest_vertices_cons. cbn [closer fst snd].
  rewrite H0.
  rewrite closest_vertices_zero, closest_edges_zero.
  rewrite Rleb_false by lra. cbn [fst snd].
  rewrite H0. unfold or_one. rewrite Reqb_true by reflexivity.
  reflexivity.
Qed.

(** The circle-circle path handles coincident centres with the unit normal
    [(1, 0)]. *)
Lemma circle_circle_coincident (ra rb : R) (p : Pose2D.t) :
  0 < ra + rb ->
  _circle_vs_circle_manifold ra p rb p
  = Some (mkManifold (1, 0) (ra + rb - 0) (Pose2D.x p, Pose2D.y p)).
Proof.
  intros H. unfold _circle_vs_circle_manifold.
  replace (Pose2D.x p - Pose2D.x p) with 0 by ring.
  replace (Pose2D.y p - Pose2D.y p) with 0 by ring.
  replace (0 * 0 + 0 * 0) with 0 by ring.
  rewrite Rleb_false by nra.
  rewrite (Rltb_false 1e-12 0) by lra.
  rewrite (Rltb_false 1e-6 0) by lra.
  reflexivity.
Qed.

Lemma triangle_world_vertices :
  _world_vertices triangle corner_pose
  = (Pose2D.x corner_pose, Pose2D.y corner_pose)
      :: map (Pose2D.transform_point corner_pose) [(1, 0); (0, 1)].
Proof.
  unfold _world_vertices, triangle. cbn [map]. f_equal.
  unfold Pose2D.transform_point, corner_pose.
  cbn [Pose2D.x Pose2D.y Pose2D.theta]. f_equal; ring.
Qed.

Lemma normalised_unit_or_zero (nx ny : R) :
  unit_or_zero (nx / or_one (hypot nx ny), ny / or_one (hypot nx ny)).
Proof.
  unfold unit_or_zero, or_one. cbn [fst snd].
  destruct (Reqb (hypot nx ny) 0) eqn:E.
  - apply Reqb_iff in E. apply hypot_eq_zero in E. destruct E as [-> ->].
    right. f_equal; lra.
  - apply Reqb_iff_false in E. left.
    pose proof (hypot_nonneg nx ny) as Hn.
    unfold Rdiv. rewrite hypot_scale.
    + apply Rinv_l. exact E.
    + apply Rlt_le, Rinv_0_lt_compat. lra.
Qed.

Lemma unit_or_zero_opp (n : Point2D) :
  unit_or_zero n -> unit_or_zero (- fst n, - snd n).
Proof.
  unfold unit_or_zero. cbn [fst snd]. rewrite hypot_opp.
  intros [H | H]; [left; exact H | right].
  rewrite H. cbn [fst snd]. f_equal; lra.
Qed.

Lemma circle_circle_manifold_shape (ra rb : R) (pa pb : Pose2D.t)
  (m : CollisionManifold) :
  0 < ra + rb ->
  _circle_vs_circle_manifold ra pa rb pb = Some m ->
  0 < penetration m /\ hypot (fst (normal m)) (snd (normal m)) = 1.
Proof.
  intros Hr. unfold _circle_vs_circle_manifold.
  set (dx := Pose2D.x pb - Pose2D.x pa). set (dy := Pose2D.y pb - Pose2D.y pa).
  destruct (Rleb ((ra + rb) * (ra + rb)) (dx * dx + dy * dy)) eqn:E0;
    [discriminate |].
  apply Rleb_iff_false in E0.
  assert (Hs : sqrt (dx * dx + dy * dy) < ra + rb).
  { rewrite <- (sqrt_square (ra + rb)) by lra.
    apply sqrt_lt_1_alt. split; [nra | exact E0]. }
  set (dist := if Rltb 1e-12 (dx * dx + dy * dy)
               then sqrt (dx * dx + dy * dy) else 0).
  assert (Hd : dist < ra + rb).
  { subst dist. destruct (Rltb 1e-12 _); lra. }
  destruct (Rltb 1e-6 dist) eqn:E1; intros H; injection H as <-;
    cbn [penetration normal fst snd]; (split; [lra |]).
  - apply Rltb_iff in E1.
    assert (Hdist : dist = hypot dx dy).
    { subst dist. destruct (Rltb 1e-12 _); [reflexivity | lra]. }
    unfold Rdiv. rewrite hypot_scale.
    + rewrite <- Hdist. apply Rinv_l. lra.
    + apply Rlt_le, Rinv_0_lt_compat. lra.
  - unfold hypot. replace (1 * 1 + 0 * 0) with 1 by ring. apply sqrt_1.
Qed.

Lemma circle_polygon_manifold_shape (r : R) (pc : Pose2D.t)
  (vs : list Point2D) (pp : Pose2D.t) (m : CollisionManifold) :
  _circle_vs_polygon_manifold r pc vs pp = Some m ->
  0 < penetration m /\ unit_or_zero (normal m).
Proof.
  unfold _circle_vs_polygon_manifold.
  destruct (_closest_edges _ _ _) as [[d p] |]; [| discriminate].
  destruct (Rleb (r - d) 0) eqn:E; [discriminate |].
  apply Rleb_iff_false in E.
  intros H. injection H as <-. cbn [penetration normal].
  split; [exact E | apply normalised_unit_or_zero].
Qed.

Lemma check_axes_loop_shape (es : list (Point2D * Point2D))
  (verts1 verts2 : list Point2D) :
  forall (cur st : axes_state),
    axes_ok cur ->
    _check_axes_loop es verts1 verts2 cur = Some st -> axes_ok st.
Proof.
  induction es as [| [[x1 y1] [x2 y2]] es IH]; intros cur st Hc;
    cbn [_check_axes_loop].
  - intros H. injection H as <-. exact Hc.
  - destruct (_project _ verts1) as [min1 max1].
    destruct (_project _ verts2) as [min2 max2].
    destruct (Rleb (Rmin max1 max2 - Rmax min1 min2) 0) eqn:E; [discriminate |].
    apply Rleb_iff_false in E.
    apply IH.
    match goal with |- axes_ok (if ?c then _ else _) => destruct c end;
      [| exact Hc].
    cbn [axes_ok]. split; [exact E | apply normalised_unit_or_zero].
Qed.

Lemma polygon_polygon_manifold_shape (va : list Point2D) (pa : Pose2D.t)
  (vb : list Point2D) (pb : Pose2D.t) (m : CollisionManifold) :
  _polygon_vs_polygon_manifold va pa vb pb = Some m ->
  0 < penetration m /\ unit_or_zero (normal m).
Proof.
  unfold _polygon_vs_polygon_manifold, _check_axes.
  destruct (_check_axes_loop _ _ _ None) as [[st1 |] |] eqn:E1;
    try discriminate.
  pose proof (check_axes_loop_shape _ _ _ None _ I E1) as H1.
  destruct (_check_axes_loop _ _ _ (Some st1)) as [[[[pen axis] pt] |] |] eqn:E2;
    try discriminate.
  pose proof (check_axes_loop_shape _ _ _ (Some st1) _ H1 E2) as [Hp Hu].
  intros H. injection H as <-. cbn [penetration normal].
  split; [exact Hp |].
  match goal with |- unit_or_zero (if ?c then _ else _) => destruct c end;
    [apply unit_or_zero_opp |]; exact Hu.
Qed.

(** Whatever the shapes and the poses, a manifold that is returned has a
    positive penetration (for circles: of positive radius) and a normal
    that is a unit vector or the zero vector. *)
Lemma manifold_shape (sa : Shape2D) (pa : Pose2D.t) (sb : Shape2D)
  (pb : Pose2D.t) (m : CollisionManifold) :
  well_formed sa -> well_formed sb ->
  collision_manifold sa pa sb pb = Some m ->
  0 < penetration m /\ unit_or_zero (normal m).
Proof.
  destruct sa as [ra | va], sb as [rb | vb]; cbn [well_formed collision_manifold];
    intros Ha Hb H.
  - destruct (circle_circle_manifold_shape ra rb pa pb m) as [Hp Hn];
      [lra | exact H |].
    split; [exact Hp | left; exact Hn].
  - eapply circle_polygon_manifold_shape; eassumption.
  - destruct (_circle_vs_polygon_manifold rb pb va pa) as [m' |] eqn:E;
      [| discriminate].
    destruct (circle_polygon_manifold_shape _ _ _ _ _ E) as [Hp Hn].
    injection H as <-. cbn [penetration normal].
    split; [exact Hp | apply unit_or_zero_opp; exact Hn].
  - eapply polygon_polygon_manifold_shape; eassumption.
Qed.

(** C6, evaluated where the code departs from it. A circle of radius 0.1
    whose centre lies exactly on a vertex of a polygon (a well-formed
    triangle) yields a manifold with penetration 0.1 whose normal is
    [(0, 0)], not a unit vector. *)
Theorem manifold_zero_normal :
  Polygon_init triangle = Some (Polygon triangle) /\
  exists m,
    collision_manifold (Circle 0.1) corner_pose (Polygon triangle) corner_pose
    = Some m /\
    normal m = (0, 0) /\ penetration m = 0.1 /\
    hypot (fst (normal m)) (snd (normal m)) <> 1.
Proof.
  split; [reflexivity |].
  cbn [collision_manifold].
  rewrite (circle_on_vertex 0.1 corner_pose triangle corner_pose _
             ltac:(lra) triangle_world_vertices).
  eexists. split; [reflexivity |].
  cbn [normal penetration fst snd corner_pose Pose2D.x Pose2D.y].
  assert (E : (1 - 1) / 1 = 0) by lra. rewrite E.
  split; [reflexivity | split; [lra |]].
  rewrite hypot_zero. lra.
Qed.

End Manifolds.

(** ** Speed limits (core/simulator.py) *)

Section SpeedLimits.

Import World Geometry Materials Entities Base Motors Simulator Runs Scenarios.

(** The scaled velocity of the linear clamp has speed at most the limit. *)
Lemma clamp_linear_ok (vx vy ml : R) :
  0 < ml -> ml < hypot vx vy ->
  hypot (vx * (ml / Rmax (hypot vx vy) 1e-9))
        (vy * (ml / Rmax (hypot vx vy) 1e-9)) <= ml.
Proof.
  intros Hml Hsp. set (sp := hypot vx vy) in *.
  assert (Hpos : 0 < Rmax sp 1e-9).
  { apply Rlt_le_trans with 1e-9; [lra | apply Rmax_r]. }
  rewrite hypot_scale.
  2:{ apply Rlt_le. apply Rdiv_lt_0_compat; assumption. }
  fold sp. unfold Rdiv.
  assert (Hle : sp <= Rmax sp 1e-9) by apply Rmax_l.
  replace (ml * / Rmax sp 1e-9 * sp) with (ml * (sp * / Rmax sp 1e-9)) by ring.
  assert (Hq : sp * / Rmax sp 1e-9 <= 1).
  { apply (Rmult_le_reg_r (Rmax sp 1e-9)); [exact Hpos |].
    rewrite Rmult_assoc, Rinv_l by lra. lra. }
  nra.
Qed.

Lemma copysign_abs (m w : R) : 0 < m -> Rabs (copysign m w) = m.
Proof.
  intros Hm. unfold copysign.
  destruct (Rltb w 0); [rewrite Rabs_Ropp |]; rewrite Rabs_Rabsolu;
    apply Rabs_pos_eq; lra.
Qed.

Lemma keeps_refl (s : t) : keeps_settings s s.
Proof. unfold keeps_settings. repeat split; auto. Qed.

Lemma keeps_trans (s1 s2 s3 : t) : keeps_settings s1 s2 -> keeps_settings s2 s3 -> keeps_settings s1 s3.
Proof.
  unfold keeps_settings. intros (A1 & A2 & A3 & A4 & A5 & A6) (B1 & B2 & B3 & B4 & B5 & B6).
  repeat split; try congruence. auto.
Qed.

Lemma keeps_flag (s : t) (m : PhysicsWarning) : keeps_settings s (_flag_warning s m).
Proof. unfold keeps_settings. sim_simpl. repeat split; discriminate. Qed.

Lemma within_limits_eq (s s' : t) (b b' : SimObject) :
  max_linear_speed s' = max_linear_speed s ->
  max_angular_speed s' = max_angular_speed s ->
  linear_velocity (state b') = linear_velocity (state b) ->
  angular_velocity (state b') = angular_velocity (state b) ->
  within_limits s b -> within_limits s' b'.
Proof. unfold within_limits. intros -> -> -> ->. auto. Qed.

Ltac body_simpl :=
  cbn [Entities.set_angular_velocity Entities.set_linear_velocity
       Entities.set_state Entities.set_pose Entities.apply_force
       Entities.clear_impulses
       Entities.name Entities.pose Entities.shape Entities.material
       Entities.can_move Entities.state Entities._pending_forces
       Entities._pending_torque
       Entities.linear_velocity Entities.angular_velocity Entities.mass
       Entities.moment_of_inertia fst snd] in *.

(** [_sanitize_velocity]: the body it returns is within the limits, only
    its velocity is written, and a clamp that triggers flags a warning. *)
Lemma sanitize_velocity_spec (self : t) (body : SimObject) :
  keeps_settings self (fst (_sanitize_velocity self body)) /\
  within_limits self (snd (_sanitize_velocity self body)) /\
  can_move (snd (_sanitize_velocity self body)) = can_move body /\
  mass (state (snd (_sanitize_velocity self body))) = mass (state body) /\
  _pending_forces (snd (_sanitize_velocity self body)) = _pending_forces body /\
  _pending_torque (snd (_sanitize_velocity self body)) = _pending_torque body /\
  (exceeds self body ->
   last_physics_warning (fst (_sanitize_velocity self body)) <> None).
Proof.
  unfold _sanitize_velocity, within_limits, exceeds.
  destruct (linear_velocity (state body)) as [vx vy] eqn:Ev.
  cbn [isfinite andb negb fst snd].
  destruct (Rltb 0 (max_linear_speed self)
            && Rltb (max_linear_speed self) (hypot vx vy)) eqn:E1;
    sim_simpl;
    destruct (Rltb 0 (max_angular_speed self)
              && Rltb (max_angular_speed self)
                      (Rabs (angular_velocity (state body)))) eqn:E2;
    cbn [fst snd]; sim_simpl.
  all: try (apply andb_true_iff in E1; destruct E1 as [E1a E1b];
            apply Rltb_iff in E1a; apply Rltb_iff in E1b).
  all: try (apply andb_true_iff in E2; destruct E2 as [E2a E2b];
            apply Rltb_iff in E2a; apply Rltb_iff in E2b).
  all: try (apply andb_false_iff in E1; rewrite !Rltb_iff_false in E1).
  all: try (apply andb_false_iff in E2; rewrite !Rltb_iff_false in E2).
  all: (split; [first [apply keeps_refl | apply keeps_flag
                      | eapply keeps_trans; apply keeps_flag] |]).
  all: body_simpl.
  all: try rewrite Ev; cbn [fst snd].
  all: (split; [split; intros H0 |]).
  all: try (split; [reflexivity |]); try (split; [reflexivity |]);
       try (split; [reflexivity |]); try (split; [reflexivity |]).
  all: try (intros _; discriminate).
  all: try (apply clamp_linear_ok; assumption).
  all: try (rewrite copysign_abs by assumption; lra).
  all: try lra.
  all: try (intros [[? ?] | [? ?]]; lra).
Qed.

Lemma within_limits_keeps (s s' : t) (b : SimObject) :
  keeps_settings s s' -> within_limits s b -> within_limits s' b.
Proof.
  intros (_ & _ & _ & E4 & E5 & _). apply within_limits_eq; auto.
Qed.

Lemma within_limits_keeps_back (s s' : t) (b : SimObject) :
  keeps_settings s s' -> within_limits s' b -> within_limits s b.
Proof.
  intros (_ & _ & _ & E4 & E5 & _). apply within_limits_eq; auto.
Qed.

Lemma exceeds_damped_keeps (s s' : t) (b : SimObject) :
  keeps_settings s s' -> exceeds s' (damped s' b) -> exceeds s (damped s b).
Proof.
  intros (_ & E2 & E3 & E4 & E5 & _). unfold exceeds, damped.
  rewrite E2, E3, E4, E5. auto.
Qed.

Lemma settled_keeps_back (s s' : t) (b : SimObject) :
  keeps_settings s s' -> settled s' b -> settled s b.
Proof.
  intros K [Hp Hw]. split; [exact Hp |].
  intros Hm Hpos. eapply within_limits_keeps_back; eauto.
Qed.

Lemma settled_keeps (s s' : t) (b : SimObject) :
  keeps_settings s s' -> settled s b -> settled s' b.
Proof.
  intros K [Hp Hw]. split; [exact Hp |].
  intros Hm Hpos. eapply within_limits_keeps; eauto.
Qed.

(** [integrate] with pending forces that sum to zero and no pending torque
    leaves the velocity alone and clears what was pending. *)
Lemma integrate_balanced (b : SimObject) (dt : R) :
  list_sum (map fst (_pending_forces b)) = 0 ->
  list_sum (map snd (_pending_forces b)) = 0 ->
  _pending_torque b = 0 ->
  linear_velocity (state (integrate b dt)) = linear_velocity (state b) /\
  angular_velocity (state (integrate b dt)) = angular_velocity (state b) /\
  can_move (integrate b dt) = can_move b /\
  mass (state (integrate b dt)) = mass (state b) /\
  no_pending (integrate b dt).
Proof.
  intros Hx Hy Ht. unfold integrate, no_pending.
  destruct (can_move b) eqn:Ec; cbn [negb].
  2:{ body_simpl. rewrite Ec. repeat split; reflexivity. }
  rewrite Hx, Hy.
  destruct (linear_velocity (state b)) as [vx vy] eqn:Ev.
  destruct (Rltb 0 (mass (state b)));
    body_simpl;
    match goal with
    | |- context [if ?c then _ else _] => destruct c
    end; body_simpl; rewrite ?Ec, ?Ht;
    repeat split; try reflexivity;
    try (f_equal; unfold Rdiv; ring); try (unfold Rdiv; ring).
Qed.

Lemma sanitize_pose_id (self : t) (body : SimObject) :
  _sanitize_pose self body = (self, body).
Proof. reflexivity. Qed.

(** Without gravity, [_integrate_bodies] leaves every body settled, and
    flags a warning when a clamp triggers on one of them. *)
Lemma integrate_loop_limits (items : list (string * SimObject)) :
  forall (self : t) (dt : R),
    gravity self = (0, 0) ->
    Forall (fun kv => no_pending (snd kv)) items ->
    keeps_settings self (snd (_integrate_bodies_loop items self dt)) /\
    Forall (fun kv => settled self (snd kv))
           (fst (_integrate_bodies_loop items self dt)) /\
    (Exists (fun kv => can_move (snd kv) = true /\ 0 < mass (state (snd kv)) /\
                       exceeds self (damped self (snd kv))) items ->
     last_physics_warning (snd (_integrate_bodies_loop items self dt)) <> None).
Proof.
  induction items as [| [name body] items IH]; intros self dt Hg Hq;
    cbn [_integrate_bodies_loop].
  - cbn [fst snd]. split; [apply keeps_refl |]. split; [constructor |].
    intros H. inversion H.
  - inversion Hq as [| kv l Hb Hrest]; subst. cbn [snd] in Hb.
    rewrite Hg.
    destruct (negb (can_move body) || Rleb (mass (state body)) 0) eqn:Ec.
    + specialize (IH self dt Hg Hrest).
      destruct (_integrate_bodies_loop items self dt) as [rest s']. cbn [fst snd] in *.
      destruct IH as (K & F & W).
      assert (Hno : ~ (can_move body = true /\ 0 < mass (state body))).
      { intros [Hm Hp]. rewrite Hm in Ec. cbn [negb orb] in Ec.
        apply Rleb_iff in Ec. lra. }
      split; [exact K |]. split.
      * constructor; [| exact F]. cbn [snd]. split.
        -- split; reflexivity.
        -- intros Hm Hp. exfalso. apply Hno. body_simpl. auto.
      * intros H. inversion H as [kv l H0 | kv l H0]; subst.
        -- cbn [snd] in H0. exfalso. apply Hno. tauto.
        -- auto.
    + apply orb_false_iff in Ec. destruct Ec as [Em Ep].
      apply negb_false_iff in Em. apply Rleb_iff_false in Ep.
      body_simpl.
      destruct (linear_velocity (state body)) as [vx vy] eqn:Ev.
      match goal with
      | |- context [_sanitize_velocity self ?X] => set (pre := X)
      end.
      destruct (sanitize_velocity_spec self pre) as (K1 & W1 & C1 & M1 & P1 & T1 & X1).
      destruct (_sanitize_velocity self pre) as [s1 b1]. cbn [fst snd] in *.
      rewrite sanitize_pose_id.
      assert (Hg1 : gravity s1 = (0, 0)).
      { destruct K1 as (E & _). rewrite E. exact Hg. }
      specialize (IH s1 dt Hg1 Hrest).
      destruct (_integrate_bodies_loop items s1 dt) as [rest s']. cbn [fst snd] in *.
      destruct IH as (K & F & W).
      destruct Hb as [Hbf Hbt].
      assert (Hpf : _pending_forces b1
                    = [(0 * mass (state body), 0 * mass (state body))]).
      { rewrite P1. subst pre. body_simpl. rewrite Hbf. reflexivity. }
      assert (Hpt : _pending_torque b1 = 0).
      { rewrite T1. subst pre. body_simpl. exact Hbt. }
      destruct (integrate_balanced b1 dt) as (I1 & I2 & I3 & I4 & I5).
      { rewrite Hpf. cbn. ring. }
      { rewrite Hpf. cbn. ring. }
      { exact Hpt. }
      split; [eapply keeps_trans; eassumption |]. split.
      * constructor.
        -- cbn [snd]. split; [exact I5 |]. intros _ _.
           eapply within_limits_eq; [reflexivity | reflexivity | | | exact W1];
             assumption.
        -- eapply Forall_impl; [| exact F]. intros kv Hkv.
           eapply settled_keeps_back; eassumption.
      * intros H. inversion H as [kv l H0 | kv l H0]; subst.
        -- cbn [snd] in H0. destruct H0 as (_ & _ & H0).
           destruct K as (_ & _ & _ & _ & _ & Kw). apply Kw. apply X1.
           unfold exceeds in *. unfold damped in H0. rewrite Ev in H0.
           subst pre. body_simpl. exact H0.
        -- apply W. eapply Exists_impl; [| exact H0].
           intros kv (A & B & C). split; [exact A | split; [exact B |]].
           unfold exceeds, damped in *.
           destruct K1 as (_ & E2 & E3 & E4 & E5 & _).
           rewrite E2, E3, E4, E5. exact C.
Qed.

Lemma Forall_dict_set {V : Type} (P : V -> Prop) (d : list (string * V))
  (k : string) (v : V) :
  Forall (fun kv => P (snd kv)) d -> P v ->
  Forall (fun kv => P (snd kv)) (dict_set d k v).
Proof.
  intros Hd Hv. induction d as [| [k' v'] d IH]; cbn [dict_set].
  - constructor; [exact Hv | constructor].
  - inversion Hd; subst. destruct (String.eqb k' k).
    + constructor; assumption.
    + constructor; [assumption | apply IH; assumption].
Qed.

Lemma Forall_dict_get {V : Type} (P : V -> Prop) (d : list (string * V))
  (k : string) (v : V) :
  Forall (fun kv => P (snd kv)) d -> dict_get d k = Some v -> P v.
Proof.
  intros Hd. induction d as [| [k' v'] d IH]; cbn [dict_get]; [discriminate |].
  inversion Hd; subst. destruct (String.eqb k' k).
  - intros E. injection E as <-. assumption.
  - apply IH. assumption.
Qed.

Lemma settled_set_pose (lim : t) (b : SimObject) (p : Pose2D.t) :
  settled lim b -> settled lim (set_pose b p).
Proof. intros H. exact H. Qed.

(** The joint solver moves bodies and writes no velocity. *)
Lemma translate_body_limits (lim self : t) (name : string) (dx dy : R) :
  keeps_settings self (translate_body self name dx dy) /\
  (Forall (fun kv => settled lim (snd kv)) (bodies self) ->
   Forall (fun kv => settled lim (snd kv))
          (bodies (translate_body self name dx dy))).
Proof.
  unfold translate_body.
  destruct (dict_get (bodies self) name) as [b |] eqn:E.
  - split; [unfold keeps_settings; sim_simpl; repeat split; auto |].
    intros F. sim_simpl. apply Forall_dict_set; [exact F |].
    apply settled_set_pose. eapply Forall_dict_get; eassumption.
  - split; [apply keeps_refl | auto].
Qed.

Lemma solve_joint_limits (lim self : t) (jr : JointRuntime) (dt : R) :
  keeps_settings self (fst (_solve_joint self jr dt)) /\
  (Forall (fun kv => settled lim (snd kv)) (bodies self) ->
   Forall (fun kv => settled lim (snd kv))
          (bodies (fst (_solve_joint self jr dt)))).
Proof.
  assert (Hid : keeps_settings self self /\
                (Forall (fun kv => settled lim (snd kv)) (bodies self) ->
                 Forall (fun kv => settled lim (snd kv)) (bodies self)))
    by (split; [apply keeps_refl | auto]).
  unfold _solve_joint.
  destruct (dict_get (bodies self) (parent (cfg jr))) as [pb |]; [| exact Hid].
  destruct (dict_get (bodies self) (child (cfg jr))) as [cb |]; [| exact Hid].
  destruct (negb (can_move pb) && negb (can_move cb)); [exact Hid |].
  cbv zeta.
  match goal with |- context [Rltb (Rabs ?e) 1e-5] => destruct (Rltb (Rabs e) 1e-5) end;
    [exact Hid |].
  match goal with |- context [Reqb ?w 0] => destruct (Reqb w 0) end;
    [exact Hid |].
  cbn [isfinite negb fst]. cbn [set_lambda_accum cfg].
  destruct (can_move pb), (can_move cb); cbn [fst].
  - match goal with
    | |- context [translate_body (translate_body self ?n ?a ?b) ?n' ?a' ?b'] =>
      destruct (translate_body_limits lim self n a b) as [K1 F1];
      destruct (translate_body_limits lim (translate_body self n a b) n' a' b')
        as [K2 F2]
    end.
    split; [eapply keeps_trans; eassumption | auto].
  - apply translate_body_limits.
  - apply translate_body_limits.
  - exact Hid.
Qed.

Lemma solve_joints_loop_limits (lim : t) (jrs : list JointRuntime) :
  forall (self : t) (dt : R),
    keeps_settings self (snd (_solve_joints_loop jrs self dt)) /\
    (Forall (fun kv => settled lim (snd kv)) (bodies self) ->
     Forall (fun kv => settled lim (snd kv))
            (bodies (snd (_solve_joints_loop jrs self dt)))).
Proof.
  induction jrs as [| jr jrs IH]; intros self dt; cbn [_solve_joints_loop].
  - cbn [snd]. split; [apply keeps_refl | auto].
  - destruct (solve_joint_limits lim self jr dt) as [K1 F1].
    destruct (_solve_joint self jr dt) as [s1 jr1]. cbn [fst] in *.
    destruct (IH s1 dt) as [K2 F2].
    destruct (_solve_joints_loop jrs s1 dt) as [rest s2]. cbn [snd] in *.
    split; [eapply keeps_trans; eassumption | auto].
Qed.

Lemma solve_joints_limits (lim self : t) (dt : R) :
  keeps_settings self (_solve_joints self dt) /\
  (Forall (fun kv => settled lim (snd kv)) (bodies self) ->
   Forall (fun kv => settled lim (snd kv)) (bodies (_solve_joints self dt))).
Proof.
  unfold _solve_joints.
  destruct (solve_joints_loop_limits lim (joints self) self dt) as [K F].
  destruct (_solve_joints_loop (joints self) self dt) as [js s1].
  cbn [snd] in *. split; [exact K | exact F].
Qed.

Lemma push_back_no_pending (x : SimObject) (i : R) (p : Point2D) :
  no_pending x -> no_pending (push_back x i p).
Proof. unfold push_back. destruct (can_move x); intros H; exact H. Qed.

Lemma push_forward_no_pending (x : SimObject) (i : R) (p : Point2D) :
  no_pending x -> no_pending (push_forward x i p).
Proof. unfold push_forward. destruct (can_move x); intros H; exact H. Qed.

Lemma corrected_no_pending (x : SimObject) (p : Pose2D.t) :
  no_pending x -> no_pending (if can_move x then set_pose x p else x).
Proof. destruct (can_move x); intros H; exact H. Qed.

Lemma sanitize_velocity_bodies (self : t) (x : SimObject) :
  bodies (fst (_sanitize_velocity self x)) = bodies self.
Proof.
  unfold _sanitize_velocity.
  destruct (linear_velocity (state x)) as [vx vy].
  cbn [isfinite andb negb]. case_ifs; reflexivity.
Qed.

Lemma sanitized_keeps (self : t) (x : SimObject) :
  keeps_settings self (fst (if can_move x then _sanitize_velocity self x else (self, x)))
  /\ bodies (fst (if can_move x then _sanitize_velocity self x else (self, x)))
     = bodies self.
Proof.
  destruct (can_move x).
  - split; [apply sanitize_velocity_spec | apply sanitize_velocity_bodies].
  - split; [apply keeps_refl | reflexivity].
Qed.

Lemma sanitized_settled (lim self : t) (x : SimObject) :
  keeps_settings lim self -> no_pending x ->
  settled lim (snd (if can_move x then _sanitize_velocity self x else (self, x))).
Proof.
  intros Kl Hx. destruct (can_move x) eqn:Ec; cbn [fst snd].
  - destruct (sanitize_velocity_spec self x) as (K1 & W1 & _ & _ & P1 & T1 & _).
    split.
    + destruct Hx as [Hf Ht]. split; congruence.
    + intros _ _. eapply within_limits_keeps_back; eassumption.
  - split; [exact Hx |]. intros Hm. congruence.
Qed.

(** The contact solver sanitises every velocity it writes. *)
Lemma resolve_contact_limits (lim self : t) (a b : SimObject)
  (m : CollisionManifold) :
  keeps_settings lim self ->
  keeps_settings self (contact_self (_resolve_contact self a b m)) /\
  bodies (contact_self (_resolve_contact self a b m)) = bodies self /\
  (settled lim a -> settled lim (body_a (_resolve_contact self a b m))) /\
  (settled lim b -> settled lim (body_b (_resolve_contact self a b m))).
Proof.
  intros Kl. unfold _resolve_contact. cbn [isfinite negb orb].
  destruct (Reqb (inv_mass_of a + inv_mass_of b) 0).
  { cbn [contact_self body_a body_b]. split; [apply keeps_refl | auto]. }
  rewrite !orb_false_r.
  match goal with |- context [Rltb 0 ?v] => destruct (Rltb 0 v) end.
  { cbn [contact_self body_a body_b]. split; [apply keeps_refl |].
    split; [reflexivity |].
    split; intros H.
    - destruct (can_move a); exact H.
    - destruct (can_move b); exact H. }
  match goal with
  | |- context [if can_move ?x then _sanitize_velocity self ?x else _] =>
    set (a3 := x)
  end.
  pose proof (sanitized_keeps self a3) as [Ka Ba].
  pose proof (sanitized_settled lim self a3 Kl) as Sa.
  destruct (if can_move a3 then _sanitize_velocity self a3 else (self, a3))
    as [s1 a1].
  cbn [fst snd] in Ka, Ba, Sa.
  match goal with
  | |- context [if can_move ?x then _sanitize_velocity s1 ?x else _] =>
    set (b3 := x)
  end.
  pose proof (sanitized_keeps s1 b3) as [Kb Bb].
  pose proof (sanitized_settled lim s1 b3 (keeps_trans _ _ _ Kl Ka)) as Sb.
  destruct (if can_move b3 then _sanitize_velocity s1 b3 else (s1, b3))
    as [s2 b1].
  cbn [fst snd contact_self body_a body_b] in *.
  split; [eapply keeps_trans; eassumption |].
  split; [congruence |]. split.
  - intros [H _]. apply Sa. subst a3.
    apply push_back_no_pending, push_back_no_pending, corrected_no_pending, H.
  - intros [H _]. apply Sb. subst b3.
    apply push_forward_no_pending, push_forward_no_pending,
      corrected_no_pending, H.
Qed.

Lemma solve_pair_limits (lim self : t) (na nb : string) :
  keeps_settings lim self ->
  keeps_settings self (_solve_pair self na nb) /\
  (Forall (fun kv => settled lim (snd kv)) (bodies self) ->
   Forall (fun kv => settled lim (snd kv)) (bodies (_solve_pair self na nb))).
Proof.
  intros Kl.
  assert (Hid : keeps_settings self self /\
                (Forall (fun kv => settled lim (snd kv)) (bodies self) ->
                 Forall (fun kv => settled lim (snd kv)) (bodies self)))
    by (split; [apply keeps_refl | auto]).
  unfold _solve_pair.
  destruct (dict_get (bodies self) na) as [a |] eqn:Ea; [| exact Hid].
  destruct (dict_get (bodies self) nb) as [b |] eqn:Eb; [| exact Hid].
  destruct (negb (can_move a || can_move b)); [exact Hid |].
  destruct (collision_manifold _ _ _ _) as [m |]; [| exact Hid].
  cbv zeta.
  destruct (resolve_contact_limits lim self a b m Kl) as (K & B & Fa & Fb).
  destruct (_resolve_contact self a b m) as [s1 a1 b1 j jt].
  cbn [contact_self body_a body_b] in *.
  split.
  - destruct K as (K1 & K2 & K3 & K4 & K5 & K6).
    unfold keeps_settings. sim_simpl. repeat split; assumption.
  - intros F. sim_simpl. rewrite B.
    apply Forall_dict_set; [apply Forall_dict_set; [exact F |] |].
    + apply Fa. eapply Forall_dict_get; eassumption.
    + apply Fb. eapply Forall_dict_get; eassumption.
Qed.

Lemma solve_contacts_inner_limits (lim : t) (later : list string) :
  forall (self : t) (na : string),
    keeps_settings lim self ->
    keeps_settings self (_solve_contacts_inner self na later) /\
    (Forall (fun kv => settled lim (snd kv)) (bodies self) ->
     Forall (fun kv => settled lim (snd kv))
            (bodies (_solve_contacts_inner self na later))).
Proof.
  induction later as [| nb later IH]; intros self na Kl;
    cbn [_solve_contacts_inner].
  - split; [apply keeps_refl | auto].
  - destruct (solve_pair_limits lim self na nb Kl) as [K1 F1].
    destruct (IH (_solve_pair self na nb) na (keeps_trans _ _ _ Kl K1))
      as [K2 F2].
    split; [eapply keeps_trans; eassumption | auto].
Qed.

Lemma solve_contacts_outer_limits (lim : t) (names : list string) :
  forall (self : t),
    keeps_settings lim self ->
    keeps_settings self (_solve_contacts_outer self names) /\
    (Forall (fun kv => settled lim (snd kv)) (bodies self) ->
     Forall (fun kv => settled lim (snd kv))
            (bodies (_solve_contacts_outer self names))).
Proof.
  induction names as [| na names IH]; intros self Kl;
    cbn [_solve_contacts_outer].
  - split; [apply keeps_refl | auto].
  - destruct (solve_contacts_inner_limits lim names self na Kl) as [K1 F1].
    destruct (IH (_solve_contacts_inner self na names)
                 (keeps_trans _ _ _ Kl K1)) as [K2 F2].
    split; [eapply keeps_trans; eassumption | auto].
Qed.

(** The step sanity check moves bodies and writes no velocity. *)
Lemma check_step_sanity_loop_limits (lim : t) (items : list (string * SimObject)) :
  forall (self : t) (prev : list (string * Pose2D.t)) (limit : R),
    keeps_settings self (snd (_check_step_sanity_loop items self prev limit)) /\
    (Forall (fun kv => settled lim (snd kv)) items ->
     Forall (fun kv => settled lim (snd kv))
            (fst (_check_step_sanity_loop items self prev limit))).
Proof.
  induction items as [| [name body] items IH]; intros self prev limit;
    cbn [_check_step_sanity_loop].
  - cbn [fst snd]. split; [apply keeps_refl | auto].
  - match goal with
    | |- context [let '(_, _) := ?X in _] =>
      assert (H1 : keeps_settings self (snd X) /\ (settled lim body -> settled lim (fst X)))
    end.
    { destruct (negb (can_move body));
        [cbn [fst snd]; split; [apply keeps_refl | auto] |].
      destruct (dict_get prev name) as [p |];
        [| cbn [fst snd]; split; [apply keeps_refl | auto]].
      cbn [isfinite negb].
      match goal with |- context [Rltb limit ?d] => destruct (Rltb limit d) end;
        [| cbn [fst snd]; split; [apply keeps_refl | auto]].
      match goal with |- context [Rltb 1e-9 ?d] => destruct (Rltb 1e-9 d) end;
        cbn [fst snd]; (split; [apply keeps_flag | intros H; exact H]). }
    match goal with
    | |- context [let '(_, _) := ?X in _] => destruct X as [b1 s1]
    end.
    cbn [fst snd] in H1. destruct H1 as [K1 F1].
    destruct (IH s1 prev limit) as [K2 F2].
    destruct (_check_step_sanity_loop items s1 prev limit) as [rest s2].
    cbn [fst snd] in *.
    split; [eapply keeps_trans; eassumption |].
    intros F. inversion F; subst. constructor; auto.
Qed.

(** Motors act on velocities by impulses: no force is left pending. *)
Lemma apply_impulse_no_pending (body : SimObject) (i p : R * R) :
  no_pending body -> no_pending (_apply_impulse body i p).
Proof.
  intros H. unfold _apply_impulse.
  destruct (negb (can_move body) || Rleb (mass (state body)) 0); [exact H |].
  destruct i as [jx jy]. destruct (linear_velocity (state body)) as [vx vy].
  exact H.
Qed.

Lemma solve_wheel_traction_no_pending
  (body : SimObject) (cp fwd : R * R)
  (pref cap mu_long mu_lat nl ld dt : R) :
  no_pending body ->
  no_pending
    (fst (_solve_wheel_traction body cp fwd pref cap mu_long mu_lat nl ld dt)).
Proof.
  intros H. unfold _solve_wheel_traction.
  destruct (can_move body); cbn [negb]; [| exact H].
  destruct (_contact_velocity body cp) as [vcx vcy].
  match goal with
  | |- context [let '(j_lat, body0) := ?lat in _] =>
    assert (Hl : no_pending (snd lat)); [| destruct lat as [j_lat body1]]
  end.
  { repeat match goal with
           | |- context [if ?c then _ else _] => destruct c
           end; cbn [snd]; try exact H;
      apply apply_impulse_no_pending; exact H. }
  cbn [snd] in Hl.
  destruct (Rltb 1e-9 (_inv_mass_term body1 cp fwd)); [| exact Hl].
  match goal with
  | |- context [if Rltb 0 ?L then (_, _, _) else _] => destruct (Rltb 0 L)
  end; [| exact Hl].
  cbn [fst].
  match goal with
  | |- context [if Reqb ?j 0 then _ else _] => destruct (Reqb j 0)
  end; [exact Hl | apply apply_impulse_no_pending; exact Hl].
Qed.

Lemma wheel_apply_no_pending (self : WheelMotor.t) (v : R) (w : MotorWorld)
  (dt : R) :
  (forall p, parent_body w = Some p -> no_pending p) ->
  forall p, parent_body (snd (WheelMotor._apply self v w dt)) = Some p ->
            no_pending p.
Proof.
  intros H. unfold WheelMotor._apply.
  destruct (parent_body w) as [parent |] eqn:Ep;
    [| cbn [snd]; rewrite Ep; exact H].
  destruct (negb (can_move parent)); [cbn [snd]; rewrite Ep; exact H |].
  cbv zeta.
  match goal with
  | |- context [_solve_wheel_traction parent ?a ?b ?c ?d ?e ?f ?g ?h ?i] =>
    pose proof (solve_wheel_traction_no_pending parent a b c d e f g h i
                  (H parent eq_refl)) as Hs;
    destruct (_solve_wheel_traction parent a b c d e f g h i) as [p1 report]
  end.
  cbn [fst snd parent_body] in *. intros p E. injection E as <-. exact Hs.
Qed.

Lemma detailed_apply_no_pending (self : WheelMotorDetailed.t) (v : R)
  (w : MotorWorld) (dt : R) :
  (forall p, parent_body w = Some p -> no_pending p) ->
  forall p, parent_body (snd (WheelMotorDetailed._apply self v w dt)) = Some p ->
            no_pending p.
Proof.
  intros H. unfold WheelMotorDetailed._apply.
  destruct (parent_body w) as [parent |] eqn:Ep;
    [| cbn [snd]; rewrite Ep; exact H].
  destruct (negb (can_move parent)); [cbn [snd]; rewrite Ep; exact H |].
  cbv zeta.
  match goal with
  | |- context [_solve_wheel_traction parent ?a ?b ?c ?d ?e ?f ?g ?h ?i] =>
    pose proof (solve_wheel_traction_no_pending parent a b c d e f g h i
                  (H parent eq_refl)) as Hs;
    destruct (_solve_wheel_traction parent a b c d e f g h i) as [p1 report]
  end.
  cbn [fst snd parent_body] in *. intros p E. injection E as <-. exact Hs.
Qed.

Lemma motor_command_no_pending (m : MotorObj) (v : R) (w : MotorWorld)
  (dt : R) :
  (forall p, parent_body w = Some p -> no_pending p) ->
  forall p, parent_body (snd (motor_command m v w dt)) = Some p ->
            no_pending p.
Proof.
  intros H. destruct m as [wm | dm]; unfold motor_command.
  - unfold WheelMotor.command, Motor.command.
    match goal with
    | |- context [WheelMotor._apply ?s ?x w dt] =>
      pose proof (wheel_apply_no_pending s x w dt H) as Hs;
      destruct (WheelMotor._apply s x w dt) as [m1 w1]
    end.
    exact Hs.
  - unfold WheelMotorDetailed.command, Motor.command.
    match goal with
    | |- context [WheelMotorDetailed._apply ?s ?x w dt] =>
      pose proof (detailed_apply_no_pending s x w dt H) as Hs;
      destruct (WheelMotorDetailed._apply s x w dt) as [m1 w1]
    end.
    exact Hs.
Qed.

Lemma command_motor_quiet (self : t) (c : Command) :
  keeps_settings self (command_motor self c) /\
  last_physics_warning (command_motor self c) = last_physics_warning self /\
  (Forall (fun kv => no_pending (snd kv)) (bodies self) ->
   Forall (fun kv => no_pending (snd kv)) (bodies (command_motor self c))).
Proof.
  assert (Hid : keeps_settings self self /\
                last_physics_warning self = last_physics_warning self /\
                (Forall (fun kv => no_pending (snd kv)) (bodies self) ->
                 Forall (fun kv => no_pending (snd kv)) (bodies self)))
    by (split; [apply keeps_refl | auto]).
  unfold command_motor.
  destruct (dict_get (motors self) (motor c)) as [m |]; [| exact Hid].
  cbv zeta.
  match goal with
  | |- context [motor_command m ?v ?w ?d] =>
    pose proof (motor_command_no_pending m v w d) as Hm;
    destruct (motor_command m v w d) as [m1 w1]
  end.
  cbn [snd parent_body] in Hm.
  assert (Hk : forall s' : list (string * MotorObj),
             keeps_settings self (set_motors self s') /\
             last_physics_warning (set_motors self s') = last_physics_warning self).
  { intros s'. split; [| reflexivity].
    unfold keeps_settings. sim_simpl. repeat split; auto. }
  destruct (MountedComponent.parent (Motor.component (motor_base m)))
    as [b |].
  - destruct (parent_body w1) as [body |] eqn:Ew.
    + split; [| split].
      * unfold keeps_settings. sim_simpl. repeat split; auto.
      * reflexivity.
      * intros F. sim_simpl. apply Forall_dict_set; [exact F |].
        apply Hm; [| reflexivity].
        intros p Ep. eapply Forall_dict_get; eassumption.
    + split; [apply Hk | split; [apply Hk | auto]].
  - destruct (parent_body w1) as [body |];
      (split; [apply Hk | split; [apply Hk | auto]]).
Qed.

Lemma commands_quiet (cmds : list Command) :
  forall self : t,
    keeps_settings self (fold_left command_motor cmds self) /\
    last_physics_warning (fold_left command_motor cmds self)
    = last_physics_warning self /\
    (Forall (fun kv => no_pending (snd kv)) (bodies self) ->
     Forall (fun kv => no_pending (snd kv))
            (bodies (fold_left command_motor cmds self))).
Proof.
  induction cmds as [| c cmds IH]; intros self; cbn [fold_left].
  - split; [apply keeps_refl | auto].
  - destruct (command_motor_quiet self c) as (K1 & W1 & F1).
    destruct (IH (command_motor self c)) as (K2 & W2 & F2).
    split; [eapply keeps_trans; eassumption |].
    split; [congruence | auto].
Qed.

Lemma check_step_sanity_limits (lim self : t)
  (prev : list (string * Pose2D.t)) (dt : R) :
  keeps_settings self (_check_step_sanity self prev dt) /\
  (Forall (fun kv => settled lim (snd kv)) (bodies self) ->
   Forall (fun kv => settled lim (snd kv))
          (bodies (_check_step_sanity self prev dt))).
Proof.
  unfold _check_step_sanity.
  destruct (Rleb (max_step_translation self) 0);
    [split; [apply keeps_refl | auto] |].
  destruct (check_step_sanity_loop_limits lim (bodies self) self prev
              (max_step_translation self)) as [K F].
  destruct (_check_step_sanity_loop _ _ _ _) as [bs s1].
  cbn [fst snd] in *. split; [exact K | exact F].
Qed.

(** The physics phases of a tick, entered without gravity and with nothing
    pending. *)
Lemma physics_limits (self : t) (prev : list (string * Pose2D.t)) (dt : R) :
  gravity self = (0, 0) ->
  Forall (fun kv => no_pending (snd kv)) (bodies self) ->
  keeps_settings self (_physics self prev dt) /\
  Forall (fun kv => settled self (snd kv)) (bodies (_physics self prev dt)) /\
  (Exists (fun kv => can_move (snd kv) = true /\ 0 < mass (state (snd kv)) /\
                     exceeds self (damped self (snd kv))) (bodies self) ->
   last_physics_warning (_physics self prev dt) <> None).
Proof.
  intros Hg Hq. unfold _physics, _integrate_bodies.
  destruct (integrate_loop_limits (bodies self) self dt Hg Hq) as (K0 & F0 & W0).
  destruct (_integrate_bodies_loop (bodies self) self dt) as [bs s0].
  cbn [fst snd] in *.
  set (s1 := set_bodies s0 bs).
  assert (K1 : keeps_settings self s1) by exact K0.
  assert (F1 : Forall (fun kv => settled self (snd kv)) (bodies s1)) by exact F0.
  destruct (solve_joints_limits self s1 dt) as [K2 F2].
  set (s2 := _solve_joints s1 dt) in *.
  assert (K2' : keeps_settings self s2) by (eapply keeps_trans; eassumption).
  destruct (solve_contacts_outer_limits self (map fst (bodies s2)) s2 K2')
    as [K3 F3].
  fold (_solve_contacts s2 dt) in K3, F3.
  set (s3 := _solve_contacts s2 dt) in *.
  destruct (check_step_sanity_limits self s3 prev dt) as [K4 F4].
  assert (K : keeps_settings self (_check_step_sanity s3 prev dt)).
  { eapply keeps_trans; [exact K2' |]. eapply keeps_trans; eassumption. }
  split; [exact K |]. split; [auto |].
  intros E. destruct K2 as (_ & _ & _ & _ & _ & M2).
  destruct K3 as (_ & _ & _ & _ & _ & M3).
  destruct K4 as (_ & _ & _ & _ & _ & M4).
  apply M4, M3, M2. apply W0. exact E.
Qed.

(** The bodies, the settings and the warning after [step] are those the
    physics phases leave. *)
Lemma step_as_physics (self : t) (dt_opt : option R) :
  rebase self (Simulator.step self dt_opt)
  = advance
      (_physics
         (fold_left command_motor (commands_of_tick self dt_opt)
                    (set_last_physics_warning self None))
         (poses_of self) (tick_dt self dt_opt)).
Proof.
  rewrite step_rebase.
  replace (rebase self (set_last_physics_warning self None))
    with (set_last_physics_warning self None) by (destruct self; reflexivity).
  reflexivity.
Qed.

(** Without gravity the limits hold.  On a simulator without gravity (a
    scene loaded with [top_down=True]) whose bodies have no force and no
    torque pending, after
    [step] every movable body of positive mass has a linear speed of at
    most [max_linear_speed] when that limit is positive and an angular
    speed of at most [max_angular_speed] when that limit is positive.  If
    a clamp triggers on a body during integration, [last_physics_warning]
    is set when [step] returns.  Gravity and the absence of pending forces
    are as before the tick, so the same holds on the next tick.  ([step] is
    a total function, and the idealised floats are all finite.) *)
Lemma step_velocity_limits (self : t) (dt_opt : option R) :
  gravity self = (0, 0) ->
  Forall (fun kv => no_pending (snd kv)) (bodies self) ->
  let entering :=
    fold_left command_motor (commands_of_tick self dt_opt)
              (set_last_physics_warning self None) in
  let after := Simulator.step self dt_opt in
  (forall name body,
     In (name, body) (bodies after) ->
     can_move body = true -> 0 < mass (state body) ->
     within_limits after body) /\
  (forall name body,
     In (name, body) (bodies entering) ->
     can_move body = true -> 0 < mass (state body) ->
     exceeds self (damped self body) ->
     last_physics_warning after <> None) /\
  gravity after = (0, 0) /\
  Forall (fun kv => no_pending (snd kv)) (bodies after).
Proof.
  intros Hg Hq entering after.
  set (s0 := set_last_physics_warning self None) in *.
  destruct (commands_quiet (commands_of_tick self dt_opt) s0) as (Kc & Wc & Fc).
  fold entering in Kc, Wc, Fc.
  assert (Hge : gravity entering = (0, 0)).
  { destruct Kc as (E & _). rewrite E. exact Hg. }
  destruct (physics_limits entering (poses_of self) (tick_dt self dt_opt)
                           Hge (Fc Hq)) as (K & F & W).
  pose proof (step_as_physics self dt_opt) as Hs.
  fold s0 entering after in Hs.
  set (p := _physics entering (poses_of self) (tick_dt self dt_opt)) in *.
  assert (Hb : bodies after = bodies p).
  { change (bodies after) with (bodies (rebase self after)). rewrite Hs.
    reflexivity. }
  assert (Hw : last_physics_warning after = last_physics_warning p).
  { change (last_physics_warning after)
      with (last_physics_warning (rebase self after)). rewrite Hs. reflexivity. }
  assert (Ka : keeps_settings p after).
  { unfold keeps_settings.
    change (gravity after) with (gravity (rebase self after)).
    change (linear_damping after) with (linear_damping (rebase self after)).
    change (angular_damping after) with (angular_damping (rebase self after)).
    change (max_linear_speed after) with (max_linear_speed (rebase self after)).
    change (max_angular_speed after)
      with (max_angular_speed (rebase self after)).
    rewrite Hw, Hs. repeat split; auto. }
  assert (Ks : keeps_settings s0 after).
  { eapply keeps_trans; [exact Kc |]. eapply keeps_trans; eassumption. }
  split; [| split; [| split]].
  - intros name body Hin Hm Hp. rewrite Hb in Hin.
    rewrite Forall_forall in F. destruct (F _ Hin) as [_ Hl].
    cbn [snd] in Hl.
    eapply within_limits_keeps; [| apply Hl; assumption].
    eapply keeps_trans; eassumption.
  - intros name body Hin Hm Hp Hx. rewrite Hw. apply W.
    apply Exists_exists. exists (name, body). split; [exact Hin |].
    cbn [snd]. split; [exact Hm | split; [exact Hp |]].
    unfold exceeds, damped in *.
    destruct Kc as (_ & E2 & E3 & E4 & E5 & _).
    rewrite E2, E3, E4, E5. exact Hx.
  - destruct Ks as (E & _). rewrite E. exact Hg.
  - rewrite Hb. eapply Forall_impl; [| exact F]. intros kv [H _]. exact H.
Qed.

Lemma step_velocity_limits_witness :
  let after := Simulator.step speeding_scene None in
  (forall name body,
     In (name, body) (bodies after) ->
     can_move body = true -> 0 < mass (state body) ->
     within_limits after body) /\
  last_physics_warning after <> None.
Proof.
  intros after.
  destruct (step_velocity_limits speeding_scene None) as (Hl & Hw & _).
  - reflexivity.
  - repeat constructor.
  - split; [exact Hl |].
    apply (Hw "ball"%string speeding_ball).
    + left. reflexivity.
    + reflexivity.
    + cbn. lra.
    + left. cbn. split; [lra |].
      apply hypot_lt; lra.
Defined.

(** *** With gravity *)

(** [_sanitize_velocity] on a body within the limits does nothing. *)
Lemma sanitize_velocity_within (self : t) (body : SimObject) :
  (max_linear_speed self <= 0 \/
   fst (linear_velocity (state body)) * fst (linear_velocity (state body))
   + snd (linear_velocity (state body)) * snd (linear_velocity (state body))
   <= max_linear_speed self * max_linear_speed self) ->
  (max_angular_speed self <= 0 \/
   Rabs (angular_velocity (state body)) <= max_angular_speed self) ->
  _sanitize_velocity self body = (self, body).
Proof.
  intros Hl Ha. unfold _sanitize_velocity.
  destruct (linear_velocity (state body)) as [vx vy] eqn:Ev.
  cbn [isfinite andb negb fst snd] in *.
  assert (E1 : Rltb 0 (max_linear_speed self)
               && Rltb (max_linear_speed self) (hypot vx vy) = false).
  { destruct Hl as [Hl | Hl].
    - rewrite Rltb_false by exact Hl. reflexivity.
    - destruct (Rltb 0 (max_linear_speed self)) eqn:E; [| reflexivity]. rbool.
      cbn [andb]. apply Rltb_false. apply hypot_le; lra. }
  rewrite E1.
  assert (E2 : Rltb 0 (max_angular_speed self)
               && Rltb (max_angular_speed self)
                       (Rabs (angular_velocity (state body))) = false).
  { destruct Ha as [Ha | Ha].
    - rewrite Rltb_false by exact Ha. reflexivity.
    - rewrite (Rltb_false _ _ Ha). apply andb_false_r. }
  rewrite E2. reflexivity.
Qed.

Ltac body_eval :=
  cbv [ball ball_after Entities.apply_force Entities.clear_impulses
       Entities.integrate Entities.advance_pose
       Entities.set_pose Entities.set_state Entities.set_linear_velocity
       Entities.set_angular_velocity
       Entities.name Entities.pose Entities.shape Entities.material
       Entities.can_move Entities.state Entities._pending_forces
       Entities._pending_torque
       Entities.linear_velocity Entities.angular_velocity Entities.mass
       Entities.moment_of_inertia
       Pose2D.x Pose2D.y Pose2D.theta Pose2D.translated Pose2D.rotated
       list_sum fold_left map app fst snd negb orb andb isfinite].

(** Integration of the falling ball: the damped velocity [14.925] passes
    the clamp, then gravity is added. *)
Lemma falling_integrate (self : t) :
  gravity self = (0, -9.81) -> linear_damping self = 0.995 ->
  angular_damping self = 0.995 -> max_linear_speed self = 15 ->
  max_angular_speed self = 40 ->
  _integrate_bodies_loop [("ball"%string, ball)] self (1 / 120)
  = ([("ball"%string, ball_after)], self).
Proof.
  intros Hg Hld Had Hml Hma.
  cbn [_integrate_bodies_loop]. rewrite Hg, Hld, Had.
  change (can_move ball) with true. cbn [negb orb].
  change (mass (state ball)) with 1.
  rewrite (Rleb_false 1 0) by lra. cbv beta iota zeta.
  change (linear_velocity (state (apply_force ball (0 * 1, -9.81 * 1))))
    with (0, -15). cbv beta iota zeta.
  rewrite sanitize_velocity_within.
  2:{ right. rewrite Hml. body_eval. lra. }
  2:{ right. rewrite Hma. body_eval. rewrite Rabs_pos_eq by lra. lra. }
  unfold _sanitize_pose. cbn [isfinite andb negb].
  body_eval.
  rewrite (Rltb_true 0 1) by lra.
  rewrite Reqb_true by lra.
  reflexivity.
Qed.

(** One tick of [falling_scene]. *)
Lemma falling_step :
  bodies (Simulator.step falling_scene None) = [("ball"%string, ball_after)] /\
  last_physics_warning (Simulator.step falling_scene None) = None /\
  max_linear_speed (Simulator.step falling_scene None) = 15.
Proof.
  unfold Simulator.step, step_log.
  change (dt falling_scene) with (1 / 120).
  change (bodies (set_last_physics_warning falling_scene None))
    with [("ball"%string, ball)].
  cbv [map fst snd].
  change (_update_sensors (set_last_physics_warning falling_scene None) (1 / 120))
    with (set_last_physics_warning falling_scene None, @nil (string * Value)).
  cbv beta iota.
  change (_tick_controller
            (set_last_sensor_readings
               (set_last_physics_warning falling_scene None) []) [] (1 / 120))
    with (set_last_sensor_readings
               (set_last_physics_warning falling_scene None) [],
          @nil (string * TickOutcome)).
  cbv beta iota.
  set (s0 := set_last_sensor_readings _ _).
  unfold _physics, _integrate_bodies.
  change (bodies s0) with [("ball"%string, ball)].
  rewrite (falling_integrate s0) by reflexivity.
  set (s1 := set_bodies s0 _).
  change (_solve_joints s1 (1 / 120)) with (set_joints s1 []).
  set (s2 := set_joints s1 []).
  change (_solve_contacts s2 (1 / 120)) with s2.
  unfold _check_step_sanity.
  change (max_step_translation s2) with 0.5.
  rewrite (Rleb_false 0.5 0) by lra.
  change (bodies s2) with [("ball"%string, ball_after)].
  cbn [_check_step_sanity_loop].
  change (can_move ball_after) with true.
  change (dict_get [("ball"%string, pose ball)] "ball") with (Some (pose ball)).
  cbn [negb isfinite].
  rewrite Rltb_false.
  2:{ apply hypot_le; [lra |]. body_eval. lra. }
  repeat split; reflexivity.
Qed.

(** C7. With gravity, a tick leaves a movable body faster than
    [max_linear_speed] and flags no warning.  In a freshly constructed
    simulator (gravity [(0, -9.81)], [dt = 1/120], [max_linear_speed =
    15]) a ball of mass 1 falls at 15 m/s.  [_integrate_bodies] damps the
    velocity to [14.925], calls [_sanitize_velocity], which has nothing to
    clamp, and then [body.integrate], which adds the pending gravity
    [9.81 / 120]: the tick ends with the velocity [(0, -15.00675)] and
    [last_physics_warning = None].  The velocity [integrate] wrote never
    went through the sanitize step: [_sanitize_velocity] applied to the
    body as the tick leaves it does flag a warning. *)
Theorem step_exceeds_speed_limit :
  let after := Simulator.step falling_scene None in
  exists body,
    dict_get (bodies after) "ball" = Some body /\
    can_move body = true /\
    linear_velocity (state body) = (0, -15.00675) /\
    max_linear_speed after = 15 /\
    max_linear_speed after
    < hypot (fst (linear_velocity (state body)))
            (snd (linear_velocity (state body))) /\
    last_physics_warning after = None /\
    last_physics_warning (fst (_sanitize_velocity after body)) <> None.
Proof.
  intros after. destruct falling_step as (Hb & Hw & Hm). fold after in Hb, Hw, Hm.
  clearbody after. exists ball_after.
  assert (Hv : linear_velocity (state ball_after) = (0, -15.00675)).
  { body_eval. f_equal; lra. }
  assert (Hfast : 15 < hypot 0 (-15.00675)) by (apply hypot_lt; lra).
  rewrite Hb, Hw, Hm, Hv. cbn [fst snd].
  split; [reflexivity | split; [reflexivity | split; [reflexivity |]]].
  split; [reflexivity | split; [exact Hfast | split; [reflexivity |]]].
  unfold _sanitize_velocity. rewrite Hv. cbn [isfinite andb negb].
  rewrite Hm, (Rltb_true 0 15) by lra. rewrite (Rltb_true _ _ Hfast).
  cbn [andb].
  match goal with
  | |- context [if ?c then _ else _] => destruct c
  end; cbn; discriminate.
Qed.

End SpeedLimits.

(** * Further properties of the code *)

(** ** Tactics for bodies *)

Ltac obj_simpl :=
  cbn [Entities.set_angular_velocity Entities.set_linear_velocity
       Entities.set_state Entities.set_pose Entities.apply_force
       Entities.clear_impulses
       Entities.name Entities.pose Entities.shape Entities.material
       Entities.can_move Entities.state Entities._pending_forces
       Entities._pending_torque
       Entities.linear_velocity Entities.angular_velocity Entities.mass
       Entities.moment_of_inertia fst snd] in *.

(** ** Poses compose as rigid motions (low_level_mechanics/world.py) *)

Section PoseComposition.
Import World Geometry.

(** [compose] is associative, and the point transform of a composed pose
    is the composition of the point transforms. *)
Theorem pose_compose_assoc (a b c : Pose2D.t) (q : Point2D) :
  Pose2D.compose (Pose2D.compose a b) c
  = Pose2D.compose a (Pose2D.compose b c) /\
  Pose2D.transform_point (Pose2D.compose a b) q
  = Pose2D.transform_point a (Pose2D.transform_point b q).
Proof.
  destruct a as [ax ay ta], b as [bx by_ tb], c as [cx cy tc], q as [qx qy].
  unfold Pose2D.compose, Pose2D.transform_point.
  cbn [Pose2D.x Pose2D.y Pose2D.theta].
  rewrite cos_plus, sin_plus.
  split; f_equal; ring.
Qed.

(** The pose [(0, 0, 0)] is a unit of [compose] on both sides, and
    [inverse] is a left inverse as well. *)
Theorem pose_compose_units (p : Pose2D.t) :
  Pose2D.compose Pose2D.identity p = p /\
  Pose2D.compose p Pose2D.identity = p /\
  Pose2D.compose (Pose2D.inverse p) p = Pose2D.identity.
Proof.
  destruct p as [px py th].
  unfold Pose2D.compose, Pose2D.inverse, Pose2D.transform_point,
    Pose2D.identity.
  cbn [Pose2D.x Pose2D.y Pose2D.theta].
  rewrite cos_0, sin_0, cos_neg, sin_neg.
  pose proof (cos2_sin2 th) as H.
  split; [f_equal; ring | split; [f_equal; ring |]].
  f_equal.
  - replace (- px * cos th - py * sin th + cos th * px - - sin th * py) with 0
      by ring. reflexivity.
  - replace (px * sin th - py * cos th + - sin th * px + cos th * py) with 0
      by ring. reflexivity.
  - ring.
Qed.

(** [Transform2D.between(a, b)] maps coordinates in the frame of [b] to
    coordinates in the frame of [a]; applied to poses it takes the pose of
    [b] relative to [a] back to [b] through [from_pose(a)]. *)
Theorem transform_between (a b : Pose2D.t) (q : Point2D) :
  Pose2D.transform_point a
    (Transform2D.apply_to_point (Transform2D.between a b) q)
  = Pose2D.transform_point b q /\
  Transform2D.apply_to_pose (Transform2D.from_pose a)
    (Pose2D.compose (Pose2D.inverse a) b) = b /\
  Transform2D.apply_to_point (Transform2D.from_pose a) q
  = Pose2D.transform_point a q.
Proof.
  destruct a as [ax ay ta], b as [bx by_ tb], q as [qx qy].
  unfold Transform2D.apply_to_pose, Transform2D.between,
    Transform2D.apply_to_point, Transform2D.from_pose,
    Pose2D.compose, Pose2D.inverse, Pose2D.transform_point.
  cbn [Pose2D.x Pose2D.y Pose2D.theta Transform2D.translation
       Transform2D.rotation].
  replace (- ta + tb) with (tb - ta) by ring.
  rewrite cos_minus, sin_minus, cos_neg, sin_neg.
  pose proof (cos2_sin2 ta) as H.
  set (c := cos ta) in *. set (s := sin ta) in *.
  set (cb := cos tb). set (sb := sin tb).
  split; [| split].
  - f_equal.
    + replace (ax + c * (- ax * c - ay * s + c * bx - - s * by_
                        + (cb * c + sb * s) * qx - (sb * c - cb * s) * qy)
                  - s * (ax * s - ay * c + - s * bx + c * by_
                        + (sb * c - cb * s) * qx + (cb * c + sb * s) * qy))
        with (ax * (1 - (c * c + s * s)) + (c * c + s * s) * bx
              + (c * c + s * s) * (cb * qx) - (c * c + s * s) * (sb * qy))
        by ring.
      rewrite H. ring.
    + replace (ay + s * (- ax * c - ay * s + c * bx - - s * by_
                        + (cb * c + sb * s) * qx - (sb * c - cb * s) * qy)
                  + c * (ax * s - ay * c + - s * bx + c * by_
                        + (sb * c - cb * s) * qx + (cb * c + sb * s) * qy))
        with (ay * (1 - (c * c + s * s)) + (c * c + s * s) * by_
              + (c * c + s * s) * (sb * qx) + (c * c + s * s) * (cb * qy))
        by ring.
      rewrite H. ring.
  - f_equal.
    + replace (ax + c * (- ax * c - ay * s + c * bx - - s * by_)
                  - s * (ax * s - ay * c + - s * bx + c * by_))
        with (ax * (1 - (c * c + s * s)) + (c * c + s * s) * bx) by ring.
      rewrite H. ring.
    + replace (ay + s * (- ax * c - ay * s + c * bx - - s * by_)
                  + c * (ax * s - ay * c + - s * bx + c * by_))
        with (ay * (1 - (c * c + s * s)) + (c * c + s * s) * by_) by ring.
      rewrite H. ring.
    + ring.
  - reflexivity.
Qed.

End PoseComposition.

(** ** Rigid motions and interpolation (low_level_mechanics/world.py) *)

Section RigidMotions.
Import World Geometry Materials Entities WorldCollisions.

(** A pose acts on points as a rigid motion: the distance between two
    points is the distance between their images. *)
Theorem transform_point_isometry (p : Pose2D.t) (a b : Point2D) :
  hypot (fst (Pose2D.transform_point p a) - fst (Pose2D.transform_point p b))
        (snd (Pose2D.transform_point p a) - snd (Pose2D.transform_point p b))
  = hypot (fst a - fst b) (snd a - snd b).
Proof.
  destruct p as [px py th], a as [ax ay], b as [bx by_].
  unfold Pose2D.transform_point. cbn [Pose2D.x Pose2D.y Pose2D.theta fst snd].
  unfold hypot. f_equal.
  pose proof (sin2_cos2 th) as H. unfold Rsqr in H.
  set (c := cos th) in *. set (s := sin th) in *. clearbody c s.
  transitivity ((s * s + c * c)
                * ((ax - bx) * (ax - bx) + (ay - by_) * (ay - by_)));
    [ring | rewrite H; ring].
Qed.

Lemma float_mod_bounds (a b : R) :
  0 < b -> 0 <= float_mod a b < b.
Proof.
  intros Hb. unfold float_mod.
  destruct (base_Int_part (a / b)) as [H1 H2].
  set (k := IZR (Int_part (a / b))) in *. clearbody k.
  assert (Ha : a = a / b * b) by (field; lra).
  split.
  - assert (k * b <= a / b * b) by (apply Rmult_le_compat_r; lra). lra.
  - assert (a / b * b < (k + 1) * b) by (apply Rmult_lt_compat_r; lra). lra.
Qed.

Lemma cos_sin_period_Z (x : R) (k : Z) :
  cos (x + 2 * IZR k * PI) = cos x /\ sin (x + 2 * IZR k * PI) = sin x.
Proof.
  destruct (Z_lt_le_dec k 0) as [Hn | Hp].
  - assert (E : IZR k = - INR (Z.to_nat (- k))).
    { rewrite INR_IZR_INZ, Z2Nat.id by lia. rewrite opp_IZR. ring. }
    rewrite E.
    set (n := Z.to_nat (- k)).
    rewrite <- (cos_period (x + 2 * - INR n * PI) n).
    rewrite <- (sin_period (x + 2 * - INR n * PI) n).
    split; f_equal; ring.
  - assert (E : IZR k = INR (Z.to_nat k)).
    { rewrite INR_IZR_INZ, Z2Nat.id by lia. reflexivity. }
    rewrite E. split; [apply cos_period | apply sin_period].
Qed.

(** [_lerp_pose] clamps its parameter: at or below 0 it gives the start
    pose, at or above 1 it gives the position and the heading of the end
    pose; in between it never turns by more than half a turn. *)
Theorem lerp_pose_ends (start end_ : Pose2D.t) (alpha : R) :
  let p := _lerp_pose start end_ alpha in
  (alpha <= 0 -> p = start) /\
  (1 <= alpha ->
   Pose2D.x p = Pose2D.x end_ /\ Pose2D.y p = Pose2D.y end_ /\
   cos (Pose2D.theta p) = cos (Pose2D.theta end_) /\
   sin (Pose2D.theta p) = sin (Pose2D.theta end_)) /\
  Rabs (Pose2D.theta p - Pose2D.theta start) <= PI.
Proof.
  cbv zeta. unfold _lerp_pose. cbv zeta.
  destruct start as [sx sy st], end_ as [ex ey et].
  cbn [Pose2D.x Pose2D.y Pose2D.theta].
  pose proof PI_RGT_0 as Hpi.
  pose proof (float_mod_bounds (et - st + PI) (2 * PI) ltac:(lra)) as Hm.
  split; [| split].
  - intros Ha. rewrite Rmin_right by lra. rewrite Rmax_left by lra.
    f_equal; ring.
  - intros Ha. rewrite Rmin_left by lra. rewrite Rmax_right by lra.
    split; [ring | split; [ring |]].
    unfold float_mod.
    set (k := Int_part ((et - st + PI) / (2 * PI))).
    replace (st + (et - st + PI - 2 * PI * IZR k - PI) * 1)
      with (et + 2 * IZR (- k) * PI) by (rewrite opp_IZR; ring).
    apply cos_sin_period_Z.
  - set (d := float_mod (et - st + PI) (2 * PI) - PI).
    assert (Hd : - PI <= d < PI) by (unfold d; lra).
    set (a := Rmax 0 (Rmin 1 alpha)).
    assert (Hab : 0 <= a <= 1).
    { unfold a. apply clamp_bounds. lra. }
    clearbody d a.
    replace (st + d * a - st) with (d * a) by ring.
    apply Rabs_le. split; nra.
Qed.

End RigidMotions.

(** ** Shape queries (low_level_mechanics/geometry.py) *)

Section ShapeQueries.
Import World Geometry.

(** *** Minima, maxima and sums of lists *)

Lemma fold_Rmin_le (l : list R) (a : R) :
  fold_left Rmin l a <= a /\ forall x, In x l -> fold_left Rmin l a <= x.
Proof.
  revert a. induction l as [| d l IH]; intros a; cbn [fold_left].
  - split; [lra | intros x []].
  - destruct (IH (Rmin a d)) as [H1 H2].
    pose proof (Rmin_l a d). pose proof (Rmin_r a d).
    split; [lra |]. intros x [<- | Hx]; [lra | auto].
Qed.

Lemma fold_Rmax_ge (l : list R) (a : R) :
  a <= fold_left Rmax l a /\ forall x, In x l -> x <= fold_left Rmax l a.
Proof.
  revert a. induction l as [| d l IH]; intros a; cbn [fold_left].
  - split; [lra | intros x []].
  - destruct (IH (Rmax a d)) as [H1 H2].
    pose proof (Rmax_l a d). pose proof (Rmax_r a d).
    split; [lra |]. intros x [<- | Hx]; [lra | auto].
Qed.

Lemma list_min_le (l : list R) (x : R) : In x l -> list_min l <= x.
Proof.
  destruct l as [| d l]; [intros [] |]. cbn [list_min].
  destruct (fold_Rmin_le l d) as [H1 H2]. intros [<- | Hx]; auto.
Qed.

Lemma list_max_ge (l : list R) (x : R) : In x l -> x <= list_max l.
Proof.
  destruct l as [| d l]; [intros [] |]. cbn [list_max].
  destruct (fold_Rmax_ge l d) as [H1 H2]. intros [<- | Hx]; auto.
Qed.

Lemma fold_Rmin_In (l : list R) (a : R) :
  fold_left Rmin l a = a \/ In (fold_left Rmin l a) l.
Proof.
  revert a. induction l as [| d l IH]; intros a; cbn [fold_left].
  - left. reflexivity.
  - destruct (IH (Rmin a d)) as [H | H].
    + rewrite H. unfold Rmin. destruct (Rle_dec a d); [left | right; left];
        reflexivity.
    + right. right. exact H.
Qed.

Lemma fold_Rmax_In (l : list R) (a : R) :
  fold_left Rmax l a = a \/ In (fold_left Rmax l a) l.
Proof.
  revert a. induction l as [| d l IH]; intros a; cbn [fold_left].
  - left. reflexivity.
  - destruct (IH (Rmax a d)) as [H | H].
    + rewrite H. unfold Rmax. destruct (Rle_dec a d); [right; left | left];
        reflexivity.
    + right. right. exact H.
Qed.

Lemma list_min_In (l : list R) : l <> [] -> In (list_min l) l.
Proof.
  destruct l as [| d l]; [congruence |]. intros _. cbn [list_min].
  destruct (fold_Rmin_In l d) as [-> | H]; [left; reflexivity | right; exact H].
Qed.

Lemma list_max_In (l : list R) : l <> [] -> In (list_max l) l.
Proof.
  destruct l as [| d l]; [congruence |]. intros _. cbn [list_max].
  destruct (fold_Rmax_In l d) as [-> | H]; [left; reflexivity | right; exact H].
Qed.

(** *** Bounding boxes *)

(** Two boxes that intersect still do after one of them is grown by a
    margin that is not negative, and in either order. *)
Theorem box_intersects_expand (a b : BoundingBox.t) (margin : R) :
  0 <= margin -> BoundingBox.intersects a b = true ->
  BoundingBox.intersects (BoundingBox.expand a margin) b = true /\
  BoundingBox.intersects b (BoundingBox.expand a margin) = true /\
  BoundingBox.intersects b a = true.
Proof.
  unfold BoundingBox.intersects, BoundingBox.expand.
  cbn [BoundingBox.min_x BoundingBox.min_y BoundingBox.max_x BoundingBox.max_y].
  intros Hm H. apply negb_true_iff in H.
  apply orb_false_iff in H. destruct H as [H H4].
  apply orb_false_iff in H. destruct H as [H H3].
  apply orb_false_iff in H. destruct H as [H1 H2].
  apply Rltb_iff_false in H1, H2, H3, H4.
  rewrite !Rltb_false by lra. repeat split; reflexivity.
Qed.

Lemma box_intersects_expand_witness :
  BoundingBox.intersects
    (BoundingBox.expand (BoundingBox.mk 0 0 1 1) 0.5)
    (BoundingBox.mk 1 1 2 2) = true /\
  BoundingBox.intersects
    (BoundingBox.mk 1 1 2 2)
    (BoundingBox.expand (BoundingBox.mk 0 0 1 1) 0.5) = true /\
  BoundingBox.intersects (BoundingBox.mk 1 1 2 2) (BoundingBox.mk 0 0 1 1)
  = true.
Proof.
  apply (box_intersects_expand (BoundingBox.mk 0 0 1 1)
                               (BoundingBox.mk 1 1 2 2) 0.5).
  - lra.
  - unfold BoundingBox.intersects.
    cbn [BoundingBox.min_x BoundingBox.min_y BoundingBox.max_x
         BoundingBox.max_y].
    rewrite !Rltb_false by lra. reflexivity.
Defined.

(** *** The broad phase for circles *)

Lemma sq_le_bounds (x r : R) : 0 <= r -> x * x <= r * r -> - r <= x <= r.
Proof.
  intros Hr H. split.
  - destruct (Rle_dec (- r) x) as [|Hn]; [assumption | exfalso].
    assert (0 < - r - x) by lra. nra.
  - destruct (Rle_dec x r) as [|Hn]; [assumption | exfalso].
    assert (0 < x - r) by lra. nra.
Qed.

(** For circles whose radii are not negative the bounding-box test of
    [Shape2D.intersects] never rejects a pair that [_circle_vs_circle]
    accepts: the answer is that of [_circle_vs_circle]. *)
Theorem circles_broad_phase (ra rb : R) (pa pb : Pose2D.t) :
  0 <= ra -> 0 <= rb ->
  intersects (Circle ra) (Circle rb) pa pb = _circle_vs_circle ra pa rb pb.
Proof.
  intros Ha Hb. unfold intersects, bounding_box, BoundingBox.intersects,
    _circle_vs_circle.
  cbn [BoundingBox.min_x BoundingBox.min_y BoundingBox.max_x BoundingBox.max_y].
  set (ax := Pose2D.x pa). set (ay := Pose2D.y pa).
  set (bx := Pose2D.x pb). set (by_ := Pose2D.y pb).
  clearbody ax ay bx by_.
  rewrite negb_involutive.
  destruct (Rleb ((ax - bx) * (ax - bx) + (ay - by_) * (ay - by_))
                 ((ra + rb) * (ra + rb))) eqn:E.
  - apply Rleb_iff in E.
    pose proof (Rle_0_sqr (ax - bx)) as Sx. pose proof (Rle_0_sqr (ay - by_)) as Sy.
    unfold Rsqr in Sx, Sy.
    assert (Hx : (ax - bx) * (ax - bx) <= (ra + rb) * (ra + rb)) by lra.
    assert (Hy : (ay - by_) * (ay - by_) <= (ra + rb) * (ra + rb)) by lra.
    apply sq_le_bounds in Hx; [| lra]. apply sq_le_bounds in Hy; [| lra].
    rewrite !Rltb_false by lra. reflexivity.
  - match goal with |- (if ?c then _ else _) = _ => destruct c end;
      reflexivity.
Qed.

Lemma circles_broad_phase_witness :
  intersects (Circle 0.1) (Circle 0.1) (Pose2D.mk 0 0 0) (Pose2D.mk 0.19 0 0)
  = _circle_vs_circle 0.1 (Pose2D.mk 0 0 0) 0.1 (Pose2D.mk 0.19 0 0).
Proof.
  apply (circles_broad_phase 0.1 0.1 (Pose2D.mk 0 0 0) (Pose2D.mk 0.19 0 0));
    lra.
Defined.

(** *** Distance to a segment *)

Lemma hypot_sq (a b : R) : hypot a b * hypot a b = a * a + b * b.
Proof. unfold hypot. apply sqrt_sqrt. nra. Qed.

Lemma hypot_mono (a b c d : R) :
  a * a + b * b <= c * c + d * d -> hypot a b <= hypot c d.
Proof. intros H. unfold hypot. apply sqrt_le_1_alt. exact H. Qed.

Lemma segment_distance_le_start (p s e : Point2D) :
  _distance_point_to_segment p s e <= hypot (fst p - fst s) (snd p - snd s).
Proof.
  destruct p as [px py], s as [sx sy], e as [ex ey].
  unfold _distance_point_to_segment. cbn [fst snd].
  destruct (Reqb (ex - sx) 0 && Reqb (ey - sy) 0) eqn:E.
  - apply andb_true_iff in E. destruct E as [E1 E2].
    apply Reqb_iff in E1, E2.
    lra.
  - set (dx := ex - sx) in *. set (dy := ey - sy) in *.
    assert (Hd : 0 < dx * dx + dy * dy).
    { apply andb_false_iff in E.
      destruct E as [E | E]; apply Reqb_iff_false in E; nra. }
    set (D := dx * dx + dy * dy) in *.
    set (u := ((px - sx) * dx + (py - sy) * dy) / D).
    assert (Hu : u * D = (px - sx) * dx + (py - sy) * dy).
    { unfold u. field. lra. }
    set (t := Rmax 0 (Rmin 1 u)).
    assert (Ht : (t = 0 /\ u <= 0) \/ (t = 1 /\ 1 <= u) \/ (t = u /\ 0 <= u <= 1)).
    { unfold t, Rmax, Rmin.
      destruct (Rle_dec 1 u); destruct (Rle_dec 0 1); try lra;
        destruct (Rle_dec 0 u); lra. }
    assert (Hk0 : (px - (sx + t * dx)) * (px - (sx + t * dx))
                  + (py - (sy + t * dy)) * (py - (sy + t * dy))
                  = (px - sx) * (px - sx) + (py - sy) * (py - sy)
                    + (t * t * D - 2 * t * (u * D))).
    { rewrite Hu. unfold D. ring. }
    clearbody t u D.
    assert (H0 : t * t * D - 2 * t * (u * D) <= 0).
    { replace (t * t * D - 2 * t * (u * D)) with (D * (t * (t - 2 * u)))
        by ring.
      assert (t * (t - 2 * u) <= 0)
        by (destruct Ht as [[-> _] | [[-> H1] | [-> H01]]]; nra).
      nra. }
    apply hypot_mono. rewrite Hk0. lra.
Qed.

(** The distance from a point to a segment is at most its distance to
    either end of the segment. *)
Theorem distance_to_segment_le_ends (p s e : Point2D) :
  _distance_point_to_segment p s e <= hypot (fst p - fst s) (snd p - snd s) /\
  _distance_point_to_segment p s e <= hypot (fst p - fst e) (snd p - snd e).
Proof.
  destruct p as [px py], s as [sx sy], e as [ex ey].
  unfold _distance_point_to_segment. cbn [fst snd].
  destruct (Reqb (ex - sx) 0 && Reqb (ey - sy) 0) eqn:E.
  - apply andb_true_iff in E. destruct E as [E1 E2].
    apply Reqb_iff in E1, E2.
    split; [lra |]. apply hypot_mono.
    replace ex with sx by lra. replace ey with sy by lra. lra.
  - set (dx := ex - sx) in *. set (dy := ey - sy) in *.
    assert (Hd : 0 < dx * dx + dy * dy).
    { apply andb_false_iff in E.
      destruct E as [E | E]; apply Reqb_iff_false in E; nra. }
    set (D := dx * dx + dy * dy) in *.
    set (u := ((px - sx) * dx + (py - sy) * dy) / D).
    assert (Hu : u * D = (px - sx) * dx + (py - sy) * dy).
    { unfold u. field. lra. }
    set (t := Rmax 0 (Rmin 1 u)).
    assert (Ht : (t = 0 /\ u <= 0) \/ (t = 1 /\ 1 <= u) \/ (t = u /\ 0 <= u <= 1)).
    { unfold t, Rmax, Rmin.
      destruct (Rle_dec 1 u); destruct (Rle_dec 0 1); try lra;
        destruct (Rle_dec 0 u); lra. }
    assert (Hk0 : (px - (sx + t * dx)) * (px - (sx + t * dx))
                  + (py - (sy + t * dy)) * (py - (sy + t * dy))
                  = (px - sx) * (px - sx) + (py - sy) * (py - sy)
                    + (t * t * D - 2 * t * (u * D))).
    { rewrite Hu. unfold D. ring. }
    assert (Hk1 : (px - (sx + t * dx)) * (px - (sx + t * dx))
                  + (py - (sy + t * dy)) * (py - (sy + t * dy))
                  = (px - ex) * (px - ex) + (py - ey) * (py - ey)
                    + ((t - 1) * (t + 1) * D - 2 * (t - 1) * (u * D))).
    { rewrite Hu. unfold D, dx, dy. ring. }
    clearbody t u D.
    assert (H0 : t * t * D - 2 * t * (u * D) <= 0).
    { replace (t * t * D - 2 * t * (u * D)) with (D * (t * (t - 2 * u)))
        by ring.
      assert (t * (t - 2 * u) <= 0)
        by (destruct Ht as [[-> _] | [[-> H1] | [-> H01]]]; nra).
      nra. }
    assert (H1 : (t - 1) * (t + 1) * D - 2 * (t - 1) * (u * D) <= 0).
    { replace ((t - 1) * (t + 1) * D - 2 * (t - 1) * (u * D))
        with (D * ((t - 1) * (t + 1 - 2 * u))) by ring.
      assert ((t - 1) * (t + 1 - 2 * u) <= 0)
        by (destruct Ht as [[-> ?] | [[-> ?] | [-> ?]]]; nra).
      nra. }
    split; apply hypot_mono; [rewrite Hk0 | rewrite Hk1]; lra.
Qed.

(** *** The edges of a vertex list *)

Lemma edges_map (f : Point2D -> Point2D) (vs : list Point2D) :
  edges (map f vs) = map (fun e => (f (fst e), f (snd e))) (edges vs).
Proof.
  unfold edges.
  replace (tl (map f vs) ++ firstn 1 (map f vs))
    with (map f (tl vs ++ firstn 1 vs)).
  - generalize (tl vs ++ firstn 1 vs). induction vs as [| v vs IH];
      intros l; [reflexivity |].
    destruct l as [| w l]; [reflexivity |]. cbn [map combine fst snd].
    f_equal. apply IH.
  - rewrite map_app. destruct vs as [| v vs]; reflexivity.
Qed.

Lemma edges_fst (vs : list Point2D) : map fst (edges vs) = vs.
Proof.
  unfold edges. destruct vs as [| v vs]; [reflexivity |].
  cbn [tl firstn].
  assert (H : forall (l l' : list Point2D),
             (List.length l <= List.length l')%nat ->
             map fst (combine l l') = l).
  { induction l as [| a l IH]; intros l' Hl; [reflexivity |].
    destruct l' as [| b l']; [cbn in Hl; lia |].
    cbn [combine map fst]. f_equal. apply IH. cbn in Hl. lia. }
  apply H. rewrite length_app. cbn [List.length]. lia.
Qed.

Lemma edges_snd (vs : list Point2D) :
  map snd (edges vs) = tl vs ++ firstn 1 vs.
Proof.
  unfold edges. destruct vs as [| v vs]; [reflexivity |].
  cbn [tl firstn].
  assert (H : forall (l l' : list Point2D),
             (List.length l' <= List.length l)%nat ->
             map snd (combine l l') = l').
  { induction l as [| a l IH]; intros l' Hl.
    - destruct l'; [reflexivity | cbn in Hl; lia].
    - destruct l' as [| b l']; [reflexivity |].
      cbn [combine map snd]. f_equal. apply IH. cbn in Hl. lia. }
  apply H. rewrite length_app. cbn [List.length]. lia.
Qed.

(** *** Sums *)

Local Abbreviation rsum := (fold_right Rplus 0).

Lemma fold_add_rsum {A : Type} (h : A -> R) (l : list A) (a : R) :
  fold_left (fun acc e => acc + h e) l a = a + rsum (map h l).
Proof.
  revert a. induction l as [| x l IH]; intros a; cbn [fold_left map fold_right].
  - ring.
  - rewrite IH. ring.
Qed.

Lemma rsum_app (l l' : list R) : rsum (l ++ l') = rsum l + rsum l'.
Proof. induction l as [| x l IH]; cbn [app fold_right]; [ring | rewrite IH; ring]. Qed.

Lemma rsum_map_add {A : Type} (f g : A -> R) (l : list A) :
  rsum (map (fun e => f e + g e) l) = rsum (map f l) + rsum (map g l).
Proof.
  induction l as [| x l IH]; cbn [map fold_right]; [ring | rewrite IH; ring].
Qed.

Lemma rsum_map_scale {A : Type} (k : R) (f : A -> R) (l : list A) :
  rsum (map (fun e => k * f e) l) = k * rsum (map f l).
Proof.
  induction l as [| x l IH]; cbn [map fold_right]; [ring | rewrite IH; ring].
Qed.

Lemma rsum_map_ext {A : Type} (f g : A -> R) (l : list A) :
  (forall e, f e = g e) -> rsum (map f l) = rsum (map g l).
Proof.
  intros H. induction l as [| x l IH]; cbn [map fold_right]; [reflexivity |].
  rewrite H, IH. reflexivity.
Qed.

(** Around the cycle of edges, the differences of any function of the
    vertices sum to zero. *)
Lemma rsum_cycle (g : Point2D -> R) (vs : list Point2D) :
  rsum (map (fun e => g (snd e) - g (fst e)) (edges vs)) = 0.
Proof.
  transitivity (rsum (map g (map snd (edges vs)))
                - rsum (map g (map fst (edges vs)))).
  - generalize (edges vs). intros l.
    induction l as [| e l IH]; cbn [map fold_right]; [ring | rewrite IH; ring].
  - rewrite edges_fst, edges_snd, map_app, rsum_app.
    destruct vs as [| v vs]; cbn [tl firstn map fold_right]; ring.
Qed.

(** The signed shoelace sum of [Polygon.area]. *)
Lemma shoelace_rsum (vs : list Point2D) :
  fold_left
    (fun (area : R) (e : Point2D * Point2D) =>
       let '((x1, y1), (x2, y2)) := e in area + (x1 * y2 - x2 * y1))
    (edges vs) 0
  = rsum (map (fun e => fst (fst e) * snd (snd e) - fst (snd e) * snd (fst e))
              (edges vs)).
Proof.
  rewrite <- (Rplus_0_l (rsum _)).
  rewrite <- (fold_add_rsum
                (fun e : Point2D * Point2D =>
                   fst (fst e) * snd (snd e) - fst (snd e) * snd (fst e))).
  generalize 0. generalize (edges vs). intros l.
  induction l as [| [[x1 y1] [x2 y2]] l IH]; intros a; cbn [fold_left];
    [reflexivity | apply IH].
Qed.

(** The area of a polygon does not depend on the pose it is placed at. *)
Theorem polygon_area_pose_invariant (vs : list Point2D) (p : Pose2D.t) :
  area (Polygon (_world_vertices vs p)) = area (Polygon vs).
Proof.
  unfold area. f_equal. f_equal.
  rewrite !shoelace_rsum. unfold _world_vertices. rewrite edges_map, map_map.
  destruct p as [tx ty th]. unfold Pose2D.transform_point.
  cbn [Pose2D.x Pose2D.y Pose2D.theta fst snd].
  set (c := cos th). set (s := sin th).
  pose proof (cos2_sin2 th) as Hcs. fold c s in Hcs.
  set (gx := fun v : Point2D => c * fst v - s * snd v).
  set (gy := fun v : Point2D => s * fst v + c * snd v).
  rewrite (rsum_map_ext _
             (fun e : Point2D * Point2D =>
                (fst (fst e) * snd (snd e) - fst (snd e) * snd (fst e))
                + (tx * (gy (snd e) - gy (fst e))
                   + (- ty) * (gx (snd e) - gx (fst e))))).
  - rewrite rsum_map_add, rsum_map_add, !rsum_map_scale.
    rewrite (rsum_cycle gy), (rsum_cycle gx).
    replace (tx * 0 + - ty * 0) with 0 by ring. rewrite Rplus_0_r.
    reflexivity.
  - intros [[x1 y1] [x2 y2]]. unfold gx, gy. cbn [fst snd].
    replace ((tx + c * x1 - s * y1) * (ty + s * x2 + c * y2)
             - (tx + c * x2 - s * y2) * (ty + s * x1 + c * y1))
      with ((c * c + s * s) * (x1 * y2 - x2 * y1)
            + (tx * (s * x2 + c * y2 - (s * x1 + c * y1))
               + - ty * (c * x2 - s * y2 - (c * x1 - s * y1)))) by ring.
    rewrite Hcs. ring.
Qed.

(** *** A manifold is returned only for shapes that intersect *)

Lemma closest_vertices_attained (center : Point2D) (vs : list Point2D) :
  forall st d p,
    _closest_vertices center vs st = Some (d, p) ->
    (exists p0, st = Some (d, p0)) \/
    exists v, In v vs /\ d = hypot (fst center - fst v) (snd center - snd v).
Proof.
  unfold _closest_vertices.
  induction vs as [| [vx vy] vs IH]; intros st d p; cbn [fold_left].
  - intros ->. left. eexists. reflexivity.
  - intros H. apply IH in H. destruct H as [[p0 H] | (v & Hv & Hd)].
    + destruct (closer _ st).
      * injection H as <- _. right. exists (vx, vy). split;
          [left; reflexivity | reflexivity].
      * left. exists p0. exact H.
    + right. exists v. split; [right; exact Hv | exact Hd].
Qed.

Lemma closest_edges_attained (center : Point2D) (es : list (Point2D * Point2D)) :
  forall st d p,
    fold_left
      (fun (st : closest) (e : Point2D * Point2D) =>
         let '(start, end_) := e in
         let d := _distance_point_to_segment center start end_ in
         if closer d st then
           let '(sx, sy) := start in
           let '(ex, ey) := end_ in
           let dx := ex - sx in
           let dy := ey - sy in
           let proj :=
             if Reqb dx 0 && Reqb dy 0 then start
             else
               let t := ((fst center - sx) * dx + (snd center - sy) * dy)
                        / (dx * dx + dy * dy) in
               let t := Rmax 0 (Rmin 1 t) in
               (sx + t * dx, sy + t * dy) in
           Some (d, proj)
         else st) es st = Some (d, p) ->
    (exists p0, st = Some (d, p0)) \/
    exists e, In e es /\ d = _distance_point_to_segment center (fst e) (snd e).
Proof.
  induction es as [| [[sx sy] [ex ey]] es IH]; intros st d p; cbn [fold_left].
  - intros ->. left. eexists. reflexivity.
  - intros H. apply IH in H. destruct H as [[p0 H] | (e & He & Hd)].
    + destruct (closer _ st).
      * injection H as <- _. right. exists ((sx, sy), (ex, ey)).
        split; [left; reflexivity | reflexivity].
      * left. exists p0. exact H.
    + right. exists e. split; [right; exact He | exact Hd].
Qed.

Lemma circle_polygon_manifold_near_edge (r : R) (pc : Pose2D.t)
  (vs : list Point2D) (pp : Pose2D.t) (m : CollisionManifold) :
  _circle_vs_polygon_manifold r pc vs pp = Some m ->
  exists e, In e (edges (_world_vertices vs pp)) /\
            _distance_point_to_segment (Pose2D.x pc, Pose2D.y pc) (fst e) (snd e) < r.
Proof.
  unfold _circle_vs_polygon_manifold.
  set (center := (Pose2D.x pc, Pose2D.y pc)).
  set (wv := _world_vertices vs pp).
  destruct (_closest_edges center wv (_closest_vertices center wv None))
    as [[d p] |] eqn:E; [| discriminate].
  destruct (Rleb (r - d) 0) eqn:Er; [discriminate |].
  apply Rleb_iff_false in Er. intros _.
  unfold _closest_edges in E.
  apply closest_edges_attained in E.
  destruct E as [[p0 E] | (e & He & Hd)].
  - apply closest_vertices_attained in E.
    destruct E as [[p1 E] | (v & Hv & Hd)]; [discriminate |].
    rewrite <- (edges_fst wv) in Hv. apply in_map_iff in Hv.
    destruct Hv as (e & <- & He).
    exists e. split; [exact He |].
    pose proof (segment_distance_le_start center (fst e) (snd e)) as H.
    lra.
  - exists e. split; [exact He | lra].
Qed.

Lemma circle_polygon_manifold_intersects (r : R) (pc : Pose2D.t)
  (vs : list Point2D) (pp : Pose2D.t) (m : CollisionManifold) :
  _circle_vs_polygon_manifold r pc vs pp = Some m ->
  _circle_vs_polygon r pc vs pp = true.
Proof.
  intros H. unfold _circle_vs_polygon.
  destruct (contains_point _ _ _); [reflexivity |].
  apply existsb_exists.
  destruct (circle_polygon_manifold_near_edge _ _ _ _ _ H) as (e & He & Hd).
  exists e. split; [exact He |]. apply Rleb_true. lra.
Qed.

Lemma check_axes_loop_overlap (es : list (Point2D * Point2D))
  (verts1 verts2 : list Point2D) :
  forall cur st,
    _check_axes_loop es verts1 verts2 cur = Some st ->
    forallb
      (fun e : Point2D * Point2D =>
         let '((x1, y1), (x2, y2)) := e in
         let edge_x := x2 - x1 in
         let edge_y := y2 - y1 in
         let normal := (- edge_y, edge_x) in
         let '(min_a, max_a) := _project normal verts1 in
         let '(min_b, max_b) := _project normal verts2 in
         negb (Rltb max_a min_b || Rltb max_b min_a)) es = true.
Proof.
  induction es as [| [[x1 y1] [x2 y2]] es IH]; intros cur st;
    cbn [_check_axes_loop forallb]; [reflexivity |].
  destruct (_project _ verts1) as [min1 max1].
  destruct (_project _ verts2) as [min2 max2].
  destruct (Rleb (Rmin max1 max2 - Rmax min1 min2) 0) eqn:E; [discriminate |].
  apply Rleb_iff_false in E. intros H. apply IH in H.
  apply andb_true_intro. split; [| exact H].
  pose proof (Rmin_l max1 max2). pose proof (Rmin_r max1 max2).
  pose proof (Rmax_l min1 min2). pose proof (Rmax_r min1 min2).
  rewrite !Rltb_false by lra. reflexivity.
Qed.

Lemma check_axes_sat (verts1 verts2 : list Point2D) (cur st : axes_state) :
  _check_axes verts1 verts2 cur = Some st -> _sat_overlap verts1 verts2 = true.
Proof. unfold _check_axes, _sat_overlap. apply check_axes_loop_overlap. Qed.

Lemma polygon_polygon_manifold_intersects (va : list Point2D) (pa : Pose2D.t)
  (vb : list Point2D) (pb : Pose2D.t) (m : CollisionManifold) :
  _polygon_vs_polygon_manifold va pa vb pb = Some m ->
  _polygon_vs_polygon va pa vb pb = true.
Proof.
  unfold _polygon_vs_polygon_manifold, _polygon_vs_polygon. cbv zeta.
  destruct (_check_axes _ _ None) as [[st1 |] |] eqn:E1; try discriminate.
  destruct (_check_axes _ _ (Some st1)) as [[st2 |] |] eqn:E2;
    try discriminate.
  intros _.
  rewrite (check_axes_sat _ _ _ _ E1), (check_axes_sat _ _ _ _ E2).
  reflexivity.
Qed.

(** Whenever [collision_manifold] returns a manifold for two shapes whose
    bounding boxes intersect, [Shape2D.intersects] answers true for them
    (the shapes being such that the query raises no division error). *)
Theorem manifold_implies_intersects (sa : Shape2D) (pa : Pose2D.t)
  (sb : Shape2D) (pb : Pose2D.t) (m : CollisionManifold) :
  query_defined sa -> query_defined sb ->
  collision_manifold sa pa sb pb = Some m ->
  BoundingBox.intersects (bounding_box sa (Some pa))
                         (bounding_box sb (Some pb)) = true ->
  intersects sa sb pa pb = true.
Proof.
  intros _ _ Hm Hb. unfold intersects. rewrite Hb. cbn [negb].
  destruct sa as [ra | va], sb as [rb | vb]; cbn [collision_manifold] in Hm.
  - unfold _circle_vs_circle_manifold in Hm. unfold _circle_vs_circle.
    match type of Hm with
    | (if Rleb ?a ?b then _ else _) = _ => destruct (Rleb a b) eqn:E
    end; [discriminate |].
    apply Rleb_iff_false in E. apply Rleb_true. nra.
  - eapply circle_polygon_manifold_intersects. exact Hm.
  - destruct (_circle_vs_polygon_manifold rb pb va pa) as [m' |] eqn:E;
      [| discriminate].
    eapply circle_polygon_manifold_intersects. exact E.
  - eapply polygon_polygon_manifold_intersects. exact Hm.
Qed.

(** *** Points inside a shape *)

Lemma edges_snd_In (vs : list Point2D) (e : Point2D * Point2D) :
  In e (edges vs) -> In (snd e) vs.
Proof.
  intros H. apply (in_map snd) in H. rewrite edges_snd in H.
  apply in_app_or in H. destruct H as [H | H].
  - destruct vs as [| v vs]; [destruct H | right; exact H].
  - destruct vs as [| v vs]; [destruct H |].
    cbn [firstn] in H. destruct H as [<- | []]. left. reflexivity.
Qed.

Lemma edges_fst_In (vs : list Point2D) (e : Point2D * Point2D) :
  In e (edges vs) -> In (fst e) vs.
Proof. intros H. apply (in_map fst) in H. rewrite edges_fst in H. exact H. Qed.

Lemma winding_crossing (px py : R) (es : list (Point2D * Point2D)) :
  forall winding : bool,
    fold_left
      (fun (winding : bool) (e : Point2D * Point2D) =>
         let '((x1, y1), (x2, y2)) := e in
         if (Rleb y1 py && Rltb py y2) || (Rleb y2 py && Rltb py y1) then
           let x_cross := x1 + (py - y1) * (x2 - x1) / (y2 - y1 + 1e-12) in
           if Rltb px x_cross then negb winding else winding
         else winding) es winding = true ->
    winding = true \/
    exists e, In e es /\
              (snd (fst e) <= py < snd (snd e) \/
               snd (snd e) <= py < snd (fst e)).
Proof.
  induction es as [| [[x1 y1] [x2 y2]] es IH]; intros winding;
    cbn [fold_left]; [intros ->; left; reflexivity |].
  intros H. apply IH in H. destruct H as [H | (e & He & Hc)].
  - destruct ((Rleb y1 py && Rltb py y2) || (Rleb y2 py && Rltb py y1)) eqn:E.
    + right. exists ((x1, y1), (x2, y2)). split; [left; reflexivity |].
      cbn [fst snd]. apply orb_true_iff in E.
      destruct E as [E | E]; apply andb_true_iff in E; destruct E as [E1 E2];
        apply Rleb_iff in E1; apply Rltb_iff in E2; [left | right]; lra.
    + left. exact H.
  - right. exists e. split; [right; exact He | exact Hc].
Qed.

(** A point a circle of positive radius contains lies in the circle's
    bounding box; a point a polygon contains has, in the polygon's frame, a
    [y] between the lowest and the highest vertex (the polygon being one on
    which the query raises no division error). *)
Theorem contains_point_in_box (s : Shape2D) (q : Point2D)
  (pose : option Pose2D.t) :
  well_formed s -> query_defined s ->
  contains_point s q pose = true ->
  match s with
  | Circle r =>
    let box := bounding_box s pose in
    BoundingBox.min_x box <= fst q <= BoundingBox.max_x box /\
    BoundingBox.min_y box <= snd q <= BoundingBox.max_y box
  | Polygon pts =>
    let local :=
      match pose with
      | None => q
      | Some p => Pose2D.transform_point (Pose2D.inverse p) q
      end in
    list_min (map snd pts) <= snd local < list_max (map snd pts)
  end.
Proof.
  destruct s as [r | pts]; cbn [well_formed contains_point]; intros Hw _;
    revert Hw.
  - intros Hr. destruct q as [px py].
    set (cx := match pose with Some p => Pose2D.x p | None => 0 end).
    set (cy := match pose with Some p => Pose2D.y p | None => 0 end).
    intros H. apply Rleb_iff in H. cbn zeta.
    cbn [bounding_box BoundingBox.min_x BoundingBox.min_y BoundingBox.max_x
         BoundingBox.max_y fst snd].
    fold cx cy. clearbody cx cy.
    pose proof (Rle_0_sqr (px - cx)) as Sx.
    pose proof (Rle_0_sqr (py - cy)) as Sy. unfold Rsqr in Sx, Sy.
    assert (Hx : (px - cx) * (px - cx) <= r * r) by lra.
    assert (Hy : (py - cy) * (py - cy) <= r * r) by lra.
    apply sq_le_bounds in Hx; [| lra]. apply sq_le_bounds in Hy; [| lra].
    lra.
  - intros _. cbn zeta.
    set (local := match pose with
                  | None => q
                  | Some p => Pose2D.transform_point (Pose2D.inverse p) q
                  end).
    destruct local as [px py]. cbn [snd].
    intros H. apply winding_crossing in H.
    destruct H as [H | (e & He & Hc)]; [discriminate |].
    pose proof (edges_fst_In pts e He) as H1.
    pose proof (edges_snd_In pts e He) as H2.
    apply (in_map snd) in H1, H2.
    pose proof (list_min_le _ _ H1). pose proof (list_min_le _ _ H2).
    pose proof (list_max_ge _ _ H1). pose proof (list_max_ge _ _ H2).
    lra.
Qed.

Lemma contains_point_in_box_witness :
  let box := bounding_box (Circle 1) (Some (Pose2D.mk 2 3 0)) in
  BoundingBox.min_x box <= fst (2.5, 3.5) <= BoundingBox.max_x box /\
  BoundingBox.min_y box <= snd (2.5, 3.5) <= BoundingBox.max_y box.
Proof.
  apply (contains_point_in_box (Circle 1) (2.5, 3.5) (Some (Pose2D.mk 2 3 0))).
  - cbn. lra.
  - exact I.
  - cbn [contains_point Pose2D.x Pose2D.y]. apply Rleb_true. lra.
Defined.

Lemma manifold_implies_intersects_witness :
  intersects (Circle 0.1) (Circle 0.1) (Pose2D.mk 0 0 0) (Pose2D.mk 0.19 0 0)
  = true.
Proof.
  apply (manifold_implies_intersects (Circle 0.1) (Pose2D.mk 0 0 0)
           (Circle 0.1) (Pose2D.mk 0.19 0 0) Scenarios.post_contact).
  - exact I.
  - exact I.
  - exact post_manifold.
  - unfold BoundingBox.intersects, bounding_box.
    cbn [BoundingBox.min_x BoundingBox.min_y BoundingBox.max_x
         BoundingBox.max_y Pose2D.x Pose2D.y].
    rewrite !Rltb_false by lra. reflexivity.
Defined.

Lemma manifold_shape_witness :
  0 < penetration Scenarios.post_contact /\
  unit_or_zero (normal Scenarios.post_contact).
Proof.
  apply (manifold_shape (Circle 0.1) (Pose2D.mk 0 0 0)
           (Circle 0.1) (Pose2D.mk 0.19 0 0) Scenarios.post_contact).
  - cbn. lra.
  - cbn. lra.
  - exact post_manifold.
Defined.

End ShapeQueries.

(** ** Rewinding to contact and free motion *)

Section WorldMotion.
Import World Geometry Materials Entities WorldCollisions.

Lemma lerp_pose_start (start end_ : Pose2D.t) :
  _lerp_pose start end_ 0 = start.
Proof.
  unfold _lerp_pose. cbv zeta.
  replace (Rmax 0 (Rmin 1 0)) with 0.
  2:{ rewrite Rmin_right by lra. rewrite Rmax_left by lra. reflexivity. }
  destruct start as [x y th]. cbn [Pose2D.x Pose2D.y Pose2D.theta].
  f_equal; ring.
Qed.

(** The bisection keeps its bracket inside the one it started from, and its
    lower end is either the initial one or a probe that did not hit. *)
Lemma bisect_spec (hits : R -> bool) (n : nat) :
  forall low high : R,
    low <= high ->
    let '(l, h) := _bisect n hits low high in
    low <= l /\ l <= h /\ h <= high /\ (l = low \/ hits l = false).
Proof.
  induction n as [| n IH]; intros low high Hlh; cbn [_bisect].
  - split; [lra | split; [lra | split; [lra | left; reflexivity]]].
  - cbv zeta. destruct (hits (0.5 * (low + high))) eqn:E.
    + specialize (IH low (0.5 * (low + high)) ltac:(lra)).
      destruct (_bisect n hits low (0.5 * (low + high))) as [l h].
      destruct IH as (H1 & H2 & H3 & H4).
      split; [lra | split; [lra | split; [lra | exact H4]]].
    + specialize (IH (0.5 * (low + high)) high ltac:(lra)).
      destruct (_bisect n hits (0.5 * (low + high)) high) as [l h].
      destruct IH as (H1 & H2 & H3 & H4).
      split; [lra | split; [lra | split; [lra |]]].
      right. destruct H4 as [-> | H4]; [exact E | exact H4].
Qed.

(** A body that did not touch the solid at its previous pose does not touch
    it after [_rewind_to_contact] (for shapes on which the intersection
    query raises no division error): it is put back on the straight path from
    the previous pose to the new one, at a fraction [alpha] of the way where
    the shapes are apart, and nothing but its pose is written. *)
Theorem rewind_leaves_no_overlap (obj solid : SimObject)
  (prev_pose : Pose2D.t) :
  query_defined (shape obj) -> query_defined (shape solid) ->
  intersects (shape obj) (shape solid) prev_pose (pose solid) = false ->
  let obj' := _rewind_to_contact obj prev_pose solid in
  overlaps_with obj' solid = false /\
  (exists alpha, 0 <= alpha <= 1 /\
                 Pose2D.x (pose obj') =
                 Pose2D.x prev_pose
                 + (Pose2D.x (pose obj) - Pose2D.x prev_pose) * alpha /\
                 Pose2D.y (pose obj') =
                 Pose2D.y prev_pose
                 + (Pose2D.y (pose obj) - Pose2D.y prev_pose) * alpha) /\
  set_pose obj' (pose obj) = obj.
Proof.
  intros _ _ Hprev. cbv zeta. unfold _rewind_to_contact, overlaps_with.
  cbv zeta.
  destruct (intersects (shape obj) (shape solid) (pose obj) (pose solid))
    eqn:Eend; cbn [negb].
  - pose proof (bisect_spec
                  (fun mid =>
                     intersects (shape obj) (shape solid)
                                (_lerp_pose prev_pose (pose obj) mid)
                                (pose solid)) 12 0 1 ltac:(lra)) as H.
    destruct (_bisect 12 _ 0 1) as [l h].
    destruct H as (H1 & H2 & H3 & H4).
    cbn [set_pose pose shape].
    split; [| split].
    + destruct H4 as [-> | H4]; [| exact H4].
      rewrite lerp_pose_start. exact Hprev.
    + exists l. split; [lra |].
      unfold _lerp_pose. cbv zeta. cbn [Pose2D.x Pose2D.y].
      rewrite Rmin_right by lra. rewrite Rmax_right by lra.
      split; reflexivity.
    + destruct obj; reflexivity.
  - split; [exact Eend | split].
    + exists 1. split; [lra |]. split; ring.
    + destruct obj; reflexivity.
Qed.

Lemma rewind_leaves_no_overlap_witness :
  overlaps_with
    (_rewind_to_contact Scenarios.resting_robot (Pose2D.mk (-1) 0 0)
                        Scenarios.post) Scenarios.post
  = false.
Proof.
  cbv zeta.
  refine (proj1 (rewind_leaves_no_overlap
                   Scenarios.resting_robot Scenarios.post
                   (Pose2D.mk (-1) 0 0) I I _)).
  unfold Scenarios.resting_robot, Scenarios.post. cbn [shape pose].
  unfold intersects, BoundingBox.intersects, bounding_box.
  cbn [BoundingBox.min_x BoundingBox.min_y BoundingBox.max_x
       BoundingBox.max_y Pose2D.x Pose2D.y].
  rewrite (Rltb_true (-1 + 0.1)) by lra. reflexivity.
Defined.

Lemma integrate_free (b : SimObject) (dt : R) :
  can_move b = true -> _pending_forces b = [] -> _pending_torque b = 0 ->
  integrate b dt =
  mkObject (name b)
           (Pose2D.mk
              (Pose2D.x (pose b) + fst (linear_velocity (state b)) * dt)
              (Pose2D.y (pose b) + snd (linear_velocity (state b)) * dt)
              (Pose2D.theta (pose b) + angular_velocity (state b) * dt))
           (shape b) (material b) true (state b) [] 0.
Proof.
  destruct b as [nm [x y th] sh mat cm [[vx vy] w m I] pf pt].
  cbn [can_move _pending_forces _pending_torque]. intros -> -> ->.
  unfold integrate. obj_simpl. cbn [negb map]. unfold list_sum.
  cbn [fold_left]. cbv zeta.
  assert (Hv : forall v : R, v + 0 / m * dt = v) by (intros; unfold Rdiv; ring).
  assert (Hw : w + 0 / I * dt = w) by (unfold Rdiv; ring).
  destruct (Rltb 0 m); destruct (Rltb 0 I); obj_simpl;
    rewrite ?Hv, ?Hw; unfold advance_pose; obj_simpl; cbv zeta;
    unfold clear_impulses; obj_simpl;
    (destruct (Reqb w 0) eqn:Ew;
     [ apply Reqb_iff in Ew; subst w;
       unfold Pose2D.translated; cbn [Pose2D.x Pose2D.y Pose2D.theta];
       rewrite Rmult_0_l, Rplus_0_r; reflexivity
     | unfold Pose2D.rotated, Pose2D.translated;
       cbn [Pose2D.x Pose2D.y Pose2D.theta]; reflexivity ]).
Qed.

(** A movable body with no force or torque pending moves uniformly: after
    [n] calls of [integrate] its pose has advanced by [n * dt] times its
    velocity, and its velocity is unchanged. *)
Theorem free_motion (n : nat) (b : SimObject) (dt : R) :
  can_move b = true -> _pending_forces b = [] -> _pending_torque b = 0 ->
  let b' := Nat.iter n (fun o => integrate o dt) b in
  state b' = state b /\
  Pose2D.x (pose b') =
  Pose2D.x (pose b) + INR n * dt * fst (linear_velocity (state b)) /\
  Pose2D.y (pose b') =
  Pose2D.y (pose b) + INR n * dt * snd (linear_velocity (state b)) /\
  Pose2D.theta (pose b') =
  Pose2D.theta (pose b) + INR n * dt * angular_velocity (state b).
Proof.
  intros Hc Hf Ht. cbv zeta.
  assert (H : let b' := Nat.iter n (fun o => integrate o dt) b in
              (can_move b' = true /\ _pending_forces b' = [] /\
               _pending_torque b' = 0) /\
              state b' = state b /\
              Pose2D.x (pose b') =
              Pose2D.x (pose b) + INR n * dt * fst (linear_velocity (state b)) /\
              Pose2D.y (pose b') =
              Pose2D.y (pose b) + INR n * dt * snd (linear_velocity (state b)) /\
              Pose2D.theta (pose b') =
              Pose2D.theta (pose b)
              + INR n * dt * angular_velocity (state b));
    [| exact (proj2 H)].
  cbv zeta. induction n as [| n IH].
  - unfold Nat.iter. cbn [nat_rect INR]. repeat split; first [assumption | reflexivity | ring].
  - destruct IH as ((Hc' & Hf' & Ht') & Hs & Hx & Hy & Hth).
    change (Nat.iter (S n) (fun o => integrate o dt) b)
      with (integrate (Nat.iter n (fun o => integrate o dt) b) dt).
    rewrite (integrate_free _ dt Hc' Hf' Ht').
    obj_simpl. cbn [Pose2D.x Pose2D.y Pose2D.theta].
    rewrite Hs, Hx, Hy, Hth, S_INR.
    repeat split; first [reflexivity | ring].
Qed.

Lemma free_motion_witness :
  Pose2D.x
    (pose (Nat.iter 3 (fun o => integrate o 0.1)
                    (set_linear_velocity Scenarios.resting_robot (1, 2))))
  = 0 + INR 3 * 0.1 * 1.
Proof.
  exact (proj1 (proj2 (free_motion
                         3 (set_linear_velocity Scenarios.resting_robot (1, 2))
                         0.1 eq_refl eq_refl eq_refl))).
Defined.

End WorldMotion.

(** ** Wheel traction: impulses and effective mass *)

Section WheelImpulses.
Import World Geometry Materials Entities Base Motors.

Ltac wheel_simpl :=
  cbn [andb orb negb fst snd
       Entities.can_move Entities.state Entities.pose Entities.shape
       Entities.material Entities.name Entities._pending_forces
       Entities._pending_torque
       Entities.linear_velocity Entities.angular_velocity Entities.mass
       Entities.moment_of_inertia
       Entities.set_pose Entities.set_state Entities.set_linear_velocity
       Entities.set_angular_velocity
       Pose2D.x Pose2D.y Pose2D.theta
       applied_longitudinal_impulse desired_longitudinal_impulse
       applied_lateral_impulse contact_speed_after contact_speed
       preferred_speed wheel_speed lateral_slip slip_ratio normal_load] in *.

Lemma clamp_toward (v l : R) :
  0 <= l ->
  Rabs (Rmax (- l) (Rmin l v)) <= Rabs v /\ 0 <= Rmax (- l) (Rmin l v) * v.
Proof.
  intros Hl. unfold Rmax, Rmin.
  destruct (Rle_dec l v); destruct (Rle_dec (- l) _); unfold Rabs;
    repeat destruct (Rcase_abs _); split; nra.
Qed.

(** The lateral impulse stays within the lateral friction budget, and the
    longitudinal impulse never exceeds the impulse that would reach the
    preferred speed, nor opposes it. *)
Theorem traction_impulse_bounds
  (body : SimObject) (cp fwd : R * R)
  (pref cap mu_long mu_lat nl ld dt : R) :
  let report :=
    snd (_solve_wheel_traction body cp fwd pref cap mu_long mu_lat nl ld dt) in
  Rabs (applied_lateral_impulse report)
  <= Rmax 0 (Rabs mu_lat * Rmax nl 0 * dt) /\
  Rabs (applied_longitudinal_impulse report)
  <= Rabs (desired_longitudinal_impulse report) /\
  0 <= applied_longitudinal_impulse report
       * desired_longitudinal_impulse report.
Proof.
  cbv zeta.
  set (max_lat := Rmax 0 (Rabs mu_lat * Rmax nl 0 * dt)).
  assert (Hm0 : 0 <= max_lat) by apply Rmax_l.
  unfold _solve_wheel_traction.
  destruct (can_move body); cbn [negb].
  2:{ wheel_simpl. rewrite Rabs_R0. repeat split; lra. }
  fold max_lat.
  destruct (_contact_velocity body cp) as [vcx vcy].
  match goal with
  | |- context [let '(j_lat, body0) := ?lat in _] =>
    assert (Hlat : Rabs (fst lat) <= max_lat);
      [| destruct lat as [j_lat body1] ]
  end.
  { destruct (Rltb 0 max_lat && Rltb 1e-6 _); cbn [fst];
      [| rewrite Rabs_R0; exact Hm0].
    destruct (Rltb 1e-9 _); cbn [fst]; [| rewrite Rabs_R0; exact Hm0].
    unfold _clamp. apply clamp_abs. exact Hm0. }
  cbn [fst] in Hlat.
  destruct (Rltb 1e-9 (_inv_mass_term body1 cp fwd)); wheel_simpl.
  2:{ rewrite Rabs_R0. repeat split; lra. }
  match goal with
  | |- context [if Rltb 0 ?L then (_, _clamp _ _ _, _) else _] =>
    destruct (Rltb 0 L) eqn:EL; rbool
  end; wheel_simpl.
  - split; [exact Hlat |]. unfold _clamp. apply clamp_toward. lra.
  - rewrite Rabs_R0. split; [exact Hlat |].
    split; [apply Rabs_pos | lra].
Qed.

(** The drive-force budget caps the longitudinal impulse whenever it is
    not zero. *)
Lemma drive_cap_bound
  (body : SimObject) (cp fwd : R * R)
  (pref cap mu_long mu_lat nl ld dt : R) :
  cap <> 0 ->
  Rabs (applied_longitudinal_impulse
          (snd (_solve_wheel_traction body cp fwd pref cap
                                      mu_long mu_lat nl ld dt)))
  <= Rabs cap.
Proof.
  intros Hcap.
  assert (Hc : 0 < Rabs cap) by (apply Rabs_pos_lt; exact Hcap).
  unfold _solve_wheel_traction.
  destruct (can_move body); cbn [negb].
  2:{ wheel_simpl. rewrite Rabs_R0. lra. }
  destruct (_contact_velocity body cp) as [vcx vcy].
  match goal with
  | |- context [let '(j_lat, body0) := ?lat in _] =>
    destruct lat as [j_lat body1]
  end.
  destruct (Rltb 1e-9 (_inv_mass_term body1 cp fwd)); wheel_simpl.
  2:{ rewrite Rabs_R0. lra. }
  rewrite (Rmax_right 0 (Rabs cap)) by lra.
  rewrite (Rltb_true 0 (Rabs cap)) by exact Hc.
  match goal with
  | |- context [if Rltb 0 ?L then (_, _clamp _ _ _, _) else _] =>
    assert (HL : L <= Rabs cap);
      [| destruct (Rltb 0 L) eqn:EL; rbool ]
  end.
  { match goal with
    | |- (if Rltb 0 ?L0 then _ else _) <= _ =>
      destruct (Rltb 0 L0); [apply Rmin_r | lra]
    end. }
  - wheel_simpl. eapply Rle_trans; [| exact HL].
    unfold _clamp. apply clamp_abs. lra.
  - wheel_simpl. rewrite Rabs_R0. lra.
Qed.

(** A wheel motor (with the non-zero response time its constructor
    ensures) mounted on a movable body never pushes harder than its
    [max_force]: the impulse its report records is at most
    [|max_force| * dt]. *)
Theorem wheel_motor_force_limit
  (self : WheelMotor.t) (value : R) (world : MotorWorld) (dt : R)
  (parent : SimObject) :
  parent_body world = Some parent ->
  can_move parent = true ->
  WheelMotor.response_time self <> 0 ->
  WheelMotor.max_force self <> 0 ->
  0 < dt ->
  exists report,
    WheelMotor.last_report (fst (WheelMotor.command self value world dt))
    = Some report /\
    Rabs (applied_longitudinal_impulse report)
    <= Rabs (WheelMotor.max_force self) * dt.
Proof.
  intros Hp Hc _ Hf Hdt.
  unfold WheelMotor.command, Motor.command. cbv zeta.
  set (v := Rmax _ _). clearbody v.
  set (self1 := WheelMotor.with_base self _).
  assert (Hmf : WheelMotor.max_force self1 = WheelMotor.max_force self)
    by reflexivity.
  rewrite <- Hmf in Hf. rewrite <- Hmf. clearbody self1. clear Hmf.
  unfold WheelMotor._apply. rewrite Hp, Hc. cbn [negb]. cbv zeta.
  match goal with
  | |- context [_solve_wheel_traction ?b ?cp ?fwd ?pref ?cap ?ml ?mt ?nl ?ld ?d] =>
    pose proof (drive_cap_bound b cp fwd pref cap ml mt nl ld d) as H;
      destruct (_solve_wheel_traction b cp fwd pref cap ml mt nl ld d)
      as [parent1 report]
  end.
  cbn [snd] in H.
  eexists. split; [cbn [fst WheelMotor.last_report WheelMotor.set_last_report];
                   reflexivity |].
  unfold set_step. wheel_simpl.
  cbn [WheelMotor.set_angular_speed WheelMotor.max_force] in H.
  rewrite Rabs_mult, (Rabs_pos_eq dt) in H by lra.
  rewrite Rabs_Rabsolu in H. apply H.
  apply Rmult_integral_contrapositive_currified; [| lra].
  apply Rabs_no_R0. exact Hf.
Qed.

Lemma wheel_motor_force_limit_witness :
  exists report,
    WheelMotor.last_report
      (fst (WheelMotor.command
              (WheelMotor.init "left_motor" (Pose2D.mk 0 0.1 0) 2 0.9 0.8 9.81
                               None 0.25 2 0.03 0.05 40)
              1 (mkMotorWorld (Some Scenarios.resting_robot) (Some 0%Z)) 0.02))
    = Some report /\
    Rabs (applied_longitudinal_impulse report) <= Rabs 2 * 0.02.
Proof.
  apply (wheel_motor_force_limit
           (WheelMotor.init "left_motor" (Pose2D.mk 0 0.1 0) 2 0.9 0.8 9.81
                            None 0.25 2 0.03 0.05 40)
           1 (mkMotorWorld (Some Scenarios.resting_robot) (Some 0%Z)) 0.02
           Scenarios.resting_robot).
  - reflexivity.
  - reflexivity.
  - cbn [WheelMotor.init WheelMotor.response_time].
    rewrite Rmax_left by lra. lra.
  - cbn [WheelMotor.init WheelMotor.max_force]. lra.
  - lra.
Defined.

(** A detailed wheel motor mounted on a movable body never pushes harder
    than its geared torque allows: the impulse its report records is at
    most [|max_torque * gear_ratio / wheel_radius| * dt]. *)
Theorem detailed_motor_force_limit
  (self : WheelMotorDetailed.t) (value : R) (world : MotorWorld) (dt : R)
  (parent : SimObject) :
  parent_body world = Some parent ->
  can_move parent = true ->
  max_torque (WheelMotorDetailed.preset self)
  * gear_ratio (WheelMotorDetailed.preset self)
  / preset_wheel_radius (WheelMotorDetailed.preset self) <> 0 ->
  0 < dt ->
  exists report,
    WheelMotorDetailed.last_report
      (fst (WheelMotorDetailed.command self value world dt))
    = Some report /\
    Rabs (applied_longitudinal_impulse report)
    <= Rabs (max_torque (WheelMotorDetailed.preset self)
             * gear_ratio (WheelMotorDetailed.preset self)
             / preset_wheel_radius (WheelMotorDetailed.preset self)) * dt.
Proof.
  intros Hp Hc Hf Hdt.
  unfold WheelMotorDetailed.command, Motor.command. cbv zeta.
  set (v := Rmax _ _). clearbody v.
  set (self1 := WheelMotorDetailed.with_base self _).
  assert (Hpr : WheelMotorDetailed.preset self1 = WheelMotorDetailed.preset self)
    by reflexivity.
  rewrite <- Hpr in Hf. rewrite <- Hpr. clearbody self1. clear Hpr.
  unfold WheelMotorDetailed._apply. rewrite Hp, Hc. cbn [negb]. cbv zeta.
  match goal with
  | |- context [_solve_wheel_traction ?b ?cp ?fwd ?pref ?cap ?ml ?mt ?nl ?ld ?d] =>
    pose proof (drive_cap_bound b cp fwd pref cap ml mt nl ld d) as H;
      destruct (_solve_wheel_traction b cp fwd pref cap ml mt nl ld d)
      as [parent1 report]
  end.
  cbn [snd] in H.
  eexists. split; [cbn [fst WheelMotorDetailed.last_report]; reflexivity |].
  unfold set_step. wheel_simpl.
  rewrite Rabs_mult, (Rabs_pos_eq dt) in H by lra.
  rewrite Rabs_Rabsolu in H. apply H.
  apply Rmult_integral_contrapositive_currified; [| lra].
  apply Rabs_no_R0. exact Hf.
Qed.

Lemma detailed_motor_force_limit_witness :
  let preset :=
    mkPreset "wheel_small" 0.03 0.45 1 0.002 0.05 0.9 1 0.9 0.8 9.81 None
             0.25 2 in
  exists report,
    WheelMotorDetailed.last_report
      (fst (WheelMotorDetailed.command
              (WheelMotorDetailed.mk
                 (Motor.init "left_motor" (Pose2D.mk 0 0.1 0) 1) preset 0 None)
              1 (mkMotorWorld (Some Scenarios.resting_robot) (Some 0%Z)) 0.02))
    = Some report /\
    Rabs (applied_longitudinal_impulse report)
    <= Rabs (0.45 * 1 / 0.03) * 0.02.
Proof.
  cbv zeta.
  apply (detailed_motor_force_limit
           (WheelMotorDetailed.mk
              (Motor.init "left_motor" (Pose2D.mk 0 0.1 0) 1)
              (mkPreset "wheel_small" 0.03 0.45 1 0.002 0.05 0.9 1 0.9 0.8
                        9.81 None 0.25 2) 0 None)
           1 (mkMotorWorld (Some Scenarios.resting_robot) (Some 0%Z)) 0.02
           Scenarios.resting_robot).
  - reflexivity.
  - reflexivity.
  - cbn [WheelMotorDetailed.preset max_torque gear_ratio preset_wheel_radius].
    lra.
  - lra.
Defined.

(** *** Effective mass *)

Lemma apply_impulse_frame (body : SimObject) (impulse cp : R * R) :
  let body' := _apply_impulse body impulse cp in
  pose body' = pose body /\ can_move body' = can_move body /\
  mass (state body') = mass (state body) /\
  moment_of_inertia (state body') = moment_of_inertia (state body).
Proof.
  cbv zeta. unfold _apply_impulse.
  destruct (negb (can_move body) || Rleb (mass (state body)) 0);
    [repeat split |].
  destruct impulse as [jx jy].
  destruct body as [nm p sh mat cm [[vx vy] w m I] pf pt]. wheel_simpl.
  repeat split.
Qed.

Lemma inv_mass_term_apply_impulse (body : SimObject) (impulse cp cp' axis : R * R) :
  _inv_mass_term (_apply_impulse body impulse cp) cp' axis
  = _inv_mass_term body cp' axis.
Proof.
  destruct (apply_impulse_frame body impulse cp) as (Hp & Hc & Hm & Hi).
  unfold _inv_mass_term. rewrite Hp, Hc, Hm, Hi. reflexivity.
Qed.

(** The velocity of the contact point along a unit axis after an impulse [j]
    along that axis. *)
Lemma apply_impulse_along (body : SimObject) (cp axis : R * R) (j : R) :
  can_move body = true -> 1e-9 <= mass (state body) ->
  fst axis * fst axis + snd axis * snd axis = 1 ->
  let v := _contact_velocity body cp in
  let v' :=
    _contact_velocity
      (_apply_impulse body (fst axis * j, snd axis * j) cp) cp in
  fst v' * fst axis + snd v' * snd axis
  = fst v * fst axis + snd v * snd axis + j * _inv_mass_term body cp axis.
Proof.
  intros Hc Hm Hu. cbv zeta.
  unfold _apply_impulse, _inv_mass_term, _contact_velocity.
  destruct body as [nm [x y th] sh mat cm [[vx vy] w m I] pf pt].
  destruct cp as [cx cy]. destruct axis as [ax ay]. wheel_simpl. subst cm.
  cbn [negb orb]. rewrite (Rleb_false m 0) by lra. cbv zeta. wheel_simpl.
  rewrite (Rmax_left m 1e-9) by lra.
  set (iI := if Rleb I 0 then 0 else 1 / I). clearbody iI.
  set (im := 1 / m) in *. clearbody im.
  transitivity
    ((vx - w * (cy - y)) * ax + (vy + w * (cx - x)) * ay
     + j * (im * (ax * ax + ay * ay)
            + ((cx - x) * ay - (cy - y) * ax) * ((cx - x) * ay - (cy - y) * ax)
              * iI)); [ring | rewrite Hu; ring].
Qed.

(** [_inv_mass_term] is the effective inverse mass of the body at the
    contact point: an impulse [j] along a unit axis changes the speed of the
    contact point along that axis by [j * _inv_mass_term]. *)
Theorem effective_inverse_mass (body : SimObject) (cp axis : R * R) (j : R) :
  can_move body = true -> 1e-9 <= mass (state body) ->
  fst axis * fst axis + snd axis * snd axis = 1 ->
  let v := _contact_velocity body cp in
  let v' :=
    _contact_velocity
      (_apply_impulse body (fst axis * j, snd axis * j) cp) cp in
  fst v' * fst axis + snd v' * snd axis
  - (fst v * fst axis + snd v * snd axis)
  = j * _inv_mass_term body cp axis /\
  0 < _inv_mass_term body cp axis.
Proof.
  intros Hc Hm Hu. cbv zeta.
  rewrite (apply_impulse_along body cp axis j Hc Hm Hu).
  split; [ring |].
  unfold _inv_mass_term. rewrite Hc. cbn [negb orb].
  rewrite (Rleb_false (mass (state body)) 0) by lra. cbv zeta.
  assert (H1 : 0 < 1 / mass (state body)).
  { apply Rdiv_lt_0_compat; lra. }
  assert (H2 : 0 <= (if Rleb (moment_of_inertia (state body)) 0 then 0
                     else 1 / moment_of_inertia (state body))).
  { destruct (Rleb _ 0) eqn:E; rbool; [lra |].
    apply Rlt_le, Rdiv_lt_0_compat; lra. }
  match goal with
  | |- 0 < _ + ?c * ?c * _ => pose proof (Rle_0_sqr c) as H3; unfold Rsqr in H3
  end.
  nra.
Qed.

Lemma effective_inverse_mass_witness :
  let v := _contact_velocity Scenarios.resting_robot (0, 0.1) in
  let v' :=
    _contact_velocity
      (_apply_impulse Scenarios.resting_robot (fst (1, 0) * 0.5, snd (1, 0) * 0.5)
                      (0, 0.1)) (0, 0.1) in
  fst v' * fst (1, 0) + snd v' * snd (1, 0)
  - (fst v * fst (1, 0) + snd v * snd (1, 0))
  = 0.5 * _inv_mass_term Scenarios.resting_robot (0, 0.1) (1, 0) /\
  0 < _inv_mass_term Scenarios.resting_robot (0, 0.1) (1, 0).
Proof.
  apply (effective_inverse_mass Scenarios.resting_robot (0, 0.1) (1, 0) 0.5).
  - reflexivity.
  - cbn. lra.
  - cbn [fst snd]. lra.
Defined.

Lemma apply_impulse_zero (body : SimObject) (a b : R) (cp cp' : R * R) :
  _contact_velocity (_apply_impulse body (a * 0, b * 0) cp) cp'
  = _contact_velocity body cp'.
Proof.
  unfold _apply_impulse, _contact_velocity.
  destruct (negb (can_move body) || Rleb (mass (state body)) 0);
    [reflexivity |].
  destruct body as [nm [x y th] sh mat cm [[vx vy] w m I] pf pt].
  cbv zeta. wheel_simpl. f_equal; ring.
Qed.

(** When the report shows that the whole desired impulse was applied and no
    lateral impulse was, the contact point moves at the preferred speed
    after the call. *)
Theorem traction_reaches_preferred_speed
  (body : SimObject) (cp fwd : R * R)
  (pref cap mu_long mu_lat nl ld dt : R) :
  can_move body = true -> 1e-9 <= mass (state body) ->
  fst fwd * fst fwd + snd fwd * snd fwd = 1 ->
  1e-9 < _inv_mass_term body cp fwd ->
  let report :=
    snd (_solve_wheel_traction body cp fwd pref cap mu_long mu_lat nl ld dt) in
  applied_lateral_impulse report = 0 ->
  applied_longitudinal_impulse report = desired_longitudinal_impulse report ->
  contact_speed_after report = pref.
Proof.
  intros Hc Hm Hu Hinv. cbv zeta.
  unfold _solve_wheel_traction. rewrite Hc. cbn [negb].
  destruct (_contact_velocity body cp) as [vcx vcy] eqn:Ecv.
  match goal with
  | |- context [let '(j_lat, body0) := ?lat in _] =>
    assert (Hlat : snd lat = body \/
                   snd lat =
                   _apply_impulse body
                     (fst (- snd fwd, fst fwd) * fst lat,
                      snd (- snd fwd, fst fwd) * fst lat) cp);
      [| destruct lat as [j_lat body1] ]
  end.
  { destruct (Rltb 0 _ && Rltb 1e-6 _); [| left; reflexivity].
    destruct (Rltb 1e-9 _); [right; reflexivity | left; reflexivity]. }
  cbn [fst snd] in Hlat.
  assert (F1 : _inv_mass_term body1 cp fwd = _inv_mass_term body cp fwd).
  { destruct Hlat as [-> | ->];
      [reflexivity | apply inv_mass_term_apply_impulse]. }
  assert (F3 : can_move body1 = true /\ 1e-9 <= mass (state body1)).
  { destruct Hlat as [-> | ->]; [split; assumption |].
    destruct (apply_impulse_frame body (- snd fwd * j_lat, fst fwd * j_lat) cp)
      as (_ & Hc' & Hm' & _).
    rewrite Hc', Hm'. split; assumption. }
  assert (F2 : j_lat = 0 -> _contact_velocity body1 cp = (vcx, vcy)).
  { intros ->. destruct Hlat as [-> | ->]; [exact Ecv |].
    rewrite apply_impulse_zero. exact Ecv. }
  rewrite F1. rewrite (Rltb_true 1e-9 _ Hinv).
  set (v_long := vcx * fst fwd + vcy * snd fwd).
  set (desired := (pref - v_long) / _inv_mass_term body cp fwd).
  assert (Hd : desired * _inv_mass_term body cp fwd = pref - v_long).
  { unfold desired. field. lra. }
  match goal with
  | |- context [if Rltb 0 ?L then (_, _clamp _ _ _, _) else _] =>
    destruct (Rltb 0 L) eqn:EL
  end; wheel_simpl.
  - intros Hj Hfull. rewrite Hfull. specialize (F2 Hj).
    destruct (Reqb desired 0) eqn:E0; rbool.
    + rewrite F2. cbn [fst snd]. fold v_long. rewrite E0 in Hd. lra.
    + destruct F3 as [Hc1 Hm1].
      pose proof (apply_impulse_along body1 cp fwd desired Hc1 Hm1 Hu) as H.
      cbv zeta in H. rewrite H, F2, F1. cbn [fst snd]. fold v_long. lra.
  - intros Hj Hfull. specialize (F2 Hj). rewrite F2. cbn [fst snd].
    fold v_long. rewrite <- Hfull in Hd. lra.
Qed.

Lemma gentle_drive_report :
  let report :=
    snd (_solve_wheel_traction Scenarios.resting_robot (0, 0) (1, 0) 0.01 0.06
                               0.9 0.8 7.848 0.25 0.02) in
  applied_lateral_impulse report = 0 /\
  applied_longitudinal_impulse report = desired_longitudinal_impulse report.
Proof.
  cbv zeta. unfold _solve_wheel_traction.
  rewrite resting_contact_velocity.
  change (can_move Scenarios.resting_robot) with true. wheel_simpl.
  rewrite (Rabs_pos_eq 0.8), (Rabs_pos_eq 0.9), (Rabs_pos_eq 0.06) by lra.
  rewrite (Rmax_left 7.848 0) by lra.
  rewrite (Rmax_right 0 (0.8 * 7.848 * 0.02)) by lra.
  rewrite (Rmax_right 0 (0.9 * 7.848 * 0.02)) by lra.
  rewrite (Rmax_right 0 0.06) by lra.
  replace (0 * - 0 + 0 * 1) with 0 by ring.
  rewrite Rabs_R0. rewrite (Rltb_false 1e-6 0) by lra.
  rewrite andb_false_r. cbv beta iota zeta.
  rewrite resting_inv_mass_forward.
  rewrite (Rltb_true 1e-9 (1 / 1.6)) by lra.
  rewrite (Rltb_true 0 (0.9 * 7.848 * 0.02)) by lra.
  rewrite (Rltb_true 0 (0.8 * 7.848 * 0.02)) by lra.
  rewrite (Rltb_true 0 0.06) by lra.
  cbn [andb]. rewrite Rabs_R0.
  replace (0 / (0.8 * 7.848 * 0.02 + 1e-9)) with 0 by (unfold Rdiv; ring).
  rewrite (Rmin_right 1 0) by lra.
  rewrite (Rmax_right 0 (1 - 0.5 * 0)) by lra.
  rewrite (Rltb_true 0 (0.9 * 7.848 * 0.02 * (1 - 0.5 * 0))) by lra.
  rewrite (Rmin_right (0.9 * 7.848 * 0.02 * (1 - 0.5 * 0)) 0.06) by lra.
  rewrite (Rltb_true 0 0.06) by lra.
  unfold _clamp.
  replace ((0.01 - (0 * 1 + 0 * 0)) / (1 / 1.6)) with 0.016 by lra.
  rewrite (Rmin_right 0.06 0.016) by lra.
  rewrite (Rmax_right (Ropp 0.06) 0.016) by lra.
  wheel_simpl. split; reflexivity.
Qed.

Lemma traction_reaches_preferred_speed_witness :
  contact_speed_after
    (snd (_solve_wheel_traction Scenarios.resting_robot (0, 0) (1, 0) 0.01 0.06
                                0.9 0.8 7.848 0.25 0.02)) = 0.01.
Proof.
  apply (traction_reaches_preferred_speed Scenarios.resting_robot (0, 0) (1, 0)
           0.01 0.06 0.9 0.8 7.848 0.25 0.02).
  - reflexivity.
  - cbn. lra.
  - cbn [fst snd]. lra.
  - rewrite resting_inv_mass_forward. lra.
  - exact (proj1 gentle_drive_report).
  - exact (proj2 gentle_drive_report).
Defined.

End WheelImpulses.

(** ** Line and distance sensors *)

Section SensorReadings.
Import World Geometry Materials Entities Base Sensors.

Variable preset : DistanceSensorPreset.
Variable world : WorldView.
Variable parent : option string.
Variables origin direction : R * R.

Local Abbreviation probe x :=
  (_hit world parent
        (fst origin + fst direction * x, snd origin + snd direction * x)).

Lemma ray_loop_terminates (fuel : nat) :
  0 < step preset ->
  forall distance : R,
    max_range preset < distance + INR fuel * step preset ->
    _ray_march_loop (S fuel) preset world parent origin direction distance
    <> None.
Proof.
  intros Hs. induction fuel as [| fuel IH]; intros d Hd.
  - cbn [_ray_march_loop]. cbn [INR] in Hd.
    rewrite (Rleb_false d (max_range preset)) by lra. discriminate.
  - change (_ray_march_loop (S (S fuel)) preset world parent origin direction d)
      with (if Rleb d (max_range preset) then
              if probe d then Some (Some d)
              else _ray_march_loop (S fuel) preset world parent origin
                                   direction (d + step preset)
            else Some None).
    destruct (Rleb d (max_range preset)); [| discriminate].
    destruct (probe d); [discriminate |].
    apply IH. rewrite S_INR in Hd. lra.
Qed.

Lemma ray_fuel_enough :
  0 < step preset ->
  max_range preset < 0 + INR (pred (ray_fuel preset)) * step preset.
Proof.
  intros Hs. unfold ray_fuel.
  replace (pred (Z.to_nat (Int_part (max_range preset / step preset)) + 2))
    with (S (Z.to_nat (Int_part (max_range preset / step preset)))) by lia.
  rewrite S_INR.
  destruct (base_Int_part (max_range preset / step preset)) as [H1 H2].
  set (z := Int_part (max_range preset / step preset)) in *.
  assert (Hq : max_range preset / step preset < IZR z + 1) by lra.
  assert (Hm : max_range preset < (IZR z + 1) * step preset).
  { apply (Rmult_lt_compat_r (step preset)) in Hq; [| exact Hs].
    unfold Rdiv in Hq. rewrite Rmult_assoc, Rinv_l, Rmult_1_r in Hq by lra.
    exact Hq. }
  assert (Hz : IZR z <= INR (Z.to_nat z)).
  { destruct (Z_lt_le_dec z 0) as [Hn | Hp].
    - replace (Z.to_nat z) with 0%nat by lia.
      cbn [INR]. apply IZR_le. lia.
    - rewrite INR_IZR_INZ, Z2Nat.id by lia. lra. }
  nra.
Qed.

End SensorReadings.

Section SensorRanges.
Import World Geometry Materials Entities Base Sensors.


Lemma should_update_keeps (s : Sensor.t) (dt : R) :
  let s' := snd (Sensor.should_update s dt) in
  Sensor.component s' = Sensor.component s /\
  Sensor.noise s' = Sensor.noise s /\
  Sensor.measure s' = Sensor.measure s.
Proof.
  cbv zeta. unfold Sensor.should_update.
  destruct (Reqb (Sensor.update_period s) 0); [repeat split |].
  cbv zeta.
  destruct (Rleb _ _); repeat split.
Qed.

(** What [read] returns when it returns a reading: the measure of the
    sensor, taken on the world. *)
Lemma read_some (s s' : Sensor.t) (world : WorldView) (dt : R)
  (rd : SensorReading) (rng : Random) :
  Sensor.read s world dt = (s', Some rd, rng) ->
  exists meta,
    Sensor.measure s (Sensor.component s) (Sensor.noise s) world
    = (value rd, meta, rng).
Proof.
  unfold Sensor.read.
  destruct (MountedComponent.parent (Sensor.component s)); [| discriminate].
  pose proof (should_update_keeps s dt) as H. cbv zeta in H.
  destruct (Sensor.should_update s dt) as [due s1]. cbn [snd] in H.
  destruct H as (Hc & Hn & Hm).
  destruct due; cbn [negb]; [| discriminate].
  rewrite Hc, Hn, Hm.
  destruct (Sensor.measure s (Sensor.component s) (Sensor.noise s) world)
    as [[v meta] rng1].
  intros [= _ <- <-]. exists meta. reflexivity.
Qed.

(** A distance sensor with a positive step and a non-negative range,
    mounted on a body of a world whose shapes make no containment query
    fail, measures a distance between zero and
    its range, and that is the value of the reading [read] returns when it
    returns one. *)
Theorem distance_reading_range (preset : DistanceSensorPreset)
  (s : Sensor.t) (world : WorldView) (dt : R) (body : SimObject) :
  Sensor.measure s = distance_measure preset ->
  queries_defined world ->
  0 < step preset -> 0 <= max_range preset ->
  parent_of (Sensor.component s) world = Some body ->
  exists (v : R) (meta : list (string * Value)) (rng : Random),
    distance_measure preset (Sensor.component s) (Sensor.noise s) world
    = (VFloat v, meta, rng) /\
    0 <= v <= max_range preset /\
    forall s' rd rng',
      Sensor.read s world dt = (s', Some rd, rng') -> value rd = VFloat v.
Proof.
  intros Hm _ Hs Hr Hp.
  assert (H : exists v meta rng,
             distance_measure preset (Sensor.component s) (Sensor.noise s)
                              world = (VFloat v, meta, rng) /\
             0 <= v <= max_range preset).
  { unfold distance_measure. rewrite Hp. cbv zeta. unfold _ray_march.
    match goal with
    | |- context [_ray_march_loop ?f ?p ?w ?pa ?o ?d 0] =>
      pose proof (ray_loop_terminates p w pa o d (pred (ray_fuel p)) Hs 0
                                      (ray_fuel_enough p Hs)) as Ht;
        replace (S (pred (ray_fuel p))) with (ray_fuel p) in Ht
          by (unfold ray_fuel; lia);
        destruct (_ray_march_loop f p w pa o d 0) as [hit |]; [| congruence]
    end.
    destruct (NoiseProfile.sample (Sensor.noise s) (view_rng world))
      as [e rng1].
    do 3 eexists. split; [reflexivity |].
    unfold _clamp. apply clamp_bounds. exact Hr. }
  destruct H as (v & meta & rng & Hv & Hb).
  exists v, meta, rng. split; [exact Hv | split; [exact Hb |]].
  intros s' rd rng' Hread.
  apply read_some in Hread. destruct Hread as (meta' & Hread).
  rewrite Hm, Hv in Hread. congruence.
Qed.

Lemma distance_reading_range_witness :
  let preset := mkDistancePreset "range_short" 1.5 0.01
                                 (NoiseProfile.mk 0 0.01) 40 in
  let s :=
    Sensor.attach
      (Sensor.init "range" (Pose2D.mk 0.1 0 0) 40 0 (NoiseProfile.mk 0 0.01)
                   (distance_measure preset)) "bot" in
  let world :=
    mkView [("bot"%string, Scenarios.resting_robot)] 0 Scenarios.quiet_rng in
  exists (v : R) (meta : list (string * Value)) (rng : Random),
    distance_measure preset (Sensor.component s) (Sensor.noise s) world
    = (VFloat v, meta, rng) /\
    0 <= v <= 1.5.
Proof.
  cbv zeta.
  destruct (distance_reading_range
              (mkDistancePreset "range_short" 1.5 0.01
                                (NoiseProfile.mk 0 0.01) 40)
              (Sensor.attach
                 (Sensor.init "range" (Pose2D.mk 0.1 0 0) 40 0
                    (NoiseProfile.mk 0 0.01)
                    (distance_measure
                       (mkDistancePreset "range_short" 1.5 0.01
                                         (NoiseProfile.mk 0 0.01) 40))) "bot")
              (mkView [("bot"%string, Scenarios.resting_robot)] 0
                      Scenarios.quiet_rng)
              0.05 Scenarios.resting_robot)
    as (v & meta & rng & Hv & Hb & _).
  - reflexivity.
  - constructor; [exact I | constructor].
  - cbn [step]. lra.
  - cbn [max_range]. lra.
  - reflexivity.
  - exists v, meta, rng. split; [exact Hv | exact Hb].
Defined.

(** In a world whose shapes make no containment query fail, the line
    signal at a point is never negative; when positive it is the
    [line_intensity] of an object of the world that contains the point, and
    when zero no object with a positive [line_intensity] contains the
    point. *)
Theorem sample_line_intensity_spec (world : WorldView) (point : R * R) :
  queries_defined world ->
  let signal := _sample_line_intensity world point in
  0 <= signal /\
  (0 < signal ->
   exists kv, In kv (view_bodies world) /\
              material_field (snd kv) "line_intensity" 0 = signal /\
              contains_point (shape (snd kv)) point (Some (pose (snd kv)))
              = true) /\
  (signal = 0 ->
   forall kv, In kv (view_bodies world) ->
              0 < material_field (snd kv) "line_intensity" 0 ->
              contains_point (shape (snd kv)) point (Some (pose (snd kv)))
              = false).
Proof.
  intros _. cbv zeta. unfold _sample_line_intensity.
  induction (view_bodies world) as [| [nm obj] rest IH];
    cbn [_sample_line_intensity_loop].
  - split; [lra | split; [lra | intros _ kv []]].
  - cbv zeta. destruct IH as (I0 & I1 & I2).
    destruct (Rleb (material_field obj "line_intensity" 0) 0) eqn:Ei; rbool.
    + split; [exact I0 | split].
      * intros H. destruct (I1 H) as (kv & Hin & Hkv).
        exists kv. split; [right; exact Hin | exact Hkv].
      * intros H kv [<- | Hin] Hpos; [cbn [snd] in Hpos; lra |].
        apply (I2 H kv Hin Hpos).
    + destruct (contains_point (shape obj) point (Some (pose obj))) eqn:Ec.
      * split; [lra | split].
        -- intros _. exists (nm, obj). split; [left; reflexivity |].
           split; [reflexivity | exact Ec].
        -- intros H. lra.
      * split; [exact I0 | split].
        -- intros H. destruct (I1 H) as (kv & Hin & Hkv).
           exists kv. split; [right; exact Hin | exact Hkv].
        -- intros H kv [<- | Hin] Hpos; [exact Ec |].
           apply (I2 H kv Hin Hpos).
Qed.

Lemma sample_line_intensity_spec_witness :
  0 <= _sample_line_intensity
         (mkView [("bot"%string, Scenarios.resting_robot)] 0
                 Scenarios.quiet_rng) (0, 0).
Proof.
  refine (proj1 (sample_line_intensity_spec
                   (mkView [("bot"%string, Scenarios.resting_robot)] 0
                           Scenarios.quiet_rng) (0, 0) _)).
  constructor; [exact I | constructor].
Defined.

Lemma read_points_spec (preset : LineSensorPreset) (noise : NoiseProfile.t)
  (world : WorldView) (points : list (R * R)) :
  forall rng : Random,
    let values := fst (_read_points preset noise world points rng) in
    List.length values = List.length points /\
    Forall (fun v => exists x : R, v = VFloat x /\ 0 <= x <= 1) values.
Proof.
  cbv zeta. induction points as [| point rest IH]; intros rng;
    cbn [_read_points].
  - cbn [fst List.length]. split; [reflexivity | constructor].
  - cbv zeta. destruct (NoiseProfile.sample noise rng) as [e rng1].
    specialize (IH rng1).
    destruct (_read_points preset noise world rest rng1) as [values rng2].
    cbn [fst List.length] in *. destruct IH as [IH1 IH2].
    split; [rewrite IH1; reflexivity |].
    constructor; [| exact IH2].
    eexists. split; [reflexivity |].
    unfold _clamp. apply clamp_bounds. lra.
Qed.

(** A line sensor array whose [max_signal] is not zero, mounted on a body
    of a world whose shapes make no containment query fail, measures one
    value per element of the array, each between 0 and 1, and that list is
    the value of the reading [read] returns when it returns one. *)
Theorem line_array_reading (preset : LineSensorPreset)
  (s : Sensor.t) (world : WorldView) (dt : R) (body : SimObject) :
  Sensor.measure s = line_array_measure preset ->
  queries_defined world -> max_signal preset <> 0 ->
  parent_of (Sensor.component s) world = Some body ->
  exists (values : list Value) (meta : list (string * Value)) (rng : Random),
    line_array_measure preset (Sensor.component s) (Sensor.noise s) world
    = (VList values, meta, rng) /\
    List.length values = Z.to_nat (count preset) /\
    Forall (fun v => exists x : R, v = VFloat x /\ 0 <= x <= 1) values /\
    forall s' rd rng',
      Sensor.read s world dt = (s', Some rd, rng') ->
      value rd = VList values.
Proof.
  intros Hm _ _ Hp.
  assert (H : exists values meta rng,
             line_array_measure preset (Sensor.component s) (Sensor.noise s)
                                world = (VList values, meta, rng) /\
             List.length values = Z.to_nat (count preset) /\
             Forall (fun v => exists x : R, v = VFloat x /\ 0 <= x <= 1)
                    values).
  { unfold line_array_measure. rewrite Hp. cbv zeta.
    pose proof (read_points_spec preset (Sensor.noise s) world
                  (sample_points_world preset (Sensor.component s) world)
                  (view_rng world)) as H.
    cbv zeta in H.
    destruct (_read_points preset (Sensor.noise s) world _ (view_rng world))
      as [values rng1].
    cbn [fst] in H. destruct H as [H1 H2].
    do 3 eexists. split; [reflexivity | split; [| exact H2]].
    rewrite H1. unfold sample_points_world. rewrite Hp. cbv zeta.
    unfold array_offsets. rewrite !length_map, length_seq. reflexivity. }
  destruct H as (values & meta & rng & Hv & Hl & Hb).
  exists values, meta, rng.
  split; [exact Hv | split; [exact Hl | split; [exact Hb |]]].
  intros s' rd rng' Hread.
  apply read_some in Hread. destruct Hread as (meta' & Hread).
  rewrite Hm, Hv in Hread. congruence.
Qed.

Lemma line_array_reading_witness :
  let preset := mkLinePreset "line_basic" 1 (NoiseProfile.mk 0 0.02) 60 0.02 5 in
  let s :=
    Sensor.attach
      (Sensor.init "line" (Pose2D.mk 0.1 0 0) 60 0 (NoiseProfile.mk 0 0.02)
                   (line_array_measure preset)) "bot" in
  let world :=
    mkView [("bot"%string, Scenarios.resting_robot)] 0 Scenarios.quiet_rng in
  exists (values : list Value) (meta : list (string * Value)) (rng : Random),
    line_array_measure preset (Sensor.component s) (Sensor.noise s) world
    = (VList values, meta, rng) /\
    List.length values = 5%nat.
Proof.
  cbv zeta.
  destruct (line_array_reading
              (mkLinePreset "line_basic" 1 (NoiseProfile.mk 0 0.02) 60 0.02 5)
              (Sensor.attach
                 (Sensor.init "line" (Pose2D.mk 0.1 0 0) 60 0
                    (NoiseProfile.mk 0 0.02)
                    (line_array_measure
                       (mkLinePreset "line_basic" 1 (NoiseProfile.mk 0 0.02)
                                     60 0.02 5))) "bot")
              (mkView [("bot"%string, Scenarios.resting_robot)] 0
                      Scenarios.quiet_rng)
              (1 / 60) Scenarios.resting_robot)
    as (values & meta & rng & Hv & Hl & _).
  - reflexivity.
  - constructor; [exact I | constructor].
  - cbn [max_signal]. lra.
  - reflexivity.
  - exists values, meta, rng. split; [exact Hv | exact Hl].
Defined.

(** *** Noise draws *)

Lemma sample_draws (noise : NoiseProfile.t) (rng : Random) :
  snd (NoiseProfile.sample noise rng)
  = mkRandom (draws rng)
             (cursor rng
              + (if Reqb (NoiseProfile.std_dev noise) 0 then 0 else 1)).
Proof.
  unfold NoiseProfile.sample.
  destruct (Reqb (NoiseProfile.std_dev noise) 0); cbn [snd gauss].
  - destruct rng as [d c]. cbn [draws cursor]. rewrite Nat.add_0_r.
    reflexivity.
  - cbn [draws cursor]. rewrite Nat.add_1_r. reflexivity.
Qed.

Lemma read_points_draws (preset : LineSensorPreset) (noise : NoiseProfile.t)
  (world : WorldView) (points : list (R * R)) :
  forall rng : Random,
    snd (_read_points preset noise world points rng)
    = mkRandom (draws rng)
               (cursor rng
                + (if Reqb (NoiseProfile.std_dev noise) 0 then 0 else 1)
                  * List.length points).
Proof.
  induction points as [| point rest IH]; intros rng; cbn [_read_points].
  - cbn [snd List.length]. destruct rng as [d c]. cbn [draws cursor].
    rewrite Nat.mul_0_r, Nat.add_0_r. reflexivity.
  - cbv zeta. pose proof (sample_draws noise rng) as Hs.
    destruct (NoiseProfile.sample noise rng) as [e rng1]. cbn [snd] in Hs.
    specialize (IH rng1).
    destruct (_read_points preset noise world rest rng1) as [values rng2].
    cbn [snd] in *. rewrite IH, Hs. cbn [draws cursor List.length].
    f_equal. lia.
Qed.

(** Reading a sensor takes a fixed number of draws from the world's
    generator, whatever the world contains (its shapes making no
    containment query fail, and the line preset having a [max_signal] that
    is not zero): none when the noise has no
    spread, and otherwise one for an encoder, a line sensor and a distance
    sensor, three for an IMU and one per element for a line array. *)
Theorem sensor_noise_draws (noise : NoiseProfile.t) (c : MountedComponent.t)
  (world : WorldView) (body : SimObject)
  (line : LineSensorPreset) (range : DistanceSensorPreset) :
  parent_of c world = Some body ->
  queries_defined world -> max_signal line <> 0 ->
  0 < step range ->
  let k := (if Reqb (NoiseProfile.std_dev noise) 0 then 0 else 1)%nat in
  let after (n : nat) :=
    mkRandom (draws (view_rng world)) (cursor (view_rng world) + n) in
  snd (encoder_measure c noise world) = after k /\
  snd (imu_measure c noise world) = after (3 * k)%nat /\
  snd (line_measure line c noise world) = after k /\
  snd (line_array_measure line c noise world)
  = after (k * Z.to_nat (count line))%nat /\
  snd (distance_measure range c noise world) = after k.
Proof.
  intros Hp _ _ Hs. cbv zeta.
  pose proof (sample_draws noise) as Hd.
  repeat split.
  - unfold encoder_measure. rewrite Hp. cbv zeta.
    specialize (Hd (view_rng world)).
    destruct (NoiseProfile.sample noise (view_rng world)) as [e rng].
    exact Hd.
  - unfold imu_measure. rewrite Hp.
    destruct (linear_velocity (state body)) as [vx vy]. cbv zeta.
    pose proof (Hd (view_rng world)) as H1.
    destruct (NoiseProfile.sample noise (view_rng world)) as [e1 rng1].
    pose proof (Hd rng1) as H2.
    destruct (NoiseProfile.sample noise rng1) as [e2 rng2].
    pose proof (Hd rng2) as H3.
    destruct (NoiseProfile.sample noise rng2) as [e3 rng3].
    cbn [snd] in *. rewrite H3, H2, H1. cbn [draws cursor].
    f_equal. lia.
  - unfold line_measure. rewrite Hp. cbv zeta.
    specialize (Hd (view_rng world)).
    destruct (NoiseProfile.sample noise (view_rng world)) as [e rng].
    exact Hd.
  - unfold line_array_measure. rewrite Hp. cbv zeta.
    pose proof (read_points_draws line noise world
                  (sample_points_world line c world) (view_rng world)) as H.
    destruct (_read_points line noise world _ (view_rng world))
      as [values rng1].
    cbn [snd] in *. rewrite H. f_equal. f_equal. f_equal.
    unfold sample_points_world. rewrite Hp. cbv zeta.
    unfold array_offsets. rewrite !length_map, length_seq. reflexivity.
  - unfold distance_measure. rewrite Hp. cbv zeta. unfold _ray_march.
    match goal with
    | |- context [_ray_march_loop ?f ?p ?w ?pa ?o ?d 0] =>
      pose proof (ray_loop_terminates p w pa o d (pred (ray_fuel p)) Hs 0
                                      (ray_fuel_enough p Hs)) as Ht;
        replace (S (pred (ray_fuel p))) with (ray_fuel p) in Ht
          by (unfold ray_fuel; lia);
        destruct (_ray_march_loop f p w pa o d 0) as [hit |]; [| congruence]
    end.
    specialize (Hd (view_rng world)).
    destruct (NoiseProfile.sample noise (view_rng world)) as [e rng].
    exact Hd.
Qed.

Lemma sensor_noise_draws_witness :
  snd (imu_measure (MountedComponent.mk "imu" (Pose2D.mk 0 0 0) (Some "bot"%string))
                   (NoiseProfile.mk 0 0.005)
                   (mkView [("bot"%string, Scenarios.resting_robot)] 0
                           Scenarios.quiet_rng))
  = mkRandom (draws Scenarios.quiet_rng)
             (cursor Scenarios.quiet_rng
              + 3 * (if Reqb (NoiseProfile.std_dev (NoiseProfile.mk 0 0.005)) 0
                     then 0 else 1)).
Proof.
  refine (proj1 (proj2 (sensor_noise_draws
                          (NoiseProfile.mk 0 0.005)
                          (MountedComponent.mk "imu" (Pose2D.mk 0 0 0)
                                               (Some "bot"%string))
                          (mkView [("bot"%string, Scenarios.resting_robot)] 0
                                  Scenarios.quiet_rng)
                          Scenarios.resting_robot
                          (mkLinePreset "line_basic" 1 (NoiseProfile.mk 0 0.02)
                                        60 0.02 5)
                          (mkDistancePreset "range_short" 1.5 0.01
                                            (NoiseProfile.mk 0 0.01) 40)
                          _ _ _ _))).
  - reflexivity.
  - constructor; [exact I | constructor].
  - cbn [max_signal]. lra.
  - cbn [step]. lra.
Defined.

End SensorRanges.

(** ** The ray march on binary64 distances (middle_level_library/sensors.py) *)

Section RayMarch64.
Import World Geometry Materials Entities Base Sensors.

Variables max_range step : PrimFloat.float.
Variable world : WorldView.
Variable parent : option string.
Variables origin direction : R * R.

Local Abbreviation probe64 d :=
  (_hit world parent
        (fst origin + fst direction * float_value d,
         snd origin + snd direction * float_value d)).

Local Abbreviation next := (fun d => PrimFloat.add d step).

(** What the loop returns, from any starting distance: the samples it
    tested are within the range and miss, and it stops at the first hit or
    at the first distance that fails the test. *)
Lemma ray_loop64_spec (fuel : nat) :
  forall (d : PrimFloat.float) (r : option PrimFloat.float),
    _ray_march_loop64 fuel max_range step world parent origin direction d
    = Some r ->
    exists k : nat,
      (k < fuel)%nat /\
      (forall j : nat,
         (j < k)%nat ->
         PrimFloat.leb (Nat.iter j next d) max_range = true /\
         probe64 (Nat.iter j next d) = false) /\
      match r with
      | Some x =>
        x = Nat.iter k next d /\ PrimFloat.leb x max_range = true /\
        probe64 x = true
      | None => PrimFloat.leb (Nat.iter k next d) max_range = false
      end.
Proof.
  induction fuel as [| fuel IH]; intros d r; [discriminate |].
  cbn [_ray_march_loop64]. cbv zeta.
  destruct (PrimFloat.leb d max_range) eqn:Ed.
  - destruct (probe64 d) eqn:Eh.
    + intros [= <-]. exists 0%nat.
      split; [lia | split; [intros j Hj; lia |]].
      split; [reflexivity | split; assumption].
    + intros H. destruct (IH _ _ H) as (k & Hk & Hno & Hr).
      exists (S k). split; [lia | split].
      * intros [| j] Hj; [split; assumption |].
        rewrite Nat.iter_succ_r. apply Hno. lia.
      * rewrite Nat.iter_succ_r. exact Hr.
  - intros [= <-]. exists 0%nat.
    split; [lia | split; [intros j Hj; lia | exact Ed]].
Qed.

(** The loop ends once an accumulated distance fails the test. *)
Lemma ray_loop64_terminates (n : nat) :
  forall d : PrimFloat.float,
    PrimFloat.leb (Nat.iter n next d) max_range = false ->
    _ray_march_loop64 (S n) max_range step world parent origin direction d
    <> None.
Proof.
  induction n as [| n IH]; intros d Hd.
  - cbn [Nat.iter nat_rect] in Hd. cbn [_ray_march_loop64].
    cbn in Hd. rewrite Hd. discriminate.
  - change (_ray_march_loop64 (S (S n)) max_range step world parent origin
                              direction d)
      with (if PrimFloat.leb d max_range then
              if probe64 d then Some (Some d)
              else _ray_march_loop64 (S n) max_range step world parent origin
                                     direction (PrimFloat.add d step)
            else Some None).
    destruct (PrimFloat.leb d max_range); [| discriminate].
    destruct (probe64 d); [discriminate |].
    apply IH. rewrite Nat.iter_succ_r in Hd. exact Hd.
Qed.

Lemma ray_loop64_fuel (fuel : nat) :
  forall (d : PrimFloat.float) (r : option PrimFloat.float),
    _ray_march_loop64 fuel max_range step world parent origin direction d
    = Some r ->
    _ray_march_loop64 (S fuel) max_range step world parent origin direction d
    = Some r.
Proof.
  induction fuel as [| fuel IH]; intros d r; [discriminate |].
  intros H.
  change (_ray_march_loop64 (S (S fuel)) max_range step world parent origin
                            direction d)
    with (if PrimFloat.leb d max_range then
            if probe64 d then Some (Some d)
            else _ray_march_loop64 (S fuel) max_range step world parent origin
                                   direction (PrimFloat.add d step)
          else Some None).
  cbn [_ray_march_loop64] in H. cbv zeta in H.
  destruct (PrimFloat.leb d max_range); [| exact H].
  destruct (probe64 d); [exact H |].
  apply IH. exact H.
Qed.

(** [DistanceSensor._ray_march] on binary64 distances.  When the
    accumulated distances [0.0, 0.0 + step, ...] pass the test [distance <=
    max_range] up to sample [n - 1] and sample [n] fails it, the loop ends
    within [n + 1] tests of its condition.  A distance it returns is the
    first of the [n] samples at which the ray is inside an object other
    than the parent; it returns [None] exactly when none of the [n]
    samples is. *)
Theorem ray_march_samples (n fuel : nat) :
  (forall j : nat,
     (j < n)%nat -> PrimFloat.leb (sample_distance step j) max_range = true) ->
  PrimFloat.leb (sample_distance step n) max_range = false ->
  (n < fuel)%nat ->
  exists r : option PrimFloat.float,
    _ray_march_loop64 fuel max_range step world parent origin direction
                      PrimFloat.zero = Some r /\
    match r with
    | Some x =>
      exists k : nat,
        (k < n)%nat /\ x = sample_distance step k /\ probe64 x = true /\
        forall j : nat,
          (j < k)%nat -> probe64 (sample_distance step j) = false
    | None =>
      forall k : nat, (k < n)%nat -> probe64 (sample_distance step k) = false
    end.
Proof.
  intros Hin Hout Hfuel.
  assert (Hrun : exists r,
             _ray_march_loop64 fuel max_range step world parent origin
                               direction PrimFloat.zero = Some r).
  { pose proof (ray_loop64_terminates n PrimFloat.zero Hout) as Ht.
    destruct (_ray_march_loop64 (S n) max_range step world parent origin
                                direction PrimFloat.zero) as [r |] eqn:E;
      [| congruence].
    exists r. clear Ht.
    replace fuel with ((fuel - S n) + S n)%nat by lia.
    induction (fuel - S n)%nat as [| m IHm]; [exact E |].
    cbn [Nat.add]. apply ray_loop64_fuel. exact IHm. }
  destruct Hrun as [r Hr]. exists r. split; [exact Hr |].
  destruct (ray_loop64_spec fuel PrimFloat.zero r Hr) as (k & _ & Hno & Hk).
  fold (sample_distance step k) in Hk.
  assert (Hle : (k <= n)%nat).
  { destruct (Nat.le_gt_cases k n) as [H | H]; [exact H |].
    destruct (Hno n H) as [Hn _]. fold (sample_distance step n) in Hn.
    congruence. }
  destruct r as [x |].
  - destruct Hk as (Hx & Hxin & Hhit).
    assert (Hlt : (k < n)%nat).
    { destruct (Nat.eq_dec k n) as [-> | Hne]; [| lia].
      rewrite Hx in Hxin. congruence. }
    exists k. split; [exact Hlt | split; [exact Hx | split; [exact Hhit |]]].
    intros j Hj. exact (proj2 (Hno j Hj)).
  - assert (Hkn : k = n).
    { destruct (Nat.eq_dec k n) as [-> | Hne]; [reflexivity |].
      rewrite (Hin k) in Hk by lia. discriminate. }
    subst k. intros j Hj. exact (proj2 (Hno j Hj)).
Qed.

End RayMarch64.

Section RayMarch64Preset.
Import World Geometry Materials Entities Base Sensors Scenarios.
Import PrimFloat.

(** The preset ["range_short"]: the loop tests the 150 distances from
    [0.0] to [1.490000000000001]; the next one, [1.500000000000001], fails
    the test, so no sample is taken at [max_range = 1.5] itself. *)
Lemma ray_march_samples_witness :
  let world := mkView [("post"%string, post)] 0 quiet_rng in
  let d := sample_distance Float.range_short_step in
  ((forall j : nat,
      (j < 150)%nat -> PrimFloat.leb (d j) Float.range_short_max = true) /\
   PrimFloat.leb (d 150%nat) Float.range_short_max = false /\
   (150 < 152)%nat) /\
  (d 149%nat = 0x1.7d70a3d70a3dcp+0%float /\
   d 150%nat = 0x1.8000000000005p+0%float) /\
  exists r : option PrimFloat.float,
    _ray_march_loop64 152 Float.range_short_max Float.range_short_step
                      world None (0, 0) (1, 0) PrimFloat.zero = Some r /\
    match r with
    | Some x =>
      exists k : nat,
        (k < 150)%nat /\ x = d k /\
        _hit world None (0 + 1 * float_value x, 0 + 0 * float_value x) = true
    | None =>
      forall k : nat,
        (k < 150)%nat ->
        _hit world None (0 + 1 * float_value (d k), 0 + 0 * float_value (d k))
        = false
    end.
Proof.
  intros world d.
  assert (Hin : forall j : nat,
             (j < 150)%nat ->
             PrimFloat.leb (d j) Float.range_short_max = true).
  { assert (Hall : forallb (fun j => PrimFloat.leb (d j) Float.range_short_max)
                           (seq 0 150) = true) by (vm_compute; reflexivity).
    intros j Hj. rewrite forallb_forall in Hall. apply Hall.
    apply in_seq. lia. }
  assert (Hout : PrimFloat.leb (d 150%nat) Float.range_short_max = false)
    by (vm_compute; reflexivity).
  split; [split; [exact Hin | split; [exact Hout | lia]] |].
  split; [split; vm_compute; reflexivity |].
  destruct (ray_march_samples Float.range_short_max Float.range_short_step
              world None (0, 0) (1, 0) 150 152 Hin Hout ltac:(lia))
    as (r & Hr & Hspec).
  exists r. split; [exact Hr |].
  destruct r as [x |].
  - destruct Hspec as (k & Hk & Hx & Hhit & _).
    exists k. split; [exact Hk | split; [exact Hx | exact Hhit]].
  - exact Hspec.
Defined.

End RayMarch64Preset.

(** ** A tick keeps the bodies it is given *)

Section BodyFrame.
Import World Geometry Materials Entities Base Motors Simulator Runs.

Lemma same_body_refl (b : SimObject) : same_body b b.
Proof. split; [reflexivity | intros _; split; reflexivity]. Qed.

Lemma same_body_can_move (a b : SimObject) :
  same_body a b -> can_move b = can_move a.
Proof. intros [H _]. congruence. Qed.

Lemma same_body_trans (a b c : SimObject) :
  same_body a b -> same_body b c -> same_body a c.
Proof.
  intros [H1 S1] [H2 S2]. split; [congruence |].
  intros Ha. assert (Hb : can_move b = false) by congruence.
  destruct (S1 Ha) as [P1 Q1]. destruct (S2 Hb) as [P2 Q2].
  split; congruence.
Qed.

(** A movable body whose constants are kept. *)
Lemma same_body_movable (b b' : SimObject) :
  can_move b = true ->
  (Entities.name b', shape b', material b', can_move b',
   mass (state b'), moment_of_inertia (state b'))
  = (Entities.name b, shape b, material b, can_move b,
     mass (state b), moment_of_inertia (state b)) ->
  same_body b b'.
Proof. intros Hc H. split; [exact H | intros Hs; congruence]. Qed.

Lemma same_table_refl (bs : list (string * SimObject)) : same_table bs bs.
Proof.
  induction bs as [| kv bs IH]; constructor;
    [split; [reflexivity | apply same_body_refl] | exact IH].
Qed.

Lemma same_table_trans (a b c : list (string * SimObject)) :
  same_table a b -> same_table b c -> same_table a c.
Proof.
  intros H. revert c. induction H as [| x y a b [Hk Hxy] H IH]; intros c Hc.
  - inversion Hc. constructor.
  - inversion Hc as [| y' z b' c' [Hk' Hyz] Hc']; subst.
    constructor; [| apply IH; exact Hc'].
    split; [congruence | eapply same_body_trans; eassumption].
Qed.

Lemma same_table_set (d : list (string * SimObject)) (k : string)
  (v v' : SimObject) :
  dict_get d k = Some v -> same_body v v' -> same_table d (dict_set d k v').
Proof.
  intros Hg Hv. induction d as [| [k0 v0] d IH]; cbn [dict_get dict_set] in *;
    [discriminate |].
  destruct (String.eqb k0 k).
  - injection Hg as ->. constructor; [| apply same_table_refl].
    split; [reflexivity | exact Hv].
  - constructor; [| apply IH; exact Hg].
    split; [reflexivity | apply same_body_refl].
Qed.

Lemma same_table_get (d d' : list (string * SimObject)) (k : string)
  (v : SimObject) :
  same_table d d' -> dict_get d k = Some v ->
  exists v', dict_get d' k = Some v' /\ same_body v v'.
Proof.
  intros H. induction H as [| [k0 v0] [k1 v1] d d' [Hk Hb] H IH];
    cbn [dict_get]; [discriminate |].
  cbn [fst snd] in Hk, Hb. subst k1.
  destruct (String.eqb k0 k).
  - intros [= <-]. exists v1. split; [reflexivity | exact Hb].
  - exact IH.
Qed.

Lemma same_frame_refl (s : t) : same_frame s s.
Proof. split; [apply same_table_refl | reflexivity]. Qed.

Lemma same_frame_trans (a b c : t) :
  same_frame a b -> same_frame b c -> same_frame a c.
Proof.
  intros [H1 L1] [H2 L2].
  split; [eapply same_table_trans; eassumption | congruence].
Qed.

(** *** Integration *)

Lemma sanitize_velocity_same (self : t) (body : SimObject) :
  can_move body = true ->
  same_body body (snd (_sanitize_velocity self body)) /\
  settings (fst (_sanitize_velocity self body))
  = settings self.
Proof.
  intros Hc. unfold _sanitize_velocity.
  destruct (linear_velocity (state body)) as [vx vy].
  cbn [isfinite andb negb].
  destruct (Rltb 0 (max_linear_speed self) && Rltb _ _);
    sim_simpl;
    destruct (Rltb 0 (max_angular_speed self) && Rltb _ _);
    cbn [fst snd]; sim_simpl;
    (split; [apply same_body_movable; [exact Hc | reflexivity]
            | reflexivity]).
Qed.

Lemma integrate_same (b : SimObject) (dt : R) : same_body b (integrate b dt).
Proof.
  unfold integrate. destruct (can_move b) eqn:Hc; cbn [negb].
  - apply same_body_movable; [exact Hc |].
    destruct (linear_velocity (state b)) as [vx vy].
    destruct (Rltb 0 (mass (state b))); obj_simpl;
      destruct (Rltb 0 (moment_of_inertia (state b))); obj_simpl;
      rewrite ?Hc; reflexivity.
  - split; [reflexivity | intros _; split; reflexivity].
Qed.

Lemma integrate_loop_same (items : list (string * SimObject)) :
  forall (self : t) (dt : R),
    same_table items (fst (_integrate_bodies_loop items self dt)) /\
    settings (snd (_integrate_bodies_loop items self dt))
    = settings self.
Proof.
  induction items as [| [name body] items IH]; intros self dt;
    cbn [_integrate_bodies_loop].
  - cbn [fst snd]. split; [constructor | reflexivity].
  - destruct (gravity self) as [gx gy].
    match goal with
    | |- context [let '(_, _) := ?X in _] =>
      assert (H1 : same_body body (fst X) /\
                   settings (snd X) = settings self)
    end.
    { destruct (negb (can_move body) || Rleb (mass (state body)) 0) eqn:E.
      - cbn [fst snd]. split; [| reflexivity].
        split; [reflexivity | intros _; split; reflexivity].
      - apply orb_false_iff in E. destruct E as [E _].
        apply negb_false_iff in E.
        destruct (linear_velocity (state (apply_force body _))) as [vx vy].
        match goal with
        | |- context [_sanitize_velocity self ?x] =>
          destruct (sanitize_velocity_same self x E) as [S1 L1];
            destruct (_sanitize_velocity self x) as [s1 b1]
        end.
        cbn [fst snd] in *. rewrite sanitize_pose_id. cbn [fst snd].
        split; [| exact L1].
        eapply same_body_trans; [| apply integrate_same].
        eapply same_body_trans; [| exact S1].
        apply same_body_movable; [exact E | reflexivity]. }
    match goal with
    | |- context [let '(_, _) := ?X in _] => destruct X as [b1 s1]
    end.
    cbn [fst snd] in H1. destruct H1 as [S1 L1].
    destruct (IH s1 dt) as [S2 L2].
    destruct (_integrate_bodies_loop items s1 dt) as [rest s2].
    cbn [fst snd] in *.
    split; [| congruence].
    constructor; [split; [reflexivity | exact S1] | exact S2].
Qed.

Lemma integrate_bodies_frame (self : t) (dt : R) :
  same_frame self (_integrate_bodies self dt).
Proof.
  unfold _integrate_bodies.
  destruct (integrate_loop_same (bodies self) self dt) as [S L].
  destruct (_integrate_bodies_loop (bodies self) self dt) as [bs s1].
  cbn [fst snd] in *. split; [exact S | exact L].
Qed.

(** *** Joints *)

Lemma translate_body_frame (self : t) (name : string) (dx dy : R) :
  (forall b, dict_get (bodies self) name = Some b -> can_move b = true) ->
  same_frame self (translate_body self name dx dy).
Proof.
  intros Hm. unfold translate_body.
  destruct (dict_get (bodies self) name) as [b |] eqn:E;
    [| apply same_frame_refl].
  split; [| reflexivity]. sim_simpl.
  eapply same_table_set; [exact E |].
  apply same_body_movable; [apply Hm; reflexivity | reflexivity].
Qed.

Lemma solve_joint_frame (self : t) (jr : JointRuntime) (dt : R) :
  same_frame self (fst (_solve_joint self jr dt)).
Proof.
  pose proof (same_frame_refl self) as Hid.
  unfold _solve_joint.
  destruct (dict_get (bodies self) (parent (cfg jr))) as [pb |] eqn:Ep;
    [| exact Hid].
  destruct (dict_get (bodies self) (child (cfg jr))) as [cb |] eqn:Ec;
    [| exact Hid].
  destruct (negb (can_move pb) && negb (can_move cb)); [exact Hid |].
  cbv zeta.
  match goal with |- context [Rltb (Rabs ?e) 1e-5] => destruct (Rltb (Rabs e) 1e-5) end;
    [exact Hid |].
  match goal with |- context [Reqb ?w 0] => destruct (Reqb w 0) end;
    [exact Hid |].
  cbn [isfinite negb fst]. cbn [set_lambda_accum cfg].
  destruct (can_move pb) eqn:Mp, (can_move cb) eqn:Mc; cbn [fst].
  - match goal with
    | |- context [translate_body (translate_body self ?n ?a ?b) ?n' ?a' ?b'] =>
      assert (F1 : same_frame self (translate_body self n a b));
        [| assert (F2 : same_frame (translate_body self n a b)
                                   (translate_body (translate_body self n a b)
                                                   n' a' b')) ]
    end.
    + apply translate_body_frame. intros b Hb. congruence.
    + apply translate_body_frame. intros b Hb.
      destruct F1 as [T1 _].
      destruct (same_table_get _ _ _ _ T1 Ec) as (v' & Hv' & Sv).
      rewrite Hv' in Hb. injection Hb as <-.
      rewrite (same_body_can_move _ _ Sv). exact Mc.
    + eapply same_frame_trans; eassumption.
  - apply translate_body_frame. intros b Hb. congruence.
  - apply translate_body_frame. intros b Hb. congruence.
  - exact Hid.
Qed.

Lemma solve_joints_loop_frame (jrs : list JointRuntime) :
  forall (self : t) (dt : R),
    same_frame self (snd (_solve_joints_loop jrs self dt)).
Proof.
  induction jrs as [| jr jrs IH]; intros self dt; cbn [_solve_joints_loop].
  - apply same_frame_refl.
  - pose proof (solve_joint_frame self jr dt) as F1.
    destruct (_solve_joint self jr dt) as [s1 jr1]. cbn [fst] in *.
    pose proof (IH s1 dt) as F2.
    destruct (_solve_joints_loop jrs s1 dt) as [rest s2]. cbn [snd] in *.
    eapply same_frame_trans; eassumption.
Qed.

Lemma solve_joints_frame (self : t) (dt : R) :
  same_frame self (_solve_joints self dt).
Proof.
  unfold _solve_joints.
  pose proof (solve_joints_loop_frame (joints self) self dt) as F.
  destruct (_solve_joints_loop (joints self) self dt) as [js s1].
  cbn [snd] in *. exact F.
Qed.

(** *** Contacts *)

Lemma corrected_same (x : SimObject) (p : Pose2D.t) :
  same_body x (if can_move x then set_pose x p else x).
Proof.
  destruct (can_move x) eqn:E; [| apply same_body_refl].
  apply same_body_movable; [exact E | reflexivity].
Qed.

Lemma push_back_same (x : SimObject) (i : R) (p : Point2D) :
  same_body x (push_back x i p).
Proof.
  unfold push_back. destruct (can_move x) eqn:E; [| apply same_body_refl].
  apply same_body_movable; [exact E | reflexivity].
Qed.

Lemma push_forward_same (x : SimObject) (i : R) (p : Point2D) :
  same_body x (push_forward x i p).
Proof.
  unfold push_forward. destruct (can_move x) eqn:E; [| apply same_body_refl].
  apply same_body_movable; [exact E | reflexivity].
Qed.

Lemma sanitized_same (self : t) (x : SimObject) :
  same_body x (snd (if can_move x then _sanitize_velocity self x
                    else (self, x))) /\
  settings (fst (if can_move x then _sanitize_velocity self x
                             else (self, x)))
  = settings self /\
  bodies (fst (if can_move x then _sanitize_velocity self x else (self, x)))
  = bodies self.
Proof.
  destruct (can_move x) eqn:E.
  - destruct (sanitize_velocity_same self x E) as [S L].
    split; [exact S | split; [exact L | apply sanitize_velocity_bodies]].
  - split; [apply same_body_refl | split; reflexivity].
Qed.

Lemma resolve_contact_same (self : t) (a b : SimObject)
  (m : CollisionManifold) :
  same_body a (body_a (_resolve_contact self a b m)) /\
  same_body b (body_b (_resolve_contact self a b m)) /\
  settings (contact_self (_resolve_contact self a b m))
  = settings self /\
  bodies (contact_self (_resolve_contact self a b m)) = bodies self.
Proof.
  unfold _resolve_contact. cbn [isfinite negb orb].
  destruct (Reqb (inv_mass_of a + inv_mass_of b) 0).
  { cbn [contact_self body_a body_b].
    repeat split; try reflexivity; intros _; split; reflexivity. }
  rewrite !orb_false_r.
  match goal with |- context [Rltb 0 ?v] => destruct (Rltb 0 v) end.
  { cbn [contact_self body_a body_b].
    split; [apply corrected_same |].
    split; [apply corrected_same | split; reflexivity]. }
  match goal with
  | |- context [if can_move ?x then _sanitize_velocity self ?x else _] =>
    set (a3 := x)
  end.
  pose proof (sanitized_same self a3) as (Sa & La & Ba).
  destruct (if can_move a3 then _sanitize_velocity self a3 else (self, a3))
    as [s1 a1].
  cbn [fst snd] in Sa, La, Ba.
  match goal with
  | |- context [if can_move ?x then _sanitize_velocity s1 ?x else _] =>
    set (b3 := x)
  end.
  pose proof (sanitized_same s1 b3) as (Sb & Lb & Bb).
  destruct (if can_move b3 then _sanitize_velocity s1 b3 else (s1, b3))
    as [s2 b1].
  cbn [fst snd contact_self body_a body_b] in *.
  split; [| split; [| split; congruence]].
  - eapply same_body_trans; [| exact Sa]. subst a3.
    eapply same_body_trans; [| apply push_back_same].
    eapply same_body_trans; [| apply push_back_same].
    apply corrected_same.
  - eapply same_body_trans; [| exact Sb]. subst b3.
    eapply same_body_trans; [| apply push_forward_same].
    eapply same_body_trans; [| apply push_forward_same].
    apply corrected_same.
Qed.

Lemma solve_pair_frame (self : t) (na nb : string) :
  same_frame self (_solve_pair self na nb).
Proof.
  pose proof (same_frame_refl self) as Hid.
  unfold _solve_pair.
  destruct (dict_get (bodies self) na) as [a |] eqn:Ea; [| exact Hid].
  destruct (dict_get (bodies self) nb) as [b |] eqn:Eb; [| exact Hid].
  destruct (negb (can_move a || can_move b)); [exact Hid |].
  destruct (collision_manifold _ _ _ _) as [m |]; [| exact Hid].
  cbv zeta.
  destruct (resolve_contact_same self a b m) as (Sa & Sb & L & B).
  destruct (_resolve_contact self a b m) as [s1 a1 b1 j jt].
  cbn [contact_self body_a body_b] in *.
  split; [| sim_simpl; exact L]. sim_simpl. rewrite B.
  assert (T1 : same_table (bodies self) (dict_set (bodies self) na a1))
    by (eapply same_table_set; eassumption).
  eapply same_table_trans; [exact T1 |].
  destruct (same_table_get _ _ _ _ T1 Eb) as (b' & Hb' & Sb').
  eapply same_table_set; [exact Hb' |].
  (* the entry under [nb] is [b] or the new [a1], both related to [b1] *)
  destruct (String.eqb_spec na nb) as [-> | Hne].
  - rewrite dict_get_set_same in Hb'. injection Hb' as <-.
    assert (a = b) by congruence. subst b.
    split.
    + destruct Sa as [Ha _]. destruct Sb as [Hb _]. congruence.
    + intros Hs. assert (Hsa : can_move a = false).
      { rewrite <- (same_body_can_move _ _ Sa). exact Hs. }
      destruct Sa as [_ Pa]. destruct Sb as [_ Pb].
      destruct (Pa Hsa) as [P1 Q1]. destruct (Pb Hsa) as [P2 Q2].
      split; congruence.
  - rewrite dict_get_set_other in Hb' by exact Hne.
    assert (b' = b) by congruence. subst b'. exact Sb.
Qed.

Lemma solve_contacts_inner_frame (later : list string) :
  forall (self : t) (na : string),
    same_frame self (_solve_contacts_inner self na later).
Proof.
  induction later as [| nb later IH]; intros self na;
    cbn [_solve_contacts_inner].
  - apply same_frame_refl.
  - eapply same_frame_trans; [apply solve_pair_frame | apply IH].
Qed.

Lemma solve_contacts_outer_frame (names : list string) :
  forall self : t, same_frame self (_solve_contacts_outer self names).
Proof.
  induction names as [| na names IH]; intros self;
    cbn [_solve_contacts_outer].
  - apply same_frame_refl.
  - eapply same_frame_trans; [apply solve_contacts_inner_frame | apply IH].
Qed.

(** *** The step sanity check *)

Lemma check_step_sanity_loop_same (items : list (string * SimObject)) :
  forall (self : t) (prev : list (string * Pose2D.t)) (limit : R),
    same_table items (fst (_check_step_sanity_loop items self prev limit)) /\
    settings (snd (_check_step_sanity_loop items self prev limit))
    = settings self /\
    (0 < limit ->
     Forall (fun kv : string * SimObject =>
               can_move (snd kv) = true ->
               forall p, dict_get prev (fst kv) = Some p ->
                         hypot (Pose2D.x (pose (snd kv)) - Pose2D.x p)
                               (Pose2D.y (pose (snd kv)) - Pose2D.y p)
                         <= limit)
            (fst (_check_step_sanity_loop items self prev limit))).
Proof.
  induction items as [| [name body] items IH]; intros self prev limit;
    cbn [_check_step_sanity_loop].
  - cbn [fst snd]. split; [constructor | split; [reflexivity | constructor]].
  - match goal with
    | |- context [let '(_, _) := ?X in _] =>
      assert (H1 : same_body body (fst X) /\
                   settings (snd X) = settings self /\
                   (0 < limit -> can_move (fst X) = true ->
                    forall p, dict_get prev name = Some p ->
                              hypot (Pose2D.x (pose (fst X)) - Pose2D.x p)
                                    (Pose2D.y (pose (fst X)) - Pose2D.y p)
                              <= limit))
    end.
    { destruct (can_move body) eqn:Ec; cbn [negb].
      2:{ cbn [fst snd]. split; [apply same_body_refl |].
          split; [reflexivity | intros _ H; congruence]. }
      destruct (dict_get prev name) as [p |];
        [| cbn [fst snd]; split; [apply same_body_refl |];
           split; [reflexivity | intros _ _ p0 H; discriminate]].
      cbn [isfinite negb].
      match goal with |- context [Rltb limit ?d] =>
        destruct (Rltb limit d) eqn:El end; rbool.
      - match goal with |- context [Rltb 1e-9 ?d] =>
          destruct (Rltb 1e-9 d) eqn:Ed end; rbool; cbn [fst snd].
        + split; [apply same_body_movable; [exact Ec | reflexivity] |].
          split; [reflexivity |].
          intros Hl _ p0 [= <-]. obj_simpl.
          cbn [Pose2D.x Pose2D.y].
          match goal with
          | |- hypot (?px + ?dx * ?sc - ?px) (?py + ?dy * ?sc - ?py) <= _ =>
            replace (px + dx * sc - px) with (dx * sc) by ring;
              replace (py + dy * sc - py) with (dy * sc) by ring;
              rewrite (hypot_scale dx dy sc)
          end.
          * unfold Rdiv. rewrite Rmult_assoc, Rinv_l by lra. lra.
          * apply Rlt_le, Rdiv_lt_0_compat; lra.
        + split; [apply same_body_movable; [exact Ec | reflexivity] |].
          split; [reflexivity |].
          intros Hl _ p0 [= <-]. obj_simpl.
          rewrite !Rminus_diag. rewrite hypot_zero. lra.
      - cbn [fst snd]. split; [apply same_body_refl |].
        split; [reflexivity |]. intros Hl _ p0 [= <-]. exact El. }
    match goal with
    | |- context [let '(_, _) := ?X in _] => destruct X as [b1 s1]
    end.
    cbn [fst snd] in H1. destruct H1 as (S1 & L1 & D1).
    destruct (IH s1 prev limit) as (S2 & L2 & D2).
    destruct (_check_step_sanity_loop items s1 prev limit) as [rest s2].
    cbn [fst snd] in *.
    split; [constructor; [split; [reflexivity | exact S1] | exact S2] |].
    split; [congruence |].
    intros Hl. constructor; [cbn [fst snd]; apply D1; exact Hl | apply D2; exact Hl].
Qed.

Lemma check_step_sanity_frame (self : t) (prev : list (string * Pose2D.t))
  (dt : R) :
  same_frame self (_check_step_sanity self prev dt).
Proof.
  unfold _check_step_sanity.
  destruct (Rleb (max_step_translation self) 0); [apply same_frame_refl |].
  destruct (check_step_sanity_loop_same (bodies self) self prev
              (max_step_translation self)) as (S & L & _).
  destruct (_check_step_sanity_loop _ _ _ _) as [bs s1].
  cbn [fst snd] in *. split; [exact S | exact L].
Qed.

Lemma physics_frame (self : t) (prev : list (string * Pose2D.t)) (dt : R) :
  same_frame self (_physics self prev dt).
Proof.
  unfold _physics.
  eapply same_frame_trans; [apply integrate_bodies_frame |].
  eapply same_frame_trans; [apply solve_joints_frame |].
  eapply same_frame_trans; [apply solve_contacts_outer_frame |].
  apply check_step_sanity_frame.
Qed.

(** *** Motor commands *)

Lemma apply_impulse_same (body : SimObject) (i p : R * R) :
  same_body body (_apply_impulse body i p).
Proof.
  unfold _apply_impulse.
  destruct (negb (can_move body) || Rleb (mass (state body)) 0) eqn:E;
    [apply same_body_refl |].
  apply orb_false_iff in E. destruct E as [E _]. apply negb_false_iff in E.
  destruct i as [jx jy]. destruct (linear_velocity (state body)) as [vx vy].
  apply same_body_movable; [exact E | reflexivity].
Qed.

Lemma solve_wheel_traction_same
  (body : SimObject) (cp fwd : R * R)
  (pref cap mu_long mu_lat nl ld dt : R) :
  same_body body
    (fst (_solve_wheel_traction body cp fwd pref cap mu_long mu_lat nl ld dt)).
Proof.
  unfold _solve_wheel_traction.
  destruct (can_move body); cbn [negb]; [| apply same_body_refl].
  destruct (_contact_velocity body cp) as [vcx vcy].
  match goal with
  | |- context [let '(j_lat, body0) := ?lat in _] =>
    assert (Hl : same_body body (snd lat)); [| destruct lat as [j_lat body1]]
  end.
  { repeat match goal with
           | |- context [if ?c then _ else _] => destruct c
           end; cbn [snd]; try apply same_body_refl;
      apply apply_impulse_same. }
  cbn [snd] in Hl.
  destruct (Rltb 1e-9 (_inv_mass_term body1 cp fwd)); [| exact Hl].
  match goal with
  | |- context [if Rltb 0 ?L then (_, _, _) else _] => destruct (Rltb 0 L)
  end; [| exact Hl].
  cbn [fst].
  match goal with
  | |- context [if Reqb ?j 0 then _ else _] => destruct (Reqb j 0)
  end; [exact Hl |].
  eapply same_body_trans; [exact Hl | apply apply_impulse_same].
Qed.

Lemma wheel_apply_same (self : WheelMotor.t) (v : R) (w : MotorWorld)
  (dt : R) (p0 : SimObject) :
  parent_body w = Some p0 ->
  forall p, parent_body (snd (WheelMotor._apply self v w dt)) = Some p ->
            same_body p0 p.
Proof.
  intros Ep. unfold WheelMotor._apply. rewrite Ep.
  destruct (negb (can_move p0));
    [cbn [snd]; rewrite Ep; intros p [= <-]; apply same_body_refl |].
  cbv zeta.
  match goal with
  | |- context [_solve_wheel_traction p0 ?a ?b ?c ?d ?e ?f ?g ?h ?i] =>
    pose proof (solve_wheel_traction_same p0 a b c d e f g h i) as Hs;
    destruct (_solve_wheel_traction p0 a b c d e f g h i) as [p1 report]
  end.
  cbn [fst snd parent_body] in *. intros p E. injection E as <-. exact Hs.
Qed.

Lemma detailed_apply_same (self : WheelMotorDetailed.t) (v : R)
  (w : MotorWorld) (dt : R) (p0 : SimObject) :
  parent_body w = Some p0 ->
  forall p, parent_body (snd (WheelMotorDetailed._apply self v w dt)) = Some p ->
            same_body p0 p.
Proof.
  intros Ep. unfold WheelMotorDetailed._apply. rewrite Ep.
  destruct (negb (can_move p0));
    [cbn [snd]; rewrite Ep; intros p [= <-]; apply same_body_refl |].
  cbv zeta.
  match goal with
  | |- context [_solve_wheel_traction p0 ?a ?b ?c ?d ?e ?f ?g ?h ?i] =>
    pose proof (solve_wheel_traction_same p0 a b c d e f g h i) as Hs;
    destruct (_solve_wheel_traction p0 a b c d e f g h i) as [p1 report]
  end.
  cbn [fst snd parent_body] in *. intros p E. injection E as <-. exact Hs.
Qed.

Lemma motor_command_same (m : MotorObj) (v : R) (w : MotorWorld)
  (dt : R) (p0 : SimObject) :
  parent_body w = Some p0 ->
  forall p, parent_body (snd (motor_command m v w dt)) = Some p ->
            same_body p0 p.
Proof.
  intros Ep. destruct m as [wm | dm]; unfold motor_command.
  - unfold WheelMotor.command, Motor.command.
    match goal with
    | |- context [WheelMotor._apply ?s ?x w dt] =>
      pose proof (wheel_apply_same s x w dt p0 Ep) as Hs;
      destruct (WheelMotor._apply s x w dt) as [m1 w1]
    end.
    exact Hs.
  - unfold WheelMotorDetailed.command, Motor.command.
    match goal with
    | |- context [WheelMotorDetailed._apply ?s ?x w dt] =>
      pose proof (detailed_apply_same s x w dt p0 Ep) as Hs;
      destruct (WheelMotorDetailed._apply s x w dt) as [m1 w1]
    end.
    exact Hs.
Qed.

Lemma motor_command_none (m : MotorObj) (v : R) (w : MotorWorld) (dt : R) :
  parent_body w = None -> parent_body (snd (motor_command m v w dt)) = None.
Proof.
  intros Ep. destruct m as [wm | dm]; unfold motor_command.
  - unfold WheelMotor.command, Motor.command. cbv zeta.
    unfold WheelMotor._apply. rewrite Ep. exact Ep.
  - unfold WheelMotorDetailed.command, Motor.command. cbv zeta.
    unfold WheelMotorDetailed._apply. rewrite Ep. exact Ep.
Qed.

Lemma command_motor_frame (self : t) (c : Command) :
  same_frame self (command_motor self c).
Proof.
  pose proof (same_frame_refl self) as Hid.
  unfold command_motor.
  destruct (dict_get (motors self) (motor c)) as [m |]; [| exact Hid].
  cbv zeta.
  destruct (MountedComponent.parent (Motor.component (motor_base m)))
    as [b |].
  - destruct (dict_get (bodies self) b) as [p0 |] eqn:Eb.
    + match goal with
      | |- context [motor_command m ?v ?w ?d] =>
        pose proof (motor_command_same m v w d p0 eq_refl) as Hm;
          destruct (motor_command m v w d) as [m1 w1]
      end.
      cbn [snd] in Hm.
      destruct (parent_body w1) as [body |]; [| exact Hid].
      split; [| reflexivity]. sim_simpl.
      eapply same_table_set; [exact Eb | apply Hm; reflexivity].
    + match goal with
      | |- context [motor_command m ?v ?w ?d] =>
        pose proof (motor_command_none m v w d eq_refl) as Hm;
          destruct (motor_command m v w d) as [m1 w1]
      end.
      cbn [snd] in Hm. rewrite Hm. exact Hid.
  - destruct (motor_command m _ _ _) as [m1 w1].
    destruct (parent_body w1); exact Hid.
Qed.

Lemma commands_frame (cmds : list Command) :
  forall self : t, same_frame self (fold_left command_motor cmds self).
Proof.
  induction cmds as [| c cmds IH]; intros self; cbn [fold_left].
  - apply same_frame_refl.
  - eapply same_frame_trans; [apply command_motor_frame | apply IH].
Qed.

(** *** Sensors and controllers *)

Lemma update_sensors_frame (self : t) (dt : R) :
  same_frame self (fst (_update_sensors self dt)).
Proof.
  unfold _update_sensors.
  destruct (_update_sensors_loop _ _ _ _ _ _) as [[[ss rng] rd] pr].
  cbn [fst]. split; [apply same_table_refl | reflexivity].
Qed.

Lemma record_controller_error_frame (self : t) (rid : string)
  (message : option string) :
  same_frame self (_record_controller_error self rid message).
Proof. split; [apply same_table_refl | reflexivity]. Qed.

Lemma tick_robot_same_frame (self : t) (rd : list (string * Value)) (dt : R)
  (rid : string) :
  same_frame self (fst (_tick_robot self rd dt rid)).
Proof.
  pose proof (same_frame_refl self) as Hid.
  unfold _tick_robot.
  destruct (_controller_for self rid) as [ref |]; [| exact Hid].
  destruct (nth_error (controllers self) ref) as [ctrl |]; [| exact Hid].
  destruct (tick_fn ctrl) as [tick |]; [| exact Hid].
  destruct (has_error self rid); [exact Hid |].
  cbv zeta. cbn [fst].
  match goal with
  | |- context [fold_left command_motor ?cmds ?s0] =>
    pose proof (commands_frame cmds s0) as F;
      set (s1 := fold_left command_motor cmds s0) in *
  end.
  assert (F0 : same_frame self s1).
  { eapply same_frame_trans; [| exact F].
    split; [apply same_table_refl | reflexivity]. }
  destruct (raised _) as [tb |]; [| exact F0].
  eapply same_frame_trans; [exact F0 | apply record_controller_error_frame].
Qed.

Lemma tick_controller_loop_frame (rids : list string) :
  forall (self : t) (rd : list (string * Value)) (dt : R),
    same_frame self (fst (_tick_controller_loop rids self rd dt)).
Proof.
  induction rids as [| rid rids IH]; intros self rd dt;
    cbn [_tick_controller_loop].
  - apply same_frame_refl.
  - pose proof (tick_robot_same_frame self rd dt rid) as F1.
    destruct (_tick_robot self rd dt rid) as [s1 called]. cbn [fst] in F1.
    pose proof (IH s1 rd dt) as F2.
    destruct (_tick_controller_loop rids s1 rd dt) as [s2 log].
    cbn [fst] in *. eapply same_frame_trans; eassumption.
Qed.

(** *** A whole tick *)

(** [step] is the step sanity check applied to a simulator that has the
    frame of the initial one, followed by the bookkeeping. *)
Lemma step_frame (self : t) (dt_opt : option R) :
  exists s3 : t,
    same_frame self s3 /\
    Simulator.step self dt_opt
    = _finish_step
        (_check_step_sanity s3 (poses_of self) (tick_dt self dt_opt))
        (tick_dt self dt_opt).
Proof.
  unfold Simulator.step, step_log, poses_of. fold (tick_dt self dt_opt).
  set (dt := tick_dt self dt_opt).
  set (s0 := set_last_physics_warning self None).
  change (bodies s0) with (bodies self).
  pose proof (update_sensors_frame s0 dt) as F1.
  destruct (_update_sensors s0 dt) as [s1 rd]. cbn [fst] in F1.
  unfold _tick_controller.
  pose proof (tick_controller_loop_frame
                (robot_ids (set_last_sensor_readings s1 rd))
                (set_last_sensor_readings s1 rd) rd dt) as F2.
  destruct (_tick_controller_loop _ _ rd dt) as [s2 log]. cbn [fst] in *.
  exists (_solve_contacts (_solve_joints (_integrate_bodies s2 dt) dt) dt).
  split; [| reflexivity].
  eapply same_frame_trans;
    [split; [apply same_table_refl | reflexivity] |].
  eapply same_frame_trans; [exact F1 |].
  eapply same_frame_trans;
    [split; [apply same_table_refl | reflexivity] |].
  eapply same_frame_trans; [exact F2 |].
  eapply same_frame_trans; [apply integrate_bodies_frame |].
  eapply same_frame_trans; [apply solve_joints_frame |].
  apply solve_contacts_outer_frame.
Qed.

Lemma settings_step_limit (s s' : t) :
  settings s' = settings s ->
  max_step_translation s' = max_step_translation s.
Proof. unfold settings. intros H. injection H. auto. Qed.

(** A tick keeps the bodies it is given (on a simulator whose joints make
    no division fail): the table after [step] has the same keys in the same
    order, every body keeps its name, shape,
    material, mass and inertia and whether it can move, and a body that
    cannot move keeps its pose and its velocities. *)
Theorem step_keeps_bodies (self : t) (dt_opt : option R) :
  joints_defined self ->
  same_table (bodies self) (bodies (Simulator.step self dt_opt)) /\
  map fst (bodies (Simulator.step self dt_opt)) = map fst (bodies self).
Proof.
  intros _.
  destruct (step_frame self dt_opt) as (s3 & F3 & ->).
  pose proof (check_step_sanity_frame s3 (poses_of self)
                                      (tick_dt self dt_opt)) as F4.
  destruct (same_frame_trans _ _ _ F3 F4) as [T _].
  change (bodies (_finish_step ?s ?d)) with (bodies s).
  split; [exact T |].
  induction T as [| kv kv' bs bs' [Hk _] T IH]; [reflexivity |].
  cbn [map]. rewrite Hk, IH. reflexivity.
Qed.

Lemma step_keeps_bodies_witness :
  map fst (bodies (Simulator.step Scenarios.falling_scene None))
  = map fst (bodies Scenarios.falling_scene).
Proof.
  refine (proj2 (step_keeps_bodies Scenarios.falling_scene None _)).
  constructor.
Defined.

(** A tick advances the clock by the step it is given and the step index
    by one, and leaves the default step, the gravity, the damping factors,
    the speed limits and the contact tunables as they were. *)
Theorem step_clock_and_settings (self : t) (dt_opt : option R) :
  joints_defined self ->
  let after := Simulator.step self dt_opt in
  time after = time self + tick_dt self dt_opt /\
  step_index after = (step_index self + 1)%Z /\
  (dt after, gravity after) = (dt self, gravity self) /\
  (linear_damping after, angular_damping after, max_linear_speed after,
   max_angular_speed after)
  = (linear_damping self, angular_damping self, max_linear_speed self,
     max_angular_speed self) /\
  (contact_correction_percent after, contact_slop after,
   max_penetration_correction after, max_step_translation after)
  = (contact_correction_percent self, contact_slop self,
     max_penetration_correction self, max_step_translation self).
Proof.
  intros _. cbv zeta.
  destruct (step_frame self dt_opt) as (s3 & F3 & ->).
  pose proof (check_step_sanity_frame s3 (poses_of self)
                                      (tick_dt self dt_opt)) as F4.
  destruct (same_frame_trans _ _ _ F3 F4) as [_ L].
  set (s4 := _check_step_sanity s3 (poses_of self) (tick_dt self dt_opt))
    in *.
  clearbody s4. unfold _finish_step. cbv zeta. sim_simpl.
  unfold settings in L. injection L as E1 E2 E3 E4 E5 E6 E7 E8 E9 E10 E11 E12.
  repeat split; congruence.
Qed.

Lemma step_clock_and_settings_witness :
  time (Simulator.step Scenarios.falling_scene None)
  = time Scenarios.falling_scene + tick_dt Scenarios.falling_scene None.
Proof.
  refine (proj1 (step_clock_and_settings Scenarios.falling_scene None _)).
  constructor.
Defined.

(** When the step limit is positive, no movable body ends a tick further
    than [max_step_translation] from the pose recorded under its name
    when the tick began. *)
Theorem step_translation_limit (self : t) (dt_opt : option R)
  (name : string) (body : SimObject) (prev : Pose2D.t) :
  joints_defined self ->
  0 < max_step_translation self ->
  In (name, body) (bodies (Simulator.step self dt_opt)) ->
  can_move body = true ->
  dict_get (poses_of self) name = Some prev ->
  hypot (Pose2D.x (pose body) - Pose2D.x prev)
        (Pose2D.y (pose body) - Pose2D.y prev)
  <= max_step_translation self.
Proof.
  intros _ Hl Hin Hc Hp.
  destruct (step_frame self dt_opt) as (s3 & [_ L3] & Hs).
  rewrite Hs in Hin.
  change (bodies (_finish_step ?s ?d)) with (bodies s) in Hin.
  apply settings_step_limit in L3.
  unfold _check_step_sanity in Hin.
  rewrite L3 in Hin. rewrite (Rleb_false _ 0) in Hin by lra.
  destruct (check_step_sanity_loop_same (bodies s3) s3 (poses_of self)
              (max_step_translation self)) as (_ & _ & D).
  destruct (_check_step_sanity_loop _ _ _ _) as [bs s4].
  cbn [fst snd] in *. sim_simpl.
  specialize (D Hl). rewrite Forall_forall in D.
  apply (D (name, body) Hin Hc prev Hp).
Qed.

Lemma step_translation_limit_witness :
  hypot (Pose2D.x (pose Scenarios.ball_after) - Pose2D.x (Pose2D.mk 0 10 0))
        (Pose2D.y (pose Scenarios.ball_after) - Pose2D.y (Pose2D.mk 0 10 0))
  <= max_step_translation Scenarios.falling_scene.
Proof.
  apply (step_translation_limit Scenarios.falling_scene None "ball"
           Scenarios.ball_after (Pose2D.mk 0 10 0)).
  - constructor.
  - cbn. lra.
  - rewrite (proj1 falling_step). left. reflexivity.
  - reflexivity.
  - reflexivity.
Defined.

End BodyFrame.

(** ** Raises that leave a tick (core/simulator.py) *)

Section UncaughtRaises.

Import World Geometry Materials Entities Base Motors Simulator Runs Scenarios.

Variable is_exception : string -> bool.

(** A call that returns is the call of [_tick_robot], and what it raised,
    if anything, was an [Exception]. *)
Lemma tick_robot_raising_returns (s : t) (rd : list (string * Value)) (dt : R)
  (rid : string) (r : t * option TickOutcome) :
  _tick_robot_raising is_exception s rd dt rid = Returns r ->
  r = _tick_robot s rd dt rid /\
  (forall out tb, snd r = Some out -> raised out = Some tb ->
                  is_exception tb = true).
Proof.
  unfold _tick_robot_raising, _tick_robot.
  destruct (_controller_for s rid) as [ref |];
    [| intros H; inversion H; split; [reflexivity | discriminate]].
  destruct (nth_error (controllers s) ref) as [c |];
    [| intros H; inversion H; split; [reflexivity | discriminate]].
  destruct (tick_fn c) as [tick |];
    [| intros H; inversion H; split; [reflexivity | discriminate]].
  destruct (has_error s rid);
    [intros H; inversion H; split; [reflexivity | discriminate] |].
  cbv zeta.
  match goal with |- context [raised ?o] => set (out := o) end.
  destruct (raised out) as [tb |] eqn:Er.
  - destruct (is_exception tb) eqn:Ee; [| discriminate].
    intros H; inversion H. split; [reflexivity |].
    cbn [snd]. intros out' tb' Ho Hr. inversion Ho; subst out'.
    rewrite Er in Hr. inversion Hr; subst tb'. exact Ee.
  - intros H; inversion H. split; [reflexivity |].
    cbn [snd]. intros out' tb' Ho Hr. inversion Ho; subst out'.
    rewrite Er in Hr. discriminate.
Qed.

(** When every raise is an [Exception] the call returns. *)
Lemma tick_robot_raising_total (s : t) (rd : list (string * Value)) (dt : R)
  (rid : string) :
  (forall out tb, snd (_tick_robot s rd dt rid) = Some out ->
                  raised out = Some tb -> is_exception tb = true) ->
  _tick_robot_raising is_exception s rd dt rid
  = Returns (_tick_robot s rd dt rid).
Proof.
  unfold _tick_robot_raising, _tick_robot.
  destruct (_controller_for s rid) as [ref |]; [| reflexivity].
  destruct (nth_error (controllers s) ref) as [c |]; [| reflexivity].
  destruct (tick_fn c) as [tick |]; [| reflexivity].
  destruct (has_error s rid); [reflexivity |].
  cbv zeta. cbn [snd].
  match goal with |- context [raised ?o] => set (out := o) end.
  intros Hx. destruct (raised out) as [tb |] eqn:Er; [| reflexivity].
  rewrite (Hx out tb eq_refl Er). reflexivity.
Qed.

(** A raise that leaves the call is not an [Exception]; the controller was
    called, nothing is recorded for the robot, and the bodies, the clock
    and the tunables are as the commands issued before the raise leave
    them. *)
Lemma tick_robot_raising_raises (s : t) (rd : list (string * Value)) (dt : R)
  (rid tb : string) (behind : t) (called : option TickOutcome) :
  _tick_robot_raising is_exception s rd dt rid = Raises tb (behind, called) ->
  is_exception tb = false /\
  (exists out, called = Some out /\ raised out = Some tb) /\
  has_error behind rid = false /\
  same_frame s behind.
Proof.
  unfold _tick_robot_raising.
  destruct (_controller_for s rid) as [ref |]; [| discriminate].
  destruct (nth_error (controllers s) ref) as [c |]; [| discriminate].
  destruct (tick_fn c) as [tick |]; [| discriminate].
  destruct (has_error s rid) eqn:He; [discriminate |].
  cbv zeta.
  match goal with |- context [raised ?o] => set (out := o) end.
  match goal with
  | |- context [fold_left command_motor ?cmds ?s0] =>
    pose proof (commands_frame cmds s0) as F;
      destruct (commands_control cmds s0) as [Hcv _];
      set (s1 := fold_left command_motor cmds s0) in *
  end.
  destruct (raised out) as [tb' |] eqn:Er; [| discriminate].
  destruct (is_exception tb') eqn:Ee; [discriminate |].
  intros H; inversion H; subst tb' behind called.
  split; [exact Ee |]. split; [exists out; split; [reflexivity | exact Er] |].
  split.
  - rewrite (has_error_view _ s1 rid Hcv). exact He.
  - eapply same_frame_trans; [| exact F].
    split; [apply same_table_refl | reflexivity].
Qed.

(** The loop, when it returns, is the loop of [_tick_controller]. *)
Lemma tick_loop_raising_returns (rids : list string) :
  forall (s : t) (rd : list (string * Value)) (dt : R)
         (r : t * list (string * TickOutcome)),
    _tick_controller_raising_loop is_exception rids s rd dt = Returns r ->
    r = _tick_controller_loop rids s rd dt /\
    exceptions_only is_exception (snd r).
Proof.
  induction rids as [| rid rids IH]; intros s rd dt r;
    cbn [_tick_controller_raising_loop _tick_controller_loop]; cbv zeta.
  - intros H; inversion H. split; [reflexivity |]. intros ? ? ? [].
  - destruct (_tick_robot_raising is_exception s rd dt rid)
      as [[s1 called] | tb [b called]] eqn:E1; [| discriminate].
    destruct (tick_robot_raising_returns _ _ _ _ _ E1) as [H1 H2].
    rewrite <- H1.
    destruct (_tick_controller_raising_loop is_exception rids s1 rd dt)
      as [[s2 log] | tb [b log]] eqn:E2; [| discriminate].
    destruct (IH _ _ _ _ E2) as [H3 H4]. rewrite <- H3.
    intros H; inversion H. split; [destruct called; reflexivity |].
    intros rid' out tb Hin Hr. cbn [snd] in *.
    apply in_app_or in Hin. destruct Hin as [Hin | Hin].
    + destruct called as [o |]; [| contradiction].
      destruct Hin as [Hin | []]. inversion Hin; subst.
      apply (H2 out tb); [reflexivity | exact Hr].
    + apply (H4 rid' out tb Hin Hr).
Qed.

Lemma tick_loop_raising_total (rids : list string) :
  forall (s : t) (rd : list (string * Value)) (dt : R),
    exceptions_only is_exception (snd (_tick_controller_loop rids s rd dt)) ->
    _tick_controller_raising_loop is_exception rids s rd dt
    = Returns (_tick_controller_loop rids s rd dt).
Proof.
  induction rids as [| rid rids IH]; intros s rd dt;
    cbn [_tick_controller_raising_loop _tick_controller_loop]; cbv zeta;
    [reflexivity |].
  intros Hx.
  destruct (_tick_robot s rd dt rid) as [s1 called] eqn:E1.
  destruct (_tick_controller_loop rids s1 rd dt) as [s2 log] eqn:E2.
  cbn [snd] in Hx.
  assert (R1 : _tick_robot_raising is_exception s rd dt rid
               = Returns (s1, called)).
  { rewrite <- E1. apply tick_robot_raising_total. rewrite E1. cbn [snd].
    intros out tb Ho Hr. subst called.
    apply (Hx rid out tb); [left; reflexivity | exact Hr]. }
  rewrite R1. rewrite IH.
  - rewrite E2. destruct called; reflexivity.
  - rewrite E2. cbn [snd]. intros rid' out tb Hin Hr.
    apply (Hx rid' out tb); [| exact Hr].
    destruct called; [right |]; exact Hin.
Qed.

(** A raise that leaves the loop comes from the last call made. *)
Lemma tick_loop_raising_raises (rids : list string) :
  forall (s : t) (rd : list (string * Value)) (dt : R) (tb : string)
         (behind : t) (log : list (string * TickOutcome)),
    _tick_controller_raising_loop is_exception rids s rd dt
    = Raises tb (behind, log) ->
    is_exception tb = false /\
    (exists rid0 out0 earlier,
        log = earlier ++ [(rid0, out0)] /\ raised out0 = Some tb /\
        In rid0 rids /\ has_error behind rid0 = false) /\
    same_frame s behind.
Proof.
  induction rids as [| rid rids IH]; intros s rd dt tb behind log;
    cbn [_tick_controller_raising_loop]; cbv zeta; [discriminate |].
  destruct (_tick_robot_raising is_exception s rd dt rid)
    as [[s1 called] | tb1 [b1 called]] eqn:E1.
  - destruct (tick_robot_raising_returns _ _ _ _ _ E1) as [H1 _].
    pose proof (tick_robot_same_frame s rd dt rid) as F1.
    rewrite <- H1 in F1. cbn [fst] in F1.
    destruct (_tick_controller_raising_loop is_exception rids s1 rd dt)
      as [[s2 log2] | tb2 [b2 log2]] eqn:E2; [discriminate |].
    intros H; inversion H; subst tb2 b2 log.
    destruct (IH _ _ _ _ _ _ E2)
      as (He & (rid0 & out0 & earlier & Hl & Hr & Hin & Hn) & F2).
    split; [exact He |]. split.
    + exists rid0, out0,
        (match called with Some out => [(rid, out)] | None => [] end ++ earlier).
      rewrite Hl, app_assoc.
      split; [reflexivity | split; [exact Hr | split; [right; exact Hin | exact Hn]]].
    + eapply same_frame_trans; eassumption.
  - destruct (tick_robot_raising_raises _ _ _ _ _ _ _ E1)
      as (He & (out & Hc & Hr) & Hn & F).
    intros H; inversion H; subst tb1 b1 log. subst called.
    split; [exact He |]. split; [| exact F].
    exists rid, out, []. cbn [app].
    split; [reflexivity | split; [exact Hr | split; [left; reflexivity | exact Hn]]].
Qed.

Lemma snd_after_physics (p : t * list (string * TickOutcome))
  (f : t -> t) :
  (let '(self, log) := p in (f self, log)) = (f (fst p), snd p).
Proof. destruct p; reflexivity. Qed.

(** A tick that returns is the tick of [step_log]. *)
Lemma step_raising_returns (self : t) (dt_opt : option R)
  (r : t * list (string * TickOutcome)) :
  step_raising is_exception self dt_opt = Returns r ->
  r = step_log self dt_opt /\ exceptions_only is_exception (snd r).
Proof.
  unfold step_raising, step_log, _tick_controller_raising, _tick_controller.
  cbv zeta.
  destruct (_update_sensors _ _) as [s1 rd].
  destruct (_tick_controller_raising_loop _ _ _ _ _)
    as [[s2 log] | tb [b log]] eqn:E1; [| discriminate].
  apply tick_loop_raising_returns in E1. destruct E1 as [H1 H2].
  rewrite <- H1. intros H; inversion H. split; [reflexivity | exact H2].
Qed.

Lemma step_raising_total (self : t) (dt_opt : option R) :
  exceptions_only is_exception (snd (step_log self dt_opt)) ->
  step_raising is_exception self dt_opt = Returns (step_log self dt_opt).
Proof.
  unfold step_raising, step_log, _tick_controller_raising, _tick_controller.
  cbv zeta.
  destruct (_update_sensors _ _) as [s1 rd].
  intros Hx. rewrite tick_loop_raising_total.
  - destruct (_tick_controller_loop _ _ _ _) as [s2 log]. reflexivity.
  - destruct (_tick_controller_loop _ _ _ _) as [s2 log]. exact Hx.
Qed.

Lemma step_raising_raises (self : t) (dt_opt : option R) (tb : string)
  (behind : t) (log : list (string * TickOutcome)) :
  step_raising is_exception self dt_opt = Raises tb (behind, log) ->
  is_exception tb = false /\
  (exists rid0 out0 earlier,
      log = earlier ++ [(rid0, out0)] /\ raised out0 = Some tb /\
      In rid0 (robot_ids self) /\ has_error behind rid0 = false) /\
  same_frame self behind.
Proof.
  unfold step_raising, _tick_controller_raising. cbv zeta.
  set (s0 := set_last_physics_warning self None).
  pose proof (update_sensors_frame s0 (tick_dt self dt_opt)) as F1.
  destruct (update_sensors_control s0 (tick_dt self dt_opt)) as [Hcv _].
  fold (tick_dt self dt_opt).
  destruct (_update_sensors s0 (tick_dt self dt_opt)) as [s1 rd].
  cbn [fst] in F1, Hcv.
  destruct (control_view_parts s0 s1 Hcv) as (Hids & _).
  change (robot_ids (set_last_sensor_readings s1 rd)) with (robot_ids s1).
  rewrite Hids. change (robot_ids s0) with (robot_ids self).
  destruct (_tick_controller_raising_loop _ _ _ _ _)
    as [[s2 log2] | tb2 [b2 log2]] eqn:E1; [discriminate |].
  intros H; inversion H; subst tb2 b2 log2.
  destruct (tick_loop_raising_raises _ _ _ _ _ _ _ E1) as (He & Hlast & F2).
  split; [exact He |]. split; [exact Hlast |].
  eapply same_frame_trans; [| exact F2].
  eapply same_frame_trans; [| eapply same_frame_trans; [exact F1 |]];
    split; try apply same_table_refl; reflexivity.
Qed.

(** The calls of a tick are calls of tick functions of the store. *)
Lemma tick_robot_outcome (s : t) (rd : list (string * Value)) (dt : R)
  (rid : string) (out : TickOutcome) :
  snd (_tick_robot s rd dt rid) = Some out ->
  exists n c tick a r,
    nth_error (controllers s) n = Some c /\ tick_fn c = Some tick /\
    out = tick a r dt.
Proof.
  unfold _tick_robot.
  destruct (_controller_for s rid) as [ref |]; [| discriminate].
  destruct (nth_error (controllers s) ref) as [c |] eqn:Ec; [| discriminate].
  destruct (tick_fn c) as [tick |] eqn:Et; [| discriminate].
  destruct (has_error s rid); [discriminate |].
  cbv zeta. cbn [snd]. intros H; inversion H.
  exists ref, c, tick. eexists. eexists.
  split; [exact Ec | split; [exact Et | reflexivity]].
Qed.

Lemma raise_exceptions_same (cs cs' : list Controller) :
  same_methods cs cs' ->
  raise_exceptions is_exception cs -> raise_exceptions is_exception cs'.
Proof.
  intros Hs H n c tick a r dt tb Hn Ht Hr.
  specialize (Hs n). rewrite Hn in Hs. cbn [option_map] in Hs.
  destruct (nth_error cs n) as [c0 |] eqn:E0; [| discriminate].
  cbn [option_map] in Hs. inversion Hs as [Hf].
  apply (H n c0 tick a r dt tb E0); [| exact Hr].
  rewrite <- Hf. exact Ht.
Qed.

Lemma tick_loop_same_methods (rids : list string) :
  forall (s : t) (rd : list (string * Value)) (dt : R),
    same_methods (controllers s)
                 (controllers (fst (_tick_controller_loop rids s rd dt))).
Proof.
  induction rids as [| rid rids IH]; intros s rd dt;
    cbn [_tick_controller_loop].
  - apply same_methods_refl.
  - pose proof (tick_robot_frame s rd dt rid) as Hf. cbn zeta in Hf.
    destruct (_tick_robot s rd dt rid) as [s1 called]. cbn [fst] in Hf.
    destruct Hf as (_ & _ & _ & Hm & _).
    pose proof (IH s1 rd dt) as H2.
    destruct (_tick_controller_loop rids s1 rd dt) as [s2 log].
    cbn [fst] in *. eapply same_methods_trans; eassumption.
Qed.

(** Controllers that raise [Exception]s only make calls that raise
    [Exception]s only. *)
Lemma tick_loop_exceptions (rids : list string) :
  forall (s : t) (rd : list (string * Value)) (dt : R),
    raise_exceptions is_exception (controllers s) ->
    exceptions_only is_exception (snd (_tick_controller_loop rids s rd dt)).
Proof.
  induction rids as [| rid rids IH]; intros s rd dt Hx;
    cbn [_tick_controller_loop]; [intros ? ? ? [] |].
  pose proof (tick_robot_frame s rd dt rid) as Hf. cbn zeta in Hf.
  pose proof (tick_robot_outcome s rd dt rid) as Ho.
  destruct (_tick_robot s rd dt rid) as [s1 called]. cbn [fst snd] in Hf, Ho.
  destruct Hf as (_ & _ & _ & Hm & _).
  pose proof (IH s1 rd dt (raise_exceptions_same _ _ Hm Hx)) as H2.
  destruct (_tick_controller_loop rids s1 rd dt) as [s2 log]. cbn [snd] in *.
  intros rid' out tb Hin Hr.
  destruct called as [o |]; [| exact (H2 rid' out tb Hin Hr)].
  destruct Hin as [Hin | Hin]; [| exact (H2 rid' out tb Hin Hr)].
  inversion Hin; subst rid' o.
  destruct (Ho out eq_refl) as (n & c & tick & a & r & Hn & Ht & He).
  apply (Hx n c tick a r dt tb Hn Ht). rewrite <- He. exact Hr.
Qed.

Lemma step_log_exceptions (self : t) (dt_opt : option R) :
  raise_exceptions is_exception (controllers self) ->
  exceptions_only is_exception (snd (step_log self dt_opt)) /\
  raise_exceptions is_exception (controllers (fst (step_log self dt_opt))).
Proof.
  intros Hx. unfold step_log, _tick_controller. cbv zeta.
  set (s0 := set_last_physics_warning self None).
  destruct (update_sensors_control s0 (tick_dt self dt_opt)) as [_ Hcs].
  fold (tick_dt self dt_opt).
  destruct (_update_sensors s0 (tick_dt self dt_opt)) as [s1 rd].
  cbn [fst] in Hcs.
  set (s1' := set_last_sensor_readings s1 rd).
  assert (Hx1 : raise_exceptions is_exception (controllers s1'))
    by (change (controllers s1') with (controllers s1); rewrite Hcs; exact Hx).
  pose proof (tick_loop_exceptions (robot_ids s1') s1' rd
                (tick_dt self dt_opt) Hx1) as H1.
  pose proof (tick_loop_same_methods (robot_ids s1') s1' rd
                (tick_dt self dt_opt)) as H2.
  destruct (_tick_controller_loop (robot_ids s1') s1' rd (tick_dt self dt_opt))
    as [s2 log].
  cbn [fst snd] in *. split; [exact H1 |].
  match goal with
  | |- context [_physics s2 ?prev ?d] =>
    destruct (physics_control s2 prev d) as [_ Hp]
  end.
  change (controllers (_finish_step ?x ?d)) with (controllers x).
  rewrite Hp. exact (raise_exceptions_same _ _ H2 Hx1).
Qed.

(** C3, amended. A raise of a controller's tick function that is an
    instance of [Exception] does not leave [step]: what leaves [step] is
    never an [Exception], and with controllers that raise [Exception]s
    only [step] returns, on this tick and on the later ones.  In a tick
    that returns, the traceback of every raise is
    recorded in [last_controller_errors] under the robot's id; a robot
    that starts the tick with an entry is not called and its entry stays;
    every other robot that has a controller and no entry is called; and the
    physics phases run on the state the issued commands leave.  After
    [clear_controller_error(robot_id)] the entry is gone, and the
    controller is called again in the next tick that returns.

    A raise that is not an [Exception] ([SystemExit], [KeyboardInterrupt])
    leaves [step] from the call that made it: nothing is recorded for that
    robot, and the clock, the step index and the tunables are as before
    the tick. *)
Theorem controller_error_containment
  (self : t) (dt_opt : option R) (rid : string) :
  let result := step_raising is_exception self dt_opt in
  (forall tb behind calls,
     result = Raises tb (behind, calls) ->
     is_exception tb = false /\
     (exists rid0 out0 earlier,
         calls = earlier ++ [(rid0, out0)] /\ raised out0 = Some tb /\
         In rid0 (robot_ids self) /\ has_error behind rid0 = false) /\
     settings behind = settings self) /\
  (raise_exceptions is_exception (controllers self) ->
   exists after calls,
     result = Returns (after, calls) /\
     raise_exceptions is_exception (controllers after)) /\
  (forall after calls,
     result = Returns (after, calls) ->
     (forall out tb,
        In (rid, out) calls -> raised out = Some tb -> tb <> EmptyString ->
        is_exception tb = true /\
        dict_get (last_controller_errors after) rid = Some tb) /\
     (has_error self rid = true ->
      (forall out, ~ In (rid, out) calls) /\
      dict_get (last_controller_errors after) rid
      = dict_get (last_controller_errors self) rid) /\
     (forall rid',
        In rid' (robot_ids self) -> has_error self rid' = false ->
        has_tick_fn self rid' = true ->
        exists out, In (rid', out) calls) /\
     physics_view after
     = physics_view
         (advance
            (_physics
               (fold_left command_motor
                          (flat_map (fun e : string * TickOutcome =>
                                       issued (snd e)) calls)
                          (set_last_physics_warning self None))
               (poses_of self) (tick_dt self dt_opt)))) /\
  (let cleared := clear_controller_error self (Some rid) in
   dict_get (last_controller_errors cleared) rid = None /\
   (In rid (robot_ids self) -> has_tick_fn self rid = true ->
    forall after calls,
      step_raising is_exception cleared dt_opt = Returns (after, calls) ->
      exists out, In (rid, out) calls)).
Proof.
  intros result. subst result.
  split; [| split; [| split]].
  - intros tb behind calls H.
    destruct (step_raising_raises self dt_opt tb behind calls H)
      as (He & Hlast & _ & Hs).
    split; [exact He | split; [exact Hlast | exact Hs]].
  - intros Hx. destruct (step_log_exceptions self dt_opt Hx) as [Hlog Hcs].
    exists (fst (step_log self dt_opt)), (snd (step_log self dt_opt)).
    rewrite step_raising_total by exact Hlog.
    rewrite <- surjective_pairing. split; [reflexivity | exact Hcs].
  - intros after calls H.
    destruct (step_raising_returns self dt_opt (after, calls) H) as [Hlog Hx].
    cbn [snd] in Hx.
    assert (Ha : after = fst (step_log self dt_opt))
      by (rewrite <- Hlog; reflexivity).
    assert (Hc : calls = snd (step_log self dt_opt))
      by (rewrite <- Hlog; reflexivity).
    destruct (step_log_control self dt_opt)
      as (s1 & rd & Hcv & Hcs & Hcalls & Herr).
    destruct (control_view_parts self s1 Hcv) as (_ & _ & _ & E4).
    rewrite <- Ha in Herr. rewrite <- Hc in Hcalls.
    split; [| split; [| split]].
    + intros out tb Hin Hr Hne. split; [exact (Hx rid out tb Hin Hr) |].
      rewrite Herr. rewrite Hcalls in Hin.
      eapply tick_loop_records; eassumption.
    + intros He. rewrite Hcalls, Herr, <- E4.
      apply tick_loop_skips. rewrite (has_error_view self s1 rid Hcv). exact He.
    + intros rid' Hin He Ht. rewrite Hcalls.
      apply tick_loop_calls; [exact Hin | |].
      * rewrite (has_error_view self s1 rid' Hcv). exact He.
      * rewrite (has_tick_fn_view self s1 rid' Hcv Hcs). exact Ht.
    + rewrite Ha, Hc. apply step_physics_view.
  - cbn zeta.
    assert (Hnone : dict_get (last_controller_errors
                                (clear_controller_error self (Some rid))) rid
                    = None).
    { unfold clear_controller_error. sim_simpl. apply dict_get_pop_same. }
    split; [exact Hnone |].
    intros Hin Ht after calls H.
    set (cleared := clear_controller_error self (Some rid)) in *.
    destruct (step_raising_returns cleared dt_opt (after, calls) H) as [Hlog _].
    assert (Hc : calls = snd (step_log cleared dt_opt))
      by (rewrite <- Hlog; reflexivity).
    destruct (step_log_control cleared dt_opt)
      as (c1 & rd' & Hcv' & Hcs' & Hcalls' & _).
    rewrite Hc, Hcalls'.
    apply tick_loop_calls.
    + exact Hin.
    + rewrite (has_error_view cleared c1 rid Hcv').
      unfold has_error. rewrite Hnone. reflexivity.
    + rewrite (has_tick_fn_view cleared c1 rid Hcv' Hcs'). exact Ht.
Qed.

End UncaughtRaises.

Section UncaughtRaisesExamples.

Import World Geometry Materials Entities Base Motors Simulator Runs Scenarios.

Lemma two_robot_calls :
  snd (step_log two_robot_scene None)
  = [("r1"%string, mkOutcome [] (Some zero_division) VNone);
     ("r2"%string, mkOutcome [] None VNone)].
Proof. reflexivity. Qed.

Lemma two_robots_raise_exceptions :
  raise_exceptions is_exception (controllers two_robot_scene).
Proof.
  intros n c tick a rd dt tb Hn Ht Hr.
  destruct n as [| [| n]]; cbn in Hn.
  - inversion Hn; subst c. cbn in Ht. inversion Ht; subst tick.
    cbn in Hr. inversion Hr. reflexivity.
  - inversion Hn; subst c. cbn in Ht. inversion Ht; subst tick.
    cbn in Hr. discriminate.
  - destruct n; discriminate.
Qed.

Lemma controller_error_containment_witness :
  exists after calls,
    step_raising is_exception two_robot_scene None = Returns (after, calls) /\
    dict_get (last_controller_errors after) "r1" = Some zero_division /\
    (exists out, In ("r2"%string, out) calls) /\
    has_error after "r1" = true /\
    exists after' calls',
      step_raising is_exception after None = Returns (after', calls') /\
      (forall out, ~ In ("r1"%string, out) calls') /\
      dict_get (last_controller_errors after') "r1" = Some zero_division.
Proof.
  destruct (controller_error_containment is_exception two_robot_scene None "r1")
    as (_ & Hret & Hin & _).
  cbv zeta in Hret, Hin.
  destruct (Hret two_robots_raise_exceptions) as (after & calls & Hstep & Hx).
  exists after, calls. split; [exact Hstep |].
  destruct (Hin after calls Hstep) as (Hrec & _ & Hcalls & _).
  assert (Hc : calls = snd (step_log two_robot_scene None)).
  { destruct (step_raising_returns is_exception two_robot_scene None
                (after, calls) Hstep) as [H _].
    rewrite <- H. reflexivity. }
  assert (He : dict_get (last_controller_errors after) "r1"
               = Some zero_division).
  { refine (proj2 (Hrec (mkOutcome [] (Some zero_division) VNone)
                        zero_division _ _ _)).
    - rewrite Hc, two_robot_calls. left. reflexivity.
    - reflexivity.
    - discriminate. }
  assert (Hhas : has_error after "r1" = true).
  { apply (has_error_of_entry after "r1" zero_division He). discriminate. }
  split; [exact He | split; [| split; [exact Hhas |]]].
  - apply (Hcalls "r2"%string); [right; left; reflexivity | reflexivity ..].
  - destruct (controller_error_containment is_exception after None "r1")
      as (_ & Hret' & Hin' & _).
    cbv zeta in Hret', Hin'.
    destruct (Hret' Hx) as (after' & calls' & Hstep' & _).
    exists after', calls'. split; [exact Hstep' |].
    destruct (Hin' after' calls' Hstep') as (_ & Hskip & _).
    destruct (Hskip Hhas) as [Hno Hkeep].
    split; [exact Hno | rewrite Hkeep; exact He].
Defined.

(** C3 as stated fails for a raise that is not an [Exception]: the
    [SystemExit] of the first robot's controller leaves [step].  It is
    recorded nowhere, the second robot's controller is not called, and the
    tick is not counted. *)
Lemma controller_exit_leaves_step :
  let result := step_raising is_exception exit_scene None in
  match result with
  | Raises traceback _ => traceback = system_exit
  | Returns _ => False
  end /\
  snd (payload result)
  = [("r1"%string, mkOutcome [] (Some system_exit) VNone)] /\
  dict_get (last_controller_errors (fst (payload result))) "r1" = None /\
  last_controller_error (fst (payload result)) = None /\
  step_index (fst (payload result)) = step_index exit_scene /\
  time (fst (payload result)) = time exit_scene.
Proof.
  cbv zeta.
  split; [reflexivity |].
  split; [reflexivity |].
  split; [reflexivity |].
  split; [reflexivity |].
  split; reflexivity.
Qed.

End UncaughtRaisesExamples.

(** ** Contacts conserve momentum *)

Section ContactMomentum.
Import World Geometry Materials Entities Base Motors Simulator.

(** A call of [_sanitize_velocity] that flags nothing changes nothing. *)
Lemma sanitize_velocity_quiet (self : t) (body : SimObject) :
  last_physics_warning (fst (_sanitize_velocity self body)) = None ->
  _sanitize_velocity self body = (self, body).
Proof.
  unfold _sanitize_velocity.
  destruct (linear_velocity (state body)) as [vx vy].
  cbn [isfinite andb negb].
  destruct (Rltb 0 (max_linear_speed self) && Rltb _ _);
    sim_simpl;
    destruct (Rltb 0 (max_angular_speed self) && Rltb _ _);
    cbn [fst snd]; sim_simpl; try discriminate.
  reflexivity.
Qed.

(** With both limits switched off [_sanitize_velocity] does nothing. *)
Lemma sanitize_velocity_off (self : t) (body : SimObject) :
  max_linear_speed self <= 0 -> max_angular_speed self <= 0 ->
  _sanitize_velocity self body = (self, body).
Proof.
  intros Hl Ha. unfold _sanitize_velocity.
  destruct (linear_velocity (state body)) as [vx vy].
  cbn [isfinite andb negb].
  rewrite (Rltb_false 0 (max_linear_speed self)) by exact Hl.
  cbn [andb]. sim_simpl.
  rewrite (Rltb_false 0 (max_angular_speed self)) by exact Ha.
  reflexivity.
Qed.

Lemma push_back_velocity (x : SimObject) (i : R) (p : Point2D) :
  can_move x = true ->
  linear_velocity (state (push_back x i p))
  = (fst (linear_velocity (state x)) - i * fst p,
     snd (linear_velocity (state x)) - i * snd p) /\
  can_move (push_back x i p) = true /\
  mass (state (push_back x i p)) = mass (state x) /\
  angular_velocity (state (push_back x i p)) = angular_velocity (state x).
Proof. intros H. unfold push_back. rewrite H. repeat split. exact H. Qed.

Lemma push_forward_velocity (x : SimObject) (i : R) (p : Point2D) :
  can_move x = true ->
  linear_velocity (state (push_forward x i p))
  = (fst (linear_velocity (state x)) + i * fst p,
     snd (linear_velocity (state x)) + i * snd p) /\
  can_move (push_forward x i p) = true /\
  mass (state (push_forward x i p)) = mass (state x) /\
  angular_velocity (state (push_forward x i p)) = angular_velocity (state x).
Proof. intros H. unfold push_forward. rewrite H. repeat split. exact H. Qed.

(** Resolving a contact between two movable bodies whose masses are at
    least [1e-6] conserves their linear momentum and leaves their spins
    alone, unless a speed clamp is flagged. *)
Theorem contact_conserves_momentum (self : t) (a b : SimObject)
  (m : CollisionManifold) :
  can_move a = true -> can_move b = true ->
  1e-6 <= mass (state a) -> 1e-6 <= mass (state b) ->
  let out := _resolve_contact self a b m in
  last_physics_warning (contact_self out) = None ->
  let momentum (x y : SimObject) :=
    (mass (state x) * fst (linear_velocity (state x))
     + mass (state y) * fst (linear_velocity (state y)),
     mass (state x) * snd (linear_velocity (state x))
     + mass (state y) * snd (linear_velocity (state y))) in
  momentum (body_a out) (body_b out) = momentum a b /\
  angular_velocity (state (body_a out)) = angular_velocity (state a) /\
  angular_velocity (state (body_b out)) = angular_velocity (state b).
Proof.
  intros Ha Hb Hma Hmb. cbv zeta.
  unfold _resolve_contact. cbn [isfinite negb orb].
  destruct (Reqb (inv_mass_of a + inv_mass_of b) 0).
  { cbn [contact_self body_a body_b]. intros _. repeat split. }
  rewrite !orb_false_r.
  assert (Hia : inv_mass_of a = 1 / mass (state a)).
  { unfold inv_mass_of. rewrite Ha. cbn [negb].
    rewrite Rmax_left by lra. reflexivity. }
  assert (Hib : inv_mass_of b = 1 / mass (state b)).
  { unfold inv_mass_of. rewrite Hb. cbn [negb].
    rewrite Rmax_left by lra. reflexivity. }
  set (ia := inv_mass_of a) in *. set (ib := inv_mass_of b) in *.
  set (a1 := if can_move a then _ else a).
  set (b1 := if can_move b then _ else b).
  assert (Ha1 : state a1 = state a /\ can_move a1 = true)
    by (subst a1; rewrite Ha; split; [reflexivity | exact Ha]).
  assert (Hb1 : state b1 = state b /\ can_move b1 = true)
    by (subst b1; rewrite Hb; split; [reflexivity | exact Hb]).
  clearbody a1 b1. destruct Ha1 as [Sa1 Ca1]. destruct Hb1 as [Sb1 Cb1].
  match goal with |- context [Rltb 0 ?v] => destruct (Rltb 0 v) end.
  { cbn [contact_self body_a body_b]. rewrite Sa1, Sb1. intros _.
    repeat split. }
  match goal with
  | |- context [push_back (push_back a1 ia ?p) ia ?q] =>
    set (P := p);
      destruct (push_back_velocity a1 ia P Ca1) as (Va2 & Ca2 & Ma2 & Wa2);
      destruct (push_forward_velocity b1 ib P Cb1) as (Vb2 & Cb2 & Mb2 & Wb2);
      set (a2 := push_back a1 ia P) in *;
      set (b2 := push_forward b1 ib P) in *
  end.
  clearbody a2 b2.
  match goal with
  | |- context [push_back a2 ia ?q] =>
    set (Q := q);
      destruct (push_back_velocity a2 ia Q Ca2) as (Va3 & Ca3 & Ma3 & Wa3);
      destruct (push_forward_velocity b2 ib Q Cb2) as (Vb3 & Cb3 & Mb3 & Wb3);
      set (a3 := push_back a2 ia Q) in *;
      set (b3 := push_forward b2 ib Q) in *
  end.
  clearbody a3 b3. rewrite Ca3, Cb3.
  destruct (_sanitize_velocity self a3) as [s1 a4] eqn:E1.
  destruct (_sanitize_velocity s1 b3) as [s2 b4] eqn:E2.
  cbn [contact_self body_a body_b]. intros Hq.
  assert (Q2 : _sanitize_velocity s1 b3 = (s1, b3)).
  { apply sanitize_velocity_quiet. rewrite E2. exact Hq. }
  rewrite Q2 in E2. injection E2 as <- <-.
  assert (Q1 : _sanitize_velocity self a3 = (self, a3)).
  { apply sanitize_velocity_quiet. rewrite E1. exact Hq. }
  rewrite Q1 in E1. injection E1 as _ <-.
  rewrite Ma3, Mb3, Ma2, Mb2, Wa3, Wb3, Wa2, Wb2, Va3, Vb3, Va2, Vb2.
  rewrite !Sa1, !Sb1. cbn [fst snd].
  split; [| split; reflexivity].
  clearbody P Q. rewrite Hia, Hib.
  destruct (linear_velocity (state a)) as [vax vay].
  destruct (linear_velocity (state b)) as [vbx vby].
  destruct P as [px py]. destruct Q as [qx qy]. cbn [fst snd].
  f_equal; field; lra.
Qed.

Lemma resolve_contact_unflagged (self : t) (a b : SimObject)
  (m : CollisionManifold) :
  max_linear_speed self <= 0 -> max_angular_speed self <= 0 ->
  last_physics_warning (contact_self (_resolve_contact self a b m))
  = last_physics_warning self.
Proof.
  intros Hl Hw. unfold _resolve_contact. cbn [isfinite negb orb].
  destruct (Reqb (inv_mass_of a + inv_mass_of b) 0); [reflexivity |].
  rewrite !orb_false_r.
  match goal with |- context [Rltb 0 ?v] => destruct (Rltb 0 v) end;
    [reflexivity |].
  match goal with
  | |- context [if can_move ?x then _sanitize_velocity self ?x else _] =>
    set (a3 := x)
  end.
  assert (E1 : (if can_move a3 then _sanitize_velocity self a3 else (self, a3))
               = (self, a3)).
  { destruct (can_move a3); [apply sanitize_velocity_off; assumption |].
    reflexivity. }
  rewrite E1.
  match goal with
  | |- context [if can_move ?x then _sanitize_velocity self ?x else _] =>
    set (b3 := x)
  end.
  assert (E2 : (if can_move b3 then _sanitize_velocity self b3 else (self, b3))
               = (self, b3)).
  { destruct (can_move b3); [apply sanitize_velocity_off; assumption |].
    reflexivity. }
  rewrite E2. reflexivity.
Qed.

Lemma contact_conserves_momentum_witness :
  let self :=
    Simulator.mk (1 / 120) (0, 0) 0 0 [] [] [] [] None [] [] Scenarios.quiet_rng
      None [] [] [] [] [] None [] [] [] 0.995 0.995 0 0 0.25 0.002 0.05 0.5 in
  let a := Scenarios.retreating_robot in
  let b := Scenarios.approaching_robot in
  let out := _resolve_contact self a b Scenarios.post_contact in
  mass (state (body_a out)) * fst (linear_velocity (state (body_a out)))
  + mass (state (body_b out)) * fst (linear_velocity (state (body_b out)))
  = mass (state a) * fst (linear_velocity (state a))
    + mass (state b) * fst (linear_velocity (state b)).
Proof.
  cbv zeta.
  refine (f_equal fst
            (proj1 (contact_conserves_momentum _ Scenarios.retreating_robot
                      Scenarios.approaching_robot Scenarios.post_contact
                      eq_refl eq_refl _ _ _))).
  - cbn. lra.
  - cbn. lra.
  - rewrite resolve_contact_unflagged; [reflexivity | cbn; lra | cbn; lra].
Defined.

End ContactMomentum.
